(** * Locale translation pipeline (translate_locales.py): model and properties

    A shallow embedding of the translation task pipeline: the locale
    analyzer, the translation validator, the translation engine with its
    cache and retry loop, the safe file updater and the batcher, and of
    the orchestrator and the command line that drive them.

    Python values are modelled as follows.
    - [str]: a list of Unicode code points ([list N]); [len] is [length].
    - [dict]: an insertion-ordered association list ([PyDict]); the cache of
      the engine and the file system are finite maps ([gmap]).
    - [Path]: the list of the parts of a path, joined as [pathlib] joins
      them; a file holds a JSON object or, after a write that stopped in
      the middle, text that is not JSON.
    - [float]: IEEE binary64 with round-to-nearest-even ([Binary64]).
    - exceptions: an [outcome] in a state-and-error monad; the orchestrator
      runs in a [process] that holds the files, the engine, the statistics
      and the journal, and ends in a [completion]. *)

From Stdlib Require Import ZArith QArith Qpower Qround Qfield Lqa Lia List.
From Stdlib Require Import Strings.String Strings.Ascii DecimalString.
From Stdlib Require Import Floats.
From stdpp Require Import base decidable option list gmap relations sorting.

Local Open Scope nat_scope.

(** ** Strings *)

(** A Python [str] is a sequence of code points. *)
Abbreviation str := (list N) (only parsing).

(** The code points of a literal. *)
Definition pystr (s : string) : str :=
  map N_of_ascii (list_ascii_of_string s).

Definition lbrace : N := 123.
Definition rbrace : N := 125.
Definition slash : N := 47.

(** [s.split(sep)] for a separator of one character: the pieces between
    the separators, empty pieces included; the empty string gives one
    empty piece. *)
Fixpoint str_split (sep : N) (s : str) : list str :=
  match s with
  | [] => [[]]
  | c :: tl =>
      if N.eqb c sep then [] :: str_split sep tl
      else
        match str_split sep tl with
        | piece :: pieces => (c :: piece) :: pieces
        | [] => [[c]]
        end
  end.

(** ** Regular expressions used by the validator *)

Module Regex.

(** The greedy run [[^}]+]: the longest prefix free of a closing brace.
    Shorter runs need not be tried: the character after a shorter run is
    not a closing brace, so the rest of the pattern cannot match there. *)
Fixpoint span_not_rbrace (s : str) : str * str :=
  match s with
  | [] => ([], [])
  | c :: tl =>
      if N.eqb c rbrace then ([], s)
      else let '(body, rest) := span_not_rbrace tl in (c :: body, rest)
  end.

(** A match of [\{\{[^}]+\}\}] anchored at the head of [s]: the matched
    text and what follows it. *)
Definition match_placeholder (s : str) : option (str * str) :=
  match s with
  | c1 :: c2 :: rest =>
      if N.eqb c1 lbrace && N.eqb c2 lbrace then
        match span_not_rbrace rest with
        | (b :: body, d1 :: d2 :: rest') =>
            if N.eqb d1 rbrace && N.eqb d2 rbrace
            then Some (lbrace :: lbrace :: (b :: body) ++ [rbrace; rbrace], rest')
            else None
        | _ => None
        end
      else None
  | _ => None
  end.

(** [re.findall(r'\{\{[^}]+\}\}', s)]: leftmost non-overlapping matches.
    [skip] counts the characters of the current match still to be passed. *)
Fixpoint findall_from (skip : nat) (s : str) : list str :=
  match s with
  | [] => []
  | _ :: tl =>
      match skip with
      | S k => findall_from k tl
      | O =>
          match match_placeholder s with
          | Some (m, _) => m :: findall_from (length m - 1) tl
          | None => findall_from 0 tl
          end
      end
  end.

Definition findall_placeholders (s : str) : list str := findall_from 0 s.

(** [re.sub(r'\{\{[^}]+\}\}', '', s)]: the text with every match removed. *)
Fixpoint sub_from (skip : nat) (s : str) : str :=
  match s with
  | [] => []
  | c :: tl =>
      match skip with
      | S k => sub_from k tl
      | O =>
          match match_placeholder s with
          | Some (m, _) => sub_from (length m - 1) tl
          | None => c :: sub_from 0 tl
          end
      end
  end.

Definition remove_placeholders (s : str) : str := sub_from 0 s.

(** [[a-zA-Z]] *)
Definition is_latin_letter (c : N) : bool :=
  ((97 <=? c) && (c <=? 122) || (65 <=? c) && (c <=? 90))%N.

(** [\s] on a [str] pattern: the Unicode whitespace characters. *)
Definition is_space (c : N) : bool :=
  ((9 <=? c) && (c <=? 13) || (28 <=? c) && (c <=? 32)
   || (c =? 133) || (c =? 160) || (c =? 5760)
   || (8192 <=? c) && (c <=? 8202)
   || (c =? 8232) || (c =? 8233) || (c =? 8239) || (c =? 8287)
   || (c =? 12288))%N.

End Regex.

(** [s.replace(term, '')]: every non-overlapping occurrence of [term],
    found left to right, is removed. An empty [term] leaves [s] as it is. *)
Fixpoint starts_with (term s : str) : bool :=
  match term, s with
  | [], _ => true
  | _ :: _, [] => false
  | a :: term', b :: s' => N.eqb a b && starts_with term' s'
  end.

Fixpoint remove_term_from (skip : nat) (term s : str) : str :=
  match s with
  | [] => []
  | c :: tl =>
      match skip with
      | S k => remove_term_from k term tl
      | O =>
          if starts_with term s && negb (Nat.eqb (length term) 0)
          then remove_term_from (length term - 1) term tl
          else c :: remove_term_from 0 term tl
      end
  end.

Definition str_remove (term s : str) : str := remove_term_from 0 term s.

(** Decimal rendering of a non-negative integer, as [str(n)] gives it. *)
Definition str_of_N (n : N) : str :=
  pystr (NilZero.string_of_uint (N.to_uint n)).

(** ** Floating point *)

Module Binary64.

(** A finite binary64 value is kept as the rational number it denotes.
    Values are rounded to 53 significant bits, to nearest, ties to even.
    The exponent range is not modelled: every float computed by the
    pipeline is a quotient of two string lengths or a literal, far from
    overflow and from the subnormal numbers. *)

Definition pow2 (e : Z) : Q := Qpower 2 e.

(** Nearest integer, ties to the even one. *)
Definition round_half_even (q : Q) : Z :=
  let f := Qfloor q in
  match Qcompare (q - inject_Z f) (1 # 2) with
  | Lt => f
  | Gt => (f + 1)%Z
  | Eq => if Z.even f then f else (f + 1)%Z
  end.

(** The exponent [e] with [2^e <= q < 2^(e+1)], for a positive [q]. *)
Definition binade (q : Q) : Z :=
  let e0 := (Z.log2 (Qnum q) - Z.log2 (Zpos (Qden q)))%Z in
  if Qle_bool (pow2 e0) q then e0 else (e0 - 1)%Z.

Definition round_pos (q : Q) : Q :=
  let e := binade q in
  inject_Z (round_half_even (q * pow2 (52 - e))) * pow2 (e - 52).

(** The binary64 value nearest to the real number [q]. *)
Definition round64 (q : Q) : Q :=
  match Qcompare q 0 with
  | Gt => round_pos q
  | Lt => - round_pos (- q)
  | Eq => 0
  end.

(** [a / b] on two [int]s: the correctly rounded quotient. [b] is not
    zero at the two places the pipeline divides. *)
Definition truediv (a b : nat) : Q :=
  round64 (Z.of_nat a # Pos.of_nat b).

(** [x / y] on two floats. *)
Definition fdiv (x y : Q) : Q := round64 (x / y).

Definition ltb (x y : Q) : bool :=
  match Qcompare x y with Lt => true | _ => false end.

Definition gtb (x y : Q) : bool := ltb y x.

(** The same quotient as the processor computes it, through the primitive
    binary64 floats of Rocq, for small operands; kept to compare [truediv]
    with. *)
Definition primitive_truediv (a b : nat) : option Q :=
  let float_of (n : nat) := PrimFloat.of_uint63 (Uint63.of_Z (Z.of_nat n)) in
  match Prim2SF (PrimFloat.div (float_of a) (float_of b)) with
  | S754_zero _ => Some 0%Q
  | S754_finite sign m e =>
      Some ((if sign then - inject_Z 1 else inject_Z 1)
            * inject_Z (Z.pos m) * pow2 e)%Q
  | _ => None
  end.

(** [f"{x:.2f}"] for a non-negative [x]: the decimal with two digits
    after the point nearest to the exact value of [x], ties to even. *)
Definition format_2f (x : Q) : str :=
  let n := Z.to_N (round_half_even (x * 100)) in
  let frac := (n mod 100)%N in
  str_of_N (n / 100) ++ pystr "."
    ++ (if (frac <? 10)%N then pystr "0" else []) ++ str_of_N frac.

End Binary64.

(** ** Insertion-ordered dictionaries *)

Module PyDict.
Section dict.
Context {K V : Type} `{EqDecision K}.

(** The items in insertion order; a dictionary built by [set] from the
    empty one has no repeated key. *)
Definition dict : Type := list (K * V).

Definition empty : dict := [].

Fixpoint get (d : dict) (k : K) : option V :=
  match d with
  | [] => None
  | (k', v) :: rest => if decide (k = k') then Some v else get rest k
  end.

(** [k in d] *)
Definition contains (d : dict) (k : K) : bool :=
  match get d k with Some _ => true | None => false end.

(** [d[k] = v]: an existing key keeps its position, a new key goes last. *)
Fixpoint set (d : dict) (k : K) (v : V) : dict :=
  match d with
  | [] => [(k, v)]
  | (k', v') :: rest =>
      if decide (k = k') then (k, v) :: rest else (k', v') :: set rest k v
  end.

Definition items (d : dict) : list (K * V) := d.
Definition keys (d : dict) : list K := fst <$> d.
End dict.
Arguments dict : clear implicits.
End PyDict.

(** ** Tasks and validation results *)

Record TranslationTask := mkTask {
  locale : str;
  file_name : str;
  key : str;
  english_value : str;
  is_missing : bool
}.

Record ValidationResult := mkValidation {
  is_valid : bool;
  errors : list str;
  warnings : list str
}.

#[global] Instance TranslationTask_eq_dec : EqDecision TranslationTask.
Proof. solve_decision. Defined.

#[global] Instance ValidationResult_eq_dec : EqDecision ValidationResult.
Proof. solve_decision. Defined.

(** ** Translation validator *)

Definition missing_placeholder_msg (placeholder : str) : str :=
  pystr "Missing placeholder " ++ placeholder ++ pystr " in translation".

Definition extra_placeholder_msg (placeholder : str) : str :=
  pystr "Extra placeholder " ++ placeholder ++ pystr " in translation".

Definition validate_placeholders (original translated : str) : ValidationResult :=
  let result := mkValidation true [] [] in
  let original_placeholders := Regex.findall_placeholders original in
  let translated_placeholders := Regex.findall_placeholders translated in
  let result :=
    fold_left
      (fun result placeholder =>
         if bool_decide (placeholder ∉ translated_placeholders)
         then mkValidation false
                (errors result ++ [missing_placeholder_msg placeholder])
                (warnings result)
         else result)
      original_placeholders result in
  let result :=
    fold_left
      (fun result placeholder =>
         if bool_decide (placeholder ∉ original_placeholders)
         then mkValidation (is_valid result) (errors result)
                (warnings result ++ [extra_placeholder_msg placeholder])
         else result)
      translated_placeholders result in
  result.

Definition length_warning_msg (ratio : Q) (original translated : str) : str :=
  pystr "Translation length ratio " ++ Binary64.format_2f ratio
    ++ pystr " may be unusual (original: "
    ++ str_of_N (N.of_nat (length original))
    ++ pystr " chars, translated: "
    ++ str_of_N (N.of_nat (length translated)) ++ pystr " chars)".

Definition default_tolerance : Q := 3.

Definition validate_length (original translated : str) (tolerance : Q)
  : ValidationResult :=
  let result := mkValidation true [] [] in
  if Nat.eqb (length original) 0 then result
  else
    let ratio := Binary64.truediv (length translated) (length original) in
    let tolerance := if length original <=? 5 then 5%Q else tolerance in
    if Binary64.ltb ratio (Binary64.fdiv 1 tolerance)
       || Binary64.gtb ratio tolerance
    then mkValidation (is_valid result) (errors result)
           (warnings result ++ [length_warning_msg ratio original translated])
    else result.

(** The literal [{'API', 'URL', ...}] is a set: the order in which the loop
    over it meets the terms is not fixed by the language. The validator
    takes that order as [term_order]; [technical_terms] lists the terms as
    the source writes them. *)
Definition technical_terms : list str :=
  map pystr ["API"; "URL"; "JSON"; "HTML"; "HTTP"; "HTTPS"; "ID"; "UI";
             "OpenAI"; "ChatGPT"]%string.

Definition non_latin_scripts : list str :=
  map pystr ["zh"; "ja"; "ko"; "ar"; "he"; "hi"; "th"; "my"; "si"; "bn";
             "te"; "ur"; "am"; "fa"]%string.

Definition english_remnants_msg (latin_chars total_chars : nat) : str :=
  pystr "Translation may contain untranslated English text ("
    ++ str_of_N (N.of_nat latin_chars) ++ pystr "/"
    ++ str_of_N (N.of_nat total_chars) ++ pystr " Latin characters)".

Definition validate_no_english_remnants (term_order : list str)
    (original translated locale : str) : ValidationResult :=
  let result := mkValidation true [] [] in
  if bool_decide (locale ∈ non_latin_scripts) then
    let check_text := translated in
    let check_text :=
      fold_left (fun check_text term => str_remove term check_text)
        term_order check_text in
    let check_text := Regex.remove_placeholders check_text in
    let latin_chars := length (List.filter Regex.is_latin_letter check_text) in
    let total_chars := length (List.filter (fun c => negb (Regex.is_space c)) check_text) in
    if (0 <? total_chars)
       && Binary64.gtb (Binary64.truediv latin_chars total_chars)
            (Binary64.round64 (3 # 10))
    then mkValidation (is_valid result) (errors result)
           (warnings result ++ [english_remnants_msg latin_chars total_chars])
    else result
  else result.

Definition validate_translation (term_order : list str)
    (task : TranslationTask) (translated : str) : ValidationResult :=
  let results :=
    [ validate_placeholders (english_value task) translated;
      validate_length (english_value task) translated default_tolerance;
      validate_no_english_remnants term_order (english_value task) translated
        (locale task) ] in
  fold_left
    (fun combined result =>
       mkValidation
         (if negb (is_valid result) then false else is_valid combined)
         (errors combined ++ errors result)
         (warnings combined ++ warnings result))
    results (mkValidation true [] []).

(** ** Exceptions and state *)

Inductive exception :=
  | ProviderFailure
  | IsADirectoryError
  | NotADirectoryError
  | FileExistsError
  | FileNotFoundError
  | SameFileError
  | JSONDecodeError
  | UnicodeEncodeError
  | ValueError.

Inductive outcome (A : Type) :=
  | Returned (a : A)
  | Raised (e : exception).
Arguments Returned {A} a.
Arguments Raised {A} e.

#[global] Instance exception_eq_dec : EqDecision exception.
Proof. solve_decision. Defined.

(** A computation over a mutable world [S] that returns or raises. *)
Definition M (S A : Type) : Type := S -> outcome A * S.

#[global] Instance M_ret {S} : MRet (M S) := fun A a s => (Returned a, s).
#[global] Instance M_bind {S} : MBind (M S) := fun A B f m s =>
  match m s with
  | (Returned a, s') => f a s'
  | (Raised e, s') => (Raised e, s')
  end.

Definition raise {S A} (e : exception) : M S A := fun s => (Raised e, s).
Definition gets {S A} (f : S -> A) : M S A := fun s => (Returned (f s), s).
Definition modify {S} (f : S -> S) : M S unit := fun s => (Returned tt, f s).

(** [for x in xs: acc = body(acc, x)] *)
Fixpoint for_each {S A B} (xs : list A) (acc : B) (body : B -> A -> M S B)
  : M S B :=
  match xs with
  | [] => mret acc
  | x :: xs' => acc' ← body acc x; for_each xs' acc' body
  end.

(** ** Translation engine *)

(** What goes to the provider: the name of the target language, the context
    derived from the file name and the key/text pairs, in task order. *)
Record request := mkRequest {
  req_language : str;
  req_context : str;
  req_items : list (str * str)
}.

(** What one call brings back: a failure of the call, a response without a
    parsed body, or the parsed [{key, translation}] items in order. *)
Inductive response :=
  | CallFails
  | Unparsed
  | Parsed (translations : list (str * str)).

Inductive event :=
  | Call (r : request)
  | Sleep (seconds : Z)
  | LogValidationFailed (key : str) (errors : list str)
  | LogAttemptFailed (attempt : Z).

#[global] Instance request_eq_dec : EqDecision request.
Proof. solve_decision. Defined.

#[global] Instance event_eq_dec : EqDecision event.
Proof. solve_decision. Defined.

Definition is_call (ev : event) : bool :=
  match ev with Call _ => true | _ => false end.

Record engine := mkEngine {
  translation_cache : gmap (str * str * str) str;
  trace : list event
}.

Definition LANGUAGE_NAMES : PyDict.dict str str :=
  map (fun p => (pystr (fst p), pystr (snd p)))
    [("es", "Spanish"); ("fr", "French"); ("de", "German");
     ("zh", "Chinese (Simplified)"); ("ru", "Russian"); ("pt", "Portuguese");
     ("ja", "Japanese"); ("ar", "Arabic"); ("hi", "Hindi"); ("it", "Italian");
     ("ko", "Korean"); ("nl", "Dutch"); ("pl", "Polish"); ("tr", "Turkish");
     ("vi", "Vietnamese"); ("th", "Thai"); ("uk", "Ukrainian"); ("cs", "Czech");
     ("sv", "Swedish"); ("ro", "Romanian"); ("he", "Hebrew");
     ("id", "Indonesian"); ("fa", "Persian/Farsi"); ("bn", "Bengali");
     ("ca", "Catalan"); ("fi", "Finnish"); ("am", "Amharic"); ("my", "Burmese");
     ("si", "Sinhala"); ("sw", "Swahili"); ("te", "Telugu"); ("ur", "Urdu")]%string.

Definition context_map : PyDict.dict str str :=
  map (fun p => (pystr (fst p), pystr (snd p)))
    [("chat.json", "Chat interface labels and messages");
     ("common.json", "Common UI elements and general terms");
     ("settings.json", "Settings and configuration interface");
     ("sidebar.json", "Sidebar navigation elements");
     ("promptbar.json", "Prompt bar and search interface");
     ("transcribeModal.json", "Transcription modal dialog");
     ("storage.json", "Storage management interface");
     ("terms.json", "Terms of service and legal text");
     ("markdown.json", "Markdown editor interface");
     ("agents.json", "AI agent configuration interface")]%string.

Definition translation_result : Type :=
  TranslationTask * str * ValidationResult.

Definition cache_key (task : TranslationTask) : str * str * str :=
  (locale task, key task, english_value task).

(** [range(n)] *)
Definition range (n : Z) : list Z := map Z.of_nat (seq 0 (Z.to_nat n)).

Section translation_engine.
(** The order in which the validator meets the technical terms. *)
Variable term_order : list str.
(** The provider: the answer to a request, given how many calls came
    before it. *)
Variable provider : nat -> request -> response.

Definition calls_made (t : list event) : nat :=
  length (List.filter is_call t).

Definition emit (ev : event) : M engine unit :=
  modify (fun e => mkEngine (translation_cache e) (trace e ++ [ev])).

Definition call_provider (r : request) : M engine response :=
  n ← gets (fun e => calls_made (trace e));
  _ ← emit (Call r);
  mret (provider n r).

Definition cache_store (k : str * str * str) (translated : str)
  : M engine unit :=
  modify (fun e => mkEngine (<[k := translated]> (translation_cache e)) (trace e)).

(** The first loop of [translate_batch]: cache hits are validated and go
    to the results at once, the other tasks are set aside. *)
Definition check_cache (cache : gmap (str * str * str) str)
    (tasks : list TranslationTask)
  : list translation_result * list TranslationTask :=
  fold_left
    (fun '(results, uncached_tasks) task =>
       match cache !! cache_key task with
       | Some translated =>
           (results ++ [(task, translated,
                         validate_translation term_order task translated)],
            uncached_tasks)
       | None => (results, uncached_tasks ++ [task])
       end)
    tasks ([], []).

Definition build_request (locale file_name : str)
    (uncached_tasks : list TranslationTask) : request :=
  mkRequest
    (default locale (PyDict.get LANGUAGE_NAMES locale))
    (default (pystr "User interface elements") (PyDict.get context_map file_name))
    (map (fun task => (key task, english_value task)) uncached_tasks).

(** The body of the loop over [zip(uncached_tasks, translations)] of one
    parsed response. Its [continue] goes to the next pair of that loop. *)
Definition process_item (attempt max_retries : Z)
    (results : list translation_result)
    (pair : TranslationTask * (str * str))
  : M engine (list translation_result) :=
  let '(task, trans_item) := pair in
  let translated := snd trans_item in
  let validation := validate_translation term_order task translated in
  if negb (is_valid validation) && (attempt <? max_retries - 1)%Z then
    _ ← emit (LogValidationFailed (key task) (errors validation));
    _ ← emit (Sleep 1);
    mret results
  else
    _ ← cache_store (cache_key task) translated;
    mret (results ++ [(task, translated, validation)]).

Definition process_translations (attempt max_retries : Z)
    (pairs : list (TranslationTask * (str * str)))
    (results : list translation_result)
  : M engine (list translation_result) :=
  for_each pairs results (process_item attempt max_retries).

(** The loop [for attempt in range(max_retries)]. *)
Fixpoint attempt_loop (attempts : list Z) (max_retries : Z) (r : request)
    (uncached_tasks : list TranslationTask)
    (results : list translation_result)
  : M engine (list translation_result) :=
  match attempts with
  | [] => mret results
  | attempt :: later =>
      resp ← call_provider r;
      match resp with
      | Parsed translations =>
          process_translations attempt max_retries
            (zip uncached_tasks translations) results
      | Unparsed => attempt_loop later max_retries r uncached_tasks results
      | CallFails =>
          _ ← emit (LogAttemptFailed (attempt + 1));
          if (attempt <? max_retries - 1)%Z then
            _ ← emit (Sleep (2 ^ attempt));
            attempt_loop later max_retries r uncached_tasks results
          else raise ProviderFailure
      end
  end.

Definition translate_batch (tasks : list TranslationTask) (max_retries : Z)
  : M engine (list translation_result) :=
  match tasks with
  | [] => mret []
  | first :: _ =>
      cache ← gets translation_cache;
      let '(results, uncached_tasks) := check_cache cache tasks in
      match uncached_tasks with
      | [] => mret results
      | _ :: _ =>
          attempt_loop (range max_retries) max_retries
            (build_request (locale first) (file_name first) uncached_tasks)
            uncached_tasks results
      end
  end.

(** *** Vocabulary for the properties of the engine *)

(** What a cached task contributes to the results. *)
Definition hit_of (cache : gmap (str * str * str) str)
    (task : TranslationTask) : option translation_result :=
  (fun translated =>
     (task, translated, validate_translation term_order task translated))
  <$> cache !! cache_key task.

(** An item of a parsed response is kept when it is valid, or when the
    attempt is the last one. *)
Definition kept (attempt max_retries : Z)
    (pair : TranslationTask * (str * str)) : bool :=
  is_valid (validate_translation term_order pair.1 pair.2.2)
  || negb (attempt <? max_retries - 1)%Z.

Definition result_of (pair : TranslationTask * (str * str))
  : translation_result :=
  (pair.1, pair.2.2, validate_translation term_order pair.1 pair.2.2).


End translation_engine.

(** *** Scenarios *)

Definition greet_task : TranslationTask :=
  mkTask (pystr "fr") (pystr "common.json") (pystr "greet")
    (pystr "Hello {{name}}") true.

Definition greet_request : request :=
  mkRequest (pystr "French") (pystr "Common UI elements and general terms")
    [(pystr "greet", pystr "Hello {{name}}")].

Definition fresh_engine : engine := mkEngine ∅ [].

(** A provider whose translation of the greeting always loses the
    placeholder. *)
Definition careless_provider (n : nat) (r : request) : response :=
  Parsed [(pystr "greet", pystr "Bonjour")].


(** ** File system *)

(** A path is the tuple of its parts, as [PurePosixPath.parts] gives them;
    the empty path is the working directory itself. The tree that a world
    holds is the one under the working directory, each entry under the
    parts of its relative path: a path that starts at the root, or that has
    a [..] part, leads out of that tree, and a world holds no entry for
    it. *)
Abbreviation path := (list (list N)) (only parsing).

(** The parts of a name: the pieces between slashes, the empty ones and
    the single dots left out. *)
Definition parts (name : str) : list str :=
  List.filter
    (fun piece =>
       negb (bool_decide (piece = []) || bool_decide (piece = pystr ".")))
    (str_split slash name).

(** The root of a name: none when the name is relative, [//] after two
    slashes exactly, [/] after any other number of them. *)
Definition root (name : str) : option str :=
  match name with
  | c1 :: rest =>
      if N.eqb c1 slash then
        match rest with
        | c2 :: rest' =>
            if N.eqb c2 slash then
              match rest' with
              | c3 :: _ => if N.eqb c3 slash then Some (pystr "/")
                           else Some (pystr "//")
              | [] => Some (pystr "//")
              end
            else Some (pystr "/")
        | [] => Some (pystr "/")
        end
      else None
  | [] => None
  end.

(** [dir / name]: a name with a root replaces [dir]. *)
Definition joinpath (dir : path) (name : str) : path :=
  match root name with
  | Some r => r :: parts name
  | None => dir ++ parts name
  end.

(** A name that stays in the tree below the directory it is joined to:
    it is relative and has no [..] part. *)
Definition inside (name : str) : Prop :=
  root name = None ∧ pystr ".." ∉ parts name.

(** A name that is one part of a path, as the entries of a directory are
    named: not empty, without a slash, and neither [.] nor [..]. *)
Definition component (name : str) : Prop :=
  inside name ∧ parts name = [name].

(** A file is a JSON file, which holds a flat object from keys to strings,
    kept as the dictionary that [json.load] returns for it, or a file whose
    text is not JSON, such as the one that an interrupted write leaves. *)
Inductive node :=
  | File (content : PyDict.dict (list N) (list N))
  | NotJson
  | Dir.

#[global] Instance node_eq_dec : EqDecision node.
Proof. solve_decision. Defined.

Inductive log_record :=
  | WarnLocaleDirNotFound (locale_dir : list (list N))
  | DebugBackedUp (file_path : list (list N))
      (backup_path : option (list (list N)))
  | DebugUpdated (key value_prefix : list N)
  | InfoUpdated (file_path : list (list N)) (updates_made : nat)
  | InfoDryRun (file_path : list (list N)) (updates_made : nat).

(** The persisted state and the log written so far. *)
Record world := mkWorld {
  fs : gmap (list (list N)) node;
  log : list log_record
}.

Definition LOCALES_DIR : path := [pystr "public"; pystr "locales"].

Definition lookup_node (w : world) (p : path) : option node :=
  match p with
  | [] => Some Dir
  | _ :: _ => fs w !! p
  end.

(** [p.exists()] *)
Definition path_exists (p : path) : M world bool :=
  gets (fun w => match lookup_node w p with Some _ => true | None => false end).

Definition is_dir (p : path) : M world bool :=
  gets (fun w => match lookup_node w p with Some Dir => true | _ => false end).

Definition log_emit (r : log_record) : M world unit :=
  modify (fun w => mkWorld (fs w) (log w ++ [r])).

Definition parent (p : path) : path := removelast p.

(** [with open(p) as f: json.load(f)] *)
Definition read_json (p : path) : M world (PyDict.dict str str) :=
  n ← gets (fun w => lookup_node w p);
  match n with
  | Some (File content) => mret content
  | Some NotJson => raise JSONDecodeError
  | Some Dir => raise IsADirectoryError
  | None => raise FileNotFoundError
  end.

(** [open(p, 'w')]: after the checks of the system the file is there and
    empty, which is not JSON. *)
Definition open_w (p : path) : M world unit :=
  n ← gets (fun w => lookup_node w p);
  d ← gets (fun w => lookup_node w (parent p));
  match n with
  | Some Dir => raise IsADirectoryError
  | _ =>
      match d with
      | Some Dir => modify (fun w => mkWorld (<[p := NotJson]> (fs w)) (log w))
      | Some _ => raise NotADirectoryError
      | None => raise FileNotFoundError
      end
  end.

(** The code points that UTF-8 does not encode: the surrogates. *)
Definition is_surrogate (c : N) : bool := ((55296 <=? c) && (c <=? 57343))%N.

(** Whether [json.dump(content, f, ensure_ascii=False)] can write every key
    and value to a UTF-8 file. *)
Definition encodable (content : PyDict.dict str str) : bool :=
  forallb
    (fun item : str * str =>
       forallb (fun c => negb (is_surrogate c)) item.1
       && forallb (fun c => negb (is_surrogate c)) item.2)
    content.

(** [with open(p, 'w', encoding='utf-8') as f: json.dump(content, f,
    ensure_ascii=False, indent=2)]: the file is emptied first; a key or a
    value that cannot be encoded stops the writing with what came before it
    in the file, which is not JSON. *)
Definition write_json (p : path) (content : PyDict.dict str str) : M world unit :=
  _ ← open_w p;
  if encodable content
  then modify (fun w => mkWorld (<[p := File content]> (fs w)) (log w))
  else raise UnicodeEncodeError.

(** All the non-empty prefixes of [p], shortest first. *)
Definition ancestors_and_self (p : path) : list path :=
  map (fun n => take n p) (seq 1 (length p)).

(** [p.mkdir(parents=True, exist_ok=True)]: [os.mkdir] meets a file on the
    way to [p] ([ENOTDIR]) or at [p] itself ([EEXIST]). *)
Definition mkdir_parents (p : path) : M world unit :=
  for_each (ancestors_and_self p) tt (fun _ q =>
    n ← gets (fun w => lookup_node w q);
    match n with
    | Some Dir => mret tt
    | Some _ =>
        raise (if bool_decide (q = p) then FileExistsError
               else NotADirectoryError)
    | None => modify (fun w => mkWorld (<[q := Dir]> (fs w)) (log w))
    end).

(** [shutil.copy2(src, dst)]: the file is copied as it is, JSON or not. *)
Definition copy2 (src dst : path) : M world unit :=
  d ← is_dir dst;
  let dst := if negb d then dst else dst ++ [List.last src []] in
  if bool_decide (src = dst) then raise SameFileError
  else
    n ← gets (fun w => lookup_node w src);
    match n with
    | None => raise FileNotFoundError
    | Some Dir => raise IsADirectoryError
    | Some file =>
        _ ← open_w dst;
        modify (fun w => mkWorld (<[dst := file]> (fs w)) (log w))
    end.

(** The place that a copy to [dst] writes: [dst], or the entry of the
    name of the source in it when [dst] is a directory. *)
Definition copy_target (w : world) (src dst : path) : path :=
  match lookup_node w dst with
  | Some Dir => dst ++ [List.last src []]
  | _ => dst
  end.

(** [src.replace(dst)] for a file [src] *)
Definition replace_file (src dst : path) : M world unit :=
  n ← gets (fun w => lookup_node w src);
  match n with
  | None => raise FileNotFoundError
  | Some Dir => raise IsADirectoryError
  | Some file =>
      d ← is_dir dst;
      if negb d then
        modify (fun w => mkWorld (<[dst := file]> (delete src (fs w))) (log w))
      else raise IsADirectoryError
  end.

(** [name.rfind('.')] *)
Fixpoint rfind_dot (name : str) : option nat :=
  match name with
  | [] => None
  | c :: tl =>
      match rfind_dot tl with
      | Some i => Some (S i)
      | None => if N.eqb c 46 then Some 0 else None
      end
  end.

(** [PurePath.suffix] of a file name *)
Definition suffix (name : str) : str :=
  match rfind_dot name with
  | Some i => if (0 <? i) && (i <? length name - 1) then drop i name else []
  | None => []
  end.

(** [p.with_suffix(new_suffix)] *)
Definition with_suffix (p : path) (new_suffix : str) : M world path :=
  let name := List.last p [] in
  if Nat.eqb (length name) 0 then raise ValueError
  else
    let old_suffix := suffix name in
    mret (parent p ++ [take (length name - length old_suffix) name ++ new_suffix]).

(** ** Locale analyzer *)

Record LocaleAnalyzer := mkAnalyzer {
  locales_dir : path;
  english_data : PyDict.dict str (PyDict.dict str str)
}.

(** The body of the loop of [analyze_locale] over the reference files. *)
Definition analyze_file (locale : str) (locale_dir : path)
    (tasks : list TranslationTask)
    (entry : str * PyDict.dict str str) : M world (list TranslationTask) :=
  let '(file_name, english_data) := entry in
  let locale_file := joinpath locale_dir file_name in
  e ← path_exists locale_file;
  if negb e then
    mret (fold_left
            (fun tasks '(key, value) =>
               tasks ++ [mkTask locale file_name key value true])
            (PyDict.items english_data) tasks)
  else
    locale_data ← read_json locale_file;
    mret (fold_left
            (fun tasks '(key, value) =>
               if negb (PyDict.contains locale_data key) then
                 tasks ++ [mkTask locale file_name key value true]
               else if bool_decide (PyDict.get locale_data key = Some [])
               then tasks ++ [mkTask locale file_name key value false]
               else tasks)
            (PyDict.items english_data) tasks).

Definition analyze_locale (self : LocaleAnalyzer) (locale : str)
  : M world (list TranslationTask) :=
  let tasks := [] in
  let locale_dir := joinpath (locales_dir self) locale in
  e ← path_exists locale_dir;
  if negb e then
    _ ← log_emit (WarnLocaleDirNotFound locale_dir);
    mret tasks
  else
    for_each (PyDict.items (english_data self)) tasks
      (analyze_file locale locale_dir).

(** *** Vocabulary for the properties of the analyzer *)

(** The locale file at [p], when [p] is a JSON file. *)
Definition target_of (w : world) (p : path) : option (PyDict.dict str str) :=
  match lookup_node w p with
  | Some (File content) => Some content
  | _ => None
  end.

(** A locale file that the analysis can take: a JSON file, or no file. *)
Definition readable (n : option node) : Prop :=
  n ≠ Some Dir ∧ n ≠ Some NotJson.

(** The task that one entry of a reference file gives rise to, if any:
    [target] is the locale file, [None] when there is none. *)
Definition task_for (locale file_name : str)
    (target : option (PyDict.dict str str)) (entry : str * str)
  : option TranslationTask :=
  let '(key, value) := entry in
  match target with
  | None => Some (mkTask locale file_name key value true)
  | Some locale_data =>
      match PyDict.get locale_data key with
      | None => Some (mkTask locale file_name key value true)
      | Some [] => Some (mkTask locale file_name key value false)
      | Some (_ :: _) => None
      end
  end.

(** *** Scenario *)

Definition common_json : str := pystr "common.json".

Definition common_reference : PyDict.dict str str :=
  [(pystr "greeting", pystr "Hello"); (pystr "farewell", pystr "Goodbye");
   (pystr "thanks", pystr "Thanks")].

Definition reference_analyzer : LocaleAnalyzer :=
  mkAnalyzer LOCALES_DIR [(common_json, common_reference)].

Definition french_common : PyDict.dict str str :=
  [(pystr "greeting", pystr "Bonjour"); (pystr "farewell", []);
   (pystr "legacy", pystr "Ancien")].

(** A tree with a French locale and no German one. *)
Definition french_world : world :=
  mkWorld
    (list_to_map
       [([pystr "public"], Dir);
        (LOCALES_DIR, Dir);
        (LOCALES_DIR ++ [pystr "fr"], Dir);
        (LOCALES_DIR ++ [pystr "fr"; common_json], File french_common)])
    [].

(** ** Safe file updater *)

Record SafeFileUpdater := mkUpdater { backup_dir : path }.

(** The constructor creates the backup directory. *)
Definition SafeFileUpdater_init (backup_dir : path) : M world SafeFileUpdater :=
  _ ← mkdir_parents backup_dir;
  mret (mkUpdater backup_dir).

(** For a path of the tree, which is relative as [LOCALES_DIR] is: the
    branch of [backup_file] for an absolute path is about files outside
    the tree. *)
Definition backup_file (self : SafeFileUpdater) (file_path : path)
  : M world (option path) :=
  e ← path_exists file_path;
  if negb e then mret None
  else
    let rel_path := file_path in
    let backup_path := backup_dir self ++ rel_path in
    _ ← mkdir_parents (parent backup_path);
    _ ← copy2 file_path backup_path;
    mret (Some backup_path).

(** Whether the loop of [update_locale_file] writes at [key]: the key is
    absent from [data], or holds the empty string. *)
Definition writable (data : PyDict.dict str str) (key : str) : bool :=
  negb (PyDict.contains data key)
  || bool_decide (PyDict.get data key = Some []).

(** The body of the loop of [update_locale_file] over the incoming
    translations. *)
Definition merge_item (state : PyDict.dict str str * nat) (item : str * str)
  : M world (PyDict.dict str str * nat) :=
  let '(data, updates_made) := state in
  let '(key, value) := item in
  if writable data key then
    _ ← log_emit (DebugUpdated key (take 50 value));
    mret (PyDict.set data key value, updates_made + 1)
  else mret (data, updates_made).

Definition merge_translations (data : PyDict.dict str str)
    (translations : PyDict.dict str str)
  : M world (PyDict.dict str str * nat) :=
  for_each (PyDict.items translations) (data, 0) merge_item.

Definition update_locale_file (self : SafeFileUpdater)
    (locale file_name : str) (translations : PyDict.dict str str)
    (dry_run : bool) : M world bool :=
  let file_path := joinpath (joinpath LOCALES_DIR locale) file_name in
  e ← path_exists file_path;
  data ← (if e : bool then
            _ ← (if negb dry_run then
                   backup_path ← backup_file self file_path;
                   log_emit (DebugBackedUp file_path backup_path)
                 else mret tt);
            read_json file_path
          else
            _ ← (if negb dry_run then mkdir_parents (parent file_path)
                 else mret tt);
            mret PyDict.empty);
  '(data, updates_made) ← merge_translations data translations;
  _ ← (if 0 <? updates_made then
         if negb dry_run then
           temp_path ← with_suffix file_path (pystr ".tmp");
           _ ← write_json temp_path data;
           _ ← replace_file temp_path file_path;
           log_emit (InfoUpdated file_path updates_made)
         else log_emit (InfoDryRun file_path updates_made)
       else mret tt);
  mret true.

(** *** Scenario *)

Definition timestamped_updater : SafeFileUpdater :=
  mkUpdater [pystr "backups"; pystr "20240101_120000"].

(** A tree whose French file holds one greeting. *)
Definition greeting_world : world :=
  mkWorld
    (list_to_map
       [([pystr "public"], Dir);
        (LOCALES_DIR, Dir);
        (LOCALES_DIR ++ [pystr "fr"], Dir);
        (LOCALES_DIR ++ [pystr "fr"; common_json],
         File [(pystr "greeting", pystr "Bonjour")])])
    [].

Definition incoming_greetings : PyDict.dict str str :=
  [(pystr "greeting", pystr "Salut"); (pystr "farewell", pystr "Au revoir")].

(** ** Batcher *)

(** [range(start, stop, step)] *)
Definition range_step (start stop step : Z) : outcome (list Z) :=
  if (step =? 0)%Z then Raised ValueError
  else
    let n := if (0 <? step)%Z then ((stop - start + step - 1) / step)%Z
             else ((start - stop - step - 1) / (- step))%Z in
    Returned (map (fun i => (start + Z.of_nat i * step)%Z) (seq 0 (Z.to_nat n))).

(** [l[i:j]] for indices that are not negative *)
Definition slice {A} (l : list A) (i j : Z) : list A :=
  take (Z.to_nat j - Z.to_nat i) (drop (Z.to_nat i) l).

(** The first loop: [grouped[key].append(task)] on a [defaultdict(list)]. *)
Definition group_tasks (tasks : list TranslationTask)
  : PyDict.dict (str * str) (list TranslationTask) :=
  fold_left
    (fun grouped task =>
       let key := (locale task, file_name task) in
       PyDict.set grouped key (default [] (PyDict.get grouped key) ++ [task]))
    tasks PyDict.empty.

Fixpoint batches_loop (groups : list ((str * str) * list TranslationTask))
    (batch_size : Z) (batches : list (list TranslationTask))
  : outcome (list (list TranslationTask)) :=
  match groups with
  | [] => Returned batches
  | (_, file_tasks) :: later =>
      match range_step 0 (Z.of_nat (length file_tasks)) batch_size with
      | Raised e => Raised e
      | Returned starts =>
          batches_loop later batch_size
            (fold_left
               (fun batches i => batches ++ [slice file_tasks i (i + batch_size)])
               starts batches)
      end
  end.

Definition group_tasks_into_batches (tasks : list TranslationTask)
    (batch_size : Z) : outcome (list (list TranslationTask)) :=
  batches_loop (PyDict.items (group_tasks tasks)) batch_size [].

(** *** Vocabulary for the properties of the batcher *)

(** The (language, file name) pair a task is grouped under. *)
Definition task_key (task : TranslationTask) : str * str :=
  (locale task, file_name task).

(** The group of a batch: that of its first task. *)
Definition batch_key (batch : list TranslationTask) : option (str * str) :=
  task_key <$> head batch.

(** The tasks of one group, in the order of the task list. *)
Definition group_of (g : str * str) (tasks : list TranslationTask)
  : list TranslationTask :=
  filter (fun task => task_key task = g) tasks.

(** The batches of one group, in the order of the batch list. *)
Definition batches_of (g : str * str) (batches : list (list TranslationTask))
  : list (list TranslationTask) :=
  filter (fun batch => batch_key batch = Some g) batches.

(** Consecutive slices of [size] elements; the last one holds what is
    left. *)
Definition chunks {A} (size : nat) (l : list A) : list (list A) :=
  (fun i => take size (drop (i * size) l))
  <$> seq 0 ((length l + size - 1) / size).

(** *** Scenario *)

(** Forty-five tasks of one file of one language. *)
Definition forty_five_tasks : list TranslationTask :=
  map (fun n => mkTask (pystr "fr") common_json (str_of_N (N.of_nat n))
                  (pystr "text") true)
    (seq 0 45).

(** ** More of [str] *)

(** [s.lstrip()], [s.rstrip()] and [s.strip()]: the characters taken off
    are those that [str.isspace] accepts, the same as [\s]. *)
Fixpoint lstrip (s : str) : str :=
  match s with
  | [] => []
  | c :: tl => if Regex.is_space c then lstrip tl else s
  end.

Definition rstrip (s : str) : str := reverse (lstrip (reverse s)).

Definition strip (s : str) : str := rstrip (lstrip s).

(** [sep.join(parts)] *)
Fixpoint str_join (sep : str) (parts : list str) : str :=
  match parts with
  | [] => []
  | part :: rest =>
      match rest with
      | [] => part
      | _ :: _ => part ++ sep ++ str_join sep rest
      end
  end.

(** [s.endswith(ending)] *)
Definition ends_with (ending s : str) : bool :=
  (length ending <=? length s)
  && bool_decide (drop (length s - length ending) s = ending).

(** [a <= b] on two [str]: the order of the code points, the first
    difference deciding, a proper prefix coming first. *)
Fixpoint str_leb (a b : str) : bool :=
  match a, b with
  | [], _ => true
  | _ :: _, [] => false
  | x :: a', y :: b' =>
      if (x <? y)%N then true
      else if (y <? x)%N then false
      else str_leb a' b'
  end.

Definition str_le (a b : str) : Prop := str_leb a b = true.

#[global] Instance str_le_dec : RelDecision str_le.
Proof. intros a b. unfold str_le. apply _. Defined.

(** [sorted(l)] on a list of [str]. *)
Definition sorted (l : list str) : list str := merge_sort str_le l.

(** ** Response models *)

(** The validator of the field [translated_text] of [TranslationItem]. *)
Definition validate_not_empty (v : str) : outcome str :=
  if bool_decide (v = []) || bool_decide (strip v = [])
  then Raised ValueError
  else Returned v.

(** ** The process *)

(** The exceptions that leave the orchestrator: those of the parts above
    and three more. *)
Inductive error :=
  | Exception (e : exception)
  | ZeroDivisionError
  | IndexError
  | SystemExit (status : Z).

Inductive completion (A : Type) :=
  | Done (a : A)
  | Failed (e : error).
Arguments Done {A} a.
Arguments Failed {A} e.

Module Stats.
(** The dictionary [stats] of the orchestrator. A float is kept as the
    rational it denotes, so the sign of a zero is not kept. *)
Record t := mk {
  total_tasks : nat;
  translated : nat;
  failed : nat;
  warnings : nat;
  api_calls : nat;
  estimated_cost : Q
}.

Definition initial : t := mk 0 0 0 0 0 0.
End Stats.

(** What the analyzer, at construction and over several locales, and the
    orchestrator write to the logger, and the pauses of the orchestrator. *)
Inductive journal_record :=
  | InfoLoadedReference (n_files : nat)
  | InfoFoundTasks (n_tasks : nat) (locale : list N)
  | InfoAnalyzing
  | InfoNoTasks
  | InfoFoundTotal (total_tasks n_locales : nat)
  | InfoEstimatedCost (cost : Q) (model : list N)
  | InfoDryRunMode
  | InfoProcessing (locale language_name : list N)
  | InfoBatch (i n_batches n_items : nat) (file_name : list N)
  | WarnValidation (key warning : list N)
  | ErrorFailed (key joined_errors : list N)
  | ErrorBatchFailed (e : error)
  | Slept (seconds : Q)
  | InfoBlankLineAndRule
  | InfoComplete
  | InfoRule
  | InfoTotalTasks (n : nat)
  | InfoTranslated (n : nat)
  | InfoFailed (n : nat)
  | InfoWarnings (n : nat)
  | InfoApiCalls (n : nat)
  | InfoBackups (backup_dir : list (list N))
  | ErrorNoApiKey
  | InfoDefaultLocales (joined_locales : list N).

(** The state of a run of the script: the files with the log of the
    analyzer and of the updater, the engine, the statistics of the
    orchestrator and the journal. *)
Record process := mkProcess {
  disk : world;
  engine_state : engine;
  stats : Stats.t;
  journal : list journal_record
}.

(** A computation of the process that returns or raises. *)
Definition R (S A : Type) : Type := S -> completion A * S.

#[global] Instance R_ret {S} : MRet (R S) := fun A a s => (Done a, s).
#[global] Instance R_bind {S} : MBind (R S) := fun A B f m s =>
  match m s with
  | (Done a, s') => f a s'
  | (Failed e, s') => (Failed e, s')
  end.

Definition abort {S A} (e : error) : R S A := fun s => (Failed e, s).
Definition inspect {S A} (f : S -> A) : R S A := fun s => (Done (f s), s).
Definition mutate {S} (f : S -> S) : R S unit := fun s => (Done tt, f s).

(** [for x in xs: acc = body(acc, x)] *)
Fixpoint for_in {S A B} (xs : list A) (acc : B) (body : B -> A -> R S B)
  : R S B :=
  match xs with
  | [] => mret acc
  | x :: xs' => acc' ← body acc x; for_in xs' acc' body
  end.

(** [try: body except Exception as e: handler(e)]; [SystemExit] is not an
    [Exception]. *)
Definition try_except {S A} (body : R S A) (handler : error -> R S A)
  : R S A :=
  fun s =>
    match body s with
    | (Failed (SystemExit status), s') => (Failed (SystemExit status), s')
    | (Failed e, s') => handler e s'
    | (Done a, s') => (Done a, s')
    end.

(** A computation on the files, and one on the engine, as steps of the
    process. *)
Definition on_disk {A} (m : M world A) : R process A :=
  fun p =>
    let '(r, w) := m (disk p) in
    (match r with Returned a => Done a | Raised e => Failed (Exception e) end,
     mkProcess w (engine_state p) (stats p) (journal p)).

Definition on_engine {A} (m : M engine A) : R process A :=
  fun p =>
    let '(r, e) := m (engine_state p) in
    (match r with Returned a => Done a | Raised ex => Failed (Exception ex) end,
     mkProcess (disk p) e (stats p) (journal p)).

Definition say (line : journal_record) : R process unit :=
  mutate (fun p =>
    mkProcess (disk p) (engine_state p) (stats p) (journal p ++ [line])).

Definition update_stats (f : Stats.t -> Stats.t) : R process unit :=
  mutate (fun p =>
    mkProcess (disk p) (engine_state p) (f (stats p)) (journal p)).

(** ** Directories *)

Definition ENGLISH_LOCALE : str := pystr "en".

(** [p.name] *)
Definition path_name (p : path) : str := List.last p [].

(** The names of the entries of the directory [dir], in the order of the
    finite map. *)
Definition children (w : world) (dir : path) : list str :=
  omap (fun p =>
          if bool_decide (p ≠ [] ∧ parent p = dir) then Some (path_name p)
          else None)
    (map_to_list (fs w)).*1.

Section script.
(** The order in which the validator meets the technical terms. *)
Variable term_order : list str.
(** The provider: the answer to a request, given how many calls came
    before it. *)
Variable provider : nat -> request -> response.
(** The order in which the system lists the entries of a directory. *)
Variable listing : world -> path -> list str.

(** [dir.iterdir()] *)
Definition iterdir (dir : path) : R process (list path) :=
  n ← inspect (fun p => lookup_node (disk p) dir);
  match n with
  | None => abort (Exception FileNotFoundError)
  | Some (File _) | Some NotJson => abort (Exception NotADirectoryError)
  | Some Dir =>
      inspect (fun p => (fun name => dir ++ [name]) <$> listing (disk p) dir)
  end.

(** [dir.glob("*.json")]: the entries whose name ends in [.json]; nothing
    when [dir] is not a directory. *)
Definition glob_json (dir : path) : R process (list path) :=
  d ← on_disk (is_dir dir);
  if negb d then mret []
  else
    inspect (fun p =>
      (fun name => dir ++ [name])
      <$> List.filter (ends_with (pystr ".json")) (listing (disk p) dir)).

(** ** Locale analyzer: construction, the locales at hand, all the tasks *)

Definition _load_english_reference (locales_dir : path)
  : R process (PyDict.dict str (PyDict.dict str str)) :=
  let english_dir := locales_dir ++ [ENGLISH_LOCALE] in
  e ← on_disk (path_exists english_dir);
  if negb e then abort (Exception FileNotFoundError)
  else
    json_files ← glob_json english_dir;
    english_data ←
      for_in json_files PyDict.empty (fun english_data json_file =>
        if bool_decide (path_name json_file = pystr "terms.json")
        then mret english_data
        else
          content ← on_disk (read_json json_file);
          mret (PyDict.set english_data (path_name json_file) content));
    _ ← say (InfoLoadedReference (length english_data));
    mret english_data.

Definition LocaleAnalyzer_init (locales_dir : path) : R process LocaleAnalyzer :=
  english_data ← _load_english_reference locales_dir;
  mret (mkAnalyzer locales_dir english_data).

Definition get_available_locales (self : LocaleAnalyzer)
  : R process (list str) :=
  items ← iterdir (locales_dir self);
  locales ←
    for_in items [] (fun locales item =>
      d ← on_disk (is_dir item);
      if d && negb (bool_decide (path_name item = ENGLISH_LOCALE))
      then mret (locales ++ [path_name item])
      else mret locales);
  mret (sorted locales).

Definition generate_translation_tasks (self : LocaleAnalyzer)
    (locales : option (list str))
  : R process (PyDict.dict str (list TranslationTask)) :=
  locales ← match locales with
            | None => get_available_locales self
            | Some locales => mret locales
            end;
  for_in locales PyDict.empty (fun all_tasks locale =>
    tasks ← on_disk (analyze_locale self locale);
    match tasks with
    | [] => mret all_tasks
    | _ :: _ =>
        let all_tasks := PyDict.set all_tasks locale tasks in
        _ ← say (InfoFoundTasks (length tasks) locale);
        mret all_tasks
    end).

(** ** Orchestrator *)

Record LocaleTranslator := mkTranslator {
  analyzer : LocaleAnalyzer;
  updater : SafeFileUpdater;
  model : str
}.

Definition DEFAULT_BATCH_SIZE : Z := 20.
Definition DEFAULT_MODEL : str := pystr "gpt-4o-mini".

(** The constructor: the reference is loaded, the engine starts with an
    empty cache, the backup directory named after the time [now] is
    created and the statistics are zero. *)
Definition LocaleTranslator_init (api_key model now : str)
  : R process LocaleTranslator :=
  analyzer ← LocaleAnalyzer_init LOCALES_DIR;
  _ ← mutate (fun p =>
         mkProcess (disk p) (mkEngine ∅ (trace (engine_state p))) (stats p)
           (journal p));
  updater ← on_disk (SafeFileUpdater_init [pystr "backups"; now]);
  _ ← update_stats (fun _ => Stats.initial);
  mret (mkTranslator analyzer updater model).

(** [x * y] on two floats, and [float(n)]. *)
Definition fmul (x y : Q) : Q := Binary64.round64 (x * y).
Definition float_of_int (n : Z) : Q := Binary64.round64 (inject_Z n).

(** The test of [run] on the validation of a result. *)
Definition accepts (validation : ValidationResult) : bool :=
  is_valid validation
  || (bool_decide (errors validation = [])
      && negb (bool_decide (warnings validation = []))).

(** The body of the loop of [run] over the results of a batch. *)
Definition tally_result (verbose : bool)
    (file_translations : PyDict.dict str (PyDict.dict str str))
    (item : translation_result)
  : R process (PyDict.dict str (PyDict.dict str str)) :=
  let '(task, translated, validation) := item in
  if accepts validation then
    let file_translations :=
      PyDict.set file_translations (file_name task)
        (PyDict.set
           (default PyDict.empty (PyDict.get file_translations (file_name task)))
           (key task) translated) in
    _ ← update_stats (fun s =>
           Stats.mk (Stats.total_tasks s) (Stats.translated s + 1)
             (Stats.failed s) (Stats.warnings s) (Stats.api_calls s)
             (Stats.estimated_cost s));
    _ ← match warnings validation with
        | [] => mret tt
        | _ :: _ =>
            _ ← update_stats (fun s =>
                   Stats.mk (Stats.total_tasks s) (Stats.translated s)
                     (Stats.failed s)
                     (Stats.warnings s + length (warnings validation))
                     (Stats.api_calls s) (Stats.estimated_cost s));
            if verbose : bool then
              for_in (warnings validation) tt (fun _ warning =>
                say (WarnValidation (key task) warning))
            else mret tt
        end;
    mret file_translations
  else
    _ ← update_stats (fun s =>
           Stats.mk (Stats.total_tasks s) (Stats.translated s)
             (Stats.failed s + 1) (Stats.warnings s) (Stats.api_calls s)
             (Stats.estimated_cost s));
    _ ← say (ErrorFailed (key task) (str_join (pystr ", ") (errors validation)));
    mret file_translations.

(** The body of the loop of [run] over the numbered batches of a locale.
    In the [try] block only [translate_batch] can raise, before the
    translations of the files are touched. *)
Definition process_batch (verbose : bool) (n_batches : nat)
    (file_translations : PyDict.dict str (PyDict.dict str str))
    (numbered : nat * list TranslationTask)
  : R process (PyDict.dict str (PyDict.dict str str)) :=
  let '(i, batch) := numbered in
  first ← match batch with
          | first :: _ => mret first
          | [] => abort IndexError
          end;
  _ ← say (InfoBatch i n_batches (length batch) (file_name first));
  file_translations ←
    try_except
      (results ← on_engine (translate_batch term_order provider batch 3);
       _ ← update_stats (fun s =>
              Stats.mk (Stats.total_tasks s) (Stats.translated s)
                (Stats.failed s) (Stats.warnings s) (Stats.api_calls s + 1)
                (Stats.estimated_cost s));
       for_in results file_translations (tally_result verbose))
      (fun e =>
         _ ← say (ErrorBatchFailed e);
         _ ← update_stats (fun s =>
                Stats.mk (Stats.total_tasks s) (Stats.translated s)
                  (Stats.failed s + length batch) (Stats.warnings s)
                  (Stats.api_calls s) (Stats.estimated_cost s));
         mret file_translations);
  _ ← (if i <? n_batches then say (Slept (1 # 2)) else mret tt);
  mret file_translations.

(** The body of the loop of [run] over the locales that have tasks. *)
Definition process_locale (self : LocaleTranslator) (batch_size : Z)
    (dry_run verbose : bool) (_ : unit) (entry : str * list TranslationTask)
  : R process unit :=
  let '(locale, tasks) := entry in
  _ ← say (InfoProcessing locale
             (default locale (PyDict.get LANGUAGE_NAMES locale)));
  batches ← match group_tasks_into_batches tasks batch_size with
            | Returned batches => mret batches
            | Raised e => abort (Exception e)
            end;
  file_translations ←
    for_in (zip (seq 1 (length batches)) batches) PyDict.empty
      (process_batch verbose (length batches));
  for_in (PyDict.items file_translations) tt (fun _ '(file_name, translations) =>
    match translations with
    | [] => mret tt
    | _ :: _ =>
        _ ← on_disk (update_locale_file (updater self) locale file_name
                       translations dry_run);
        mret tt
    end).

Definition report (self : LocaleTranslator) : R process unit :=
  s ← inspect stats;
  for_in
    [InfoBlankLineAndRule; InfoComplete; InfoRule;
     InfoTotalTasks (Stats.total_tasks s);
     InfoTranslated (Stats.translated s);
     InfoFailed (Stats.failed s);
     InfoWarnings (Stats.warnings s);
     InfoApiCalls (Stats.api_calls s);
     InfoBackups (backup_dir (updater self))]
    tt (fun _ line => say line).

Definition run (self : LocaleTranslator) (locales : option (list str))
    (batch_size : Z) (dry_run verbose : bool) : R process Stats.t :=
  _ ← say InfoAnalyzing;
  all_tasks ← generate_translation_tasks (analyzer self) locales;
  match all_tasks with
  | [] =>
      _ ← say InfoNoTasks;
      inspect stats
  | _ :: _ =>
      let total_tasks := sum_list (length <$> all_tasks.*2) in
      _ ← update_stats (fun s =>
             Stats.mk total_tasks (Stats.translated s) (Stats.failed s)
               (Stats.warnings s) (Stats.api_calls s) (Stats.estimated_cost s));
      _ ← say (InfoFoundTotal total_tasks (length all_tasks));
      if (batch_size =? 0)%Z then abort ZeroDivisionError
      else
        let estimated_api_calls :=
          (Z.of_nat total_tasks / batch_size
           + if (Z.of_nat total_tasks mod batch_size =? 0)%Z then 0 else 1)%Z in
        let estimated_cost :=
          Binary64.fdiv
            (fmul
               (fmul
                  (fmul (float_of_int estimated_api_calls)
                     (Binary64.round64 (1 # 1000)))
                  (float_of_int batch_size))
               (float_of_int 50))
            (float_of_int 1000) in
        _ ← update_stats (fun s =>
               Stats.mk (Stats.total_tasks s) (Stats.translated s)
                 (Stats.failed s) (Stats.warnings s) (Stats.api_calls s)
                 estimated_cost);
        _ ← say (InfoEstimatedCost estimated_cost (model self));
        _ ← (if dry_run then say InfoDryRunMode else mret tt);
        _ ← for_in (PyDict.items all_tasks) tt
              (process_locale self batch_size dry_run verbose);
        _ ← report self;
        inspect stats
  end.

(** ** Command line *)

(** The arguments as [parse_args] returns them. *)
Record Namespace := mkNamespace {
  arg_locales : option str;
  arg_all : bool;
  arg_batch_size : Z;
  arg_model : str;
  arg_dry_run : bool;
  arg_verbose : bool;
  arg_api_key : option str
}.

(** The truth value of an optional string: [None] and the empty string are
    false. *)
Definition truthy (s : option str) : bool :=
  match s with
  | Some (_ :: _) => true
  | _ => false
  end.

Definition major_languages : list str :=
  map pystr ["es"; "fr"; "de"; "zh"; "ru"; "pt"; "ja"; "ar"; "hi"; "it";
             "ko"; "nl"]%string.

(** The part of [main] that chooses the locales: [None] stands for all
    the locales at hand. *)
Definition choose_locales (args : Namespace) : R process (option (list str)) :=
  if arg_all args then mret None
  else if truthy (arg_locales args) then
    mret (Some (strip <$> str_split 44 (default [] (arg_locales args))))
  else
    let locales := major_languages in
    _ ← say (InfoDefaultLocales (str_join (pystr ", ") locales));
    mret (Some locales).

(** [main] from the parsed arguments on: [environ_key] is the value of
    [OPENAI_API_KEY] in the environment, [now] the time of the start, as
    [strftime] formats it. *)
Definition main (args : Namespace) (environ_key : option str) (now : str)
  : R process unit :=
  let api_key :=
    if truthy (arg_api_key args) then arg_api_key args else environ_key in
  if negb (truthy api_key) then
    _ ← say ErrorNoApiKey;
    abort (SystemExit 1)
  else
    locales ← choose_locales args;
    translator ← LocaleTranslator_init (default [] api_key) (arg_model args)
                    now;
    _ ← run translator locales (arg_batch_size args) (arg_dry_run args)
          (arg_verbose args);
    mret tt.

End script.

(** ** Vocabulary for the properties of the process *)

(** [m] takes every state to a state that [ρ] relates to it, whether it
    returns or raises. *)
Definition within {S A} (ρ : relation S) (m : R S A) : Prop :=
  ∀ s, ρ s (m s).2.

(** The states in which [f] has the value it had. *)
Definition unchanged {S X} (f : S -> X) : relation S :=
  fun s s' => f s' = f s.

(** [m] raises the measure [μ] by at most [k], whether it returns or
    raises. *)
Definition grows_by {S A} (μ : S -> nat) (k : nat) (m : R S A) : Prop :=
  ∀ s, μ (m s).2 <= μ s + k.

(** The tasks of a locale as the files stand: none without the directory
    of the locale, else those of every entry of every reference file. *)
Definition tasks_of (self : LocaleAnalyzer) (w : world) (locale : str)
  : list TranslationTask :=
  match lookup_node w (joinpath (locales_dir self) locale) with
  | None => []
  | Some _ =>
      english_data self ≫= fun '(file_name, ref) =>
        omap (task_for locale file_name
                (target_of w
                   (joinpath (joinpath (locales_dir self) locale) file_name)))
          ref
  end.

(** What one locale adds to the tasks of all the locales. *)
Definition entry_of (self : LocaleAnalyzer) (w : world) (locale : str)
  : option (str * list TranslationTask) :=
  match tasks_of self w locale with
  | [] => None
  | tasks => Some (locale, tasks)
  end.

(** The files are what they were. *)
Abbreviation same_files := (unchanged (fun p : process => fs (disk p))).

(** The results counted so far, as translated or as failed, and the
    requests sent so far. *)
Definition settled (p : process) : nat :=
  Stats.translated (stats p) + Stats.failed (stats p).

Definition requests (p : process) : nat :=
  calls_made (trace (engine_state p)).

(** What exists is as it was, and nothing was created but the backup
    directory of the run that started at [now] and the directories above
    it. *)
Definition only_backup_directories (now : str) : relation process :=
  fun p p' =>
    ∀ q, is_Some (lookup_node (disk p) q)
         ∨ q ∉ ancestors_and_self [pystr "backups"; now] →
         lookup_node (disk p') q = lookup_node (disk p) q.

(** [m] takes every state to a state that [ρ] relates to it, whether it
    returns or raises. *)
Definition keeps {S A} (ρ : relation S) (m : M S A) : Prop :=
  ∀ s, ρ s (m s).2.

(** What exists at a path that [Q] accepts is as it was. *)
Definition preserves (Q : path -> Prop) : relation world :=
  fun w w' =>
    ∀ q, Q q → is_Some (lookup_node w q) → lookup_node w' q = lookup_node w q.

(** A relation on the files, as one on the states of the process. *)
Definition on_disks (ρ : relation world) : relation process :=
  fun p p' => ρ (disk p) (disk p').

(** ** Providers and traces for the properties of the engine *)

(** The answer [resp] with every key replaced by the empty string. *)
Definition forget_keys (resp : response) : response :=
  match resp with
  | Parsed translations => Parsed (map (fun item => ([], item.2)) translations)
  | other => other
  end.

(** What the attempts leave in the trace when every call fails. *)
Definition failed_attempts (r : request) (max_retries : Z) : list event :=
  range max_retries ≫= fun attempt =>
    [Call r; LogAttemptFailed (attempt + 1)]
    ++ if (attempt <? max_retries - 1)%Z then [Sleep (2 ^ attempt)] else [].

(** Providers that fail, that answer without a parsed content, and that
    answer one translation. *)
Definition failing_provider (n : nat) (r : request) : response := CallFails.
Definition unparsed_provider (n : nat) (r : request) : response := Unparsed.
Definition faithful_provider (n : nat) (r : request) : response :=
  Parsed [(pystr "greet", pystr "Bonjour {{name}}")].

(** ** Trees and arguments for the examples *)

(** A tree whose French file translates every key of the reference. *)
Definition complete_world : world :=
  mkWorld
    (list_to_map
       [([pystr "public"], Dir);
        (LOCALES_DIR, Dir);
        (LOCALES_DIR ++ [pystr "fr"], Dir);
        (LOCALES_DIR ++ [pystr "fr"; common_json],
         File [(pystr "greeting", pystr "Bonjour");
               (pystr "farewell", pystr "Au revoir");
               (pystr "thanks", pystr "Merci")])])
    [].

(** A tree with the English reference, a French locale that lacks
    translations and an empty German one. *)
Definition site_world : world :=
  mkWorld
    (list_to_map
       [([pystr "public"], Dir);
        (LOCALES_DIR, Dir);
        (LOCALES_DIR ++ [pystr "en"], Dir);
        (LOCALES_DIR ++ [pystr "en"; common_json], File common_reference);
        (LOCALES_DIR ++ [pystr "en"; pystr "terms.json"],
         File [(pystr "title", pystr "Terms")]);
        (LOCALES_DIR ++ [pystr "en"; pystr "notes.txt"], File []);
        (LOCALES_DIR ++ [pystr "fr"], Dir);
        (LOCALES_DIR ++ [pystr "fr"; common_json], File french_common);
        (LOCALES_DIR ++ [pystr "de"], Dir)])
    [].

Definition site : process := mkProcess site_world fresh_engine Stats.initial [].

(** [--locales fr --dry-run --api-key key] *)
Definition dry_run_arguments : Namespace :=
  mkNamespace (Some (pystr "fr")) false DEFAULT_BATCH_SIZE DEFAULT_MODEL true
    false (Some (pystr "key")).

(** The orchestrator of the examples. *)
Definition site_translator : LocaleTranslator :=
  mkTranslator reference_analyzer timestamped_updater DEFAULT_MODEL.

(** * Properties *)

(** ** The placeholder pattern *)

Section regex_facts.
Import Regex.

Lemma span_not_rbrace_app s :
  s = (span_not_rbrace s).1 ++ (span_not_rbrace s).2.
Proof.
  induction s as [|c tl IH]; [reflexivity|].
  cbn [span_not_rbrace]. destruct (N.eqb c rbrace); [reflexivity|].
  destruct (span_not_rbrace tl) as [body rest]. cbn in *. congruence.
Qed.

Lemma span_not_rbrace_body s : rbrace ∉ (span_not_rbrace s).1.
Proof.
  induction s as [|c tl IH]; cbn [span_not_rbrace].
  - apply not_elem_of_nil.
  - destruct (N.eqb_spec c rbrace) as [->|Hc]; [apply not_elem_of_nil|].
    destruct (span_not_rbrace tl) as [body rest]. cbn in *.
    rewrite elem_of_cons. intros [E|E]; [congruence | exact (IH E)].
Qed.

(** A match is [{{], a body that is not empty and has no [}], then [}}];
    it is followed by the rest of the text. *)
Lemma match_placeholder_shape s m rest :
  match_placeholder s = Some (m, rest) ->
  s = m ++ rest /\
  exists body,
    m = lbrace :: lbrace :: body ++ [rbrace; rbrace] /\
    body <> [] /\ rbrace ∉ body.
Proof.
  unfold match_placeholder.
  destruct s as [|c1 [|c2 tl]]; try discriminate.
  destruct (N.eqb_spec c1 lbrace) as [->|]; [|discriminate].
  destruct (N.eqb_spec c2 lbrace) as [->|]; [|discriminate].
  cbn [andb].
  pose proof (span_not_rbrace_app tl) as Happ.
  pose proof (span_not_rbrace_body tl) as Hbody.
  destruct (span_not_rbrace tl) as [[|b body] [|d1 [|d2 rest']]];
    try discriminate.
  cbn [fst snd] in *.
  destruct (N.eqb_spec d1 rbrace) as [->|]; [|discriminate].
  destruct (N.eqb_spec d2 rbrace) as [->|]; [|discriminate].
  cbn [andb]. intros [= <- <-]. split.
  - rewrite Happ. cbn. rewrite <- app_assoc. reflexivity.
  - exists (b :: body). split_and!; [reflexivity | discriminate | exact Hbody].
Qed.

Lemma findall_from_skip k s :
  findall_from k s = findall_from 0 (drop k s).
Proof.
  revert s. induction k as [|k IH]; intros s; [reflexivity|].
  destruct s as [|c tl]; [reflexivity|]. cbn [findall_from drop]. apply IH.
Qed.

Lemma sub_from_skip k s : sub_from k s = sub_from 0 (drop k s).
Proof.
  revert s. induction k as [|k IH]; intros s; [reflexivity|].
  destruct s as [|c tl]; [reflexivity|]. cbn [sub_from drop]. apply IH.
Qed.

Lemma drop_match (m rest : list N) c tl :
  c :: tl = m ++ rest -> m <> [] -> drop (length m - 1) tl = rest.
Proof.
  destruct m as [|c' m']; [congruence|]. intros [= -> ->] _.
  cbn [length]. rewrite Nat.sub_succ, Nat.sub_0_r. apply drop_app_length.
Qed.

(** The scan reports a match where there is one and resumes right after
    it; elsewhere it moves one character on. *)
Lemma findall_placeholders_unfold s :
  findall_placeholders s =
  match match_placeholder s with
  | Some (m, rest) => m :: findall_placeholders rest
  | None =>
      match s with
      | [] => []
      | _ :: tl => findall_placeholders tl
      end
  end.
Proof.
  unfold findall_placeholders. destruct s as [|c tl]; [reflexivity|].
  cbn [findall_from].
  destruct (match_placeholder (c :: tl)) as [[m rest]|] eqn:E; [|reflexivity].
  apply match_placeholder_shape in E as (Happ & body & -> & _ & _).
  rewrite findall_from_skip. f_equal. f_equal.
  apply (drop_match _ _ c); [exact Happ | discriminate].
Qed.

Lemma remove_placeholders_unfold s :
  remove_placeholders s =
  match match_placeholder s with
  | Some (_, rest) => remove_placeholders rest
  | None =>
      match s with
      | [] => []
      | c :: tl => c :: remove_placeholders tl
      end
  end.
Proof.
  unfold remove_placeholders. destruct s as [|c tl]; [reflexivity|].
  cbn [sub_from].
  destruct (match_placeholder (c :: tl)) as [[m rest]|] eqn:E; [|reflexivity].
  apply match_placeholder_shape in E as (Happ & body & -> & _ & _).
  rewrite sub_from_skip. f_equal.
  apply (drop_match _ _ c); [exact Happ | discriminate].
Qed.

(** Every placeholder found in a text is a piece of that text of the
    form [{{body}}]. *)
Lemma findall_placeholders_sound s p :
  p ∈ findall_placeholders s ->
  (exists before after, s = before ++ p ++ after) /\
  exists body,
    p = lbrace :: lbrace :: body ++ [rbrace; rbrace] /\
    body <> [] /\ rbrace ∉ body.
Proof.
  unfold findall_placeholders. generalize 0 as k. revert p.
  induction s as [|c tl IH]; intros p k Hin.
  - cbn in Hin. apply elem_of_nil in Hin as [].
  - assert (Htl : forall k', p ∈ findall_from k' tl ->
      (exists before after, c :: tl = before ++ p ++ after) /\
      exists body,
        p = lbrace :: lbrace :: body ++ [rbrace; rbrace] /\
        body <> [] /\ rbrace ∉ body).
    { intros k' H. destruct (IH _ _ H) as [(before & after & E) Hshape].
      split; [|exact Hshape]. exists (c :: before), after. rewrite E.
      reflexivity. }
    cbn [findall_from] in Hin. destruct k as [|k]; [|exact (Htl _ Hin)].
    destruct (match_placeholder (c :: tl)) as [[m rest]|] eqn:E;
      [|exact (Htl _ Hin)].
    apply elem_of_cons in Hin as [->|Hin]; [|exact (Htl _ Hin)].
    apply match_placeholder_shape in E as [Happ Hshape].
    split; [|exact Hshape]. exists [], rest. exact Happ.
Qed.

(** The greedy run stops at the first closing brace. *)
Lemma span_not_rbrace_stop body tl :
  rbrace ∉ body ->
  span_not_rbrace (body ++ rbrace :: tl) = (body, rbrace :: tl).
Proof.
  induction body as [|c body IH]; intros Hbody.
  - reflexivity.
  - cbn [app span_not_rbrace].
    destruct (N.eqb_spec c rbrace) as [->|_].
    + exfalso. apply Hbody. left.
    + rewrite IH; [done|]. intros H. apply Hbody. by right.
Qed.

(** The pattern matches at a text that begins with [{{body}}]. *)
Lemma match_placeholder_here body tl :
  body <> [] -> rbrace ∉ body ->
  match_placeholder (lbrace :: lbrace :: body ++ [rbrace; rbrace] ++ tl)
  = Some (lbrace :: lbrace :: body ++ [rbrace; rbrace], tl).
Proof.
  intros Hne Hbody. unfold match_placeholder. rewrite N.eqb_refl. cbn [andb].
  change ([rbrace; rbrace] ++ tl) with (rbrace :: rbrace :: tl).
  rewrite span_not_rbrace_stop by done.
  destruct body as [|b body]; [done|]. by rewrite N.eqb_refl.
Qed.

(** No match starts at a character other than an opening brace. *)
Lemma match_placeholder_other c tl :
  c <> lbrace -> match_placeholder (c :: tl) = None.
Proof.
  intros Hc. unfold match_placeholder. destruct tl as [|c2 tl]; [done|].
  by destruct (N.eqb_spec c lbrace).
Qed.

(** A text without an opening brace holds no placeholder. *)
Lemma findall_placeholders_none s :
  lbrace ∉ s -> findall_placeholders s = [].
Proof.
  induction s as [|c tl IH]; intros Hs; [done|].
  rewrite findall_placeholders_unfold, match_placeholder_other.
  - apply IH. intros H. apply Hs. by right.
  - intros ->. apply Hs. left.
Qed.

(** The scan passes a text without an opening brace, reports the
    placeholder that follows it and goes on after that placeholder. *)
Lemma findall_placeholders_scan before body after :
  lbrace ∉ before -> body <> [] -> rbrace ∉ body ->
  findall_placeholders
    (before ++ lbrace :: lbrace :: body ++ [rbrace; rbrace] ++ after)
  = (lbrace :: lbrace :: body ++ [rbrace; rbrace])
    :: findall_placeholders after.
Proof.
  intros Hbefore Hne Hbody. induction before as [|c before IH].
  - rewrite app_nil_l, findall_placeholders_unfold.
    by rewrite match_placeholder_here.
  - rewrite <- app_comm_cons, findall_placeholders_unfold,
      match_placeholder_other.
    + apply IH. intros H. apply Hbefore. by right.
    + intros ->. apply Hbefore. left.
Qed.

Example placeholders_of_a_greeting :
  findall_placeholders (pystr "Hi {{name}}, {{count}} new {{}} {x}")
  = [pystr "{{name}}"; pystr "{{count}}"]
  /\ remove_placeholders (pystr "Hi {{name}}, {{count}} new")
     = pystr "Hi ,  new".
Proof. split; vm_compute; reflexivity. Qed.

End regex_facts.

(** ** Placeholder check *)

Section placeholder_check.

Implicit Types (result : ValidationResult) (ps qs : list (list N)).

(** The first loop: one error for each placeholder of the source that
    the translation lacks; the warnings are left alone. *)
Lemma missing_loop_spec qs ps result :
  let result' :=
    fold_left
      (fun result placeholder =>
         if bool_decide (placeholder ∉ qs)
         then mkValidation false
                (errors result ++ [missing_placeholder_msg placeholder])
                (warnings result)
         else result) ps result in
  is_valid result' = is_valid result && bool_decide (Forall (.∈ qs) ps)
  ∧ errors result' =
      errors result ++ (missing_placeholder_msg <$> filter (.∉ qs) ps)
  ∧ warnings result' = warnings result.
Proof.
  revert result. induction ps as [|p ps IH]; intros result; simpl.
  - rewrite andb_true_r, app_nil_r. done.
  - destruct (IH (if bool_decide (p ∉ qs)
                  then mkValidation false
                         (errors result ++ [missing_placeholder_msg p])
                         (warnings result)
                  else result)) as (Hv & He & Hw).
    rewrite Hv, He, Hw. rewrite filter_cons.
    destruct (decide (p ∉ qs)) as [Hp|Hp].
    + rewrite (bool_decide_eq_true_2 _ Hp). simpl.
      rewrite (bool_decide_eq_false_2 (Forall _ (p :: ps))).
      * rewrite andb_false_r, <- app_assoc. done.
      * intros HF. apply Forall_cons in HF. tauto.
    + rewrite (bool_decide_eq_false_2 _ Hp). split_and!; try done.
      f_equal. apply bool_decide_ext. rewrite Forall_cons.
      apply dec_stable in Hp. tauto.
Qed.

(** The second loop: one warning for each placeholder of the translation
    that the source lacks; validity and errors are left alone. *)
Lemma extra_loop_spec qs ps result :
  let result' :=
    fold_left
      (fun result placeholder =>
         if bool_decide (placeholder ∉ qs)
         then mkValidation (is_valid result) (errors result)
                (warnings result ++ [extra_placeholder_msg placeholder])
         else result) ps result in
  is_valid result' = is_valid result
  ∧ errors result' = errors result
  ∧ warnings result' =
      warnings result ++ (extra_placeholder_msg <$> filter (.∉ qs) ps).
Proof.
  revert result. induction ps as [|p ps IH]; intros result; simpl.
  - rewrite app_nil_r. done.
  - destruct (IH (if bool_decide (p ∉ qs)
                  then mkValidation (is_valid result) (errors result)
                         (warnings result ++ [extra_placeholder_msg p])
                  else result)) as (Hv & He & Hw).
    rewrite Hv, He, Hw. rewrite filter_cons.
    destruct (decide (p ∉ qs)) as [Hp|Hp].
    + rewrite (bool_decide_eq_true_2 _ Hp). simpl.
      rewrite <- app_assoc. done.
    + rewrite (bool_decide_eq_false_2 _ Hp). done.
Qed.

Lemma validate_placeholders_spec original translated :
  let ps := Regex.findall_placeholders original in
  let qs := Regex.findall_placeholders translated in
  let result := validate_placeholders original translated in
  is_valid result = bool_decide (Forall (.∈ qs) ps)
  ∧ errors result = missing_placeholder_msg <$> filter (.∉ qs) ps
  ∧ warnings result = extra_placeholder_msg <$> filter (.∉ ps) qs.
Proof.
  intros ps qs result. subst result. unfold validate_placeholders.
  fold ps qs.
  match goal with
  | |- context [fold_left ?f qs (fold_left ?g ps ?r0)] =>
      destruct (missing_loop_spec qs ps r0) as (Hv1 & He1 & Hw1);
      destruct (extra_loop_spec ps qs (fold_left g ps r0)) as (Hv2 & He2 & Hw2)
  end.
  cbv zeta in *. rewrite Hv2, He2, Hw2, Hv1, He1, Hw1. done.
Qed.

End placeholder_check.

(** C1. The placeholders of a text are the matches that a scan from the
    left finds for the pattern: each is a piece [{{body}}] of the text with
    a body that is not empty and has no closing brace, the scan passes a
    stretch without an opening brace and resumes right after a match. The
    placeholder check is invalid exactly when some placeholder found in the
    source is not among the placeholders found in the translation; it
    reports one error for each such placeholder of the source and one
    warning, and nothing else, for each placeholder found in the
    translation that the source lacks. A placeholder of the source that
    does not occur in the translation at all makes the result invalid. For
    the source "Hello {{name}}, you have {{count}} items": a translation in
    which {{count}} is not found is invalid, and a translation in which
    both source placeholders and {{extra}} are found is valid and carries
    the warning about {{extra}}; such is every translation that holds
    {{name}}, {{count}} and {{extra}}, in this order, and no other opening
    brace. *)
Theorem placeholder_check_missing_error_extra_warning :
  (∀ s p : list N,
     p ∈ Regex.findall_placeholders s →
     (∃ before after, s = before ++ p ++ after)
     ∧ ∃ body, p = lbrace :: lbrace :: body ++ [rbrace; rbrace]
               ∧ body ≠ [] ∧ rbrace ∉ body)
  ∧ (∀ s : list N, lbrace ∉ s → Regex.findall_placeholders s = [])
  ∧ (∀ before body after : list N,
       lbrace ∉ before → body ≠ [] → rbrace ∉ body →
       Regex.findall_placeholders
         (before ++ lbrace :: lbrace :: body ++ [rbrace; rbrace] ++ after)
       = (lbrace :: lbrace :: body ++ [rbrace; rbrace])
         :: Regex.findall_placeholders after)
  ∧ (∀ original translated : list N,
       let ps := Regex.findall_placeholders original in
       let qs := Regex.findall_placeholders translated in
       let result := validate_placeholders original translated in
       (is_valid result = false ↔ ∃ p, p ∈ ps ∧ p ∉ qs)
       ∧ errors result = missing_placeholder_msg <$> filter (.∉ qs) ps
       ∧ warnings result = extra_placeholder_msg <$> filter (.∉ ps) qs)
  ∧ (∀ original translated p : list N,
       p ∈ Regex.findall_placeholders original →
       (¬ ∃ before after, translated = before ++ p ++ after) →
       let result := validate_placeholders original translated in
       is_valid result = false ∧ missing_placeholder_msg p ∈ errors result)
  ∧ (let source := pystr "Hello {{name}}, you have {{count}} items" in
     Regex.findall_placeholders source = [pystr "{{name}}"; pystr "{{count}}"]
     ∧ (∀ translated : list N,
          pystr "{{count}}" ∉ Regex.findall_placeholders translated →
          is_valid (validate_placeholders source translated) = false)
     ∧ (∀ translated : list N,
          pystr "{{name}}" ∈ Regex.findall_placeholders translated →
          pystr "{{count}}" ∈ Regex.findall_placeholders translated →
          pystr "{{extra}}" ∈ Regex.findall_placeholders translated →
          let result := validate_placeholders source translated in
          is_valid result = true ∧ errors result = []
          ∧ extra_placeholder_msg (pystr "{{extra}}") ∈ warnings result)
     ∧ (∀ a b c d : list N,
          lbrace ∉ a → lbrace ∉ b → lbrace ∉ c → lbrace ∉ d →
          let translated :=
            a ++ pystr "{{name}}" ++ b ++ pystr "{{count}}" ++ c
              ++ pystr "{{extra}}" ++ d in
          let result := validate_placeholders source translated in
          Regex.findall_placeholders translated
          = [pystr "{{name}}"; pystr "{{count}}"; pystr "{{extra}}"]
          ∧ is_valid result = true ∧ errors result = []
          ∧ warnings result = [extra_placeholder_msg (pystr "{{extra}}")])).
Proof.
  assert (Hsrc : Regex.findall_placeholders
                   (pystr "Hello {{name}}, you have {{count}} items")
                 = [pystr "{{name}}"; pystr "{{count}}"])
    by (vm_compute; reflexivity).
  assert (Hgeneral : ∀ original translated : list N,
     let ps := Regex.findall_placeholders original in
     let qs := Regex.findall_placeholders translated in
     let result := validate_placeholders original translated in
     (is_valid result = false ↔ ∃ p, p ∈ ps ∧ p ∉ qs)
     ∧ errors result = missing_placeholder_msg <$> filter (.∉ qs) ps
     ∧ warnings result = extra_placeholder_msg <$> filter (.∉ ps) qs).
  { intros original translated ps qs result.
    destruct (validate_placeholders_spec original translated) as (Hv & He & Hw).
    fold ps qs result in Hv, He, Hw. split_and!; try done.
    rewrite Hv, bool_decide_eq_false. split.
    + intros HnF. apply not_Forall_Exists in HnF; [|apply _].
      apply Exists_exists in HnF as (p & Hp & Hnp). by exists p.
    + intros (p & Hp & Hnp) HF. rewrite Forall_forall in HF. by apply Hnp, HF. }
  split_and!; [| | |exact Hgeneral| |cbv zeta; split_and!; [exact Hsrc| | |]].
  - intros s p. apply findall_placeholders_sound.
  - apply findall_placeholders_none.
  - apply findall_placeholders_scan.
  - intros original translated p Hp Hnowhere result.
    assert (Hnot : p ∉ Regex.findall_placeholders translated).
    { intros Hin. apply Hnowhere.
      by apply findall_placeholders_sound in Hin as [? _]. }
    destruct (Hgeneral original translated) as (Hv & He & _).
    cbv zeta in Hv, He. subst result. split.
    + apply Hv. by exists p.
    + rewrite He. apply list_elem_of_fmap. exists p. split; [done|].
      by apply list_elem_of_filter.
  - intros translated Hcount.
    destruct (validate_placeholders_spec
                (pystr "Hello {{name}}, you have {{count}} items") translated)
      as (Hv & _). cbv zeta in Hv. rewrite Hv, Hsrc.
    apply bool_decide_eq_false. intros HF.
    apply Forall_cons in HF as [_ HF]. apply Forall_cons in HF as [HF _].
    done.
  - intros translated Hname Hcount Hextra.
    destruct (validate_placeholders_spec
                (pystr "Hello {{name}}, you have {{count}} items") translated)
      as (Hv & He & Hw). cbv zeta in Hv, He, Hw. rewrite Hv, He, Hw, Hsrc.
    split_and!.
    + apply bool_decide_eq_true. by repeat constructor.
    + rewrite !filter_cons, filter_nil.
      destruct (decide (pystr "{{name}}" ∉ _)); [done|].
      destruct (decide (pystr "{{count}}" ∉ _)); done.
    + apply list_elem_of_fmap. exists (pystr "{{extra}}"). split; [done|].
      apply list_elem_of_filter. split; [|done].
      vm_compute. intros H.
      by repeat (apply elem_of_cons in H as [H|H]; [discriminate H|]);
        apply elem_of_nil in H.
  - intros a b c d Ha Hb Hc Hd.
    assert (Hfound :
      Regex.findall_placeholders
        (a ++ pystr "{{name}}" ++ b ++ pystr "{{count}}" ++ c
           ++ pystr "{{extra}}" ++ d)
      = [pystr "{{name}}"; pystr "{{count}}"; pystr "{{extra}}"]).
    { change (pystr "{{name}}" ++ b ++ pystr "{{count}}" ++ c
                ++ pystr "{{extra}}" ++ d)
        with (lbrace :: lbrace :: pystr "name" ++ [rbrace; rbrace]
                ++ b ++ pystr "{{count}}" ++ c ++ pystr "{{extra}}" ++ d).
      rewrite findall_placeholders_scan; [|done|done|].
      2:{ vm_compute. intros H.
          by repeat (apply elem_of_cons in H as [H|H]; [discriminate H|]);
            apply elem_of_nil in H. }
      change (pystr "{{count}}" ++ c ++ pystr "{{extra}}" ++ d)
        with (lbrace :: lbrace :: pystr "count" ++ [rbrace; rbrace]
                ++ c ++ pystr "{{extra}}" ++ d).
      rewrite findall_placeholders_scan; [|done|done|].
      2:{ vm_compute. intros H.
          by repeat (apply elem_of_cons in H as [H|H]; [discriminate H|]);
            apply elem_of_nil in H. }
      change (pystr "{{extra}}" ++ d)
        with (lbrace :: lbrace :: pystr "extra" ++ [rbrace; rbrace] ++ d).
      rewrite findall_placeholders_scan; [|done|done|].
      2:{ vm_compute. intros H.
          by repeat (apply elem_of_cons in H as [H|H]; [discriminate H|]);
            apply elem_of_nil in H. }
      by rewrite findall_placeholders_none. }
    split; [exact Hfound|].
    match goal with
    | |- context [validate_placeholders ?o ?t] =>
        destruct (validate_placeholders_spec o t) as (Hv & He & Hw)
    end.
    cbv zeta in Hv, He, Hw. rewrite Hv, He, Hw, Hsrc, Hfound. clear.
    split_and!; vm_compute; reflexivity.
Qed.

(** C1 as stated fails: every placeholder of the source occurs
    verbatim in the translation "Bonjour {{name}}, {{{count}}} {{extra}}",
    and the check is invalid all the same, with an error for {{count}}.
    The scan finds {{{count}} there, not {{count}}. *)
Lemma verbatim_placeholder_reported_missing :
  let source := pystr "Hello {{name}}, you have {{count}} items" in
  let translated := pystr "Bonjour {{name}}, {{{count}}} {{extra}}" in
  (∀ p, p ∈ Regex.findall_placeholders source →
        ∃ before after, translated = before ++ p ++ after)
  ∧ Regex.findall_placeholders translated
    = [pystr "{{name}}"; pystr "{{{count}}"; pystr "{{extra}}"]
  ∧ is_valid (validate_placeholders source translated) = false
  ∧ errors (validate_placeholders source translated)
    = [missing_placeholder_msg (pystr "{{count}}")].
Proof.
  cbv zeta. split_and!; [|vm_compute; reflexivity..].
  intros p Hp.
  replace (Regex.findall_placeholders
             (pystr "Hello {{name}}, you have {{count}} items"))
    with [pystr "{{name}}"; pystr "{{count}}"] in Hp
    by (vm_compute; reflexivity).
  apply elem_of_cons in Hp as [->|Hp].
  { exists (pystr "Bonjour "), (pystr ", {{{count}}} {{extra}}").
    vm_compute. reflexivity. }
  apply list_elem_of_singleton in Hp as ->.
  exists (pystr "Bonjour {{name}}, {"), (pystr "} {{extra}}").
  vm_compute. reflexivity.
Qed.

(** ** Length and script checks never invalidate *)

Lemma validate_length_valid original translated tolerance :
  is_valid (validate_length original translated tolerance) = true
  ∧ errors (validate_length original translated tolerance) = [].
Proof.
  unfold validate_length.
  destruct (Nat.eqb (length original) 0); [done|].
  destruct (_ || _); done.
Qed.

Lemma validate_no_english_remnants_valid term_order original translated locale :
  is_valid (validate_no_english_remnants term_order original translated locale)
  = true
  ∧ errors (validate_no_english_remnants term_order original translated locale)
    = [].
Proof.
  unfold validate_no_english_remnants.
  destruct (bool_decide _); [|done].
  destruct (_ && _); done.
Qed.

(** C6. The combined result of the three checks is valid iff each check's
    result is valid; its errors and its warnings are those of the
    placeholder, length and script checks, concatenated in that order; the
    length and script checks always return a valid result without errors,
    so the combined validity is that of the placeholder check. *)
Theorem composite_validity_is_conjunction :
  ∀ (term_order : list (list N)) (task : TranslationTask) (translated : list N),
    let placeholders := validate_placeholders (english_value task) translated in
    let lengths :=
      validate_length (english_value task) translated default_tolerance in
    let script :=
      validate_no_english_remnants term_order (english_value task) translated
        (locale task) in
    let combined := validate_translation term_order task translated in
    (is_valid combined = true ↔
       is_valid placeholders = true ∧ is_valid lengths = true
       ∧ is_valid script = true)
    ∧ errors combined = errors placeholders ++ errors lengths ++ errors script
    ∧ warnings combined =
        warnings placeholders ++ warnings lengths ++ warnings script
    ∧ is_valid lengths = true ∧ errors lengths = []
    ∧ is_valid script = true ∧ errors script = []
    ∧ is_valid combined = is_valid placeholders.
Proof.
  intros term_order task translated placeholders lengths script combined.
  destruct (validate_length_valid (english_value task) translated
              default_tolerance) as [Hl Hle].
  destruct (validate_no_english_remnants_valid term_order (english_value task)
              translated (locale task)) as [Hs Hse].
  fold lengths in Hl, Hle. fold script in Hs, Hse.
  assert (Hc : combined =
               mkValidation
                 (if negb (is_valid script) then false
                  else if negb (is_valid lengths) then false
                  else if negb (is_valid placeholders) then false else true)
                 (errors placeholders ++ errors lengths ++ errors script)
                 (warnings placeholders ++ warnings lengths ++ warnings script)).
  { subst combined. unfold validate_translation. simpl.
    fold placeholders lengths script. by rewrite <- !app_assoc. }
  rewrite Hc. simpl. split_and!; try done.
  - destruct (is_valid placeholders), (is_valid lengths), (is_valid script);
      simpl; intuition congruence.
  - rewrite Hl, Hs. simpl. by destruct (is_valid placeholders).
Qed.

(** ** Binary64 rounding *)

Section binary64_facts.
Import Binary64.
Local Open Scope Q_scope.

Lemma pow2_pos e : 0 < pow2 e.
Proof. apply Qpower_0_lt. reflexivity. Qed.

Lemma pow2_plus a b : pow2 (a + b) == pow2 a * pow2 b.
Proof. apply Qpower_plus. discriminate. Qed.

Lemma pow2_le a b : (a <= b)%Z -> pow2 a <= pow2 b.
Proof. intros H. apply Qpower_le_compat_l; [exact H|discriminate]. Qed.

Lemma pow2_lt_inv a b : pow2 a < pow2 b -> (a < b)%Z.
Proof. intros H. eapply Qpower_lt_compat_l_inv; [exact H|reflexivity]. Qed.

Lemma pow2_inject_Z k : (0 <= k)%Z -> pow2 k == inject_Z (2 ^ k).
Proof. intros H. unfold pow2. rewrite Zpower_Qpower by exact H. reflexivity. Qed.

Lemma pow2_cancel a : pow2 a * pow2 (- a) == 1.
Proof. rewrite <- pow2_plus, Z.add_opp_diag_r. reflexivity. Qed.

(** *** Rounding to the nearest integer *)

Lemma round_half_even_floor q :
  (Qfloor q <= round_half_even q <= Qfloor q + 1)%Z.
Proof.
  unfold round_half_even.
  destruct (Qcompare _ _); [destruct (Z.even _)| |]; lia.
Qed.

Lemma round_half_even_error q :
  q - (1 # 2) <= inject_Z (round_half_even q) <= q + (1 # 2).
Proof.
  unfold round_half_even.
  pose proof (Qfloor_le q) as Hlo. pose proof (Qlt_floor q) as Hhi.
  rewrite inject_Z_plus in Hhi. change (inject_Z 1) with 1 in Hhi.
  destruct (Qcompare_spec (q - inject_Z (Qfloor q)) (1 # 2)) as [He|Hl|Hg];
    [destruct (Z.even _)| |];
    rewrite ?inject_Z_plus; change (inject_Z 1) with 1; lra.
Qed.

Lemma round_half_even_mono q1 q2 :
  q1 <= q2 -> (round_half_even q1 <= round_half_even q2)%Z.
Proof.
  intros Hle. pose proof (Qfloor_resp_le _ _ Hle) as Hf.
  destruct (Z.eq_dec (Qfloor q1) (Qfloor q2)) as [Heq|Hne].
  - unfold round_half_even. rewrite <- Heq.
    destruct (Qcompare_spec (q1 - inject_Z (Qfloor q1)) (1 # 2));
      destruct (Qcompare_spec (q2 - inject_Z (Qfloor q1)) (1 # 2));
      destruct (Z.even (Qfloor q1)); try lia; lra.
  - pose proof (round_half_even_floor q1). pose proof (round_half_even_floor q2).
    lia.
Qed.

Lemma round_half_even_Z z : round_half_even (inject_Z z) = z.
Proof.
  unfold round_half_even. rewrite Qfloor_Z.
  destruct (Qcompare_spec (inject_Z z - inject_Z z) (1 # 2)) as [He|Hl|Hg];
    [lra|reflexivity|lra].
Qed.

(** *** The binade of a positive number *)

Lemma frac_lt a b c d : 0 < b -> 0 < d -> a * d < c * b -> a / b < c / d.
Proof.
  intros Hb Hd H. apply Qlt_shift_div_r; [exact Hb|].
  assert (E : c / d * b == c * b / d) by (field; lra). rewrite E.
  apply Qlt_shift_div_l; assumption.
Qed.

Lemma frac_le a b c d : 0 < b -> 0 < d -> a * d <= c * b -> a / b <= c / d.
Proof.
  intros Hb Hd H. apply Qle_shift_div_r; [exact Hb|].
  assert (E : c / d * b == c * b / d) by (field; lra). rewrite E.
  apply Qle_shift_div_l; assumption.
Qed.

Lemma inject_Z_pos z : (0 < z)%Z -> 0 < inject_Z z.
Proof. intros H. unfold Qlt. simpl. lia. Qed.

Lemma inject_Z_nonzero z : z <> 0%Z -> ~ inject_Z z == 0.
Proof. intros H. unfold Qeq. simpl. lia. Qed.

Lemma pow2_log2_ratio n d :
  pow2 (Z.log2 n - Z.log2 d)
  == inject_Z (2 ^ Z.log2 n) / inject_Z (2 ^ Z.log2 d).
Proof.
  unfold Z.sub. rewrite pow2_plus.
  rewrite <- !pow2_inject_Z by apply Z.log2_nonneg.
  unfold pow2. rewrite Qpower_opp. reflexivity.
Qed.

Lemma binade_spec q :
  0 < q -> pow2 (binade q) <= q /\ q < pow2 (binade q + 1).
Proof.
  intros Hq. destruct q as [n d]. unfold binade. cbn [Qnum Qden].
  assert (Hn : (0 < n)%Z) by (unfold Qlt in Hq; simpl in Hq; lia).
  pose proof (Z.log2_spec n Hn) as [HnL HnU].
  pose proof (Z.log2_spec (Zpos d) (Pos2Z.is_pos d)) as [HdL HdU].
  rewrite Z.pow_succ_r in HnU, HdU by apply Z.log2_nonneg.
  set (ln := Z.log2 n) in *. set (ld := Z.log2 (Zpos d)) in *.
  assert (HA : (0 < 2 ^ ln)%Z) by (apply Z.pow_pos_nonneg; [lia|apply Z.log2_nonneg]).
  assert (HB : (0 < 2 ^ ld)%Z) by (apply Z.pow_pos_nonneg; [lia|apply Z.log2_nonneg]).
  assert (Hup : n # d < pow2 (ln - ld + 1)).
  { rewrite pow2_plus. unfold ln, ld. rewrite pow2_log2_ratio. fold ln ld.
    rewrite Qmake_Qdiv.
    assert (E : inject_Z (2 ^ ln) / inject_Z (2 ^ ld) * pow2 1
                == inject_Z (2 * 2 ^ ln) / inject_Z (2 ^ ld)).
    { rewrite inject_Z_mult. change (pow2 1) with 2.
      change (inject_Z 2) with 2. field.
      apply inject_Z_nonzero. lia. }
    rewrite E. apply frac_lt.
    - apply inject_Z_pos. lia.
    - apply inject_Z_pos. exact HB.
    - rewrite <- !inject_Z_mult, <- Zlt_Qlt.
      apply Z.lt_le_trans with (2 * 2 ^ ln * 2 ^ ld)%Z;
        [apply Z.mul_lt_mono_pos_r; lia|apply Z.mul_le_mono_nonneg_l; lia]. }
  assert (Hlo : pow2 (ln - ld - 1) <= n # d).
  { unfold Z.sub at 1. rewrite pow2_plus. fold (Z.sub ln ld).
    unfold ln, ld. rewrite pow2_log2_ratio. fold ln ld.
    rewrite Qmake_Qdiv.
    assert (E : inject_Z (2 ^ ln) / inject_Z (2 ^ ld) * pow2 (-1)
                == inject_Z (2 ^ ln) / inject_Z (2 * 2 ^ ld)).
    { rewrite inject_Z_mult. change (pow2 (-1)) with (/ 2).
      change (inject_Z 2) with 2. field.
      apply inject_Z_nonzero. lia. }
    rewrite E. apply frac_le.
    - apply inject_Z_pos. lia.
    - apply inject_Z_pos. lia.
    - rewrite <- !inject_Z_mult, <- Zle_Qle.
      apply Z.le_trans with (n * Z.pos d)%Z;
        [apply Z.mul_le_mono_nonneg_r; lia|apply Z.mul_le_mono_nonneg_l; lia]. }
  destruct (Qle_bool (pow2 (ln - ld)) (n # d)) eqn:Hb.
  - apply Qle_bool_iff in Hb. split; [exact Hb|exact Hup].
  - split; [exact Hlo|].
    replace (ln - ld - 1 + 1)%Z with (ln - ld)%Z by lia.
    apply Qnot_le_lt. intros Hc. apply Qle_bool_iff in Hc. congruence.
Qed.

Lemma binade_unique q e :
  pow2 e <= q -> q < pow2 (e + 1) -> binade q = e.
Proof.
  intros Hlo Hhi.
  assert (Hq : 0 < q) by (eapply Qlt_le_trans; [apply (pow2_pos e)|exact Hlo]).
  destruct (binade_spec q Hq) as [Hlo' Hhi'].
  assert (binade q < e + 1)%Z
    by (apply pow2_lt_inv; eapply Qle_lt_trans; eassumption).
  assert (e < binade q + 1)%Z
    by (apply pow2_lt_inv; eapply Qle_lt_trans; eassumption).
  lia.
Qed.

(** *** Rounding to 53 bits *)

(** A bound [c] that is a multiple of the spacing of the floats around
    [q] is respected by rounding. *)
Lemma round_pos_le_repr q c K :
  c * pow2 (52 - binade q) == inject_Z K -> q <= c -> round_pos q <= c.
Proof.
  intros HK Hle. unfold round_pos. set (e := binade q) in *.
  assert (Hy : q * pow2 (52 - e) <= inject_Z K).
  { rewrite <- HK. apply Qmult_le_compat_r; [exact Hle|].
    apply Qlt_le_weak, pow2_pos. }
  apply round_half_even_mono in Hy. rewrite round_half_even_Z in Hy.
  assert (Hc : c == inject_Z K * pow2 (e - 52)).
  { rewrite <- HK, <- Qmult_assoc, <- pow2_plus.
    replace (52 - e + (e - 52))%Z with 0%Z by lia.
    change (pow2 0) with 1. ring. }
  rewrite Hc. apply Qmult_le_compat_r; [|apply Qlt_le_weak, pow2_pos].
  rewrite <- Zle_Qle. exact Hy.
Qed.

Lemma round_pos_ge_repr q c K :
  c * pow2 (52 - binade q) == inject_Z K -> c <= q -> c <= round_pos q.
Proof.
  intros HK Hle. unfold round_pos. set (e := binade q) in *.
  assert (Hy : inject_Z K <= q * pow2 (52 - e)).
  { rewrite <- HK. apply Qmult_le_compat_r; [exact Hle|].
    apply Qlt_le_weak, pow2_pos. }
  apply round_half_even_mono in Hy. rewrite round_half_even_Z in Hy.
  assert (Hc : c == inject_Z K * pow2 (e - 52)).
  { rewrite <- HK, <- Qmult_assoc, <- pow2_plus.
    replace (52 - e + (e - 52))%Z with 0%Z by lia.
    change (pow2 0) with 1. ring. }
  rewrite Hc. apply Qmult_le_compat_r; [|apply Qlt_le_weak, pow2_pos].
  rewrite <- Zle_Qle. exact Hy.
Qed.

Lemma round_pos_bounds q :
  0 < q ->
  pow2 (binade q) <= round_pos q /\ round_pos q <= pow2 (binade q + 1).
Proof.
  intros Hq. destruct (binade_spec q Hq) as [Hlo Hhi]. split.
  - apply (round_pos_ge_repr q _ (2 ^ 52)); [|exact Hlo].
    rewrite <- pow2_plus. replace (binade q + (52 - binade q))%Z with 52%Z by lia.
    reflexivity.
  - apply (round_pos_le_repr q _ (2 ^ 53)); [|apply Qlt_le_weak, Hhi].
    rewrite <- pow2_plus.
    replace (binade q + 1 + (52 - binade q))%Z with 53%Z by lia.
    reflexivity.
Qed.

Lemma round_pos_mono q1 q2 :
  0 < q1 -> q1 <= q2 -> round_pos q1 <= round_pos q2.
Proof.
  intros Hq1 Hle.
  assert (Hq2 : 0 < q2) by (eapply Qlt_le_trans; eassumption).
  destruct (binade_spec q1 Hq1) as [Hlo1 Hhi1].
  destruct (binade_spec q2 Hq2) as [Hlo2 Hhi2].
  assert (He : (binade q1 < binade q2 + 1)%Z).
  { apply pow2_lt_inv. eapply Qle_lt_trans; [exact Hlo1|].
    eapply Qle_lt_trans; [exact Hle|exact Hhi2]. }
  destruct (Z.eq_dec (binade q1) (binade q2)) as [Heq|Hne].
  - unfold round_pos. rewrite Heq.
    apply Qmult_le_compat_r; [|apply Qlt_le_weak, pow2_pos].
    rewrite <- Zle_Qle. apply round_half_even_mono.
    apply Qmult_le_compat_r; [exact Hle|apply Qlt_le_weak, pow2_pos].
  - apply Qle_trans with (pow2 (binade q1 + 1)).
    + apply (round_pos_bounds q1 Hq1).
    + apply Qle_trans with (pow2 (binade q2)).
      * apply pow2_le. lia.
      * apply (round_pos_bounds q2 Hq2).
Qed.

(** The relative error of rounding is at most [2^-53]. *)
Lemma round_pos_error q :
  0 < q ->
  q - q * pow2 (-53) <= round_pos q /\ round_pos q <= q + q * pow2 (-53).
Proof.
  intros Hq. destruct (binade_spec q Hq) as [Hlo _].
  unfold round_pos. set (e := binade q) in *.
  pose proof (round_half_even_error (q * pow2 (52 - e))) as [HL HU].
  pose proof (pow2_pos (e - 52)) as Hp.
  apply (Qmult_le_compat_r _ _ (pow2 (e - 52))) in HL, HU;
    try (apply Qlt_le_weak, Hp).
  assert (E1 : q * pow2 (52 - e) * pow2 (e - 52) == q).
  { rewrite <- Qmult_assoc, <- pow2_plus.
    replace (52 - e + (e - 52))%Z with 0%Z by lia. change (pow2 0) with 1. ring. }
  assert (E2 : (1 # 2) * pow2 (e - 52) <= q * pow2 (-53)).
  { assert (E : (1 # 2) * pow2 (e - 52) == pow2 e * pow2 (-53)).
    { replace (e - 52)%Z with (e + (-53) + 1)%Z by lia.
      rewrite !pow2_plus. change (pow2 1) with 2. ring. }
    rewrite E. apply Qmult_le_compat_r; [exact Hlo|].
    apply Qlt_le_weak, pow2_pos. }
  set (R := inject_Z (round_half_even (q * pow2 (52 - e))) * pow2 (e - 52)) in *.
  set (y := q * pow2 (52 - e)) in *.
  assert (E3 : (y - (1 # 2)) * pow2 (e - 52) == q - (1 # 2) * pow2 (e - 52))
    by (rewrite <- E1; ring).
  assert (E4 : (y + (1 # 2)) * pow2 (e - 52) == q + (1 # 2) * pow2 (e - 52))
    by (rewrite <- E1; ring).
  rewrite E3 in HL. rewrite E4 in HU. split; lra.
Qed.

Lemma round64_pos q : 0 < q -> round64 q = round_pos q.
Proof. intros H. unfold round64. apply Qgt_alt in H. rewrite H. reflexivity. Qed.

Lemma round64_zero q : q == 0 -> round64 q = 0.
Proof. intros H. unfold round64. apply Qeq_alt in H. rewrite H. reflexivity. Qed.

Lemma round64_nonneg q : 0 <= q -> 0 <= round64 q.
Proof.
  intros H. destruct (Qlt_le_dec 0 q) as [Hpos|Hz].
  - rewrite (round64_pos q Hpos).
    eapply Qle_trans; [|apply (round_pos_bounds q Hpos)].
    apply Qlt_le_weak, pow2_pos.
  - rewrite round64_zero; [apply Qle_refl|]. apply Qle_antisym; assumption.
Qed.

(** The model and the primitive floats give the same quotient for all the
    lengths up to sixty. *)
Example truediv_agrees_with_primitive_floats :
  forallb
    (fun a =>
       forallb
         (fun b =>
            match primitive_truediv a (S b) with
            | Some q => Qeq_bool q (truediv a (S b))
            | None => false
            end)
         (seq 0 60))
    (seq 0 61) = true.
Proof. vm_compute. reflexivity. Qed.

Lemma round64_mono q1 q2 : 0 <= q1 -> q1 <= q2 -> round64 q1 <= round64 q2.
Proof.
  intros H1 Hle. destruct (Qlt_le_dec 0 q1) as [Hpos|Hz].
  - rewrite (round64_pos q1 Hpos).
    rewrite (round64_pos q2) by (eapply Qlt_le_trans; eassumption).
    apply round_pos_mono; assumption.
  - rewrite (round64_zero q1) by (apply Qle_antisym; assumption).
    apply round64_nonneg. eapply Qle_trans; eassumption.
Qed.

End binary64_facts.

(** ** Length check *)

Section length_check.
Import Binary64.
Local Open Scope Q_scope.

Lemma ltb_lt x y : ltb x y = true <-> x < y.
Proof.
  unfold ltb. rewrite Qlt_alt. destruct (x ?= y); split; congruence.
Qed.

Lemma inject_Z_le a b : (a <= b)%Z -> inject_Z a <= inject_Z b.
Proof. intros H. rewrite <- Zle_Qle. exact H. Qed.

Lemma Zpos_of_nat (n : nat) : (1 <= n)%nat -> Z.pos (Pos.of_nat n) = Z.of_nat n.
Proof. intros H. lia. Qed.

(** The exact quotient of two lengths, and what multiplying it back
    gives. *)
Lemma ratio_times (t o : nat) :
  (1 <= o)%nat ->
  (Z.of_nat t # Pos.of_nat o) * inject_Z (Z.of_nat o) == inject_Z (Z.of_nat t).
Proof.
  intros Ho. rewrite Qmake_Qdiv, (Zpos_of_nat o Ho). field.
  apply inject_Z_nonzero. lia.
Qed.

Lemma ratio_lt (t o : nat) (k : positive) :
  (1 <= o)%nat ->
  (Z.of_nat t # Pos.of_nat o) < 1 / inject_Z (Z.pos k)
  <-> (Pos.to_nat k * t < o)%nat.
Proof.
  intros Ho. unfold Qlt, Qdiv, Qmult, Qinv. cbn [Qnum Qden inject_Z].
  rewrite (Zpos_of_nat o Ho). lia.
Qed.

Lemma ratio_gt (t o : nat) (k : positive) :
  (1 <= o)%nat ->
  inject_Z (Z.pos k) < (Z.of_nat t # Pos.of_nat o)
  <-> (Pos.to_nat k * o < t)%nat.
Proof.
  intros Ho. unfold Qlt. cbn [Qnum Qden inject_Z].
  rewrite (Zpos_of_nat o Ho). lia.
Qed.

(** Rounding keeps a quotient of lengths on its side of a small integer
    [k]: the floats next to [k] are [k] apart from it by more than any
    quotient with a denominator below [2^51] can be from [k] without
    being equal to it. *)
Lemma truediv_gt (t o : nat) (k : positive) :
  (1 <= o)%nat -> (Z.pos k * Z.of_nat o < 2 ^ 53 - 1)%Z ->
  round64 (inject_Z (Z.pos k)) == inject_Z (Z.pos k) ->
  gtb (truediv t o) (inject_Z (Z.pos k)) = true
  <-> (Pos.to_nat k * o < t)%nat.
Proof.
  intros Ho Hb Hk. unfold gtb, truediv. rewrite ltb_lt.
  set (q := Z.of_nat t # Pos.of_nat o).
  pose proof (ratio_times t o Ho) as Hq. fold q in Hq.
  assert (HO : 0 < inject_Z (Z.of_nat o)) by (apply inject_Z_pos; lia).
  split.
  - intros Hlt. apply Nat.nle_gt. intros Hle.
    assert (Hqk : q <= inject_Z (Z.pos k)).
    { apply Qnot_lt_le. intros Hc. apply (ratio_gt t o k Ho) in Hc. lia. }
    assert (H0 : 0 <= q) by (unfold q, Qle; simpl; lia).
    pose proof (round64_mono _ _ H0 Hqk) as Hm. rewrite Hk in Hm.
    apply (Qlt_not_le _ _ Hlt Hm).
  - intros Hlt.
    assert (Hpos : 0 < q) by (unfold q, Qlt; simpl; lia).
    rewrite (round64_pos q Hpos).
    destruct (round_pos_error q Hpos) as [HL _].
    apply (Qmult_le_compat_r _ _ (inject_Z (Z.of_nat o))) in HL;
      [|apply Qlt_le_weak, HO].
    assert (E : (q - q * pow2 (-53)) * inject_Z (Z.of_nat o)
                == inject_Z (Z.of_nat t) - inject_Z (Z.of_nat t) * pow2 (-53))
      by (rewrite <- Hq; ring).
    rewrite E in HL. clear E.
    apply (Qmult_lt_r _ _ _ HO).
    pose proof (inject_Z_le (Z.pos k * Z.of_nat o + 1) (Z.of_nat t)
                  ltac:(lia)) as Ht.
    pose proof (inject_Z_le (Z.pos k * Z.of_nat o + 2) (2 ^ 53)
                  ltac:(lia)) as Hbq.
    rewrite inject_Z_plus, inject_Z_mult in Ht, Hbq.
    change (pow2 (-53)) with (1 # 9007199254740992) in HL.
    change (inject_Z (2 ^ 53)) with 9007199254740992 in Hbq.
    change (inject_Z 1) with 1 in Ht. change (inject_Z 2) with 2 in Hbq.
    set (T := inject_Z (Z.of_nat t)) in *.
    set (KO := inject_Z (Z.pos k) * inject_Z (Z.of_nat o)) in *.
    set (RO := round_pos q * inject_Z (Z.of_nat o)) in *.
    lra.
Qed.

Lemma truediv_lt_third (t o : nat) :
  (1 <= o)%nat -> (Z.of_nat o < 2 ^ 51)%Z ->
  ltb (truediv t o) (fdiv 1 3) = true <-> (3 * t < o)%nat.
Proof.
  intros Ho Hb. unfold truediv, fdiv. rewrite ltb_lt.
  set (q := Z.of_nat t # Pos.of_nat o).
  pose proof (ratio_times t o Ho) as Hq. fold q in Hq.
  assert (HO : 0 < inject_Z (Z.of_nat o)) by (apply inject_Z_pos; lia).
  assert (H0 : 0 <= q) by (unfold q, Qle; simpl; lia).
  split.
  - intros Hlt. apply Nat.nle_gt. intros Hle.
    assert (Hqk : 1 / 3 <= q).
    { apply Qnot_lt_le. intros Hc. apply (ratio_lt t o 3 Ho) in Hc. lia. }
    pose proof (round64_mono (1 / 3) q ltac:(discriminate) Hqk) as Hm.
    apply (Qlt_not_le _ _ Hlt Hm).
  - intros Hlt.
    assert (Hc : round64 (1 / 3) = 6004799503160661 # 18014398509481984)
      by (vm_compute; reflexivity).
    rewrite Hc. clear Hc.
    destruct (Nat.eq_dec t 0%nat) as [->|Ht0].
    { rewrite round64_zero; [reflexivity|]. unfold q, Qeq. simpl. lia. }
    assert (Hpos : 0 < q) by (unfold q, Qlt; simpl; lia).
    rewrite (round64_pos q Hpos).
    destruct (round_pos_error q Hpos) as [_ HU].
    apply (Qmult_le_compat_r _ _ (inject_Z (Z.of_nat o))) in HU;
      [|apply Qlt_le_weak, HO].
    assert (E : (q + q * pow2 (-53)) * inject_Z (Z.of_nat o)
                == inject_Z (Z.of_nat t) + inject_Z (Z.of_nat t) * pow2 (-53))
      by (rewrite <- Hq; ring).
    rewrite E in HU. clear E.
    apply (Qmult_lt_r _ _ _ HO).
    pose proof (inject_Z_le (3 * Z.of_nat t + 1) (Z.of_nat o) ltac:(lia)) as Ht.
    pose proof (inject_Z_le (Z.of_nat o) (2 ^ 51) ltac:(lia)) as Hbq.
    rewrite inject_Z_plus, inject_Z_mult in Ht.
    change (pow2 (-53)) with (1 # 9007199254740992) in HU.
    change (inject_Z (2 ^ 51)) with 2251799813685248 in Hbq.
    change (inject_Z 1) with 1 in Ht. change (inject_Z 3) with 3 in Ht.
    set (T := inject_Z (Z.of_nat t)) in *.
    set (O := inject_Z (Z.of_nat o)) in *.
    set (RO := round_pos q * O) in *.
    lra.
Qed.

Lemma truediv_lt_fifth (t o : nat) :
  (1 <= o <= 5)%nat ->
  ltb (truediv t o) (fdiv 1 5) = true <-> (5 * t < o)%nat.
Proof.
  intros Ho. unfold truediv, fdiv. rewrite ltb_lt.
  set (q := Z.of_nat t # Pos.of_nat o).
  assert (H0 : 0 <= q) by (unfold q, Qle; simpl; lia).
  split.
  - intros Hlt. apply Nat.nle_gt. intros Hle.
    assert (Hqk : 1 / 5 <= q).
    { apply Qnot_lt_le. intros Hc. apply (ratio_lt t o 5) in Hc; lia. }
    pose proof (round64_mono (1 / 5) q ltac:(discriminate) Hqk) as Hm.
    apply (Qlt_not_le _ _ Hlt Hm).
  - intros Hlt. assert (t = 0)%nat as -> by lia.
    rewrite round64_zero; [reflexivity|]. unfold q, Qeq. simpl. lia.
Qed.

End length_check.

(** C7. For a source text that is not empty, the length check adds exactly
    one warning, and never an error, when the ratio of the length of the
    translation to the length of the source lies outside
    [1/tolerance, tolerance], and nothing when it lies inside, where the
    tolerance is 5 for a source of at most 5 characters and 3 otherwise;
    for an empty source it adds nothing; the result is valid in every case.
    The ratio is computed in binary64: the statement is for sources shorter
    than 2^51 characters, where rounding cannot move the ratio across a
    bound. *)
Theorem length_check_warns_outside_tolerance :
  ∀ original translated : list N,
    (Z.of_nat (length original) < 2 ^ 51)%Z →
    let result := validate_length original translated default_tolerance in
    let tolerance : Q := if length original <=? 5 then 5%Q else 3%Q in
    let ratio : Q :=
      Z.of_nat (length translated) # Pos.of_nat (length original) in
    is_valid result = true ∧ errors result = []
    ∧ (original = [] → warnings result = [])
    ∧ (original ≠ [] →
         ((ratio < 1 / tolerance)%Q ∨ (tolerance < ratio)%Q →
            warnings result =
              [length_warning_msg
                 (Binary64.truediv (length translated) (length original))
                 original translated])
         ∧ ((1 / tolerance <= ratio)%Q ∧ (ratio <= tolerance)%Q →
              warnings result = [])).
Proof.
  intros original translated Hbound result tolerance ratio.
  destruct (validate_length_valid original translated default_tolerance)
    as [Hv He].
  split_and!; [exact Hv|exact He|by intros ->|].
  intros Hne.
  assert (Ho : 1 <= length original) by (destruct original; [done|simpl; lia]).
  subst result. unfold validate_length, default_tolerance.
  replace (Nat.eqb (length original) 0) with false
    by (symmetry; apply Nat.eqb_neq; lia).
  fold tolerance. simpl.
  set (t := length translated) in *. set (o := length original) in *.
  assert (Hcond :
    Binary64.ltb (Binary64.truediv t o) (Binary64.fdiv 1 tolerance)
    || Binary64.gtb (Binary64.truediv t o) tolerance = true
    ↔ (ratio < 1 / tolerance)%Q ∨ (tolerance < ratio)%Q).
  { rewrite orb_true_iff. subst tolerance ratio.
    destruct (Nat.leb_spec o 5) as [H5|H5].
    - rewrite (truediv_lt_fifth t o) by lia.
      rewrite (truediv_gt t o 5 Ho) by (try lia; vm_compute; reflexivity).
      rewrite (ratio_lt t o 5 Ho), (ratio_gt t o 5 Ho). done.
    - rewrite (truediv_lt_third t o Ho Hbound).
      rewrite (truediv_gt t o 3 Ho) by (try lia; vm_compute; reflexivity).
      rewrite (ratio_lt t o 3 Ho), (ratio_gt t o 3 Ho). done. }
  split.
  - intros Hout. apply Hcond in Hout. by rewrite Hout.
  - intros [Hlo Hhi].
    match type of Hcond with
    | ?c = true ↔ _ => assert (Hf : c = false)
    end.
    { apply not_true_is_false. intros Hc.
      apply Hcond in Hc as [Hc|Hc]; by apply Qlt_not_le in Hc. }
    by rewrite Hf.
Qed.

Lemma length_check_warns_outside_tolerance_witness :
  warnings (validate_length (pystr "Hello")
              (pystr "Bonjour tout le monde, bienvenue") default_tolerance)
  = [pystr "Translation length ratio 6.40 may be unusual (original: 5 chars, translated: 32 chars)"].
Proof.
  destruct (length_check_warns_outside_tolerance (pystr "Hello")
              (pystr "Bonjour tout le monde, bienvenue"))
    as (_ & _ & _ & H); [vm_compute; reflexivity|].
  destruct H as [H _]; [vm_compute; discriminate|].
  rewrite H; [vm_compute; reflexivity|].
  right. vm_compute. reflexivity.
Defined.

(** The bound on the length of the source in the statement above cannot be
    dropped: a source of [3 * 2^60 + 1] characters with a translation of
    [2^60] characters has a ratio below [1/3] that rounds to the float
    [1/3.0], and the comparison of the check does not see it. *)
Remark rounding_hides_ratio_of_huge_lengths :
  let t := (2 ^ 60)%Z in
  let o := (3 * 2 ^ 60 + 1)%positive in
  (t # o < 1 / 3)%Q
  ∧ Binary64.ltb (Binary64.round64 (t # o)) (Binary64.fdiv 1 3) = false.
Proof. split; vm_compute; reflexivity. Qed.

(** ** Translation engine *)

Section engine_facts.
Variable term_order : list (list N).
Variable provider : nat -> request -> response.

Implicit Types (e : engine) (tasks : list TranslationTask).
Implicit Types (results : list translation_result).

Lemma omap_cons_match {A B} (f : A -> option B) x l :
  omap f (x :: l)
  = match f x with Some y => y :: omap f l | None => omap f l end.
Proof. reflexivity. Qed.

Lemma check_cache_spec cache tasks :
  check_cache term_order cache tasks
  = (omap (hit_of term_order cache) tasks,
     filter (fun task => cache !! cache_key task = None) tasks).
Proof.
  unfold check_cache.
  enough (H : ∀ results uncached,
    fold_left
      (fun '(results, uncached_tasks) task =>
         match cache !! cache_key task with
         | Some translated =>
             (results ++ [(task, translated,
                           validate_translation term_order task translated)],
              uncached_tasks)
         | None => (results, uncached_tasks ++ [task])
         end) tasks (results, uncached)
    = (results ++ omap (hit_of term_order cache) tasks,
       uncached ++ filter (fun task => cache !! cache_key task = None) tasks))
    by apply (H [] []).
  induction tasks as [|task tasks IH]; intros results uncached.
  - simpl. by rewrite !app_nil_r.
  - cbn [fold_left]. rewrite omap_cons_match. unfold hit_of at 1.
    destruct (cache !! cache_key task) as [translated|] eqn:Hc; cbn [fmap option_fmap option_map].
    + rewrite IH, filter_cons_False by congruence. by rewrite <- app_assoc.
    + rewrite IH, filter_cons_True by done. by rewrite <- app_assoc.
Qed.

Lemma for_each_cons {S A B} (x : A) xs (acc : B) (body : B -> A -> M S B) s :
  for_each (x :: xs) acc body s
  = match body acc x s with
    | (Returned acc', s') => for_each xs acc' body s'
    | (Raised ex, s') => (Raised ex, s')
    end.
Proof. reflexivity. Qed.

Lemma process_item_spec attempt max_retries results pair e :
  process_item term_order attempt max_retries results pair e
  = if kept term_order attempt max_retries pair
    then (Returned (results ++ [result_of term_order pair]),
          mkEngine (<[cache_key pair.1 := pair.2.2]> (translation_cache e))
            (trace e))
    else (Returned results,
          mkEngine (translation_cache e)
            (trace e
               ++ [LogValidationFailed (key pair.1)
                     (errors (validate_translation term_order pair.1 pair.2.2));
                   Sleep 1])).
Proof.
  destruct pair as [task item]. unfold process_item, kept, result_of.
  cbn [fst snd].
  destruct (is_valid _); [|destruct (_ <? _)%Z]; cbn [negb andb orb];
    try reflexivity.
  cbv [mbind M_bind emit modify mret M_ret]. cbn [translation_cache trace].
  by rewrite <- app_assoc.
Qed.

(** The loop over one parsed response returns, keeps the kept items in
    order, writes the cache at their keys only, and calls nobody. *)
Lemma process_translations_spec attempt max_retries pairs results e :
  ∃ e',
    process_translations term_order attempt max_retries pairs results e
    = (Returned (results ++ (result_of term_order <$> List.filter (kept term_order attempt max_retries) pairs)),
       e')
    ∧ (∀ k, k ∉ (cache_key ∘ fst) <$> List.filter (kept term_order attempt max_retries) pairs →
            translation_cache e' !! k = translation_cache e !! k)
    ∧ (∀ pair, pair ∈ List.filter (kept term_order attempt max_retries) pairs →
            is_Some (translation_cache e' !! cache_key pair.1))
    ∧ ∃ new, trace e' = trace e ++ new ∧ Forall (fun ev => is_call ev = false) new.
Proof.
  revert results e. induction pairs as [|[task item] pairs IH];
    intros results e.
  - exists e. simpl. rewrite !app_nil_r. split_and!; try done.
    + intros pair H. by apply elem_of_nil in H.
    + exists []. by rewrite app_nil_r.
  - unfold process_translations in *.
    rewrite for_each_cons, process_item_spec. cbn [List.filter].
    destruct (kept term_order attempt max_retries (task, item)) eqn:Hkept; cbn [fst snd].
    + (* valid, or invalid at the last attempt: stored and kept *)
      destruct (IH (results ++ [result_of term_order (task, item)])
                   (mkEngine (<[cache_key task := item.2]> (translation_cache e))
                      (trace e))) as (e' & Hrun & Hframe & Hin & new & Htr & Hnew).
      exists e'. split_and!.
      * rewrite Hrun. by rewrite <- app_assoc.
      * intros k Hk. rewrite fmap_cons in Hk.
        apply not_elem_of_cons in Hk as [Hk1 Hk2].
        rewrite (Hframe k Hk2). simpl. by rewrite lookup_insert_ne.
      * intros pair [->|Hp]%elem_of_cons; [|by apply Hin]. simpl.
        destruct (decide (cache_key task ∈ (cache_key ∘ fst) <$>
                            List.filter (kept term_order attempt max_retries) pairs))
          as [Hi|Hi].
        -- apply list_elem_of_fmap in Hi as (pair & Hk & Hp). rewrite Hk.
           by apply Hin.
        -- rewrite (Hframe _ Hi). simpl. rewrite lookup_insert_eq. eauto.
      * exists new. done.
    + (* invalid with attempts left: skipped after a delay *)
      destruct (IH results
                   (mkEngine (translation_cache e)
                      (trace e ++ [LogValidationFailed (key task)
                                     (errors (validate_translation term_order task item.2));
                                   Sleep 1])))
        as (e' & Hrun & Hframe & Hin & new & Htr & Hnew).
      exists e'. split_and!; try done.
      exists ([LogValidationFailed (key task)
                 (errors (validate_translation term_order task item.2)); Sleep 1] ++ new).
      split.
      * rewrite Htr. simpl. by rewrite <- !app_assoc.
      * by repeat constructor.
Qed.

Lemma attempt_loop_cons attempt later max_retries r uncached results e :
  attempt_loop term_order provider (attempt :: later) max_retries r uncached
    results e
  = let e1 := mkEngine (translation_cache e) (trace e ++ [Call r]) in
    match provider (calls_made (trace e)) r with
    | Parsed translations =>
        process_translations term_order attempt max_retries
          (zip uncached translations) results e1
    | Unparsed =>
        attempt_loop term_order provider later max_retries r uncached results e1
    | CallFails =>
        if (attempt <? max_retries - 1)%Z then
          attempt_loop term_order provider later max_retries r uncached results
            (mkEngine (translation_cache e)
               (trace e ++ [Call r; LogAttemptFailed (attempt + 1);
                            Sleep (2 ^ attempt)]))
        else
          (Raised ProviderFailure,
           mkEngine (translation_cache e)
             (trace e ++ [Call r; LogAttemptFailed (attempt + 1)]))
    end.
Proof.
  cbn [attempt_loop]. unfold call_provider.
  cbv [mbind M_bind gets emit modify mret M_ret raise].
  cbn [translation_cache trace].
  destruct (provider (calls_made (trace e)) r); try reflexivity.
  destruct (attempt <? max_retries - 1)%Z; cbn [translation_cache trace];
    by rewrite <- !app_assoc.
Qed.

Lemma zip_fst_elem_of {A B} (l : list A) (k : list B) x :
  x ∈ zip l k → x.1 ∈ l.
Proof.
  revert k. induction l as [|a l IH]; intros [|b k] H; simpl in H;
    try by apply elem_of_nil in H.
  apply elem_of_cons in H as [->|H]; [left|right; eauto].
Qed.

(** The attempts write the cache at keys of the uncached tasks only, and
    every call they make carries the same request. *)
Lemma attempt_loop_frame attempts max_retries r uncached results e :
  let e' := (attempt_loop term_order provider attempts max_retries r
               uncached results e).2 in
  (∀ k, k ∉ cache_key <$> uncached →
        translation_cache e' !! k = translation_cache e !! k)
  ∧ ∃ new, trace e' = trace e ++ new
           ∧ Forall (fun ev => is_call ev = true → ev = Call r) new.
Proof.
  revert results e. induction attempts as [|attempt later IH];
    intros results e; cbv zeta.
  - simpl. split; [done|]. exists []. by rewrite app_nil_r.
  - rewrite attempt_loop_cons. cbv zeta.
    destruct (provider (calls_made (trace e)) r) as [| |translations].
    + destruct (attempt <? max_retries - 1)%Z.
      * destruct (IH results
                    (mkEngine (translation_cache e)
                       (trace e ++ [Call r; LogAttemptFailed (attempt + 1);
                                    Sleep (2 ^ attempt)])))
          as (Hframe & new & Htr & Hnew).
        split; [exact Hframe|].
        exists ([Call r; LogAttemptFailed (attempt + 1); Sleep (2 ^ attempt)] ++ new).
        split; [rewrite Htr; simpl; by rewrite <- app_assoc|].
        apply Forall_app. split; [|done]. by repeat constructor.
      * simpl. split; [done|].
        exists [Call r; LogAttemptFailed (attempt + 1)]. split; [done|].
        by repeat constructor.
    + destruct (IH results
                  (mkEngine (translation_cache e) (trace e ++ [Call r])))
        as (Hframe & new & Htr & Hnew).
      split; [exact Hframe|].
      exists ([Call r] ++ new).
      split; [rewrite Htr; simpl; by rewrite <- app_assoc|].
      apply Forall_app. split; [|done]. by repeat constructor.
    + destruct (process_translations_spec attempt max_retries
                  (zip uncached translations) results
                  (mkEngine (translation_cache e) (trace e ++ [Call r])))
        as (e' & Hrun & Hframe & _ & new & Htr & Hnew).
      rewrite Hrun. cbn [snd]. split.
      * intros k Hk. rewrite Hframe; [done|].
        intros Hin. apply Hk.
        apply list_elem_of_fmap in Hin as (pair & -> & Hp).
        apply list_elem_of_fmap. exists pair.1. split; [done|].
        apply list_elem_of_In, filter_In in Hp as [Hp _].
        apply list_elem_of_In in Hp. by eapply zip_fst_elem_of.
      * exists ([Call r] ++ new).
        split; [rewrite Htr; simpl; by rewrite <- app_assoc|].
        apply Forall_app. split; [by repeat constructor|].
        eapply Forall_impl; [exact Hnew|]. simpl. congruence.
Qed.

Lemma translate_batch_cons first rest max_retries e :
  translate_batch term_order provider (first :: rest) max_retries e
  = let hits := omap (hit_of term_order (translation_cache e)) (first :: rest) in
    let uncached :=
      filter (fun task => translation_cache e !! cache_key task = None)
        (first :: rest) in
    match uncached with
    | [] => (Returned hits, e)
    | _ :: _ =>
        attempt_loop term_order provider (range max_retries) max_retries
          (build_request (locale first) (file_name first) uncached)
          uncached hits e
    end.
Proof.
  unfold translate_batch. unfold mbind at 1, M_bind at 1, gets at 1.
  rewrite check_cache_spec. cbv zeta.
  by destruct (filter _ (first :: rest)).
Qed.

(** A call of [translate_batch] leaves every stored entry as it is, and
    the requests it sends carry the tasks that miss the cache, all of
    them and nothing else. *)
Lemma translate_batch_frame tasks max_retries e :
  let e' := (translate_batch term_order provider tasks max_retries e).2 in
  translation_cache e ⊆ translation_cache e'
  ∧ ∃ new, trace e' = trace e ++ new
           ∧ ∀ r, Call r ∈ new →
               req_items r =
                 (fun task => (key task, english_value task)) <$>
                 filter (fun task =>
                           translation_cache e !! cache_key task = None) tasks.
Proof.
  cbv zeta. destruct tasks as [|first rest].
  { simpl. split; [done|]. exists []. rewrite app_nil_r. split; [done|].
    intros r H. by apply elem_of_nil in H. }
  rewrite translate_batch_cons. cbv zeta.
  set (uncached := filter _ (first :: rest)).
  assert (Hmiss : ∀ task, task ∈ uncached →
                    translation_cache e !! cache_key task = None).
  { intros task Ht. by apply list_elem_of_filter in Ht as [Ht _]. }
  destruct (attempt_loop_frame (range max_retries) max_retries
              (build_request (locale first) (file_name first) uncached)
              uncached (omap (hit_of term_order (translation_cache e)) (first :: rest)) e)
    as (Hframe & new & Htr & Hnew).
  clearbody uncached. destruct uncached as [|u us].
  { simpl. split; [done|]. exists []. rewrite app_nil_r. split; [done|].
    intros r H. by apply elem_of_nil in H. }
  split.
  - apply map_subseteq_spec. intros k v Hk. rewrite Hframe; [done|].
    intros Hin. apply list_elem_of_fmap in Hin as (task & -> & Ht).
    rewrite (Hmiss task Ht) in Hk. done.
  - exists new. split; [done|]. intros r Hr.
    rewrite Forall_forall in Hnew. specialize (Hnew _ Hr eq_refl).
    by injection Hnew as ->.
Qed.

End engine_facts.

Section engine_claims.
Variable term_order : list (list N).
Variable provider : nat -> request -> response.


Lemma all_cached_partition (cache : gmap (list N * list N * list N) (list N))
    (l : list TranslationTask) :
  Forall (fun task => is_Some (cache !! cache_key task)) l →
  filter (fun task => cache !! cache_key task = None) l = []
  ∧ omap (hit_of term_order cache) l
    = (fun task =>
         let translated := default [] (cache !! cache_key task) in
         (task, translated, validate_translation term_order task translated))
      <$> l.
Proof.
  induction 1 as [|task l [v Hv] _ [IH1 IH2]]; [done|].
  rewrite filter_cons_False by congruence.
  rewrite omap_cons_match, fmap_cons. unfold hit_of at 1. rewrite Hv. simpl.
  by rewrite IH1, IH2.
Qed.

Lemma all_hits_no_call tasks max_retries e :
  Forall (fun task => is_Some (translation_cache e !! cache_key task)) tasks →
  translate_batch term_order provider tasks max_retries e
  = (Returned
       ((fun task =>
           let translated :=
             default [] (translation_cache e !! cache_key task) in
           (task, translated,
            validate_translation term_order task translated)) <$> tasks),
     e).
Proof.
  intros Hall. destruct tasks as [|first rest]; [done|].
  rewrite translate_batch_cons. cbv zeta.
  destruct (all_cached_partition (translation_cache e) (first :: rest) Hall)
    as [-> ->]. done.
Qed.

Lemma range_cons n : (1 <= n)%Z → ∃ later, range n = 0%Z :: later.
Proof.
  intros H. unfold range. destruct (Z.to_nat n) as [|m] eqn:Hm; [lia|].
  simpl. eauto.
Qed.

Lemma calls_made_app (t1 t2 : list event) :
  calls_made (t1 ++ t2) = calls_made t1 + calls_made t2.
Proof. unfold calls_made. by rewrite List.filter_app, length_app. Qed.

Lemma calls_made_none (t : list event) :
  Forall (fun ev => is_call ev = false) t → calls_made t = 0.
Proof.
  unfold calls_made. induction 1 as [|ev t Hev _ IH]; [done|].
  simpl. by rewrite Hev.
Qed.

(** When the answer to the first request is parsed, the batch ends
    there: one call, and the results are the hits followed by the items
    kept from that answer. *)
Lemma parsed_response_is_final first rest max_retries e translations :
  let tasks := first :: rest in
  let uncached :=
    filter (fun task => translation_cache e !! cache_key task = None) tasks in
  uncached ≠ [] → (1 <= max_retries)%Z →
  provider (calls_made (trace e))
    (build_request (locale first) (file_name first) uncached)
  = Parsed translations →
  let run := translate_batch term_order provider tasks max_retries e in
  run.1 = Returned
            (omap (hit_of term_order (translation_cache e)) tasks
             ++ (result_of term_order <$>
                 List.filter (kept term_order 0 max_retries)
                   (zip uncached translations)))
  ∧ calls_made (trace run.2) = calls_made (trace e) + 1.
Proof.
  intros tasks uncached Hne Hmax Hresp run. subst run tasks.
  rewrite translate_batch_cons. cbv zeta. fold uncached.
  destruct uncached as [|u us] eqn:Hu; [done|]. rewrite <- Hu in *.
  destruct (range_cons max_retries Hmax) as [later ->].
  rewrite attempt_loop_cons. cbv zeta. rewrite Hresp.
  destruct (process_translations_spec term_order 0 max_retries
              (zip uncached translations)
              (omap (hit_of term_order (translation_cache e)) (first :: rest))
              (mkEngine (translation_cache e)
                 (trace e ++ [Call (build_request (locale first)
                                      (file_name first) uncached)])))
    as (e' & Hrun & _ & _ & new & Htr & Hnew).
  rewrite Hrun. cbn [fst snd]. split; [done|].
  rewrite Htr. cbn [trace]. rewrite !calls_made_app, (calls_made_none new Hnew).
  unfold calls_made at 2. simpl. lia.
Qed.

End engine_claims.

(** C3 (the code departs from the claim). When the answer to a request is
    parsed and a second attempt would be allowed, [translate_batch] makes no
    second request: it returns after that single call, and its results are
    the cache hits followed by the valid items of the answer only. An item
    that fails validation is passed over after the delay, and is neither
    returned nor stored. *)
Theorem invalid_item_dropped_without_retry :
  ∀ (term_order : list (list N)) (provider : nat → request → response)
    (first : TranslationTask) (rest : list TranslationTask) (max_retries : Z)
    (e : engine) (translations : list (list N * list N)),
    let tasks := first :: rest in
    let uncached :=
      filter (fun task => translation_cache e !! cache_key task = None) tasks in
    uncached ≠ [] → (2 <= max_retries)%Z →
    provider (calls_made (trace e))
      (build_request (locale first) (file_name first) uncached)
    = Parsed translations →
    let run := translate_batch term_order provider tasks max_retries e in
    run.1 = Returned
              (omap (hit_of term_order (translation_cache e)) tasks
               ++ (result_of term_order <$>
                   List.filter
                     (fun pair =>
                        is_valid (validate_translation term_order pair.1 pair.2.2))
                     (zip uncached translations)))
    ∧ calls_made (trace run.2) = calls_made (trace e) + 1.
Proof.
  intros term_order provider first rest max_retries e translations tasks
    uncached Hne Hmax Hresp run.
  destruct (parsed_response_is_final term_order provider first rest max_retries
              e translations Hne ltac:(lia) Hresp) as [Hres Hcalls].
  split; [|exact Hcalls]. subst run tasks. rewrite Hres. do 3 f_equal.
  apply List.filter_ext. intros pair. unfold kept.
  replace (0 <? max_retries - 1)%Z with true by (symmetry; apply Z.ltb_lt; lia).
  by rewrite orb_false_r.
Qed.

Lemma invalid_item_dropped_without_retry_witness :
  (translate_batch technical_terms careless_provider [greet_task] 3
     fresh_engine).1 = Returned []
  ∧ calls_made
      (trace (translate_batch technical_terms careless_provider [greet_task] 3
                fresh_engine).2) = 1.
Proof.
  destruct (invalid_item_dropped_without_retry technical_terms
              careless_provider greet_task [] 3 fresh_engine
              [(pystr "greet", pystr "Bonjour")]) as [Hres Hcalls].
  - vm_compute. discriminate.
  - lia.
  - reflexivity.
  - split; [rewrite Hres; vm_compute; reflexivity|rewrite Hcalls; reflexivity].
Defined.

(** At the last attempt an item that fails validation is returned with its
    failed validation, and stored. *)
Example invalid_item_returned_at_last_attempt :
  (translate_batch technical_terms careless_provider [greet_task] 1
     fresh_engine).1
  = Returned
      [(greet_task, pystr "Bonjour",
        mkValidation false
          [pystr "Missing placeholder {{name}} in translation"] [])].
Proof. vm_compute. reflexivity. Qed.



(** ** Locale analyzer *)

Section analyzer_facts.

Implicit Types (w : world) (tasks : list TranslationTask).
Implicit Types (ref target : PyDict.dict (list N) (list N)).

Lemma NoDup_keys_unique {K V} (d : list (K * V)) k v1 v2 :
  NoDup (d.*1) → (k, v1) ∈ d → (k, v2) ∈ d → v1 = v2.
Proof.
  induction d as [|[k' v'] d IH]; intros Hnd H1 H2.
  - by apply elem_of_nil in H1.
  - rewrite fmap_cons in Hnd. apply NoDup_cons in Hnd as [Hnotin Hnd].
    apply elem_of_cons in H1 as [H1|H1];
      apply elem_of_cons in H2 as [H2|H2]; simplify_eq; try done.
    + exfalso. apply Hnotin. apply list_elem_of_fmap.
      eexists. split; [|exact H2]. done.
    + exfalso. apply Hnotin. apply list_elem_of_fmap.
      eexists. split; [|exact H1]. done.
    + eauto.
Qed.

Lemma missing_file_fold locale file_name ref tasks :
  fold_left
    (fun tasks '(key, value) =>
       tasks ++ [mkTask locale file_name key value true]) ref tasks
  = tasks ++ omap (task_for locale file_name None) ref.
Proof.
  revert tasks. induction ref as [|[k v] ref IH]; intros tasks.
  - simpl. by rewrite app_nil_r.
  - cbn [fold_left]. rewrite IH, omap_cons_match. simpl.
    by rewrite <- app_assoc.
Qed.

Lemma present_file_fold locale file_name target ref tasks :
  fold_left
    (fun tasks '(key, value) =>
       if negb (PyDict.contains target key) then
         tasks ++ [mkTask locale file_name key value true]
       else if bool_decide (PyDict.get target key = Some [])
       then tasks ++ [mkTask locale file_name key value false]
       else tasks) ref tasks
  = tasks ++ omap (task_for locale file_name (Some target)) ref.
Proof.
  revert tasks. induction ref as [|[k v] ref IH]; intros tasks.
  - simpl. by rewrite app_nil_r.
  - cbn [fold_left]. rewrite IH, omap_cons_match.
    unfold PyDict.contains. cbn [task_for].
    destruct (PyDict.get target k) as [[|c value]|]; simpl;
      by rewrite <- ?app_assoc.
Qed.

(** One reference file: the tasks of its entries, in order; the world is
    only read. A directory or a file that is not JSON in the place of the
    locale file makes the read fail. *)
Lemma analyze_file_spec locale locale_dir tasks file_name ref w :
  analyze_file locale locale_dir tasks (file_name, ref) w
  = match lookup_node w (joinpath locale_dir file_name) with
    | Some Dir => (Raised IsADirectoryError, w)
    | Some NotJson => (Raised JSONDecodeError, w)
    | _ =>
        (Returned
           (tasks ++ omap (task_for locale file_name
                             (target_of w (joinpath locale_dir file_name))) ref),
         w)
    end.
Proof.
  unfold analyze_file, target_of, path_exists, read_json, PyDict.items.
  unfold mbind at 1, M_bind at 1, gets at 1.
  destruct (lookup_node w (joinpath locale_dir file_name)) as [[target| |]|]
    eqn:Hl; cbn [negb].
  - unfold mbind at 1, M_bind at 1. unfold mbind at 1, M_bind at 1, gets at 1.
    rewrite Hl. unfold mret, M_ret. by rewrite present_file_fold.
  - unfold mbind at 1, M_bind at 1. unfold mbind at 1, M_bind at 1, gets at 1.
    by rewrite Hl.
  - unfold mbind at 1, M_bind at 1. unfold mbind at 1, M_bind at 1, gets at 1.
    by rewrite Hl.
  - unfold mret, M_ret. by rewrite missing_file_fold.
Qed.

Lemma analyze_files_spec locale locale_dir files tasks w :
  (∀ file_name ref, (file_name, ref) ∈ files →
     readable (lookup_node w (joinpath locale_dir file_name))) →
  for_each files tasks (analyze_file locale locale_dir) w
  = (Returned
       (tasks ++
        mbind (fun '(file_name, ref) =>
                 omap (task_for locale file_name
                         (target_of w (joinpath locale_dir file_name))) ref)
          files),
     w).
Proof.
  revert tasks. induction files as [|[file_name ref] files IH];
    intros tasks Hfiles.
  - simpl. by rewrite app_nil_r.
  - rewrite for_each_cons, analyze_file_spec.
    pose proof (Hfiles file_name ref ltac:(left)) as [Hnd Hnj].
    destruct (lookup_node w (joinpath locale_dir file_name)) as [[target| |]|]
      eqn:Hl; [|done|done|].
    all: rewrite IH by (intros f r Hf; apply (Hfiles f r); by right).
    all: by rewrite bind_cons, <- app_assoc.
Qed.

(** The analysis of a locale whose directory exists and none of whose
    locale files is a directory. *)
Lemma analyze_locale_spec self locale w :
  let locale_dir := joinpath (locales_dir self) locale in
  is_Some (lookup_node w locale_dir) →
  (∀ file_name ref, (file_name, ref) ∈ english_data self →
     readable (lookup_node w (joinpath locale_dir file_name))) →
  analyze_locale self locale w
  = (Returned
       (mbind (fun '(file_name, ref) =>
                 omap (task_for locale file_name
                         (target_of w (joinpath locale_dir file_name))) ref)
          (english_data self)),
     w).
Proof.
  intros locale_dir [n Hn] Hfiles. unfold analyze_locale, path_exists.
  unfold mbind at 1, M_bind at 1, gets at 1. fold locale_dir. rewrite Hn.
  cbn [negb]. unfold PyDict.items.
  by rewrite (analyze_files_spec locale locale_dir _ [] w Hfiles).
Qed.

Lemma analyze_locale_no_dir self locale w :
  lookup_node w (joinpath (locales_dir self) locale) = None →
  analyze_locale self locale w
  = (Returned [],
     mkWorld (fs w)
       (log w ++ [WarnLocaleDirNotFound (joinpath (locales_dir self) locale)])).
Proof.
  intros Hn. unfold analyze_locale, path_exists.
  unfold mbind at 1, M_bind at 1, gets at 1. by rewrite Hn.
Qed.

(** Membership in the tasks of an analysis. *)
Lemma elem_of_analysis locale locale_dir w
    (files : PyDict.dict (list N) (PyDict.dict (list N) (list N))) task :
  task ∈ mbind (fun '(file_name, ref) =>
                  omap (task_for locale file_name
                          (target_of w (joinpath locale_dir file_name))) ref)
           files
  ↔ ∃ file_name ref entry,
      (file_name, ref) ∈ files ∧ entry ∈ ref
      ∧ task_for locale file_name
          (target_of w (joinpath locale_dir file_name)) entry = Some task.
Proof.
  rewrite list_elem_of_bind. split.
  - intros ([file_name ref] & Ht & Hf).
    apply list_elem_of_omap in Ht as (entry & He & Ht). eauto 6.
  - intros (file_name & ref & entry & Hf & He & Ht).
    exists (file_name, ref). split; [|done].
    apply list_elem_of_omap. eauto.
Qed.

(** What a task of an entry carries. *)
Lemma task_for_fields (language name : list N)
    (found : option (PyDict.dict (list N) (list N)))
    (entry : list N * list N) task :
  task_for language name found entry = Some task →
  locale task = language ∧ file_name task = name ∧ key task = entry.1
  ∧ english_value task = entry.2
  ∧ match found with
    | None => is_missing task = true
    | Some locale_data =>
        match PyDict.get locale_data entry.1 with
        | None => is_missing task = true
        | Some [] => is_missing task = false
        | Some (_ :: _) => False
        end
    end.
Proof.
  destruct entry as [k v]. unfold task_for. cbn [fst snd].
  destruct found as [d|]; [destruct (PyDict.get d k) as [[|]|]|];
    intros ?; by simplify_eq.
Qed.

(** The tasks of one reference file among those of a list of files with
    distinct names. *)
Lemma tasks_of_one_file (locale file : list N)
    (files : PyDict.dict (list N) (PyDict.dict (list N) (list N)))
    (target_at : list N → option (PyDict.dict (list N) (list N)))
    (ref : PyDict.dict (list N) (list N)) :
  NoDup (PyDict.keys files) → (file, ref) ∈ files →
  filter (fun task => file_name task = file)
    (mbind (fun '(file_name, ref) =>
              omap (task_for locale file_name (target_at file_name)) ref)
       files)
  = omap (task_for locale file (target_at file)) ref.
Proof.
  assert (Hsame : ∀ f (r : PyDict.dict (list N) (list N)),
    filter (fun task => file_name task = file)
      (omap (task_for locale f (target_at f)) r)
    = if decide (f = file) then omap (task_for locale f (target_at f)) r
      else []).
  { intros f r. induction r as [|entry r IH].
    - by destruct (decide (f = file)).
    - rewrite omap_cons_match.
      destruct (task_for locale f (target_at f) entry) as [task|] eqn:Ht;
        [|exact IH].
      apply task_for_fields in Ht as (_ & Hf & _).
      rewrite filter_cons, IH, Hf. by destruct (decide (f = file)). }
  unfold PyDict.keys. induction files as [|[f r] files IH]; intros Hnd Hin.
  - by apply elem_of_nil in Hin.
  - rewrite fmap_cons in Hnd. apply NoDup_cons in Hnd as [Hfresh Hnd].
    rewrite bind_cons, filter_app, Hsame.
    apply elem_of_cons in Hin as [[= <- <-]|Hin].
    + rewrite decide_True by done.
      replace (filter _ (files ≫= _)) with (@nil TranslationTask);
        [by rewrite app_nil_r|].
      symmetry. clear IH Hnd. induction files as [|[f' r'] files IH]; [done|].
      rewrite bind_cons, filter_app, Hsame, decide_False.
      * apply IH. intros H. apply Hfresh. rewrite fmap_cons. by right.
      * intros ->. apply Hfresh. rewrite fmap_cons. left.
    + rewrite decide_False; [by apply IH|].
      intros ->. apply Hfresh. apply list_elem_of_fmap. by exists (file, ref).
Qed.

End analyzer_facts.

(** C4. For a target language whose locale file exists for a reference
    file, the analysis returns, and its tasks for that file are, in the
    order of the reference file and nothing else: for each entry of the
    reference file, a task with the text of the reference and the missing
    flag set when the key is absent from the locale file, a task with the
    flag cleared when the key is there with the empty string, and no task
    when the key is there with another value. So for each entry a task
    with the flag set is there exactly when the key is absent, one with the
    flag cleared exactly when the value is empty, none when the value is
    not empty, whatever text and flag it carries; every task for that file
    is for a key and with the text of the reference file, so a key that
    only the locale file has gives no task. *)
Theorem analysis_of_existing_locale_file :
  ∀ (self : LocaleAnalyzer) (language : list N) (w : world)
    (file : list N) (reference target : PyDict.dict (list N) (list N)),
    let locale_dir := joinpath (locales_dir self) language in
    is_Some (lookup_node w locale_dir) →
    (∀ f r, (f, r) ∈ english_data self →
            readable (lookup_node w (joinpath locale_dir f))) →
    NoDup (PyDict.keys (english_data self)) →
    (file, reference) ∈ english_data self →
    lookup_node w (joinpath locale_dir file) = Some (File target) →
    ∃ tasks : list TranslationTask,
      analyze_locale self language w = (Returned tasks, w)
      ∧ filter (fun task => file_name task = file) tasks
        = omap (fun entry : list N * list N =>
                  match PyDict.get target entry.1 with
                  | None => Some (mkTask language file entry.1 entry.2 true)
                  | Some [] => Some (mkTask language file entry.1 entry.2 false)
                  | Some (_ :: _) => None
                  end) reference
      ∧ (∀ k v, (k, v) ∈ reference →
           (mkTask language file k v true ∈ tasks
              ↔ PyDict.get target k = None)
           ∧ (mkTask language file k v false ∈ tasks
                ↔ PyDict.get target k = Some []))
      ∧ (∀ task c s, task ∈ tasks → file_name task = file →
           PyDict.get target (key task) ≠ Some (c :: s))
      ∧ (∀ task, task ∈ tasks → file_name task = file →
           locale task = language
           ∧ (key task, english_value task) ∈ reference
           ∧ (is_missing task = true ↔ PyDict.get target (key task) = None)).
Proof.
  intros self language w file reference target locale_dir Hdir Hfiles Hnodup
    Hfile Htarget.
  eexists. split; [by apply analyze_locale_spec|].
  match goal with |- filter _ ?found = _ ∧ _ => set (tasks := found) end.
  assert (Hlist : filter (fun task => file_name task = file) tasks
                  = omap (task_for language file (Some target)) reference).
  { subst tasks.
    etrans;
      [apply (tasks_of_one_file language file (english_data self)
                (fun f => target_of w (joinpath locale_dir f)) reference);
       done|].
    unfold target_of. by rewrite Htarget. }
  assert (Hin : ∀ task, task ∈ tasks ∧ file_name task = file
                        ↔ ∃ entry, entry ∈ reference
                            ∧ task_for language file (Some target) entry
                              = Some task).
  { intros task. split.
    - intros [Ht Hname].
      assert (H : task ∈ filter (fun t => file_name t = file) tasks)
        by (by apply list_elem_of_filter).
      rewrite Hlist in H. by apply list_elem_of_omap in H.
    - intros Hentry.
      assert (H : task ∈ filter (fun t => file_name t = file) tasks)
        by (rewrite Hlist; by apply list_elem_of_omap).
      by apply list_elem_of_filter in H as [? ?]. }
  split_and!.
  - rewrite Hlist. apply list_omap_ext, Forall_Forall2_diag, Forall_true.
    by intros [k v].
  - intros k v Hkv. split; split.
    + intros Ht. destruct (proj1 (Hin _) (conj Ht eq_refl)) as (e & _ & He).
      apply task_for_fields in He as (_ & _ & Hk & _ & Hflag).
      cbn in Hk, Hflag. rewrite <- Hk in Hflag.
      by destruct (PyDict.get target k) as [[|]|].
    + intros Hget. apply (Hin (mkTask language file k v true)).
      exists (k, v). split; [done|]. cbn. by rewrite Hget.
    + intros Ht. destruct (proj1 (Hin _) (conj Ht eq_refl)) as (e & _ & He).
      apply task_for_fields in He as (_ & _ & Hk & _ & Hflag).
      cbn in Hk, Hflag. rewrite <- Hk in Hflag.
      by destruct (PyDict.get target k) as [[|]|].
    + intros Hget. apply (Hin (mkTask language file k v false)).
      exists (k, v). split; [done|]. cbn. by rewrite Hget.
  - intros task c s Ht Hname Hget.
    destruct (proj1 (Hin _) (conj Ht Hname)) as (e & _ & He).
    apply task_for_fields in He as (_ & _ & Hk & _ & Hflag).
    by rewrite <- Hk, Hget in Hflag.
  - intros task Ht Hname.
    destruct (proj1 (Hin _) (conj Ht Hname)) as ([k v] & Hkv & He).
    apply task_for_fields in He as (Hl & _ & Hk & Hv & Hflag).
    cbn in Hk, Hv, Hflag. rewrite Hk, Hv. split_and!; [done..|].
    destruct (PyDict.get target k) as [[|]|]; [|done|]; rewrite Hflag; done.
Qed.

Lemma analysis_of_existing_locale_file_witness :
  ∃ tasks : list TranslationTask,
    analyze_locale reference_analyzer (pystr "fr") french_world
    = (Returned tasks, french_world)
    ∧ filter (fun task => file_name task = common_json) tasks
      = [mkTask (pystr "fr") common_json (pystr "farewell") (pystr "Goodbye")
           false;
         mkTask (pystr "fr") common_json (pystr "thanks") (pystr "Thanks")
           true].
Proof.
  destruct (analysis_of_existing_locale_file reference_analyzer (pystr "fr")
              french_world common_json common_reference french_common)
    as (tasks & Hrun & Hlist & _).
  - vm_compute. eauto.
  - intros f r Hf. apply list_elem_of_singleton in Hf. simplify_eq.
    split; vm_compute; discriminate.
  - apply NoDup_singleton.
  - left.
  - vm_compute. reflexivity.
  - exists tasks. split; [exact Hrun|]. rewrite Hlist. vm_compute. reflexivity.
Defined.

Example french_analysis :
  analyze_locale reference_analyzer (pystr "fr") french_world
  = (Returned
       [mkTask (pystr "fr") common_json (pystr "farewell") (pystr "Goodbye") false;
        mkTask (pystr "fr") common_json (pystr "thanks") (pystr "Thanks") true],
     french_world).
Proof. vm_compute. reflexivity. Qed.

(** C10. For a language whose name stays in the tree: when the directory
    of the language does not exist, the analysis returns the empty task
    list, whatever the reference files hold, and logs a warning. The rule
    that makes every key of a reference file a task with the missing flag
    applies when the directory exists and the locale file does not. *)
Theorem missing_locale_directory_yields_no_tasks :
  (∀ (self : LocaleAnalyzer) (language : list N) (w : world),
     inside language →
     lookup_node w (joinpath (locales_dir self) language) = None →
     analyze_locale self language w
     = (Returned [],
        mkWorld (fs w)
          (log w ++ [WarnLocaleDirNotFound
                       (joinpath (locales_dir self) language)])))
  ∧ (∀ (self : LocaleAnalyzer) (language : list N) (w : world)
       (file : list N) (reference : PyDict.dict (list N) (list N)),
       let locale_dir := joinpath (locales_dir self) language in
       inside language →
       (∀ f r, (f, r) ∈ english_data self → inside f) →
       NoDup (PyDict.keys (english_data self)) →
       is_Some (lookup_node w locale_dir) →
       (∀ f r, (f, r) ∈ english_data self →
               readable (lookup_node w (joinpath locale_dir f))) →
       (file, reference) ∈ english_data self →
       lookup_node w (joinpath locale_dir file) = None →
       ∃ tasks : list TranslationTask,
         analyze_locale self language w = (Returned tasks, w)
         ∧ filter (fun task => file_name task = file) tasks
           = (fun entry : list N * list N =>
                mkTask language file entry.1 entry.2 true) <$> reference).
Proof.
  split.
  - intros self language w _. apply analyze_locale_no_dir.
  - intros self language w file reference locale_dir _ _ Hnodup Hdir Hfiles
      Hfile Hnone.
    eexists. split; [by apply analyze_locale_spec|].
    etrans;
      [apply (tasks_of_one_file language file (english_data self)
                (fun f => target_of w (joinpath locale_dir f)) reference);
       done|].
    unfold target_of. rewrite Hnone. clear.
    induction reference as [|[k v] reference IH]; [done|].
    rewrite omap_cons_match. cbn. by rewrite IH.
Qed.

Lemma missing_locale_directory_yields_no_tasks_witness :
  analyze_locale reference_analyzer (pystr "de") french_world
  = (Returned [],
     mkWorld (fs french_world)
       [WarnLocaleDirNotFound (LOCALES_DIR ++ [pystr "de"])]).
Proof.
  apply (proj1 missing_locale_directory_yields_no_tasks reference_analyzer
           (pystr "de") french_world).
  - split; [reflexivity|]. vm_compute. intros H.
    by apply list_elem_of_singleton in H.
  - vm_compute. reflexivity.
Defined.

(** ** Dictionaries *)

Section dict_facts.
Context {K V : Type} `{EqDecision K}.
Implicit Types (d : PyDict.dict K V) (k : K) (v : V).

Lemma get_set_eq d k v : PyDict.get (PyDict.set d k v) k = Some v.
Proof.
  induction d as [|[k' v'] d IH]; simpl.
  - by rewrite decide_True.
  - destruct (decide (k = k')) as [->|Hne]; simpl.
    + by rewrite decide_True.
    + by rewrite decide_False.
Qed.

Lemma get_set_ne d k k' v :
  k ≠ k' → PyDict.get (PyDict.set d k v) k' = PyDict.get d k'.
Proof.
  intros Hne. induction d as [|[k0 v0] d IH]; simpl.
  - by rewrite decide_False by congruence.
  - destruct (decide (k = k0)) as [->|Hne0]; simpl.
    + by rewrite !decide_False by congruence.
    + destruct (decide (k' = k0)); [done|apply IH].
Qed.

Lemma get_Some_elem_of d k v : PyDict.get d k = Some v → (k, v) ∈ d.
Proof.
  induction d as [|[k' v'] d IH]; simpl; [done|].
  destruct (decide (k = k')) as [->|Hne].
  - intros [= ->]. left.
  - intros H. right. by apply IH.
Qed.
End dict_facts.

(** ** Safe file updater *)

Section updater_facts.

Implicit Types (w : world) (data translations : PyDict.dict (list N) (list N)).

Lemma writable_iff data k :
  writable data k = true
  ↔ PyDict.get data k = None ∨ PyDict.get data k = Some [].
Proof.
  unfold writable, PyDict.contains.
  destruct (PyDict.get data k) as [[|c s]|]; simpl;
    rewrite ?bool_decide_eq_true_2, ?bool_decide_eq_false_2 by congruence;
    intuition congruence.
Qed.

(** The merge loop reads and writes no file: it returns the merged
    mapping and the number of writes, and logs one line per write. *)
Lemma merge_translations_spec translations data w :
  ∃ merged updates_made lines,
    merge_translations data translations w
    = (Returned (merged, updates_made), mkWorld (fs w) (log w ++ lines))
    ∧ (∀ k v, PyDict.get data k = Some v → v ≠ [] →
              PyDict.get merged k = Some v)
    ∧ (∀ k, PyDict.get merged k ≠ PyDict.get data k →
            writable data k = true
            ∧ ∃ v, (k, v) ∈ translations ∧ PyDict.get merged k = Some v)
    ∧ (∀ k v, (k, v) ∈ translations → writable data k = true →
              ∃ v', (k, v') ∈ translations ∧ PyDict.get merged k = Some v')
    ∧ (updates_made = 0 → merged = data)
    ∧ Forall (fun line => ∃ k v, line = DebugUpdated k v) lines.
Proof.
  unfold merge_translations, PyDict.items.
  enough (H : ∀ data0 n w0, ∃ merged updates_made lines,
    for_each translations (data0, n) merge_item w0
    = (Returned (merged, updates_made), mkWorld (fs w0) (log w0 ++ lines))
    ∧ (∀ k v, PyDict.get data0 k = Some v → v ≠ [] →
              PyDict.get merged k = Some v)
    ∧ (∀ k, PyDict.get merged k ≠ PyDict.get data0 k →
            writable data0 k = true
            ∧ ∃ v, (k, v) ∈ translations ∧ PyDict.get merged k = Some v)
    ∧ (∀ k v, (k, v) ∈ translations → writable data0 k = true →
              ∃ v', (k, v') ∈ translations ∧ PyDict.get merged k = Some v')
    ∧ n <= updates_made ∧ (updates_made = n → merged = data0)
    ∧ Forall (fun line => ∃ k v, line = DebugUpdated k v) lines).
  { destruct (H data 0 w) as (merged & n & lines & H1 & H2 & H3 & H4 & _ & H5 & H6).
    exists merged, n, lines. split_and!; done. }
  clear data w.
  induction translations as [|[k0 v0] translations IH]; intros data n w.
  - exists data, n, []. simpl. rewrite app_nil_r. destruct w.
    split_and!; try done.
    intros k v H. by apply elem_of_nil in H.
  - rewrite for_each_cons. cbn [merge_item].
    destruct (writable data k0) eqn:Hw.
    + (* the key is absent or empty: written *)
      cbv [mbind M_bind log_emit modify mret M_ret]. cbn [fs log].
      destruct (IH (PyDict.set data k0 v0) (n + 1)
                  (mkWorld (fs w) (log w ++ [DebugUpdated k0 (take 50 v0)])))
        as (merged & m & lines & Hrun & Hkeep & Hchg & Hwr & Hle & Hsame & Hlines).
      exists merged, m, (DebugUpdated k0 (take 50 v0) :: lines).
      split_and!.
      * rewrite Hrun. cbn [fs log]. by rewrite <- app_assoc.
      * intros k v Hk Hv. apply Hkeep; [|done].
        destruct (decide (k0 = k)) as [->|Hne]; [|by rewrite get_set_ne].
        apply writable_iff in Hw as [Hw|Hw]; congruence.
      * intros k Hk.
        destruct (decide (PyDict.get merged k = PyDict.get (PyDict.set data k0 v0) k))
          as [Heq|Hne].
        -- destruct (decide (k0 = k)) as [->|Hne0].
           ++ split; [done|]. exists v0. split; [left|].
              by rewrite Heq, get_set_eq.
           ++ rewrite get_set_ne in Heq by done. done.
        -- destruct (Hchg k Hne) as [Hwk (v & Hv & Hget)].
           split; [|exists v; split; [by right|done]].
           destruct (decide (k0 = k)) as [->|Hne0]; [done|].
           apply writable_iff. apply writable_iff in Hwk.
           by rewrite get_set_ne in Hwk.
      * intros k v Hkv Hwk.
        destruct (decide (PyDict.get merged k = PyDict.get (PyDict.set data k0 v0) k))
          as [Heq|Hne].
        -- destruct (decide (k0 = k)) as [->|Hne0].
           ++ exists v0. split; [left|]. by rewrite Heq, get_set_eq.
           ++ apply elem_of_cons in Hkv as [[= -> ->]|Hkv]; [done|].
              destruct (Hwr k v Hkv) as (v' & Hv' & Hget).
              { apply writable_iff. apply writable_iff in Hwk.
                by rewrite get_set_ne. }
              exists v'. split; [by right|done].
        -- destruct (Hchg k Hne) as [_ (v' & Hv' & Hget)].
           exists v'. split; [by right|done].
      * lia.
      * lia.
      * constructor; [eauto|done].
    + (* the key holds a value: left alone *)
      cbv [mret M_ret].
      destruct (IH data n w)
        as (merged & m & lines & Hrun & Hkeep & Hchg & Hwr & Hle & Hsame & Hlines).
      exists merged, m, lines. split_and!; try done.
      * intros k Hk. destruct (Hchg k Hk) as [Hwk (v & Hv & Hget)].
        split; [done|]. exists v. split; [by right|done].
      * intros k v Hkv Hwk.
        apply elem_of_cons in Hkv as [[= -> ->]|Hkv]; [congruence|].
        destruct (Hwr k v Hkv Hwk) as (v' & Hv' & Hget).
        exists v'. split; [by right|done].
Qed.

(** *** The file system primitives *)

Lemma bind_run {S A B} (m : M S A) (f : A → M S B) (s : S) :
  (m ≫= f) s
  = match m s with
    | (Returned a, s') => f a s'
    | (Raised ex, s') => (Raised ex, s')
    end.
Proof. reflexivity. Qed.

Lemma lookup_node_insert w (p q : list (list N)) n l :
  p ≠ [] →
  lookup_node (mkWorld (<[p := n]> (fs w)) l) q
  = if decide (q = p) then Some n else lookup_node w q.
Proof.
  intros Hp. unfold lookup_node. cbn [fs]. destruct q as [|c q].
  - by rewrite decide_False.
  - destruct (decide (c :: q = p)) as [->|Hne].
    + by rewrite lookup_insert_eq.
    + by rewrite lookup_insert_ne.
Qed.

Lemma path_exists_run p w :
  path_exists p w
  = (Returned (match lookup_node w p with Some _ => true | None => false end),
     w).
Proof. reflexivity. Qed.

Lemma read_json_run p w :
  read_json p w
  = match lookup_node w p with
    | Some (File content) => (Returned content, w)
    | Some NotJson => (Raised JSONDecodeError, w)
    | Some Dir => (Raised IsADirectoryError, w)
    | None => (Raised FileNotFoundError, w)
    end.
Proof.
  unfold read_json. rewrite bind_run. unfold gets.
  by destruct (lookup_node w p) as [[| |]|].
Qed.

Lemma open_w_run p w :
  open_w p w
  = match lookup_node w p, lookup_node w (parent p) with
    | Some Dir, _ => (Raised IsADirectoryError, w)
    | _, Some Dir => (Returned (), mkWorld (<[p := NotJson]> (fs w)) (log w))
    | _, Some _ => (Raised NotADirectoryError, w)
    | _, None => (Raised FileNotFoundError, w)
    end.
Proof.
  unfold open_w. cbv [mbind M_bind gets].
  destruct (lookup_node w p) as [[| |]|];
    destruct (lookup_node w (parent p)) as [[| |]|]; reflexivity.
Qed.

(** A path that is not a directory is not the working directory. *)
Lemma not_dir_nonempty w (p : list (list N)) :
  lookup_node w p ≠ Some Dir → p ≠ [].
Proof. by intros H ->. Qed.

Lemma write_json_run p content w :
  write_json p content w
  = match lookup_node w p, lookup_node w (parent p) with
    | Some Dir, _ => (Raised IsADirectoryError, w)
    | _, Some Dir =>
        if encodable content
        then (Returned (), mkWorld (<[p := File content]> (fs w)) (log w))
        else (Raised UnicodeEncodeError,
              mkWorld (<[p := NotJson]> (fs w)) (log w))
    | _, Some _ => (Raised NotADirectoryError, w)
    | _, None => (Raised FileNotFoundError, w)
    end.
Proof.
  unfold write_json. rewrite bind_run, open_w_run. unfold modify.
  destruct (lookup_node w p) as [[| |]|];
    destruct (lookup_node w (parent p)) as [[| |]|]; try reflexivity.
  all: destruct (encodable content); cbn [fs log]; [|reflexivity].
  all: by rewrite insert_insert_eq.
Qed.

(** A write that returns leaves the content in the file; one that raises
    leaves the file as it was or, the content being one that cannot be
    encoded, not JSON. Nothing else changes. *)
Lemma write_json_frame p content w :
  let w' := (write_json p content w).2 in
  (∀ q, q ≠ p → lookup_node w' q = lookup_node w q)
  ∧ log w' = log w
  ∧ match (write_json p content w).1 with
    | Returned _ => lookup_node w' p = Some (File content)
    | Raised _ =>
        lookup_node w' p = lookup_node w p
        ∨ (encodable content = false ∧ lookup_node w' p = Some NotJson)
    end.
Proof.
  cbv zeta. rewrite write_json_run.
  destruct (lookup_node w p) as [[| |]|] eqn:Hl;
    destruct (lookup_node w (parent p)) as [[| |]|]; cbn [fst snd];
    try (split_and!; [done|done|by left]).
  all: assert (Hp : p ≠ []) by (apply (not_dir_nonempty w); by rewrite Hl).
  all: destruct (encodable content); cbn [fst snd log].
  all: split_and!; [|done|].
  all: try (intros q Hq; rewrite lookup_node_insert by done;
            by rewrite decide_False).
  all: try (right; split; [done|]).
  all: rewrite lookup_node_insert by done; by rewrite decide_True.
Qed.

(** Creating directories changes no path that exists, and logs
    nothing, whether it succeeds or not. *)
Lemma mkdir_loop_frame (qs : list (list (list N))) (p : list (list N)) w :
  Forall (fun q => q ≠ []) qs →
  let w' := (for_each qs ()
               (fun _ q =>
                  n ← gets (fun w => lookup_node w q);
                  match n with
                  | Some Dir => mret ()
                  | Some _ =>
                      raise (if bool_decide (q = p) then FileExistsError
                             else NotADirectoryError)
                  | None => modify (fun w => mkWorld (<[q := Dir]> (fs w)) (log w))
                  end) w).2 in
  (∀ q, is_Some (lookup_node w q) ∨ q ∉ qs →
        lookup_node w' q = lookup_node w q)
  ∧ log w' = log w.
Proof.
  intros Hqs. revert w. induction Hqs as [|q qs Hq _ IH]; intros w; cbv zeta.
  - done.
  - rewrite for_each_cons, bind_run. unfold gets.
    destruct (lookup_node w q) as [[| |]|] eqn:Hl; [done|done| |].
    + destruct (IH w) as [Hframe Hlog]. split; [|done].
      intros r [Hr|Hr]; apply Hframe; [by left|right].
      by apply not_elem_of_cons in Hr as [_ Hr].
    + unfold modify.
      destruct (IH (mkWorld (<[q := Dir]> (fs w)) (log w))) as [Hframe Hlog].
      split; [|done]. intros r Hr.
      assert (Hrq : r ≠ q).
      { destruct Hr as [Hr|Hr].
        - intros ->. rewrite Hl in Hr. by destruct Hr.
        - by apply not_elem_of_cons in Hr as [Hr _]. }
      rewrite Hframe.
      * rewrite lookup_node_insert by done. by rewrite decide_False.
      * rewrite lookup_node_insert by done. rewrite decide_False by done.
        destruct Hr as [Hr|Hr]; [by left|right].
        by apply not_elem_of_cons in Hr as [_ Hr].
Qed.

Lemma ancestors_nonempty (p : list (list N)) :
  Forall (fun q => q ≠ []) (ancestors_and_self p).
Proof.
  unfold ancestors_and_self. apply Forall_forall. intros q Hq.
  apply list_elem_of_In, in_map_iff in Hq as (n & <- & Hn).
  apply in_seq in Hn. destruct p; simpl in *; [lia|].
  destruct n; [lia|done].
Qed.

Lemma mkdir_parents_frame p w :
  let w' := (mkdir_parents p w).2 in
  (∀ q, is_Some (lookup_node w q) ∨ q ∉ ancestors_and_self p →
        lookup_node w' q = lookup_node w q)
  ∧ log w' = log w.
Proof. apply mkdir_loop_frame, ancestors_nonempty. Qed.

Lemma not_ancestor_of_parent (p : list (list N)) :
  p ≠ [] → p ∉ ancestors_and_self (parent p).
Proof.
  intros Hp Hin. unfold ancestors_and_self in Hin.
  apply list_elem_of_In, in_map_iff in Hin as (n & Hn & _).
  apply (f_equal length) in Hn. rewrite length_take in Hn.
  unfold parent in Hn. rewrite removelast_firstn_len, length_firstn in Hn.
  destruct p; [done|]. simpl in Hn. lia.
Qed.

(** A copy changes nothing but its target, where it leaves, when it
    returns, the file that the source is. *)
Lemma copy2_spec src dst w :
  let w' := (copy2 src dst w).2 in
  let target := copy_target w src dst in
  (∀ q, q ≠ target → lookup_node w' q = lookup_node w q)
  ∧ log w' = log w
  ∧ (∀ u, (copy2 src dst w).1 = Returned u →
       src ≠ target
       ∧ ∃ file, file ≠ Dir ∧ lookup_node w src = Some file
                 ∧ lookup_node w' target = Some file).
Proof.
  cbv zeta. unfold copy2, is_dir, copy_target. rewrite bind_run. unfold gets.
  set (target := match lookup_node w dst with
                 | Some Dir => dst ++ [List.last src []]
                 | _ => dst
                 end).
  replace (if negb _ then dst else dst ++ [List.last src []]) with target
    by (subst target; by destruct (lookup_node w dst) as [[| |]|]).
  clearbody target.
  case_bool_decide as Hsame; [done|].
  rewrite bind_run. cbv beta.
  destruct (lookup_node w src) as [[content| |]|] eqn:Hs; try done.
  all: rewrite bind_run, open_w_run.
  all: destruct (lookup_node w target) as [[| |]|] eqn:Ht;
    destruct (lookup_node w (parent target)) as [[| |]|]; try done.
  all: assert (Hne : target ≠ [])
         by (apply (not_dir_nonempty w); by rewrite Ht).
  all: unfold modify; cbn [fst snd fs log]; rewrite insert_insert_eq.
  all: split_and!; [|done|].
  all: try (intros q Hq; rewrite lookup_node_insert by done;
            by rewrite decide_False).
  all: intros u _; split; [done|]; eexists; split_and!; [|done|];
    [done|rewrite lookup_node_insert by done; by rewrite decide_True].
Qed.

(** A copy, successful or not, leaves its source as it is. *)
Lemma copy2_frame src dst w :
  let w' := (copy2 src dst w).2 in
  lookup_node w' src = lookup_node w src ∧ log w' = log w.
Proof.
  cbv zeta. destruct (copy2_spec src dst w) as (Hframe & Hlog & Hret).
  split; [|done].
  destruct (decide (src = copy_target w src dst)) as [Hsame|Hne];
    [|by apply Hframe].
  unfold copy2, is_dir, copy_target in *. rewrite bind_run. unfold gets.
  destruct (lookup_node w dst) as [[| |]|]; cbn [negb];
    by rewrite bool_decide_eq_true_2.
Qed.

Lemma backup_file_frame self (file_path : list (list N)) w :
  let w' := (backup_file self file_path w).2 in
  lookup_node w' file_path = lookup_node w file_path ∧ log w' = log w.
Proof.
  cbv zeta. unfold backup_file, path_exists. rewrite bind_run. unfold gets.
  destruct (lookup_node w file_path) as [n|] eqn:Hl; cbn [negb]; [|done].
  rewrite bind_run.
  pose proof (mkdir_parents_frame (parent (backup_dir self ++ file_path)) w)
    as [Hframe Hlog].
  destruct (mkdir_parents (parent (backup_dir self ++ file_path)) w)
    as [[[]|ex] w1]; cbn [snd] in *.
  - rewrite bind_run.
    pose proof (copy2_frame file_path (backup_dir self ++ file_path) w1)
      as [Hframe2 Hlog2].
    destruct (copy2 file_path (backup_dir self ++ file_path) w1)
      as [[[]|ex] w2]; cbn [snd] in *.
    + cbv [mret M_ret]. cbn [snd].
      rewrite Hframe2, Hframe, Hl by (left; rewrite Hl; eauto).
      split; congruence.
    + rewrite Hframe2, Hframe, Hl by (left; rewrite Hl; eauto).
      split; congruence.
  - rewrite Hframe, Hl by (left; rewrite Hl; eauto). done.
Qed.

(** The merge loop gives the same mapping and count in every world. *)
Lemma merge_translations_any_world data translations w1 w2 :
  (merge_translations data translations w1).1
  = (merge_translations data translations w2).1.
Proof.
  unfold merge_translations, PyDict.items.
  generalize 0 as n. revert data w1 w2.
  induction translations as [|[k v] translations IH]; intros data w1 w2 n.
  - done.
  - rewrite !for_each_cons. cbn [merge_item].
    destruct (writable data k); [|cbv [mret M_ret]; apply IH].
    cbv [mbind M_bind log_emit modify mret M_ret]. apply IH.
Qed.

(** *** Paths of locale files *)

Lemma joinpath_nonempty (dir : list (list N)) (name : list N) :
  dir ≠ [] → joinpath dir name ≠ [].
Proof.
  intros Hdir. unfold joinpath. destruct (root name); [done|].
  by destruct dir.
Qed.

Lemma locale_file_nonempty (language file : list N) :
  joinpath (joinpath LOCALES_DIR language) file ≠ [].
Proof. by apply joinpath_nonempty, joinpath_nonempty. Qed.

(** *** Dry run *)

Lemma update_dry_run_spec self (language file : list N) translations w :
  let file_path := joinpath (joinpath LOCALES_DIR language) file in
  let run := update_locale_file self language file translations true w in
  match lookup_node w file_path with
  | Some Dir => run = (Raised IsADirectoryError, w)
  | Some NotJson => run = (Raised JSONDecodeError, w)
  | _ =>
      ∃ merged updates_made lines,
        merge_translations (default [] (target_of w file_path)) translations w
        = (Returned (merged, updates_made), mkWorld (fs w) (log w ++ lines))
        ∧ run = (Returned true,
                 mkWorld (fs w)
                   (log w ++ lines
                      ++ if 0 <? updates_made
                         then [InfoDryRun file_path updates_made] else []))
  end.
Proof.
  intros file_path run. subst run. unfold update_locale_file.
  fold file_path. rewrite bind_run, path_exists_run. unfold target_of.
  destruct (lookup_node w file_path) as [[existing| |]|] eqn:Hl;
    cbn [negb default].
  - rewrite bind_run, (bind_run (mret ())). unfold mret at 1, M_ret at 1.
    rewrite read_json_run, Hl.
    destruct (merge_translations_spec translations existing w)
      as (merged & n & lines & Hrun & _).
    exists merged, n, lines. split; [done|]. rewrite bind_run, Hrun.
    rewrite bind_run.
    destruct (0 <? n); cbv [log_emit modify mret M_ret]; cbn [fs log];
      by rewrite <- ?app_assoc, ?app_nil_r.
  - rewrite bind_run, (bind_run (mret ())). unfold mret at 1, M_ret at 1.
    by rewrite read_json_run, Hl.
  - rewrite bind_run, (bind_run (mret ())). unfold mret at 1, M_ret at 1.
    by rewrite read_json_run, Hl.
  - rewrite bind_run, (bind_run (mret ())). unfold mret at 1 2, M_ret at 1 2.
    destruct (merge_translations_spec translations PyDict.empty w)
      as (merged & n & lines & Hrun & _).
    exists merged, n, lines. split; [done|]. rewrite bind_run, Hrun.
    rewrite bind_run.
    destruct (0 <? n); cbv [log_emit modify mret M_ret]; cbn [fs log];
      by rewrite <- ?app_assoc, ?app_nil_r.
Qed.

(** *** Writing the merged mapping *)

(** A rename moves the file onto its target and changes nothing else;
    one that raises changes nothing. *)
Lemma replace_file_run (src dst : list (list N)) w :
  replace_file src dst w
  = match lookup_node w src with
    | None => (Raised FileNotFoundError, w)
    | Some Dir => (Raised IsADirectoryError, w)
    | Some file =>
        match lookup_node w dst with
        | Some Dir => (Raised IsADirectoryError, w)
        | _ => (Returned (),
                mkWorld (<[dst := file]> (delete src (fs w))) (log w))
        end
    end.
Proof.
  unfold replace_file. cbv [mbind M_bind gets is_dir modify raise].
  destruct (lookup_node w src) as [[| |]|]; try reflexivity.
  all: by destruct (lookup_node w dst) as [[| |]|].
Qed.

Lemma replace_file_spec (temp_path file_path : list (list N)) data w w' :
  file_path ≠ [] →
  lookup_node w temp_path = Some (File data) →
  replace_file temp_path file_path w = (Returned (), w') →
  lookup_node w' file_path = Some (File data).
Proof.
  intros Hfp Htmp. rewrite replace_file_run, Htmp.
  destruct (lookup_node w file_path) as [[| |]|]; try done.
  all: intros [= <-].
  all: unfold lookup_node; destruct file_path; [done|]; cbn [fs];
    by rewrite lookup_insert_eq.
Qed.

(** The temporary file is written and renamed onto the locale file: when
    that succeeds, the locale file holds [data]. *)
Lemma persist_block_spec (file_path : list (list N)) data updates_made w w' :
  file_path ≠ [] →
  (temp_path ← with_suffix file_path (pystr ".tmp");
   _ ← write_json temp_path data;
   _ ← replace_file temp_path file_path;
   log_emit (InfoUpdated file_path updates_made)) w = (Returned (), w') →
  lookup_node w' file_path = Some (File data).
Proof.
  intros Hfp. rewrite bind_run. unfold with_suffix.
  destruct (Nat.eqb _ 0); [done|]. unfold mret at 1, M_ret at 1.
  set (temp_path := parent file_path ++ _).
  rewrite bind_run.
  destruct (write_json_frame temp_path data w) as (_ & _ & Hw1).
  destruct (write_json temp_path data w) as [[[]|ex] w1] eqn:Hwrite; [|done].
  cbn [fst snd] in Hw1.
  rewrite bind_run.
  destruct (replace_file temp_path file_path w1) as [[[]|ex] w2] eqn:Hrep;
    [|done].
  apply (replace_file_spec _ _ data) in Hrep; [|done..].
  unfold log_emit, modify. intros [= <-]. exact Hrep.
Qed.

(** *** A run that writes *)

(** When [update_locale_file] returns outside dry-run mode, the locale
    file holds the merge of what it held before with the incoming
    translations. *)
Lemma update_persists self (language file : list N) translations w b w' :
  let file_path := joinpath (joinpath LOCALES_DIR language) file in
  update_locale_file self language file translations false w
  = (Returned b, w') →
  ∀ merged updates_made,
    (merge_translations (default [] (target_of w file_path)) translations w).1
    = Returned (merged, updates_made) →
    default [] (target_of w' file_path) = merged.
Proof.
  intros file_path Hrun merged n Hmerge.
  assert (Hfp : file_path ≠ []) by apply locale_file_nonempty.
  unfold update_locale_file in Hrun. fold file_path in Hrun.
  rewrite bind_run, path_exists_run in Hrun. unfold target_of in Hmerge.
  (* the mapping the merge starts from, and the world it runs in *)
  match type of Hrun with
  | (?load_m ≫= _) w = _ => set (load := load_m) in *
  end.
  assert (Hdata :
    (∃ w1, load w = (Returned (default [] (target_of w file_path)), w1)
           ∧ lookup_node w1 file_path = lookup_node w file_path)
    ∨ (∃ ex w1, load w = (Raised ex, w1))).
  { subst load. unfold target_of. cbn [negb].
    destruct (lookup_node w file_path) as [n0|] eqn:Hl.
    - rewrite !bind_run.
      pose proof (backup_file_frame self file_path w) as [Hframe _].
      destruct (backup_file self file_path w) as [[bp|ex] w1];
        cbn [snd] in Hframe; [|right; eauto].
      unfold log_emit, modify. rewrite read_json_run.
      replace (lookup_node (mkWorld (fs w1) _) file_path)
        with (lookup_node w1 file_path) by done.
      rewrite Hframe, Hl. destruct n0 as [existing| |]; [|right; eauto..].
      left. eexists. split; [done|]. cbn. by rewrite <- Hl, <- Hframe.
    - rewrite bind_run.
      pose proof (mkdir_parents_frame (parent file_path) w) as [Hframe _].
      destruct (mkdir_parents (parent file_path) w) as [[[]|ex] w1];
        cbn [snd] in Hframe; [|right; eauto].
      left. eexists. split; [done|]. rewrite Hframe; [done|].
      right. by apply not_ancestor_of_parent. }
  rewrite bind_run in Hrun.
  destruct Hdata as [(w1 & Hdata & Hsame)|(ex & w1 & Hdata)];
    rewrite Hdata in Hrun; [|done].
  clearbody load. rewrite bind_run in Hrun.
  destruct (merge_translations_spec translations
              (default [] (target_of w file_path)) w1)
    as (merged' & n' & lines & Hm & _ & _ & _ & Hzero & _).
  pose proof (merge_translations_any_world (default [] (target_of w file_path))
                translations w w1) as Hindep.
  unfold target_of in Hindep at 1. rewrite Hmerge, Hm in Hindep.
  injection Hindep as <- <-.
  rewrite Hm in Hrun. rewrite bind_run in Hrun. cbn [negb] in Hrun.
  destruct (0 <? n) eqn:Hn.
  - match type of Hrun with
    | (let (_, _) := ?r in _) = _ => destruct r as [[[]|ex] w2] eqn:Hblk
    end; [|done].
    injection Hrun as <- <-.
    apply persist_block_spec in Hblk; [|done].
    unfold target_of. by rewrite Hblk.
  - injection Hrun as <- <-. apply Nat.ltb_ge in Hn.
    rewrite Hzero by lia. unfold target_of at 1. cbn [fs].
    replace (lookup_node (mkWorld (fs w1) (log w1 ++ lines)) file_path)
      with (lookup_node w1 file_path) by done.
    rewrite Hsame. done.
Qed.

End updater_facts.

(** C2. The merge of [update_locale_file] writes an incoming pair only at
    a key that the existing mapping lacks or maps to the empty string; a key
    with a non-empty existing value keeps it; and a key that can be written
    and has an incoming pair gets an incoming value. Outside dry-run
    mode, when the update returns, the locale file holds that merged
    mapping. Merging {"greeting": "Salut", "farewell": "Au revoir"} into a
    file that holds {"greeting": "Bonjour"} leaves
    {"greeting": "Bonjour", "farewell": "Au revoir"} in the file. *)
Theorem merge_keeps_non_empty_existing_values :
  (∀ (existing incoming : PyDict.dict (list N) (list N)) (w : world),
     ∃ (merged : PyDict.dict (list N) (list N)) (updates_made : nat),
       (merge_translations existing incoming w).1
       = Returned (merged, updates_made)
       ∧ (∀ k v, PyDict.get existing k = Some v → v ≠ [] →
                 PyDict.get merged k = Some v)
       ∧ (∀ k, PyDict.get merged k ≠ PyDict.get existing k →
               (PyDict.get existing k = None ∨ PyDict.get existing k = Some [])
               ∧ ∃ v, (k, v) ∈ incoming ∧ PyDict.get merged k = Some v)
       ∧ (∀ k v, (k, v) ∈ incoming →
                 PyDict.get existing k = None ∨ PyDict.get existing k = Some [] →
                 ∃ v', (k, v') ∈ incoming ∧ PyDict.get merged k = Some v'))
  ∧ (∀ (self : SafeFileUpdater) (language file : list N)
       (incoming : PyDict.dict (list N) (list N)) (w w' : world) (b : bool),
       let file_path := joinpath (joinpath LOCALES_DIR language) file in
       update_locale_file self language file incoming false w
       = (Returned b, w') →
       ∃ updates_made : nat,
         (merge_translations (default [] (target_of w file_path)) incoming w).1
         = Returned (default [] (target_of w' file_path), updates_made))
  ∧ (let run :=
       update_locale_file timestamped_updater (pystr "fr") common_json
         incoming_greetings false greeting_world in
     run.1 = Returned true
     ∧ target_of run.2 (LOCALES_DIR ++ [pystr "fr"; common_json])
       = Some [(pystr "greeting", pystr "Bonjour");
               (pystr "farewell", pystr "Au revoir")]).
Proof.
  split_and!.
  - intros existing incoming w.
    destruct (merge_translations_spec incoming existing w)
      as (merged & n & lines & Hrun & Hkeep & Hchg & Hwr & _).
    exists merged, n. rewrite Hrun. split_and!; [done|exact Hkeep| |].
    + intros k Hk. destruct (Hchg k Hk) as [Hw Hv].
      split; [by apply writable_iff|done].
    + intros k v Hkv Hw. apply (Hwr k v Hkv). by apply writable_iff.
  - intros self language file incoming w w' b file_path Hrun.
    destruct (merge_translations_spec incoming
                (default [] (target_of w file_path)) w)
      as (merged & n & lines & Hm & _).
    exists n. rewrite Hm. cbn [fst]. do 2 f_equal. symmetry.
    eapply update_persists; [exact Hrun|]. fold file_path. by rewrite Hm.
  - cbv zeta. split; vm_compute; reflexivity.
Qed.

Lemma merge_keeps_non_empty_existing_values_witness :
  ∃ updates_made : nat,
    (merge_translations
       (default []
          (target_of greeting_world
             (LOCALES_DIR ++ [pystr "fr"] ++ [common_json])))
       incoming_greetings greeting_world).1
    = Returned
        (default []
           (target_of
              (update_locale_file timestamped_updater (pystr "fr") common_json
                 incoming_greetings false greeting_world).2
              (LOCALES_DIR ++ [pystr "fr"] ++ [common_json])),
         updates_made).
Proof.
  assert (Hret : (update_locale_file timestamped_updater (pystr "fr")
                    common_json incoming_greetings false greeting_world).1
                 = Returned true) by (vm_compute; reflexivity).
  apply (proj1 (proj2 merge_keeps_non_empty_existing_values)
           timestamped_updater (pystr "fr") common_json incoming_greetings
           greeting_world
           (update_locale_file timestamped_updater (pystr "fr") common_json
              incoming_greetings false greeting_world).2 true).
  rewrite <- Hret. apply surjective_pairing.
Defined.

(** C9. In dry-run mode [update_locale_file] changes no file and no
    directory, whatever the incoming translations are: no locale file is
    written, no directory is created, no backup is made. Unless a directory
    or a file that is not JSON stands where the locale file should be, it
    returns, having computed the merge, and its log ends with the number of
    writes the merge made, when there are some. *)
Theorem dry_run_changes_no_file :
  ∀ (self : SafeFileUpdater) (language file : list N)
    (translations : PyDict.dict (list N) (list N)) (w : world),
    let file_path := joinpath (joinpath LOCALES_DIR language) file in
    let run := update_locale_file self language file translations true w in
    fs run.2 = fs w
    ∧ match lookup_node w file_path with
      | Some Dir => run.1 = Raised IsADirectoryError ∧ log run.2 = log w
      | Some NotJson => run.1 = Raised JSONDecodeError ∧ log run.2 = log w
      | _ =>
          run.1 = Returned true
          ∧ ∃ merged updates_made lines,
              merge_translations (default [] (target_of w file_path))
                translations w
              = (Returned (merged, updates_made),
                 mkWorld (fs w) (log w ++ lines))
              ∧ log run.2
                = log w ++ lines
                    ++ if 0 <? updates_made
                       then [InfoDryRun file_path updates_made] else []
      end.
Proof.
  intros self language file translations w file_path run.
  pose proof (update_dry_run_spec self language file translations w) as Hspec.
  cbv zeta in Hspec. fold file_path run in Hspec.
  destruct (lookup_node w file_path) as [[existing| |]|].
  - destruct Hspec as (merged & n & lines & Hm & ->). eauto 10.
  - by rewrite Hspec.
  - by rewrite Hspec.
  - destruct Hspec as (merged & n & lines & Hm & ->). eauto 10.
Qed.

(** The same update, with and without dry-run mode: the dry run reports
    one write and leaves the tree alone; the real run makes a backup and
    rewrites the locale file. *)
Example dry_run_against_real_run :
  let dry :=
    update_locale_file timestamped_updater (pystr "fr") common_json
      incoming_greetings true greeting_world in
  let real :=
    update_locale_file timestamped_updater (pystr "fr") common_json
      incoming_greetings false greeting_world in
  target_of dry.2 (LOCALES_DIR ++ [pystr "fr"; common_json])
  = Some [(pystr "greeting", pystr "Bonjour")]
  ∧ target_of dry.2
      ([pystr "backups"; pystr "20240101_120000"]
         ++ LOCALES_DIR ++ [pystr "fr"; common_json])
    = None
  ∧ log dry.2
    = [DebugUpdated (pystr "farewell") (pystr "Au revoir");
       InfoDryRun (LOCALES_DIR ++ [pystr "fr"; common_json]) 1]
  ∧ target_of real.2
      ([pystr "backups"; pystr "20240101_120000"]
         ++ LOCALES_DIR ++ [pystr "fr"; common_json])
    = Some [(pystr "greeting", pystr "Bonjour")]
  ∧ target_of real.2 (LOCALES_DIR ++ [pystr "fr"; pystr "common.tmp"]) = None.
Proof. cbv zeta. split_and!; vm_compute; reflexivity. Qed.

(** Building the updater is what creates the backup directory, whatever
    mode the updates then run in. *)
Example constructor_creates_backup_directory :
  let built :=
    SafeFileUpdater_init [pystr "backups"; pystr "20240101_120000"]
      greeting_world in
  built.1 = Returned timestamped_updater
  ∧ lookup_node built.2 [pystr "backups"; pystr "20240101_120000"]
    = Some Dir
  ∧ lookup_node greeting_world [pystr "backups"] = None.
Proof. cbv zeta. split_and!; vm_compute; reflexivity. Qed.

(** ** Batcher *)

Section dict_order_facts.
Context {K V : Type} `{EqDecision K}.
Implicit Types (d : PyDict.dict K V) (k : K) (v : V).

Lemma get_None_keys d k : PyDict.get d k = None ↔ k ∉ PyDict.keys d.
Proof.
  unfold PyDict.keys. induction d as [|[k' v'] d IH]; cbn [PyDict.get].
  - split; [intros _ H; by apply elem_of_nil in H|done].
  - rewrite fmap_cons, not_elem_of_cons. cbn [fst].
    destruct (decide (k = k')) as [->|Hne]; [intuition congruence|].
    rewrite IH. intuition congruence.
Qed.

Lemma keys_set d k v :
  PyDict.keys (PyDict.set d k v)
  = if decide (k ∈ PyDict.keys d) then PyDict.keys d else PyDict.keys d ++ [k].
Proof.
  unfold PyDict.keys. induction d as [|[k' v'] d IH]; cbn [PyDict.set].
  - rewrite decide_False; [done|]. intros H. by apply elem_of_nil in H.
  - rewrite (fmap_cons fst _ d). cbn [fst].
    destruct (decide (k = k')) as [->|Hne].
    + rewrite decide_True; [done|]. left.
    + rewrite fmap_cons, IH. cbn [fst].
      destruct (decide (k ∈ fst <$> d)) as [Hin|Hnin].
      * rewrite decide_True; [done|]. by right.
      * rewrite decide_False; [done|].
        intros [?|?]%elem_of_cons; done.
Qed.

Lemma NoDup_keys_set d k v :
  NoDup (PyDict.keys d) → NoDup (PyDict.keys (PyDict.set d k v)).
Proof.
  intros Hnd. rewrite keys_set. case_decide; [done|].
  apply NoDup_app. split_and!; [done| |apply NoDup_singleton].
  intros x Hx Hx'. apply list_elem_of_singleton in Hx'. by subst.
Qed.

Lemma elem_of_get d k v :
  NoDup (PyDict.keys d) → (k, v) ∈ d ↔ PyDict.get d k = Some v.
Proof.
  intros Hnd. split; [|apply get_Some_elem_of].
  unfold PyDict.keys in Hnd. induction d as [|[k' v'] d IH]; intros Hin.
  - by apply elem_of_nil in Hin.
  - rewrite fmap_cons in Hnd. apply NoDup_cons in Hnd as [Hnotin Hnd].
    cbn [PyDict.get]. apply elem_of_cons in Hin as [[= -> ->]|Hin].
    + by rewrite decide_True.
    + rewrite decide_False; [by apply IH|].
      intros ->. apply Hnotin. apply list_elem_of_fmap. by exists (k', v).
Qed.
End dict_order_facts.

Section batcher_facts.

Implicit Types (tasks : list TranslationTask) (g : list N * list N).

(** *** Grouping *)

Lemma group_of_snoc g tasks task :
  group_of g (tasks ++ [task])
  = group_of g tasks ++ (if decide (task_key task = g) then [task] else []).
Proof.
  unfold group_of. rewrite filter_app, filter_cons, filter_nil.
  by destruct (decide _).
Qed.

(** The grouping dictionary maps the key of every task met so far to
    the tasks of that key, in order. *)
Lemma group_tasks_spec tasks :
  NoDup (PyDict.keys (group_tasks tasks))
  ∧ ∀ g, PyDict.get (group_tasks tasks) g
         = match group_of g tasks with
           | [] => None
           | group => Some group
           end.
Proof.
  unfold group_tasks.
  enough (H : ∀ seen grouped,
    NoDup (PyDict.keys grouped) →
    (∀ g, PyDict.get grouped g
          = match group_of g seen with [] => None | group => Some group end) →
    let grouped' :=
      fold_left
        (fun grouped task =>
           let key := (locale task, file_name task) in
           PyDict.set grouped key
             (default [] (PyDict.get grouped key) ++ [task]))
        tasks grouped in
    NoDup (PyDict.keys grouped')
    ∧ ∀ g, PyDict.get grouped' g
           = match group_of g (seen ++ tasks) with
             | [] => None
             | group => Some group
             end).
  { apply (H [] PyDict.empty); [constructor|done]. }
  induction tasks as [|task tasks IH]; intros seen grouped Hnd Hget; cbv zeta.
  - by rewrite app_nil_r.
  - cbn [fold_left].
    replace (seen ++ task :: tasks) with ((seen ++ [task]) ++ tasks)
      by (by rewrite <- app_assoc).
    apply IH; [by apply NoDup_keys_set|].
    intros g. rewrite group_of_snoc. fold (task_key task).
    destruct (decide (task_key task = g)) as [<-|Hne].
    + rewrite get_set_eq, Hget.
      by destruct (group_of (task_key task) seen).
    + rewrite get_set_ne by done. rewrite Hget, app_nil_r. done.
Qed.

Lemma elem_of_group_tasks tasks g group :
  (g, group) ∈ group_tasks tasks ↔ group = group_of g tasks ∧ group ≠ [].
Proof.
  destruct (group_tasks_spec tasks) as [Hnd Hget].
  rewrite (elem_of_get _ _ _ Hnd), Hget.
  destruct (group_of g tasks) as [|t l].
  - intuition congruence.
  - split; [intros [= <-]; done|intros [-> _]; done].
Qed.


(** *** Slicing *)

Lemma range_step_pos (n : nat) (batch_size : Z) :
  (0 < batch_size)%Z →
  range_step 0 (Z.of_nat n) batch_size
  = Returned ((fun i => (Z.of_nat i * batch_size)%Z)
              <$> seq 0 ((n + Z.to_nat batch_size - 1) / Z.to_nat batch_size)).
Proof.
  intros Hpos. unfold range_step.
  replace (batch_size =? 0)%Z with false by (symmetry; apply Z.eqb_neq; lia).
  replace (0 <? batch_size)%Z with true by (symmetry; apply Z.ltb_lt; lia).
  f_equal.
  replace (Z.to_nat ((Z.of_nat n - 0 + batch_size - 1) / batch_size))
    with ((n + Z.to_nat batch_size - 1) / Z.to_nat batch_size).
  - apply list_eq. intros i. rewrite !list_lookup_fmap.
    destruct (seq _ _ !! i); [simpl; f_equal; lia|done].
  - apply Nat2Z.inj.
    rewrite Nat2Z.inj_div, (Z2Nat.id (_ / _)) by (apply Z.div_pos; lia).
    replace (Z.of_nat (n + Z.to_nat batch_size - 1))
      with (Z.of_nat n - 0 + batch_size - 1)%Z by lia.
    replace (Z.of_nat (Z.to_nat batch_size)) with batch_size by lia.
    done.
Qed.

Lemma slice_chunk {A} (l : list A) (i : nat) (batch_size : Z) :
  (0 < batch_size)%Z →
  slice l (Z.of_nat i * batch_size) (Z.of_nat i * batch_size + batch_size)
  = take (Z.to_nat batch_size) (drop (i * Z.to_nat batch_size) l).
Proof.
  intros Hpos. unfold slice. f_equal; [|f_equal]; nia.
Qed.

Lemma batches_loop_spec
    (groups : list ((list N * list N) * list TranslationTask))
    (batch_size : Z) (batches : list (list TranslationTask)) :
  (0 < batch_size)%Z →
  batches_loop groups batch_size batches
  = Returned (batches ++ (groups ≫= fun group =>
                            chunks (Z.to_nat batch_size) group.2)).
Proof.
  intros Hpos. revert batches.
  induction groups as [|[g file_tasks] groups IH]; intros batches.
  - simpl. by rewrite app_nil_r.
  - cbn [batches_loop]. rewrite range_step_pos by done.
    rewrite IH, bind_cons, app_assoc. do 2 f_equal. cbn [snd].
    unfold chunks. generalize (seq 0 ((length file_tasks + Z.to_nat batch_size - 1)
                                       / Z.to_nat batch_size)).
    intros starts. revert batches.
    induction starts as [|i starts IHs]; intros batches.
    + simpl. by rewrite app_nil_r.
    + rewrite !fmap_cons. cbn [fold_left]. rewrite IHs, slice_chunk by done.
      by rewrite <- app_assoc.
Qed.

Section chunk_facts.
Context {A : Type}.
Implicit Types (l c : list A) (size : nat).

Lemma chunk_count size l :
  0 < size →
  let n := (length l + size - 1) / size in
  length l <= n * size ∧ (0 < n → (n - 1) * size < length l).
Proof.
  intros Hs n.
  pose proof (Nat.div_mod_eq (length l + size - 1) size) as Hdm.
  pose proof (Nat.mod_upper_bound (length l + size - 1) size ltac:(lia)) as Hm.
  fold n in Hdm. nia.
Qed.

Lemma concat_chunks_prefix size l n :
  concat ((fun i => take size (drop (i * size) l)) <$> seq 0 n)
  = take (n * size) l.
Proof.
  induction n as [|n IH]; [done|].
  rewrite seq_S, fmap_app, concat_app, IH. simpl. rewrite app_nil_r.
  rewrite take_take_drop. f_equal. lia.
Qed.

Lemma concat_chunks size l : 0 < size → concat (chunks size l) = l.
Proof.
  intros Hs. unfold chunks. rewrite concat_chunks_prefix.
  apply take_ge. by apply chunk_count.
Qed.

Lemma length_chunks size l :
  length (chunks size l) = (length l + size - 1) / size.
Proof. unfold chunks. by rewrite length_fmap, length_seq. Qed.

(** Every chunk but the last is full; the last is not empty. *)
Lemma chunk_sizes size l i c :
  0 < size → chunks size l !! i = Some c →
  0 < length c <= size ∧ (S i < length (chunks size l) → length c = size).
Proof.
  intros Hs Hc. rewrite length_chunks.
  unfold chunks in Hc. rewrite list_lookup_fmap in Hc.
  destruct (seq 0 _ !! i) as [j|] eqn:Hj; [|done].
  apply lookup_seq in Hj as [-> Hi]. simpl in Hc. injection Hc as <-.
  rewrite length_take, length_drop.
  destruct (chunk_count size l Hs) as [_ Hlast].
  specialize (Hlast ltac:(lia)). nia.
Qed.

Lemma elem_of_chunk size l c x : c ∈ chunks size l → x ∈ c → x ∈ l.
Proof.
  unfold chunks. intros (i & -> & _)%list_elem_of_fmap Hx.
  by apply subseteq_take, subseteq_drop in Hx.
Qed.
End chunk_facts.


(** *** The batches of a group *)

Lemma chunk_batch_key (size : nat) (group : list TranslationTask) g batch :
  0 < size → Forall (fun task => task_key task = g) group →
  batch ∈ chunks size group →
  batch_key batch = Some g ∧ Forall (fun task => task_key task = g) batch
  ∧ 0 < length batch <= size.
Proof.
  intros Hs Hg Hin.
  assert (Hall : Forall (fun task => task_key task = g) batch).
  { apply Forall_forall. intros task Ht.
    rewrite Forall_forall in Hg. apply Hg. by eapply elem_of_chunk. }
  apply list_elem_of_lookup in Hin as [i Hi].
  destruct (chunk_sizes size group i batch Hs Hi) as [Hlen _].
  split_and!; [|done|lia|lia].
  destruct batch as [|task batch]; [simpl in Hlen; lia|].
  unfold batch_key. simpl. by apply Forall_cons in Hall as [-> _].
Qed.

Lemma batches_of_chunks (size : nat) (group : list TranslationTask) g g' :
  0 < size → Forall (fun task => task_key task = g') group →
  batches_of g (chunks size group)
  = if decide (g' = g) then chunks size group else [].
Proof.
  intros Hs Hg.
  assert (Hall : Forall (fun batch => batch_key batch = Some g')
                   (chunks size group)).
  { apply Forall_forall. intros batch Hb.
    by destruct (chunk_batch_key size group g' batch Hs Hg Hb). }
  unfold batches_of. induction Hall as [|batch batches Hb _ IH].
  - by destruct (decide _).
  - rewrite filter_cons, IH, Hb.
    destruct (decide (g' = g)) as [->|Hne].
    + by rewrite decide_True.
    + rewrite decide_False; [done|]. congruence.
Qed.

Lemma batches_of_app g (l1 l2 : list (list TranslationTask)) :
  batches_of g (l1 ++ l2) = batches_of g l1 ++ batches_of g l2.
Proof. apply filter_app. Qed.

Lemma batches_of_groups (size : nat)
    (groups : PyDict.dict (list N * list N) (list TranslationTask)) g :
  0 < size → NoDup (PyDict.keys groups) →
  (∀ g' group, (g', group) ∈ groups →
               Forall (fun task => task_key task = g') group) →
  batches_of g (groups ≫= fun group => chunks size group.2)
  = match PyDict.get groups g with
    | Some group => chunks size group
    | None => []
    end.
Proof.
  intros Hs. unfold PyDict.keys.
  induction groups as [|[g' group] groups IH]; intros Hnd Hall; [done|].
  rewrite fmap_cons in Hnd. apply NoDup_cons in Hnd as [Hnotin Hnd].
  rewrite bind_cons, batches_of_app. cbn [snd].
  rewrite (batches_of_chunks size group g g') by (done || apply Hall; left).
  rewrite IH by (done || intros; apply Hall; by right).
  cbn [PyDict.get fst snd].
  destruct (decide (g' = g)) as [->|Hne].
  - rewrite decide_True by done.
    apply (get_None_keys groups g) in Hnotin. rewrite Hnotin.
    by rewrite app_nil_r.
  - by rewrite decide_False by done.
Qed.

Lemma group_of_all g tasks :
  Forall (fun task => task_key task = g) (group_of g tasks).
Proof.
  apply Forall_forall. intros task Ht.
  by apply list_elem_of_filter in Ht as [Ht _].
Qed.

Lemma concat_groups_snoc
    (grouped : PyDict.dict (list N * list N) (list TranslationTask))
    g task :
  concat (snd <$> PyDict.set grouped g
                    (default [] (PyDict.get grouped g) ++ [task]))
  ≡ₚ concat (snd <$> grouped) ++ [task].
Proof.
  induction grouped as [|[g' group] grouped IH]; [done|].
  cbn [PyDict.set PyDict.get].
  destruct (decide (g = g')) as [->|Hne].
  - rewrite !fmap_cons. cbn [snd concat default]. by rewrite <- app_assoc,
      (Permutation_app_comm [task]), !app_assoc.
  - rewrite !fmap_cons. cbn [snd concat]. rewrite IH. by rewrite app_assoc.
Qed.

Lemma concat_group_tasks tasks :
  concat (snd <$> group_tasks tasks) ≡ₚ tasks.
Proof.
  unfold group_tasks.
  enough (H : ∀ seen grouped,
    concat (snd <$> grouped) ≡ₚ seen →
    concat (snd <$>
            fold_left
              (fun grouped task =>
                 let key := (locale task, file_name task) in
                 PyDict.set grouped key
                   (default [] (PyDict.get grouped key) ++ [task]))
              tasks grouped) ≡ₚ seen ++ tasks)
    by (by apply (H [] PyDict.empty)).
  induction tasks as [|task tasks IH]; intros seen grouped Hp.
  - by rewrite app_nil_r.
  - cbn [fold_left].
    replace (seen ++ task :: tasks) with ((seen ++ [task]) ++ tasks)
      by (by rewrite <- app_assoc).
    apply IH. by rewrite concat_groups_snoc, Hp.
Qed.

Lemma concat_bind_chunks (size : nat)
    (groups : PyDict.dict (list N * list N) (list TranslationTask)) :
  0 < size →
  concat (groups ≫= fun group => chunks size group.2)
  = concat (snd <$> groups).
Proof.
  intros Hs. induction groups as [|[g group] groups IH]; [done|].
  rewrite bind_cons, concat_app, IH, fmap_cons. cbn [snd concat].
  by rewrite concat_chunks.
Qed.

(** The grouping of tasks that all have one key. *)
Lemma group_fold_one_key g tasks seen :
  Forall (fun task => task_key task = g) tasks →
  fold_left
    (fun grouped task =>
       let key := (locale task, file_name task) in
       PyDict.set grouped key (default [] (PyDict.get grouped key) ++ [task]))
    tasks [(g, seen)]
  = [(g, seen ++ tasks)].
Proof.
  intros Hall. revert seen.
  induction Hall as [|task tasks Ht _ IH]; intros seen.
  - by rewrite app_nil_r.
  - cbn [fold_left]. cbv zeta. fold (task_key task). rewrite Ht.
    cbn [PyDict.set PyDict.get]. rewrite !decide_True by done. cbn [default].
    rewrite IH. by rewrite <- app_assoc.
Qed.

Lemma group_tasks_one_key g tasks :
  tasks ≠ [] → Forall (fun task => task_key task = g) tasks →
  group_tasks tasks = [(g, tasks)].
Proof.
  intros Hne Hall. unfold group_tasks.
  destruct tasks as [|first tasks]; [done|].
  apply Forall_cons in Hall as [Hfirst Hall]. cbn [fold_left]. cbv zeta.
  fold (task_key first). rewrite Hfirst.
  change (PyDict.set PyDict.empty g
            (default [] (PyDict.get PyDict.empty g) ++ [first]))
    with [(g, [first])].
  by rewrite group_fold_one_key.
Qed.

End batcher_facts.

(** C5. For a positive batch size the batcher returns, and its batches
    partition the tasks by (language, file name): each batch is not empty,
    holds at most [batch_size] tasks and tasks of one group only; the
    batches of a group, concatenated in order, are the tasks of the group
    in the order of the task list; all the batches of a group but its last
    hold exactly [batch_size] tasks; and the batches together hold the tasks,
    each once. Forty-five tasks of one group with batch size 20 give three
    batches, of the first 20, the next 20 and the last 5 tasks. *)
Theorem batches_partition_tasks_in_order :
  (∀ (tasks : list TranslationTask) (batch_size : Z),
     (0 < batch_size)%Z →
     ∃ batches : list (list TranslationTask),
       group_tasks_into_batches tasks batch_size = Returned batches
       ∧ Forall (fun batch =>
                   0 < length batch <= Z.to_nat batch_size
                   ∧ ∃ g, batch_key batch = Some g
                          ∧ Forall (fun task => task_key task = g) batch)
           batches
       ∧ (∀ g, concat (batches_of g batches) = group_of g tasks)
       ∧ (∀ g i batch,
            batches_of g batches !! i = Some batch →
            S i < length (batches_of g batches) →
            length batch = Z.to_nat batch_size)
       ∧ concat batches ≡ₚ tasks)
  ∧ (∀ (tasks : list TranslationTask) (g : list N * list N),
       length tasks = 45 →
       Forall (fun task => task_key task = g) tasks →
       group_tasks_into_batches tasks 20
       = Returned [take 20 tasks; take 20 (drop 20 tasks); drop 40 tasks]
       ∧ length <$> [take 20 tasks; take 20 (drop 20 tasks); drop 40 tasks]
         = [20; 20; 5]).
Proof.
  split.
  - intros tasks batch_size Hpos.
    assert (Hs : 0 < Z.to_nat batch_size) by lia.
    destruct (group_tasks_spec tasks) as [Hnd Hget].
    assert (Hgroups : ∀ g' group, (g', group) ∈ group_tasks tasks →
                        Forall (fun task => task_key task = g') group).
    { intros g' group [-> _]%elem_of_group_tasks. apply group_of_all. }
    eexists. split; [by apply batches_loop_spec|].
    rewrite app_nil_l. unfold PyDict.items. split_and!.
    + apply Forall_forall. intros batch Hb.
      apply list_elem_of_bind in Hb as ([g group] & Hb & Hg).
      destruct (chunk_batch_key _ group g batch Hs (Hgroups _ _ Hg) Hb)
        as (Hk & Hall & Hlen).
      split; [done|]. by exists g.
    + intros g. rewrite (batches_of_groups _ _ g Hs Hnd Hgroups), Hget.
      destruct (group_of g tasks) as [|task group] eqn:Hg; [done|].
      by apply concat_chunks.
    + intros g i batch. rewrite (batches_of_groups _ _ g Hs Hnd Hgroups).
      destruct (PyDict.get (group_tasks tasks) g) as [group|]; [|done].
      intros Hb Hi. by apply (chunk_sizes _ group i batch Hs Hb).
    + rewrite concat_bind_chunks by done. apply concat_group_tasks.
  - intros tasks g Hlen Hall. split.
    + unfold group_tasks_into_batches.
      rewrite (group_tasks_one_key g tasks) by (done || by destruct tasks).
      rewrite batches_loop_spec by done. cbn [PyDict.items mbind list_bind snd].
      rewrite app_nil_l, app_nil_r. unfold chunks. rewrite Hlen.
      change ((45 + Z.to_nat 20 - 1) / Z.to_nat 20) with 3.
      change (Z.to_nat 20) with 20. cbn [seq fmap list_fmap Nat.mul Nat.add].
      do 4 f_equal. apply take_ge. rewrite length_drop. lia.
    + simpl. rewrite !length_take, !length_drop, Hlen. done.
Qed.

Lemma batches_partition_tasks_in_order_witness :
  ∃ batches : list (list TranslationTask),
    group_tasks_into_batches forty_five_tasks 20 = Returned batches
    ∧ Forall (fun batch =>
                0 < length batch <= Z.to_nat 20
                ∧ ∃ g, batch_key batch = Some g
                       ∧ Forall (fun task => task_key task = g) batch)
        batches
    ∧ (∀ g, concat (batches_of g batches) = group_of g forty_five_tasks)
    ∧ (∀ g i batch,
         batches_of g batches !! i = Some batch →
         S i < length (batches_of g batches) →
         length batch = Z.to_nat 20)
    ∧ concat batches ≡ₚ forty_five_tasks.
Proof.
  apply (proj1 batches_partition_tasks_in_order forty_five_tasks 20%Z). lia.
Defined.

Example forty_five_tasks_batches :
  match group_tasks_into_batches forty_five_tasks 20 with
  | Returned batches => Some (map (@length TranslationTask) batches)
  | Raised _ => None
  end = Some [20; 20; 5].
Proof. vm_compute. reflexivity. Qed.

(** A batch size of zero makes the slicing fail, a negative one gives no
    batch at all. *)
Example batch_size_not_positive :
  group_tasks_into_batches forty_five_tasks 0 = Raised ValueError
  ∧ group_tasks_into_batches forty_five_tasks (-1) = Returned [].
Proof. split; vm_compute; reflexivity. Qed.

(** ** Validator: what the checks report *)

Section validator_extras.

Lemma validation_eq (r : ValidationResult) v e w :
  r = mkValidation v e w ↔ is_valid r = v ∧ errors r = e ∧ warnings r = w.
Proof.
  destruct r as [v' e' w']. cbn. split.
  - by intros [= -> -> ->].
  - by intros (-> & -> & ->).
Qed.

Lemma fmap_filter_nil {A B} (f : A → B) (P : A → Prop) `{∀ x, Decision (P x)}
    (l : list A) :
  f <$> filter P l = [] ↔ Forall (fun x => ¬ P x) l.
Proof.
  induction l as [|x l IH].
  - by rewrite filter_nil.
  - rewrite filter_cons, Forall_cons. destruct (decide (P x)); [|tauto].
    split; [done|]. intros [? _]. done.
Qed.

(** X1. The placeholder check reports nothing (valid, no error, no warning)
    exactly when the original and the translation contain the same set of
    placeholders; how often and where each one occurs plays no part. *)
Theorem placeholder_check_clean_iff_same_placeholders :
  ∀ original translated : list N,
    validate_placeholders original translated = mkValidation true [] []
    ↔ ∀ p, p ∈ Regex.findall_placeholders original
           ↔ p ∈ Regex.findall_placeholders translated.
Proof.
  intros original translated.
  destruct (validate_placeholders_spec original translated) as (Hv & He & Hw).
  cbv zeta in Hv, He, Hw.
  rewrite validation_eq, Hv, He, Hw, bool_decide_eq_true, !fmap_filter_nil.
  rewrite !Forall_forall. split.
  - intros (H1 & _ & H2) p. split; [apply H1|].
    intros Hp. specialize (H2 p Hp). by apply dec_stable in H2.
  - intros H. split_and!; intros p Hp; try apply H; try done.
    + intros Hn. apply Hn, H, Hp.
    + intros Hn. apply Hn, H, Hp.
Qed.

Lemma remove_term_from_Forall (P : N → Prop) skip term s :
  Forall P s → Forall P (remove_term_from skip term s).
Proof.
  intros H. revert skip. induction H as [|c tl Hc _ IH]; intros skip.
  - constructor.
  - cbn [remove_term_from]. destruct skip as [|k]; [|apply IH].
    destruct (_ && _); [apply IH|]. constructor; [done|apply IH].
Qed.

Lemma sub_from_Forall (P : N → Prop) skip s :
  Forall P s → Forall P (Regex.sub_from skip s).
Proof.
  intros H. revert skip. induction H as [|c tl Hc _ IH]; intros skip.
  - constructor.
  - cbn [Regex.sub_from]. destruct skip as [|k]; [|apply IH].
    destruct (Regex.match_placeholder _) as [[m rest]|]; [apply IH|].
    constructor; [done|apply IH].
Qed.

Lemma remove_terms_Forall (P : N → Prop) terms s :
  Forall P s →
  Forall P (fold_left (fun check_text term => str_remove term check_text)
              terms s).
Proof.
  revert s. induction terms as [|term terms IH]; intros s H; [done|].
  cbn [fold_left]. apply IH. by apply remove_term_from_Forall.
Qed.

Lemma filter_none {A} (f : A → bool) (l : list A) :
  Forall (fun x => f x = false) l → List.filter f l = [].
Proof.
  induction 1 as [|x l Hx _ IH]; [done|]. cbn. by rewrite Hx.
Qed.

(** X2. A translation without any letter of [a-zA-Z] passes the check for
    English remnants without a warning, for every locale and every order
    in which the technical terms are visited. *)
Theorem script_check_silent_without_latin_letters :
  ∀ (term_order : list (list N)) (original translated locale : list N),
    Forall (fun c => Regex.is_latin_letter c = false) translated →
    validate_no_english_remnants term_order original translated locale
    = mkValidation true [] [].
Proof.
  intros term_order original translated locale Hnone.
  unfold validate_no_english_remnants.
  destruct (bool_decide _); [|done].
  rewrite (filter_none Regex.is_latin_letter).
  - cbn [length]. destruct (0 <? _); [|done]. cbn [andb].
    assert (E : ∀ n, Binary64.gtb (Binary64.truediv 0 n)
                       (Binary64.round64 (3 # 10)) = false)
      by (intros n; vm_compute; reflexivity).
    by rewrite E.
  - apply sub_from_Forall, remove_terms_Forall, Hnone.
Qed.

Lemma script_check_silent_without_latin_letters_witness :
  validate_no_english_remnants technical_terms (pystr "Hello")
    [20320%N; 22909%N] (pystr "zh")
  = mkValidation true [] [].
Proof.
  apply script_check_silent_without_latin_letters.
  repeat constructor.
Defined.

(** X3. The warning of the check for English remnants depends on the order
    in which the set of technical terms is visited: with HTTPS removed
    before HTTP a translation passes silently, with HTTP removed first the
    same translation is warned about. *)
Theorem script_check_depends_on_term_order :
  ∃ (order1 order2 : list (list N)) (translated locale : list N),
    order1 ≡ₚ technical_terms ∧ order2 ≡ₚ technical_terms
    ∧ warnings (validate_no_english_remnants order1 [] translated locale) = []
    ∧ warnings (validate_no_english_remnants order2 [] translated locale) ≠ [].
Proof.
  exists (map pystr ["API"; "URL"; "JSON"; "HTML"; "HTTPS"; "HTTP"; "ID"; "UI";
                     "OpenAI"; "ChatGPT"]%string),
    technical_terms, (pystr "HTTPS" ++ [32593%N]), (pystr "zh").
  split_and!.
  - unfold technical_terms. cbn [map]. do 4 apply perm_skip. apply perm_swap.
  - done.
  - vm_compute. reflexivity.
  - vm_compute. discriminate.
Qed.

End validator_extras.

(** ** Response models *)

Section text_facts.

Lemma lstrip_nil_iff (s : list N) :
  lstrip s = [] ↔ forallb Regex.is_space s = true.
Proof.
  induction s as [|c tl IH]; [done|]. cbn.
  destruct (Regex.is_space c); cbn; [exact IH|done].
Qed.

Lemma forallb_reverse {A} (f : A → bool) (l : list A) :
  forallb f (reverse l) = forallb f l.
Proof.
  induction l as [|x l IH]; [done|].
  rewrite reverse_cons, forallb_app, IH. cbn. rewrite andb_true_r.
  apply andb_comm.
Qed.

Lemma forallb_lstrip (s : list N) :
  forallb Regex.is_space (lstrip s) = forallb Regex.is_space s.
Proof.
  induction s as [|c tl IH]; [done|]. cbn.
  destruct (Regex.is_space c) eqn:Hc; cbn; [exact IH|by rewrite Hc].
Qed.

Lemma reverse_nil_iff {A} (l : list A) : reverse l = [] ↔ l = [].
Proof.
  split; [|by intros ->]. intros H. apply (f_equal reverse) in H.
  by rewrite reverse_involutive in H.
Qed.

Lemma strip_nil_iff (s : list N) :
  strip s = [] ↔ forallb Regex.is_space s = true.
Proof.
  unfold strip, rstrip.
  by rewrite reverse_nil_iff, lstrip_nil_iff, forallb_reverse, forallb_lstrip.
Qed.

End text_facts.

(** X4. The validator of the translated text of a [TranslationItem] raises
    [ValueError] exactly for a text made of white space only (the empty
    text included); every other text is returned as it is, not stripped. *)
Theorem validate_not_empty_rejects_blank_text :
  ∀ v : list N,
    validate_not_empty v
    = if forallb Regex.is_space v then Raised ValueError else Returned v.
Proof.
  intros v. unfold validate_not_empty.
  destruct (forallb Regex.is_space v) eqn:Hv.
  - rewrite (bool_decide_eq_true_2 (strip v = [])) by by apply strip_nil_iff.
    by rewrite orb_true_r.
  - rewrite (bool_decide_eq_false_2 (strip v = [])).
    + rewrite bool_decide_eq_false_2; [done|]. by intros ->.
    + rewrite strip_nil_iff. congruence.
Qed.

(** ** Engine: failures, answers and the cache *)

Section engine_extras.
Variable term_order : list (list N).
Implicit Types (e : engine) (tasks : list TranslationTask).
Implicit Types (results : list translation_result).

Lemma calls_made_snoc_call (t : list event) r :
  calls_made (t ++ [Call r]) = calls_made t + 1.
Proof. by rewrite calls_made_app. Qed.

Lemma attempt_loop_all_fail provider max_retries r uncached results n a e :
  Z.of_nat (a + S n) = max_retries →
  (∀ i, i < S n → provider (calls_made (trace e) + i) r = CallFails) →
  attempt_loop term_order provider (map Z.of_nat (seq a (S n))) max_retries r
    uncached results e
  = (Raised ProviderFailure,
     mkEngine (translation_cache e)
       (trace e ++
        (map Z.of_nat (seq a (S n)) ≫= fun attempt =>
           [Call r; LogAttemptFailed (attempt + 1)]
           ++ if (attempt <? max_retries - 1)%Z
              then [Sleep (2 ^ attempt)] else []))).
Proof.
  revert a e. induction n as [|n IH]; intros a e Hmax Hfail.
  - assert (Hlt : (Z.of_nat a <? max_retries - 1)%Z = false)
      by (apply Z.ltb_ge; lia).
    cbn [seq map]. rewrite attempt_loop_cons, bind_cons. cbv zeta.
    rewrite <- (Nat.add_0_r (calls_made _)), (Hfail 0) by lia.
    rewrite !Hlt. cbn. by rewrite ?app_nil_r.
  - assert (Hlt : (Z.of_nat a <? max_retries - 1)%Z = true)
      by (apply Z.ltb_lt; lia).
    cbn [seq map]. rewrite attempt_loop_cons, bind_cons. cbv zeta.
    rewrite <- (Nat.add_0_r (calls_made _)), (Hfail 0) by lia.
    rewrite !Hlt.
    change (Z.of_nat (S a) :: map Z.of_nat (seq (S (S a)) n))
      with (map Z.of_nat (seq (S a) (S n))).
    rewrite (IH (S a)).
    + cbn [translation_cache trace]. f_equal. f_equal.
      by rewrite <- app_assoc.
    + lia.
    + intros i Hi. cbn [trace].
      replace (trace e ++ [Call r; LogAttemptFailed (Z.of_nat a + 1);
                           Sleep (2 ^ Z.of_nat a)])
        with ((trace e ++ [Call r])
              ++ [LogAttemptFailed (Z.of_nat a + 1); Sleep (2 ^ Z.of_nat a)])
        by (by rewrite <- app_assoc).
      rewrite calls_made_app, calls_made_snoc_call.
      replace (calls_made [_; _]) with 0 by done.
      rewrite <- (Hfail (S i)) by lia. f_equal. lia.
Qed.

Lemma attempt_loop_all_unparsed provider max_retries r uncached results
    attempts e :
  (∀ i, i < length attempts →
        provider (calls_made (trace e) + i) r = Unparsed) →
  attempt_loop term_order provider attempts max_retries r uncached results e
  = (Returned results,
     mkEngine (translation_cache e)
       (trace e ++ replicate (length attempts) (Call r))).
Proof.
  revert e. induction attempts as [|attempt later IH]; intros e Hun.
  - cbn. rewrite app_nil_r. by destruct e.
  - rewrite attempt_loop_cons. cbv zeta.
    rewrite <- (Nat.add_0_r (calls_made _)), (Hun 0) by (cbn; lia).
    rewrite IH.
    + cbn [translation_cache trace length replicate].
      by rewrite <- app_assoc.
    + intros i Hi. cbn [trace]. rewrite calls_made_snoc_call.
      rewrite <- (Hun (S i)) by (cbn; lia). f_equal. lia.
Qed.

Lemma process_translations_forget_keys attempt max_retries uncached
    (translations : list (list N * list N)) results e :
  process_translations term_order attempt max_retries
    (zip uncached (map (fun item => ([], item.2)) translations)) results e
  = process_translations term_order attempt max_retries
      (zip uncached translations) results e.
Proof.
  unfold process_translations. revert translations results e.
  induction uncached as [|task uncached IH];
    intros [|[k t] translations] results e; try reflexivity.
  cbn [map zip zip_with]. rewrite !for_each_cons.
  change (process_item term_order attempt max_retries results
            (task, ([], (k, t).2)) e)
    with (process_item term_order attempt max_retries results
            (task, (k, t)) e).
  destruct (process_item term_order attempt max_retries results (task, (k, t)) e)
    as [[acc|ex] e1]; [apply IH|done].
Qed.

Lemma attempt_loop_forget_keys provider attempts max_retries r uncached
    results e :
  attempt_loop term_order (fun n r => forget_keys (provider n r)) attempts
    max_retries r uncached results e
  = attempt_loop term_order provider attempts max_retries r uncached results e.
Proof.
  revert results e. induction attempts as [|attempt later IH];
    intros results e; [done|].
  rewrite !attempt_loop_cons. cbv zeta.
  destruct (provider (calls_made (trace e)) r) as [| |translations];
    cbn [forget_keys].
  - destruct (attempt <? max_retries - 1)%Z; [apply IH|done].
  - apply IH.
  - apply process_translations_forget_keys.
Qed.

(** How a returning run of the attempts ends: with the results it began
    with, or with the items kept from one parsed answer added to them. *)
Lemma attempt_loop_returns provider attempts max_retries r uncached results e
    res e' :
  attempt_loop term_order provider attempts max_retries r uncached results e
  = (Returned res, e') →
  res = results
  ∨ ∃ attempt translations e1,
      translation_cache e1 = translation_cache e
      ∧ process_translations term_order attempt max_retries
          (zip uncached translations) results e1
        = (Returned res, e').
Proof.
  revert e. induction attempts as [|attempt later IH]; intros e.
  - cbn. intros [= <- <-]. by left.
  - rewrite attempt_loop_cons. cbv zeta.
    destruct (provider (calls_made (trace e)) r) as [| |translations].
    + destruct (attempt <? max_retries - 1)%Z; [|done].
      intros H. apply IH in H as [H|(a & ts & e1 & Hc & H)]; [by left|].
      right. by exists a, ts, e1.
    + intros H. apply IH in H as [H|(a & ts & e1 & Hc & H)]; [by left|].
      right. by exists a, ts, e1.
    + intros H. right. eexists attempt, translations, _. split; [|exact H].
      reflexivity.
Qed.

(** With distinct cache keys, each kept item is stored under its key. *)
Lemma process_translations_stores attempt max_retries pairs results e res e' :
  NoDup ((cache_key ∘ fst) <$> pairs) →
  process_translations term_order attempt max_retries pairs results e
  = (Returned res, e') →
  ∀ pair, pair ∈ List.filter (kept term_order attempt max_retries) pairs →
          translation_cache e' !! cache_key pair.1 = Some pair.2.2.
Proof.
  revert results e. induction pairs as [|[task item] pairs IH];
    intros results e Hnd Hrun pair Hp.
  { by apply elem_of_nil in Hp. }
  apply NoDup_cons in Hnd as [Hfresh Hnd].
  unfold process_translations in *.
  rewrite for_each_cons, process_item_spec in Hrun. cbn [List.filter] in Hp.
  destruct (kept term_order attempt max_retries (task, item)) eqn:Hkept.
  - apply elem_of_cons in Hp as [->|Hp]; [|by eapply IH].
    cbn [fst snd] in *.
    destruct (process_translations_spec term_order attempt max_retries pairs
                (results ++ [result_of term_order (task, item)])
                (mkEngine (<[cache_key task := item.2]> (translation_cache e))
                   (trace e))) as (e2 & Hrun2 & Hframe & _).
    unfold process_translations in Hrun2. rewrite Hrun2 in Hrun.
    injection Hrun as _ <-. rewrite Hframe.
    + cbn. by rewrite lookup_insert_eq.
    + intros Hin. apply Hfresh. apply list_elem_of_fmap in Hin as (q & Hq & Hin).
      apply list_elem_of_fmap. exists q. split; [done|].
      by apply list_elem_of_In, filter_In in Hin as [Hin%list_elem_of_In _].
  - by eapply IH.
Qed.

Lemma zip_fst_sublist {A B} (l : list A) (k : list B) :
  (zip l k).*1 `sublist_of` l.
Proof.
  revert k. induction l as [|x l IH]; intros [|y k]; cbn;
    try apply sublist_nil_l.
  by apply sublist_skip.
Qed.

Lemma List_filter_sublist {A} (f : A → bool) (l : list A) :
  List.filter f l `sublist_of` l.
Proof.
  induction l as [|x l IH]; [done|]. cbn.
  destruct (f x); [by apply sublist_skip|by apply sublist_cons].
Qed.

Lemma hits_and_misses cache tasks :
  (omap (hit_of term_order cache) tasks).*1.*1
  ++ filter (fun task => cache !! cache_key task = None) tasks
  ≡ₚ tasks.
Proof.
  induction tasks as [|task tasks IH]; [done|].
  rewrite omap_cons_match. unfold hit_of at 1.
  destruct (cache !! cache_key task) as [translated|] eqn:Hc;
    cbn [fmap option_fmap option_map list_fmap fst app].
  - rewrite filter_cons_False by congruence. by constructor.
  - rewrite filter_cons_True by done.
    rewrite <- Permutation_middle. by constructor.
Qed.

Lemma hits_are_cached cache tasks item :
  item ∈ omap (hit_of term_order cache) tasks →
  cache !! cache_key item.1.1 = Some item.1.2
  ∧ item.2 = validate_translation term_order item.1.1 item.1.2.
Proof.
  intros (task & _ & Hhit)%list_elem_of_omap. unfold hit_of in Hhit.
  destruct (cache !! cache_key task) as [translated|] eqn:Hc; [|done].
  injection Hhit as <-. done.
Qed.

(** What a returning call of [translate_batch] returns and leaves in the
    cache. *)
Lemma translate_batch_returns provider tasks max_retries e results e' :
  translate_batch term_order provider tasks max_retries e
  = (Returned results, e') →
  ∃ pairs : list (TranslationTask * (list N * list N)),
    results = omap (hit_of term_order (translation_cache e)) tasks
              ++ (result_of term_order <$> pairs)
    ∧ pairs.*1 `sublist_of`
        filter (fun task => translation_cache e !! cache_key task = None) tasks
    ∧ (∀ pair, pair ∈ pairs →
         is_Some (translation_cache e' !! cache_key pair.1))
    ∧ (NoDup (cache_key <$> tasks) →
       ∀ pair, pair ∈ pairs →
         translation_cache e' !! cache_key pair.1 = Some pair.2.2).
Proof.
  destruct tasks as [|first rest].
  { cbn. intros [= <- <-]. exists []. split_and!; [done|done| |].
    - intros pair H. by apply elem_of_nil in H.
    - intros _ pair H. by apply elem_of_nil in H. }
  rewrite translate_batch_cons. cbv zeta.
  set (tasks := first :: rest).
  set (hits := omap _ tasks). set (uncached := filter _ tasks).
  assert (Hempty : ∀ unc res e2,
            (Returned hits, e) = (Returned res, e2) ∨ res = hits →
            ∃ pairs : list (TranslationTask * (list N * list N)),
              res = hits ++ (result_of term_order <$> pairs)
              ∧ pairs.*1 `sublist_of` unc
              ∧ (∀ pair, pair ∈ pairs →
                   is_Some (translation_cache e2 !! cache_key pair.1))
              ∧ (NoDup (cache_key <$> tasks) →
                 ∀ pair, pair ∈ pairs →
                   translation_cache e2 !! cache_key pair.1 = Some pair.2.2)).
  { intros unc res e2 Hres. exists []. split_and!.
    - rewrite app_nil_r. by destruct Hres as [[= <- _]| ->].
    - apply sublist_nil_l.
    - intros pair H. by apply elem_of_nil in H.
    - intros _ pair H. by apply elem_of_nil in H. }
  destruct uncached as [|u us] eqn:Hu.
  { intros H. apply Hempty. by left. }
  rewrite <- Hu. clear Hu.
  intros Hrun. apply attempt_loop_returns in Hrun
    as [->|(attempt & translations & e1 & Hc & Hrun)].
  { apply Hempty. by right. }
  destruct (process_translations_spec term_order attempt max_retries
              (zip uncached translations) hits e1)
    as (e2 & Hrun2 & _ & Hin & _).
  rewrite Hrun in Hrun2. injection Hrun2 as -> <-.
  exists (List.filter (kept term_order attempt max_retries)
            (zip uncached translations)).
  split_and!; [done| |exact Hin|].
  - etrans; [|apply (zip_fst_sublist uncached translations)].
    apply fmap_sublist, List_filter_sublist.
  - intros Hnd. eapply process_translations_stores; [|exact Hrun].
    rewrite list_fmap_compose.
    eapply (sublist_NoDup _ (cache_key <$> tasks)); [exact Hnd|].
    apply fmap_sublist. etrans; [apply zip_fst_sublist|].
    apply sublist_filter.
Qed.

End engine_extras.

Lemma calls_made_attempts (f : Z → list event) (attempts : list Z) r :
  (∀ a, calls_made (f a) = 0) →
  calls_made (attempts ≫= fun a => Call r :: f a) = length attempts.
Proof.
  intros Hf. induction attempts as [|a attempts IH]; [done|].
  rewrite bind_cons. change (Call r :: f a) with ([Call r] ++ f a).
  rewrite !calls_made_app, Hf, IH. done.
Qed.

(** X5. For a batch with a task that is not in the cache and
    [max_retries] at least 1: when every call fails, [translate_batch]
    makes [max_retries] calls with the same request, waits [2^k] seconds
    after the failure of attempt [k] except the last, and raises; the cache
    is as before. *)
Theorem provider_failing_at_every_attempt_raises :
  ∀ (term_order : list (list N)) (provider : nat → request → response)
    (first : TranslationTask) (rest : list TranslationTask) (max_retries : Z)
    (e : engine),
    let tasks := first :: rest in
    let uncached :=
      filter (fun task => translation_cache e !! cache_key task = None) tasks in
    let r := build_request (locale first) (file_name first) uncached in
    uncached ≠ [] → (1 <= max_retries)%Z →
    (∀ i : nat, (Z.of_nat i < max_retries)%Z →
                provider (calls_made (trace e) + i) r = CallFails) →
    translate_batch term_order provider tasks max_retries e
    = (Raised ProviderFailure,
       mkEngine (translation_cache e)
         (trace e ++ failed_attempts r max_retries))
    ∧ calls_made (failed_attempts r max_retries) = Z.to_nat max_retries.
Proof.
  intros term_order provider first rest max_retries e tasks uncached r Hne Hmax
    Hfail. split.
  - subst tasks. rewrite translate_batch_cons. cbv zeta. fold uncached r.
    destruct uncached as [|u us] eqn:Hu; [done|]. rewrite <- Hu in *.
    unfold failed_attempts, range.
    destruct (Z.to_nat max_retries) as [|n] eqn:Hn; [lia|].
    apply attempt_loop_all_fail; [lia|].
    intros i Hi. apply Hfail. lia.
  - unfold failed_attempts.
    change (calls_made
              (range max_retries ≫= fun attempt =>
                 Call r :: LogAttemptFailed (attempt + 1)
                 :: if (attempt <? max_retries - 1)%Z
                    then [Sleep (2 ^ attempt)] else [])
            = Z.to_nat max_retries).
    rewrite (calls_made_attempts
               (fun attempt =>
                  LogAttemptFailed (attempt + 1)
                  :: if (attempt <? max_retries - 1)%Z
                     then [Sleep (2 ^ attempt)] else [])).
    + unfold range. by rewrite length_map, length_seq.
    + intros a. by destruct (a <? max_retries - 1)%Z.
Qed.

Lemma provider_failing_at_every_attempt_raises_witness :
  translate_batch technical_terms failing_provider [greet_task] 3 fresh_engine
  = (Raised ProviderFailure,
     mkEngine ∅
       [Call greet_request; LogAttemptFailed 1; Sleep 1;
        Call greet_request; LogAttemptFailed 2; Sleep 2;
        Call greet_request; LogAttemptFailed 3]).
Proof.
  destruct (provider_failing_at_every_attempt_raises technical_terms
              failing_provider greet_task [] 3 fresh_engine) as [H _].
  - vm_compute. discriminate.
  - lia.
  - reflexivity.
  - rewrite H. vm_compute. reflexivity.
Defined.

(** X6. For a batch with a task that is not in the cache: when no answer
    has a parsed body, [translate_batch] returns the cache hits alone
    after [max_retries] calls, without a pause, a log line or an exception,
    and the cache is as before; with [max_retries] at most zero that is so
    without any call. *)
Theorem unparsed_answers_return_the_hits_alone :
  ∀ (term_order : list (list N)) (provider : nat → request → response)
    (first : TranslationTask) (rest : list TranslationTask) (max_retries : Z)
    (e : engine),
    let tasks := first :: rest in
    let uncached :=
      filter (fun task => translation_cache e !! cache_key task = None) tasks in
    let r := build_request (locale first) (file_name first) uncached in
    uncached ≠ [] →
    (∀ i : nat, (Z.of_nat i < max_retries)%Z →
                provider (calls_made (trace e) + i) r = Unparsed) →
    translate_batch term_order provider tasks max_retries e
    = (Returned (omap (hit_of term_order (translation_cache e)) tasks),
       mkEngine (translation_cache e)
         (trace e ++ replicate (Z.to_nat max_retries) (Call r))).
Proof.
  intros term_order provider first rest max_retries e tasks uncached r Hne Hun.
  subst tasks. rewrite translate_batch_cons. cbv zeta. fold uncached r.
  destruct uncached as [|u us] eqn:Hu; [done|]. rewrite <- Hu in *.
  rewrite attempt_loop_all_unparsed.
  - unfold range. by rewrite length_map, length_seq.
  - unfold range. rewrite length_map, length_seq. intros i Hi.
    apply Hun. lia.
Qed.

Lemma unparsed_answers_return_the_hits_alone_witness :
  translate_batch technical_terms unparsed_provider [greet_task] 3 fresh_engine
  = (Returned [],
     mkEngine ∅ [Call greet_request; Call greet_request; Call greet_request])
  ∧ translate_batch technical_terms faithful_provider [greet_task] 0
      fresh_engine
    = (Returned [], fresh_engine).
Proof.
  split.
  - rewrite (unparsed_answers_return_the_hits_alone technical_terms
               unparsed_provider greet_task [] 3 fresh_engine).
    + vm_compute. reflexivity.
    + vm_compute. discriminate.
    + reflexivity.
  - rewrite (unparsed_answers_return_the_hits_alone technical_terms
               faithful_provider greet_task [] 0 fresh_engine).
    + vm_compute. reflexivity.
    + vm_compute. discriminate.
    + intros i Hi. lia.
Defined.

(** X7. The key that an item of an answer carries is never read: the
    translations are paired with the tasks by position. Erasing the keys
    of every answer changes neither the result nor the engine. *)
Theorem answer_keys_are_never_read :
  ∀ (term_order : list (list N)) (provider : nat → request → response)
    (tasks : list TranslationTask) (max_retries : Z) (e : engine),
    translate_batch term_order (fun n r => forget_keys (provider n r)) tasks
      max_retries e
    = translate_batch term_order provider tasks max_retries e.
Proof.
  intros term_order provider tasks max_retries e.
  destruct tasks as [|first rest]; [done|].
  rewrite !translate_batch_cons. cbv zeta.
  destruct (filter _ (first :: rest)); [done|].
  apply attempt_loop_forget_keys.
Qed.

(** X8. Whatever [translate_batch] returns pairs tasks of the batch, none
    more often than the batch holds it, with a translation and the
    validation of that translation for that task, and every returned task
    is in the cache afterwards. *)
Theorem results_are_validated_tasks_of_the_batch :
  ∀ (term_order : list (list N)) (provider : nat → request → response)
    (tasks : list TranslationTask) (max_retries : Z) (e e' : engine)
    (results : list translation_result),
    translate_batch term_order provider tasks max_retries e
    = (Returned results, e') →
    results.*1.*1 ⊆+ tasks
    ∧ Forall
        (fun item =>
           item.2 = validate_translation term_order item.1.1 item.1.2
           ∧ is_Some (translation_cache e' !! cache_key item.1.1))
        results.
Proof.
  intros term_order provider tasks max_retries e e' results Hrun.
  pose proof (translate_batch_frame term_order provider tasks max_retries e)
    as [Hsub _]. cbv zeta in Hsub. rewrite Hrun in Hsub. cbn [snd] in Hsub.
  apply translate_batch_returns in Hrun
    as (pairs & -> & Hpairs & Hin & _).
  split.
  - rewrite !fmap_app. rewrite <- (hits_and_misses term_order
                                     (translation_cache e) tasks) at 2.
    apply submseteq_app; [done|]. apply sublist_submseteq.
    rewrite <- !list_fmap_compose.
    erewrite list_fmap_ext; [exact Hpairs|]. by intros _ [task item] _.
  - apply Forall_app. split; apply Forall_forall; intros item Hitem.
    + apply hits_are_cached in Hitem as [Hc Hv]. split; [done|].
      eapply lookup_weaken_is_Some; [|exact Hsub]. eauto.
    + apply list_elem_of_fmap in Hitem as (pair & -> & Hp).
      split; [done|]. by apply Hin.
Qed.

Lemma results_are_validated_tasks_of_the_batch_witness :
  ∃ (results : list translation_result) (e' : engine),
    translate_batch technical_terms faithful_provider [greet_task] 3
      fresh_engine = (Returned results, e')
    ∧ results.*1.*1 ⊆+ [greet_task]
    ∧ Forall
        (fun item =>
           item.2 = validate_translation technical_terms item.1.1 item.1.2
           ∧ is_Some (translation_cache e' !! cache_key item.1.1))
        results.
Proof.
  eexists _, _. split; [vm_compute; reflexivity|].
  eapply (results_are_validated_tasks_of_the_batch technical_terms
            faithful_provider [greet_task] 3 fresh_engine).
  vm_compute. reflexivity.
Defined.

(** X9. When the tasks of a batch have distinct cache keys and
    [translate_batch] returns, translating the returned tasks again gives
    the same results from the cache: the engine is not changed, so no
    request is sent. *)
Theorem returned_tasks_are_served_from_the_cache :
  ∀ (term_order : list (list N)) (provider : nat → request → response)
    (tasks : list TranslationTask) (max_retries again : Z) (e e' : engine)
    (results : list translation_result),
    NoDup (cache_key <$> tasks) →
    translate_batch term_order provider tasks max_retries e
    = (Returned results, e') →
    translate_batch term_order provider (results.*1.*1) again e'
    = (Returned results, e').
Proof.
  intros term_order provider tasks max_retries again e e' results Hnd Hrun.
  pose proof (translate_batch_frame term_order provider tasks max_retries e)
    as [Hsub _]. cbv zeta in Hsub. rewrite Hrun in Hsub. cbn [snd] in Hsub.
  apply translate_batch_returns in Hrun
    as (pairs & -> & _ & _ & Hstored). specialize (Hstored Hnd).
  assert (Hall : Forall
            (fun item : translation_result =>
               translation_cache e' !! cache_key item.1.1 = Some item.1.2
               ∧ item.2 = validate_translation term_order item.1.1 item.1.2)
            (omap (hit_of term_order (translation_cache e)) tasks
             ++ (result_of term_order <$> pairs))).
  { apply Forall_app. split; apply Forall_forall; intros item Hitem.
    - apply hits_are_cached in Hitem as [Hc Hv]. split; [|done].
      by eapply lookup_weaken.
    - apply list_elem_of_fmap in Hitem as (pair & -> & Hp).
      split; [|done]. by apply Hstored. }
  revert Hall.
  generalize (omap (hit_of term_order (translation_cache e)) tasks
              ++ (result_of term_order <$> pairs)).
  intros res Hall. rewrite all_hits_no_call.
  - f_equal. f_equal. induction Hall as [|[[task translated] validation] res [Hc Hv] _ IH];
      [done|].
    cbn in *. rewrite Hc. cbn. by rewrite IH, Hv.
  - apply Forall_fmap, Forall_fmap. eapply Forall_impl; [exact Hall|].
    intros item [Hc _]. cbn. eauto.
Qed.

Lemma returned_tasks_are_served_from_the_cache_witness :
  ∃ (results : list translation_result) (e' : engine),
    translate_batch technical_terms faithful_provider [greet_task] 3
      fresh_engine = (Returned results, e')
    ∧ translate_batch technical_terms faithful_provider (results.*1.*1) 3 e'
      = (Returned results, e').
Proof.
  eexists _, _. split; [vm_compute; reflexivity|].
  eapply (returned_tasks_are_served_from_the_cache technical_terms
            faithful_provider [greet_task] 3 3 fresh_engine).
  - vm_compute. repeat constructor. intros H. by apply elem_of_nil in H.
  - vm_compute. reflexivity.
Defined.

(** ** Analyzer and updater together *)

(** A run that is known to return: its outcome and the state it leaves. *)
Lemma run_pair {A B} (x : A * B) (a : A) : x.1 = a → x = (a, x.2).
Proof. destruct x as [a' b]. cbn. by intros ->. Qed.

Section analyzer_extras.
Implicit Types (w : world) (tasks : list TranslationTask).

(** What a returning loop over the reference files returns. *)
Lemma analyze_files_returns locale locale_dir
    (files : PyDict.dict (list N) (PyDict.dict (list N) (list N))) tasks w res w' :
  for_each files tasks (analyze_file locale locale_dir) w = (Returned res, w') →
  w' = w
  ∧ res = tasks ++
          mbind (fun '(file_name, ref) =>
                   omap (task_for locale file_name
                           (target_of w (joinpath locale_dir file_name))) ref)
            files.
Proof.
  revert tasks. induction files as [|[file_name ref] files IH]; intros tasks.
  - cbn. intros [= <- <-]. by rewrite app_nil_r.
  - rewrite for_each_cons, analyze_file_spec.
    destruct (lookup_node w (joinpath locale_dir file_name)) as [[target| |]|]
      eqn:Hl; [|done|done|].
    all: intros H; apply IH in H as [-> ->]; split; [done|].
    all: by rewrite bind_cons, <- app_assoc.
Qed.

Lemma analyze_locale_returns self locale w tasks w' :
  analyze_locale self locale w = (Returned tasks, w') →
  ∀ task, task ∈ tasks →
    ∃ file_name ref entry,
      (file_name, ref) ∈ english_data self ∧ entry ∈ ref
      ∧ task_for locale file_name
          (target_of w
             (joinpath (joinpath (locales_dir self) locale) file_name)) entry
        = Some task.
Proof.
  intros Hrun task Ht.
  destruct (lookup_node w (joinpath (locales_dir self) locale)) as [n|] eqn:Hn.
  - unfold analyze_locale in Hrun.
    rewrite bind_run, path_exists_run, Hn in Hrun. cbn [negb] in Hrun.
    apply analyze_files_returns in Hrun as [_ ->]. rewrite app_nil_l in Ht.
    apply elem_of_analysis in Ht as (f & r & entry & Hf & He & Htask).
    by exists f, r, entry.
  - rewrite analyze_locale_no_dir in Hrun by done. injection Hrun as <- _.
    by apply elem_of_nil in Ht.
Qed.

End analyzer_extras.

(** X10. For a locale whose directory exists and whose locale files, where
    there are some, are JSON files, the analysis returns no task exactly
    when every key of every reference file is in the locale file of the
    same name with a value that is not empty. *)
Theorem no_task_iff_locale_complete :
  ∀ (self : LocaleAnalyzer) (language : list N) (w : world),
    let locale_dir := joinpath (locales_dir self) language in
    is_Some (lookup_node w locale_dir) →
    (∀ f r, (f, r) ∈ english_data self →
            readable (lookup_node w (joinpath locale_dir f))) →
    analyze_locale self language w = (Returned [], w)
    ↔ ∀ f r k v, (f, r) ∈ english_data self → (k, v) ∈ r →
        ∃ target c s,
          target_of w (joinpath locale_dir f) = Some target
          ∧ PyDict.get target k = Some (c :: s).
Proof.
  intros self language w locale_dir Hdir Hfiles.
  rewrite (analyze_locale_spec self language w Hdir Hfiles). fold locale_dir.
  split.
  - intros [= Hnil] f r k v Hf Hk.
    destruct (task_for language f (target_of w (joinpath locale_dir f)) (k, v))
      as [task|] eqn:Htask.
    + assert (Hin : task ∈ @nil TranslationTask).
      { rewrite <- Hnil. apply elem_of_analysis. by exists f, r, (k, v). }
      by apply elem_of_nil in Hin.
    + unfold task_for in Htask.
      destruct (target_of w (joinpath locale_dir f)) as [target|]; [|done].
      destruct (PyDict.get target k) as [[|c s]|] eqn:Hg; try done. eauto.
  - intros Hcomplete. f_equal. f_equal. apply elem_of_nil_inv. intros task Ht.
    apply elem_of_analysis in Ht as (f & r & [k v] & Hf & Hk & Htask).
    destruct (Hcomplete f r k v Hf Hk) as (target & c & s & Ht & Hg).
    unfold task_for in Htask. by rewrite Ht, Hg in Htask.
Qed.

Lemma no_task_iff_locale_complete_witness :
  analyze_locale reference_analyzer (pystr "fr") complete_world
  = (Returned [], complete_world).
Proof.
  apply no_task_iff_locale_complete.
  - vm_compute. eauto.
  - intros f r Hf. apply list_elem_of_singleton in Hf. injection Hf as -> ->.
    split; vm_compute; discriminate.
  - intros f r k v Hf Hk.
    apply list_elem_of_singleton in Hf. injection Hf as -> ->.
    eexists _. change (target_of complete_world _)
      with (Some [(pystr "greeting", pystr "Bonjour");
               (pystr "farewell", pystr "Au revoir");
               (pystr "thanks", pystr "Merci")]).
    repeat (apply elem_of_cons in Hk as [[= -> ->]|Hk];
            [eexists _, _; split; [reflexivity|vm_compute; reflexivity]|]).
    by apply elem_of_nil in Hk.
Defined.

Section updater_extras.
Implicit Types (w : world) (data translations : PyDict.dict (list N) (list N)).

Lemma elem_of_keys {K V} (d : list (K * V)) k :
  k ∈ PyDict.keys d ↔ ∃ v, (k, v) ∈ d.
Proof.
  unfold PyDict.keys. rewrite list_elem_of_fmap. split.
  - intros ([k' v] & -> & H). eauto.
  - intros [v H]. by exists (k, v).
Qed.

(** After the merge every incoming key with values that are not empty
    holds a value that is not empty. *)
Lemma merged_keys_translated translations data w merged updates_made :
  (∀ k v, (k, v) ∈ translations → v ≠ []) →
  (merge_translations data translations w).1 = Returned (merged, updates_made) →
  ∀ k, k ∈ PyDict.keys translations →
       ∃ c s, PyDict.get merged k = Some (c :: s).
Proof.
  intros Hne Hm k [v Hk]%elem_of_keys.
  destruct (merge_translations_spec translations data w)
    as (merged' & n & lines & Hrun & Hkeep & _ & Hwr & _).
  rewrite Hrun in Hm. injection Hm as -> ->.
  destruct (writable data k) eqn:Hw.
  - destruct (Hwr k v Hk Hw) as (v' & Hv' & Hg). rewrite Hg.
    destruct v' as [|c s]; [by apply Hne in Hv'|eauto].
  - assert (Hg : ∃ c s, PyDict.get data k = Some (c :: s)).
    { destruct (PyDict.get data k) as [[|c s]|] eqn:Hd; [| eauto |].
      - assert (writable data k = true) by (apply writable_iff; eauto).
        congruence.
      - assert (writable data k = true) by (apply writable_iff; eauto).
        congruence. }
    destruct Hg as (c & s & Hg). exists c, s. by apply Hkeep.
Qed.

End updater_extras.

(** X11. After an update that returns outside dry-run mode, with incoming
    values that are not empty, an analysis of the same language gives no
    task for the updated file at any of the incoming keys. *)
Theorem updated_keys_need_no_translation :
  ∀ (updater : SafeFileUpdater) (self : LocaleAnalyzer) (language file : list N)
    (translations : PyDict.dict (list N) (list N)) (w w' w'' : world) (b : bool)
    (tasks : list TranslationTask),
    locales_dir self = LOCALES_DIR →
    (∀ k v, (k, v) ∈ translations → v ≠ []) →
    update_locale_file updater language file translations false w
    = (Returned b, w') →
    analyze_locale self language w' = (Returned tasks, w'') →
    ∀ task, task ∈ tasks → file_name task = file →
            key task ∉ PyDict.keys translations.
Proof.
  intros updater self language file translations w w' w'' b tasks Hdir Hne
    Hupd Hana task Ht Hfile Hkey.
  destruct (merge_translations_spec translations
              (default []
                 (target_of w (joinpath (joinpath LOCALES_DIR language) file)))
              w)
    as (merged & n & lines & Hm & _).
  pose proof (update_persists updater language file translations w b w' Hupd
                merged n) as Hfile'.
  rewrite Hm in Hfile'. specialize (Hfile' eq_refl).
  destruct (merged_keys_translated translations _ w merged n Hne
              ltac:(by rewrite Hm) (key task) Hkey) as (c & s & Hg).
  destruct (analyze_locale_returns self language w' tasks w'' Hana task Ht)
    as (f & r & entry & Hf & He & Htask).
  apply task_for_fields in Htask as (_ & Hf' & Hk' & _ & Htarget).
  rewrite Hdir, <- Hf', Hfile in Htarget.
  destruct (target_of w' (joinpath (joinpath LOCALES_DIR language) file))
    as [target|].
  - cbn in Hfile'. subst target. by rewrite <- Hk', Hg in Htarget.
  - cbn in Hfile'. subst merged. done.
Qed.

Lemma updated_keys_need_no_translation_witness :
  ∃ (w' : world) (tasks : list TranslationTask),
    update_locale_file timestamped_updater (pystr "fr") common_json
      incoming_greetings false greeting_world = (Returned true, w')
    ∧ (analyze_locale reference_analyzer (pystr "fr") w').1 = Returned tasks
    ∧ ∀ task, task ∈ tasks → file_name task = common_json →
              key task ∉ PyDict.keys incoming_greetings.
Proof.
  exists (update_locale_file timestamped_updater (pystr "fr") common_json
            incoming_greetings false greeting_world).2.
  eexists.
  split; [apply run_pair; vm_compute; reflexivity|].
  split; [vm_compute; reflexivity|].
  eapply (updated_keys_need_no_translation timestamped_updater
            reference_analyzer (pystr "fr") common_json incoming_greetings
            greeting_world).
  - reflexivity.
  - intros k v Hk.
    repeat (apply elem_of_cons in Hk as [[= -> ->]|Hk]; [discriminate|]).
    by apply elem_of_nil in Hk.
  - apply run_pair. vm_compute. reflexivity.
  - apply run_pair. vm_compute. reflexivity.
Defined.

(** ** Updater: a failed update *)

Section updater_atomicity.
Implicit Types (w : world) (data translations : PyDict.dict (list N) (list N)).

Lemma replace_file_raises (src dst : list (list N)) w ex w' :
  replace_file src dst w = (Raised ex, w') → w' = w.
Proof.
  rewrite replace_file_run.
  destruct (lookup_node w src) as [[| |]|]; try by intros [= _ <-].
  all: destruct (lookup_node w dst) as [[| |]|]; try done.
  all: by intros [= _ <-].
Qed.

(** A name is its stem followed by its suffix. *)
Lemma stem_suffix (name : list N) :
  take (length name - length (suffix name)) name ++ suffix name = name.
Proof.
  unfold suffix. destruct (rfind_dot name) as [i|].
  - destruct ((0 <? i) && (i <? length name - 1)) eqn:Hi.
    + apply andb_prop in Hi as [_ Hi%Nat.ltb_lt].
      rewrite length_drop.
      replace (length name - (length name - i)) with i by lia.
      apply take_drop.
    + cbn [length]. rewrite Nat.sub_0_r, firstn_all. apply app_nil_r.
  - cbn [length]. rewrite Nat.sub_0_r, firstn_all. apply app_nil_r.
Qed.

(** The temporary file is another file than the locale file, unless the
    name of the locale file ends in [.tmp]. *)
Lemma temporary_file_differs (file_path : list (list N)) :
  suffix (List.last file_path []) ≠ pystr ".tmp" →
  parent file_path
    ++ [take (length (List.last file_path [])
              - length (suffix (List.last file_path [])))
          (List.last file_path []) ++ pystr ".tmp"]
  ≠ file_path.
Proof.
  intros Hsuffix Heq. destruct file_path as [|c rest] using rev_ind.
  { by destruct (parent []). }
  clear IHrest. unfold parent in Heq.
  rewrite removelast_last, last_last in Heq.
  apply app_inj_tail in Heq as [_ Heq]. rewrite last_last in Hsuffix.
  assert (Hstem : take (length c - length (suffix c)) c ++ pystr ".tmp"
                  = take (length c - length (suffix c)) c ++ suffix c)
    by (by rewrite stem_suffix).
  by apply app_inv_head in Hstem.
Qed.

(** Writing the temporary file and renaming it leaves the locale file
    as it was or holding [data], whether the block returns or raises. *)
Lemma persist_block_frame (file_path : list (list N)) data updates_made w :
  file_path ≠ [] →
  suffix (List.last file_path []) ≠ pystr ".tmp" →
  let w' := ((temp_path ← with_suffix file_path (pystr ".tmp");
              _ ← write_json temp_path data;
              _ ← replace_file temp_path file_path;
              log_emit (InfoUpdated file_path updates_made)) w).2 in
  lookup_node w' file_path = lookup_node w file_path
  ∨ lookup_node w' file_path = Some (File data).
Proof.
  intros Hfp Hsuffix. cbv zeta. rewrite bind_run. unfold with_suffix.
  destruct (Nat.eqb _ 0); [by left|].
  pose proof (temporary_file_differs file_path Hsuffix) as Hdiffer.
  set (temp_path := parent file_path ++ _) in *.
  change ((mret temp_path : M world _) w) with (Returned temp_path, w).
  cbv beta iota.
  rewrite bind_run.
  destruct (write_json_frame temp_path data w) as (Hother & _ & Hw1).
  destruct (write_json temp_path data w) as [[[]|ex] w1] eqn:Hwrite;
    cbn [fst snd] in *.
  - rewrite bind_run.
    destruct (replace_file temp_path file_path w1) as [[[]|ex] w2] eqn:Hrep.
    + right. apply (replace_file_spec _ _ data) in Hrep; [|done..].
      unfold log_emit, modify. exact Hrep.
    + apply replace_file_raises in Hrep as ->. cbn [snd].
      left. by apply Hother.
  - left. by apply Hother.
Qed.

End updater_atomicity.

(** X12. Outside dry-run mode, for names of the locale and of the file that
    stay in the tree and a locale file whose name does not end in [.tmp],
    whether [update_locale_file] returns or raises, also in the middle of
    the writing, the locale file is left as it was or holds the whole merge
    of what it held with the incoming translations: never a part of it. *)
Theorem update_is_all_or_nothing :
  ∀ (self : SafeFileUpdater) (language file : list N)
    (translations : PyDict.dict (list N) (list N)) (w : world),
    let file_path := joinpath (joinpath LOCALES_DIR language) file in
    let run := update_locale_file self language file translations false w in
    inside language → inside file →
    suffix (List.last file_path []) ≠ pystr ".tmp" →
    lookup_node run.2 file_path = lookup_node w file_path
    ∨ ∃ merged updates_made,
        (merge_translations (default [] (target_of w file_path)) translations
           w).1 = Returned (merged, updates_made)
        ∧ lookup_node run.2 file_path = Some (File merged).
Proof.
  intros self language file translations w file_path run _ _ Hsuffix.
  assert (Hfp : file_path ≠ []) by apply locale_file_nonempty.
  subst run. unfold update_locale_file. fold file_path.
  rewrite bind_run, path_exists_run.
  match goal with
  | |- context [(?load_m ≫= _) w] => set (load := load_m) in *
  end.
  assert (Hload :
    lookup_node (load w).2 file_path = lookup_node w file_path
    ∧ ∀ data, (load w).1 = Returned data →
              data = default [] (target_of w file_path)).
  { subst load. unfold target_of. cbn [negb].
    destruct (lookup_node w file_path) as [n0|] eqn:Hl.
    - rewrite !bind_run.
      pose proof (backup_file_frame self file_path w) as [Hframe _].
      destruct (backup_file self file_path w) as [[bp|ex] w1];
        cbn [snd] in Hframe; [|by rewrite Hl in Hframe].
      unfold log_emit, modify. rewrite read_json_run.
      replace (lookup_node (mkWorld (fs w1) _) file_path)
        with (lookup_node w1 file_path) by done.
      rewrite Hframe, Hl.
      destruct n0 as [existing| |]; cbn [fst snd].
      + split; [by rewrite <- Hl, <- Hframe|]. by intros data [= <-].
      + split; [by rewrite <- Hl, <- Hframe|]. done.
      + split; [by rewrite <- Hl, <- Hframe|]. done.
    - rewrite bind_run.
      pose proof (mkdir_parents_frame (parent file_path) w) as [Hframe _].
      cbv zeta in Hframe.
      destruct (mkdir_parents (parent file_path) w) as [[[]|ex] w1];
        cbn [fst snd] in *.
      + split; [|by intros data [= <-]].
        change (lookup_node w1 file_path = None). rewrite <- Hl.
        apply Hframe. right. by apply not_ancestor_of_parent.
      + split; [|done]. rewrite <- Hl.
        apply Hframe. right. by apply not_ancestor_of_parent. }
  clearbody load. destruct Hload as [Hsame Hdata]. rewrite bind_run.
  destruct (load w) as [[data|ex] w1]; cbn [fst snd] in *; [|by left].
  rewrite (Hdata data eq_refl). clear Hdata.
  rewrite bind_run.
  destruct (merge_translations_spec translations
              (default [] (target_of w file_path)) w1)
    as (merged & n & lines & Hm & _).
  pose proof (merge_translations_any_world (default [] (target_of w file_path))
                translations w w1) as Hindep.
  rewrite Hm in *. cbn [fst] in Hindep. rewrite bind_run. cbn [negb].
  destruct (0 <? n).
  - pose proof (persist_block_frame file_path merged n
                  (mkWorld (fs w1) (log w1 ++ lines)) Hfp Hsuffix) as Hblock.
    cbv zeta in Hblock.
    match goal with
    | |- context [let (_, _) := ?r in _] => destruct r as [[[]|ex] w2]
    end; cbn [snd] in *.
    all: change (lookup_node (mkWorld (fs w1) (log w1 ++ lines)) file_path)
           with (lookup_node w1 file_path) in Hblock.
    all: unfold mret, M_ret; cbn [snd].
    all: destruct Hblock as [Hb|Hb]; [left; by rewrite Hb|right].
    all: by exists merged, n.
  - left. exact Hsame.
Qed.

(** A translation with a code point that UTF-8 does not encode stops the
    writing of the temporary file: the update raises, the locale file is as
    it was, and what is left of the temporary file is not JSON. *)
Lemma update_is_all_or_nothing_witness :
  let run :=
    update_locale_file timestamped_updater (pystr "fr") common_json
      [(pystr "farewell", [55296%N])] false greeting_world in
  (lookup_node run.2 (LOCALES_DIR ++ [pystr "fr"; common_json])
   = lookup_node greeting_world (LOCALES_DIR ++ [pystr "fr"; common_json])
   ∨ ∃ merged updates_made,
       (merge_translations
          (default []
             (target_of greeting_world
                (LOCALES_DIR ++ [pystr "fr"; common_json])))
          [(pystr "farewell", [55296%N])] greeting_world).1
       = Returned (merged, updates_made)
       ∧ lookup_node run.2 (LOCALES_DIR ++ [pystr "fr"; common_json])
         = Some (File merged))
  ∧ run.1 = Raised UnicodeEncodeError
  ∧ lookup_node run.2 (LOCALES_DIR ++ [pystr "fr"; common_json])
    = Some (File [(pystr "greeting", pystr "Bonjour")])
  ∧ lookup_node run.2 (LOCALES_DIR ++ [pystr "fr"; pystr "common.tmp"])
    = Some NotJson.
Proof.
  cbv zeta. split; [|split_and!; vm_compute; reflexivity].
  apply (update_is_all_or_nothing timestamped_updater (pystr "fr") common_json
           [(pystr "farewell", [55296%N])] greeting_world).
  - split; [reflexivity|]. vm_compute. intros H.
    by apply list_elem_of_singleton in H.
  - split; [reflexivity|]. vm_compute. intros H.
    by apply list_elem_of_singleton in H.
  - vm_compute. discriminate.
Defined.

(** When the name of the locale file ends in [.tmp], the temporary file is
    the locale file itself, and a writing that stops in the middle leaves
    it neither as it was nor with the merge. *)
Example update_of_a_tmp_file_is_not_atomic :
  let before :=
    mkWorld (<[LOCALES_DIR ++ [pystr "fr"; pystr "notes.tmp"]
               := File [(pystr "greeting", pystr "Bonjour")]]>
               (fs greeting_world)) [] in
  let run :=
    update_locale_file timestamped_updater (pystr "fr") (pystr "notes.tmp")
      [(pystr "farewell", [55296%N])] false before in
  run.1 = Raised UnicodeEncodeError
  ∧ lookup_node run.2 (LOCALES_DIR ++ [pystr "fr"; pystr "notes.tmp"])
    = Some NotJson.
Proof. cbv zeta. split; vm_compute; reflexivity. Qed.

(** ** Updater: repeated updates and backups *)

Section updater_more.
Implicit Types (w : world) (data translations : PyDict.dict (list N) (list N)).

Lemma merge_nothing_writable translations data w :
  (∀ k v, (k, v) ∈ translations → writable data k = false) →
  merge_translations data translations w = (Returned (data, 0), w).
Proof.
  unfold merge_translations, PyDict.items. generalize 0 as n.
  induction translations as [|[k v] translations IH]; intros n Hnw; [done|].
  rewrite for_each_cons. cbn [merge_item].
  rewrite (Hnw k v) by left. unfold mret at 1, M_ret at 1.
  apply IH. intros k' v' H. apply (Hnw k' v'). by right.
Qed.

Lemma not_writable_iff data k :
  writable data k = false ↔ ∃ c s, PyDict.get data k = Some (c :: s).
Proof.
  split.
  - intros Hw. destruct (PyDict.get data k) as [[|c s]|] eqn:Hg; [|eauto|].
    all: assert (writable data k = true) by (apply writable_iff; eauto).
    all: congruence.
  - intros (c & s & Hg). apply not_true_is_false. rewrite writable_iff, Hg.
    intros [|]; done.
Qed.

End updater_more.

(** X13. An update applied twice: when both runs return outside dry-run
    mode and the incoming values are not empty, the second run leaves in
    the locale file the mapping that the first one left. *)
Theorem second_update_changes_nothing :
  ∀ (self : SafeFileUpdater) (language file : list N)
    (translations : PyDict.dict (list N) (list N)) (w w' w'' : world)
    (b b' : bool),
    let file_path := joinpath (joinpath LOCALES_DIR language) file in
    (∀ k v, (k, v) ∈ translations → v ≠ []) →
    update_locale_file self language file translations false w
    = (Returned b, w') →
    update_locale_file self language file translations false w'
    = (Returned b', w'') →
    default [] (target_of w'' file_path) = default [] (target_of w' file_path).
Proof.
  intros self language file translations w w' w'' b b' file_path Hne Hfirst
    Hsecond.
  destruct (merge_translations_spec translations
              (default [] (target_of w file_path)) w)
    as (merged & n & lines & Hm & _).
  pose proof (update_persists self language file translations w b w' Hfirst
                merged n) as Hfile.
  cbv zeta in Hfile. fold file_path in Hfile. rewrite Hm in Hfile.
  specialize (Hfile eq_refl).
  pose proof (merged_keys_translated translations _ w merged n Hne
                ltac:(by rewrite Hm)) as Hdone.
  eapply (update_persists self language file translations w' b' w'' Hsecond _ 0).
  fold file_path. rewrite Hfile, merge_nothing_writable; [done|].
  intros k v Hk. apply not_writable_iff, Hdone, elem_of_keys. eauto.
Qed.

Lemma second_update_changes_nothing_witness :
  ∃ w' w'' : world,
    update_locale_file timestamped_updater (pystr "fr") common_json
      incoming_greetings false greeting_world = (Returned true, w')
    ∧ update_locale_file timestamped_updater (pystr "fr") common_json
        incoming_greetings false w' = (Returned true, w'')
    ∧ default []
        (target_of w'' (joinpath (joinpath LOCALES_DIR (pystr "fr")) common_json))
      = default []
          (target_of w' (joinpath (joinpath LOCALES_DIR (pystr "fr")) common_json)).
Proof.
  exists (update_locale_file timestamped_updater (pystr "fr") common_json
            incoming_greetings false greeting_world).2.
  exists (update_locale_file timestamped_updater (pystr "fr") common_json
            incoming_greetings false
            (update_locale_file timestamped_updater (pystr "fr") common_json
               incoming_greetings false greeting_world).2).2.
  split; [apply run_pair; vm_compute; reflexivity|].
  split; [apply run_pair; vm_compute; reflexivity|].
  eapply (second_update_changes_nothing timestamped_updater (pystr "fr")
            common_json incoming_greetings greeting_world).
  - intros k v Hk.
    repeat (apply elem_of_cons in Hk as [[= -> ->]|Hk]; [discriminate|]).
    by apply elem_of_nil in Hk.
  - apply run_pair. vm_compute. reflexivity.
  - apply run_pair. vm_compute. reflexivity.
Defined.


(** ** Batcher: sizes that are not positive *)

Section batcher_extras.

Lemma range_step_neg (n : nat) (batch_size : Z) :
  (batch_size < 0)%Z → range_step 0 (Z.of_nat n) batch_size = Returned [].
Proof.
  intros Hneg. unfold range_step.
  replace (batch_size =? 0)%Z with false by (symmetry; apply Z.eqb_neq; lia).
  replace (0 <? batch_size)%Z with false by (symmetry; apply Z.ltb_ge; lia).
  replace (Z.to_nat ((0 - Z.of_nat n - batch_size - 1) / - batch_size)) with 0;
    [done|].
  assert ((0 - Z.of_nat n - batch_size - 1) / - batch_size <= 0)%Z; [|lia].
  assert ((0 - Z.of_nat n - batch_size - 1) / - batch_size
          < 1)%Z; [|lia].
  apply Z.div_lt_upper_bound; lia.
Qed.

Lemma batches_loop_neg (groups : list ((list N * list N) * list TranslationTask))
    (batch_size : Z) (batches : list (list TranslationTask)) :
  (batch_size < 0)%Z → batches_loop groups batch_size batches = Returned batches.
Proof.
  intros Hneg. revert batches.
  induction groups as [|[g group] groups IH]; intros batches; [done|].
  cbn [batches_loop]. rewrite range_step_neg by done. apply IH.
Qed.

Lemma group_tasks_nonempty (tasks : list TranslationTask) :
  tasks ≠ [] → group_tasks tasks ≠ [].
Proof.
  intros Hne Hnil. destruct tasks as [|task tasks]; [done|].
  destruct (group_tasks_spec (task :: tasks)) as [_ Hget].
  specialize (Hget (task_key task)).
  unfold group_of in Hget. rewrite filter_cons_True in Hget by done.
  rewrite Hnil in Hget. done.
Qed.

End batcher_extras.

(** X15. A batch size that is not positive: with a negative one the batcher
    returns no batch at all, whatever the tasks; with zero it raises
    [ValueError] as soon as there is a task; without tasks it returns no
    batch. *)
Theorem batch_size_not_positive_gives_no_batch :
  ∀ (tasks : list TranslationTask) (batch_size : Z),
    ((batch_size < 0)%Z →
       group_tasks_into_batches tasks batch_size = Returned [])
    ∧ (tasks ≠ [] → group_tasks_into_batches tasks 0 = Raised ValueError)
    ∧ group_tasks_into_batches [] batch_size = Returned [].
Proof.
  intros tasks batch_size. split_and!.
  - intros Hneg. by apply batches_loop_neg.
  - intros Hne. unfold group_tasks_into_batches, PyDict.items.
    pose proof (group_tasks_nonempty tasks Hne) as Hg.
    by destruct (group_tasks tasks) as [|[g group] groups].
  - done.
Qed.

(** ** Rules for computations of the process *)

Section R_facts.
Context {S : Type}.
Implicit Types (s : S) (ρ : relation S).

Lemma R_bind_run {A B} (m : R S A) (f : A → R S B) s :
  (m ≫= f) s
  = match m s with
    | (Done a, s') => f a s'
    | (Failed e, s') => (Failed e, s')
    end.
Proof. reflexivity. Qed.

Lemma R_ret_run {A} (a : A) s : (mret a : R S A) s = (Done a, s).
Proof. reflexivity. Qed.

Lemma for_in_cons {A B} (x : A) xs (acc : B) (body : B → A → R S B) s :
  for_in (x :: xs) acc body s
  = match body acc x s with
    | (Done acc', s') => for_in xs acc' body s'
    | (Failed e, s') => (Failed e, s')
    end.
Proof. reflexivity. Qed.

Lemma within_ret ρ `{!Reflexive ρ} {A} (a : A) : within ρ (mret a : R S A).
Proof. intros s. reflexivity. Qed.

Lemma within_abort ρ `{!Reflexive ρ} {A} e : within ρ (abort e : R S A).
Proof. intros s. reflexivity. Qed.

Lemma within_inspect ρ `{!Reflexive ρ} {A} (f : S → A) : within ρ (inspect f).
Proof. intros s. reflexivity. Qed.

Lemma within_bind ρ `{!Transitive ρ} {A B} (m : R S A) (f : A → R S B) :
  within ρ m → (∀ a, within ρ (f a)) → within ρ (m ≫= f).
Proof.
  intros Hm Hf s. rewrite R_bind_run. specialize (Hm s).
  destruct (m s) as [[a|e] s']; cbn [snd] in *; [|done].
  etrans; [exact Hm|apply Hf].
Qed.

Lemma within_for_in ρ `{!PreOrder ρ} {A B} (xs : list A) (acc : B)
    (body : B → A → R S B) :
  (∀ acc x, x ∈ xs → within ρ (body acc x)) → within ρ (for_in xs acc body).
Proof.
  revert acc. induction xs as [|x xs IH]; intros acc Hbody.
  - apply within_ret, _.
  - change (for_in (x :: xs) acc body)
      with (body acc x ≫= fun acc' => for_in xs acc' body).
    apply within_bind; [apply _|apply Hbody; left|].
    intros acc'. apply IH. intros acc'' y Hy. apply Hbody. by right.
Qed.

Lemma within_try_except ρ `{!Transitive ρ} {A} (body : R S A)
    (handler : error → R S A) :
  within ρ body → (∀ e, within ρ (handler e)) →
  within ρ (try_except body handler).
Proof.
  intros Hb Hh s. unfold try_except. specialize (Hb s).
  destruct (body s) as [[a|e] s']; cbn [snd] in *; [done|].
  destruct e; try (etrans; [exact Hb|apply Hh]). done.
Qed.

Lemma within_if ρ {A} (b : bool) (m1 m2 : R S A) :
  within ρ m1 → within ρ m2 → within ρ (if b then m1 else m2).
Proof. by destruct b. Qed.

#[global] Instance unchanged_preorder {X} (f : S → X) : PreOrder (unchanged f).
Proof.
  split; [by intros s|]. intros s1 s2 s3 H1 H2. unfold unchanged in *.
  congruence.
Qed.

Lemma grows_by_ret (μ : S → nat) {A} (a : A) : grows_by μ 0 (mret a : R S A).
Proof. intros s. cbn. lia. Qed.

Lemma grows_by_weaken (μ : S → nat) {A} (m : R S A) k k' :
  grows_by μ k m → k <= k' → grows_by μ k' m.
Proof. intros H Hk s. specialize (H s). lia. Qed.

Lemma grows_by_bind (μ : S → nat) {A B} (m : R S A) (f : A → R S B) k1 k2 :
  grows_by μ k1 m → (∀ a, grows_by μ k2 (f a)) →
  grows_by μ (k1 + k2) (m ≫= f).
Proof.
  intros Hm Hf s. rewrite R_bind_run. specialize (Hm s).
  destruct (m s) as [[a|e] s']; cbn [snd] in *; [|lia].
  specialize (Hf a s'). lia.
Qed.

Lemma grows_by_for_in (μ : S → nat) {A B} (cost : A → nat) (xs : list A)
    (acc : B) (body : B → A → R S B) :
  (∀ acc x, x ∈ xs → grows_by μ (cost x) (body acc x)) →
  grows_by μ (sum_list (cost <$> xs)) (for_in xs acc body).
Proof.
  revert acc. induction xs as [|x xs IH]; intros acc Hbody.
  - apply grows_by_ret.
  - change (for_in (x :: xs) acc body)
      with (body acc x ≫= fun acc' => for_in xs acc' body).
    cbn [fmap list_fmap sum_list sum_list_with].
    apply grows_by_bind; [apply Hbody; left|].
    intros acc'. apply IH. intros acc'' y Hy. apply Hbody. by right.
Qed.

Lemma grows_by_try_except (μ : S → nat) {A} (body : R S A)
    (handler : error → R S A) k1 k2 :
  grows_by μ k1 body → (∀ e, grows_by μ k2 (handler e)) →
  grows_by μ (k1 + k2) (try_except body handler).
Proof.
  intros Hb Hh s. unfold try_except. specialize (Hb s).
  destruct (body s) as [[a|e] s']; cbn [snd] in *; [lia|].
  destruct e;
    try (match goal with
         | |- context [handler ?ex s'] => specialize (Hh ex s')
         end; lia).
  cbn. lia.
Qed.

Lemma within_grows_by (μ : S → nat) {A} (m : R S A) :
  within (unchanged μ) m → grows_by μ 0 m.
Proof. intros H s. rewrite (H s). lia. Qed.

Lemma grows_by_bind_l (μ : S → nat) {A B} (m : R S A) (f : A → R S B) k :
  grows_by μ k m → (∀ a, within (unchanged μ) (f a)) → grows_by μ k (m ≫= f).
Proof.
  intros Hm Hf. eapply grows_by_weaken.
  - apply grows_by_bind; [exact Hm|]. intros a. apply within_grows_by, Hf.
  - lia.
Qed.

Lemma grows_by_bind_r (μ : S → nat) {A B} (m : R S A) (f : A → R S B) k :
  within (unchanged μ) m → (∀ a, grows_by μ k (f a)) → grows_by μ k (m ≫= f).
Proof.
  intros Hm Hf.
  apply (grows_by_bind μ m f 0 k); [by apply within_grows_by|done].
Qed.

Lemma grows_by_ret_bind (μ : S → nat) {A B} (a : A) (f : A → R S B) k :
  grows_by μ k (f a) → grows_by μ k (mret a ≫= f).
Proof. intros H s. exact (H s). Qed.

Lemma within_ret_bind ρ {A B} (a : A) (f : A → R S B) :
  within ρ (f a) → within ρ (mret a ≫= f).
Proof. intros H s. exact (H s). Qed.

End R_facts.

(** ** Listing the locales *)

Section order_facts.

Lemma str_leb_refl (a : list N) : str_leb a a = true.
Proof.
  induction a as [|x a IH]; [done|]. cbn. by rewrite N.ltb_irrefl.
Qed.

Lemma str_leb_total (a b : list N) : str_leb a b = true ∨ str_leb b a = true.
Proof.
  revert b. induction a as [|x a IH]; intros [|y b]; cbn; auto.
  destruct (N.ltb_spec x y), (N.ltb_spec y x); auto; try lia.
Qed.

Lemma str_leb_antisym (a b : list N) :
  str_leb a b = true → str_leb b a = true → a = b.
Proof.
  revert b. induction a as [|x a IH]; intros [|y b]; cbn; try done.
  destruct (N.ltb_spec x y), (N.ltb_spec y x); try done; try lia.
  intros H1 H2. f_equal; [lia|by apply IH].
Qed.

Lemma str_leb_trans (a b c : list N) :
  str_leb a b = true → str_leb b c = true → str_leb a c = true.
Proof.
  revert b c. induction a as [|x a IH]; intros [|y b] [|z c]; cbn; try done.
  destruct (N.ltb_spec x y), (N.ltb_spec y x), (N.ltb_spec y z),
    (N.ltb_spec z y), (N.ltb_spec x z), (N.ltb_spec z x);
    try done; try lia.
  apply IH.
Qed.

#[global] Instance str_le_total : Total str_le.
Proof. intros a b. apply str_leb_total. Qed.

#[global] Instance str_le_trans : Transitive str_le.
Proof. intros a b c. apply str_leb_trans. Qed.

#[global] Instance str_le_antisym : AntiSymm eq str_le.
Proof. intros a b. apply str_leb_antisym. Qed.

Lemma sorted_spec (l : list (list N)) :
  StronglySorted str_le (sorted l) ∧ sorted l ≡ₚ l.
Proof.
  split; [apply StronglySorted_merge_sort; apply _|apply merge_sort_Permutation].
Qed.

End order_facts.

Section listing_facts.
Implicit Types (w : world) (dir p : list (list N)) (name : list N).

Lemma path_split p : p ≠ [] → p = parent p ++ [path_name p].
Proof. intros Hp. by apply app_removelast_last. Qed.

Lemma parent_snoc dir name : parent (dir ++ [name]) = dir.
Proof. apply removelast_last. Qed.

Lemma path_name_snoc dir name : path_name (dir ++ [name]) = name.
Proof. apply last_last. Qed.

Lemma snoc_nonempty dir name : dir ++ [name] ≠ [].
Proof. by destruct dir. Qed.

Lemma lookup_node_snoc w dir name :
  lookup_node w (dir ++ [name]) = fs w !! (dir ++ [name]).
Proof. unfold lookup_node. by destruct dir. Qed.

(** The entries of a directory are the names under which the map holds
    a node below it, each once. *)
Lemma elem_of_children w dir name :
  name ∈ children w dir ↔ is_Some (lookup_node w (dir ++ [name])).
Proof.
  unfold children. rewrite list_elem_of_omap, lookup_node_snoc. split.
  - intros (p & Hp & Hname). case_bool_decide as Hd; [|done].
    destruct Hd as [Hne <-]. injection Hname as <-.
    rewrite <- path_split by done.
    apply list_elem_of_fmap in Hp as ([p' n] & -> & Hp).
    apply elem_of_map_to_list in Hp. eauto.
  - intros [n Hn]. exists (dir ++ [name]). split.
    + apply list_elem_of_fmap. exists (dir ++ [name], n). split; [done|].
      by apply elem_of_map_to_list.
    + rewrite bool_decide_eq_true_2.
      * by rewrite path_name_snoc.
      * split; [apply snoc_nonempty|apply parent_snoc].
Qed.

Lemma NoDup_omap_inj {A B} (f : A → option B) (l : list A) :
  (∀ x y b, f x = Some b → f y = Some b → x = y) →
  NoDup l → NoDup (omap f l).
Proof.
  intros Hinj. induction 1 as [|x l Hx _ IH]; [constructor|].
  cbn. destruct (f x) as [b|] eqn:Hb; [|done].
  constructor; [|done]. intros Hin.
  apply list_elem_of_omap in Hin as (y & Hy & Hfy).
  by rewrite (Hinj x y b Hb Hfy) in Hx.
Qed.

Lemma NoDup_children w dir : NoDup (children w dir).
Proof.
  unfold children. apply NoDup_omap_inj; [|apply NoDup_fst_map_to_list].
  intros p q name Hp Hq.
  case_bool_decide as Hdp; [|done]. case_bool_decide as Hdq; [|done].
  destruct Hdp as [Hpne Hpd], Hdq as [Hqne Hqd].
  injection Hp as Hp. injection Hq as Hq.
  rewrite (path_split p), (path_split q) by done. congruence.
Qed.

End listing_facts.

Section process_steps.

Lemma process_eta (p : process) :
  mkProcess (disk p) (engine_state p) (stats p) (journal p) = p.
Proof. by destruct p. Qed.

Lemma on_disk_run {A} (m : M world A) (p : process) :
  on_disk m p
  = (match (m (disk p)).1 with
     | Returned a => Done a
     | Raised e => Failed (Exception e)
     end,
     mkProcess (m (disk p)).2 (engine_state p) (stats p) (journal p)).
Proof. unfold on_disk. by destruct (m (disk p)). Qed.

Lemma on_engine_run {A} (m : M engine A) (p : process) :
  on_engine m p
  = (match (m (engine_state p)).1 with
     | Returned a => Done a
     | Raised e => Failed (Exception e)
     end,
     mkProcess (disk p) (m (engine_state p)).2 (stats p) (journal p)).
Proof. unfold on_engine. by destruct (m (engine_state p)). Qed.

Lemma say_run (line : journal_record) (p : process) :
  say line p
  = (Done (), mkProcess (disk p) (engine_state p) (stats p) (journal p ++ [line])).
Proof. reflexivity. Qed.

Lemma update_stats_run (f : Stats.t → Stats.t) (p : process) :
  update_stats f p
  = (Done (), mkProcess (disk p) (engine_state p) (f (stats p)) (journal p)).
Proof. reflexivity. Qed.

Lemma on_disk_is_dir (q : list (list N)) (p : process) :
  on_disk (is_dir q) p
  = (Done (match lookup_node (disk p) q with Some Dir => true | _ => false end),
     p).
Proof. rewrite on_disk_run. cbn. by rewrite process_eta. Qed.

Lemma on_disk_path_exists (q : list (list N)) (p : process) :
  on_disk (path_exists q) p
  = (Done (match lookup_node (disk p) q with Some _ => true | None => false end),
     p).
Proof. rewrite on_disk_run. cbn. by rewrite process_eta. Qed.

Lemma on_disk_read_json (q : list (list N)) (p : process) :
  on_disk (read_json q) p
  = (match lookup_node (disk p) q with
     | Some (File content) => Done content
     | Some NotJson => Failed (Exception JSONDecodeError)
     | Some Dir => Failed (Exception IsADirectoryError)
     | None => Failed (Exception FileNotFoundError)
     end, p).
Proof.
  rewrite on_disk_run, read_json_run.
  destruct (lookup_node (disk p) q) as [[| |]|]; cbn; by rewrite process_eta.
Qed.

End process_steps.

Section analyzer_listing.
Variable listing : world → list (list N) → list (list N).
Hypothesis listing_perm : ∀ w dir, listing w dir ≡ₚ children w dir.

Implicit Types (p : process) (dir : list (list N)).

Lemma elem_of_listing w dir name :
  name ∈ listing w dir ↔ is_Some (lookup_node w (dir ++ [name])).
Proof. by rewrite listing_perm, elem_of_children. Qed.

Lemma NoDup_listing w dir : NoDup (listing w dir).
Proof. rewrite listing_perm. apply NoDup_children. Qed.

Lemma iterdir_run dir p :
  iterdir listing dir p
  = match lookup_node (disk p) dir with
    | None => (Failed (Exception FileNotFoundError), p)
    | Some (File _) | Some NotJson =>
        (Failed (Exception NotADirectoryError), p)
    | Some Dir =>
        (Done ((fun name => dir ++ [name]) <$> listing (disk p) dir), p)
    end.
Proof.
  unfold iterdir. rewrite R_bind_run. unfold inspect.
  by destruct (lookup_node (disk p) dir) as [[| |]|].
Qed.

(** The loop of [get_available_locales]: the names of the directories
    other than the English one, in the order of the listing. *)
Lemma available_loop dir (names : list (list N)) (locales : list (list N)) p :
  for_in ((fun name => dir ++ [name]) <$> names) locales
    (fun locales item =>
       d ← on_disk (is_dir item);
       if d && negb (bool_decide (path_name item = ENGLISH_LOCALE))
       then mret (locales ++ [path_name item])
       else mret locales) p
  = (Done (locales ++
           filter (fun name =>
                     lookup_node (disk p) (dir ++ [name]) = Some Dir
                     ∧ name ≠ ENGLISH_LOCALE) names),
     p).
Proof.
  revert locales. induction names as [|name names IH]; intros locales.
  - cbn. by rewrite app_nil_r.
  - rewrite fmap_cons, for_in_cons, R_bind_run, on_disk_is_dir.
    rewrite path_name_snoc, filter_cons.
    destruct (lookup_node (disk p) (dir ++ [name])) as [[content| |]|] eqn:Hl;
      cbn [andb].
    + rewrite decide_False by (intros [? _]; done). apply IH.
    + rewrite decide_False by (intros [? _]; done). apply IH.
    + case_bool_decide as Hen; cbn [negb].
      * rewrite decide_False by (intros [_ ?]; done). apply IH.
      * rewrite decide_True by done.
        unfold mret at 1, R_ret at 1. rewrite IH. by rewrite <- app_assoc.
    + rewrite decide_False by (intros [? _]; done). apply IH.
Qed.

Lemma get_available_locales_run (self : LocaleAnalyzer) p :
  get_available_locales listing self p
  = match lookup_node (disk p) (locales_dir self) with
    | None => (Failed (Exception FileNotFoundError), p)
    | Some (File _) | Some NotJson =>
        (Failed (Exception NotADirectoryError), p)
    | Some Dir =>
        (Done (sorted
                 (filter (fun name =>
                            lookup_node (disk p) (locales_dir self ++ [name])
                            = Some Dir
                            ∧ name ≠ ENGLISH_LOCALE)
                    (listing (disk p) (locales_dir self)))),
         p)
    end.
Proof.
  unfold get_available_locales. rewrite R_bind_run, iterdir_run.
  destruct (lookup_node (disk p) (locales_dir self)) as [[| |]|]; try done.
  by rewrite R_bind_run, available_loop.
Qed.

End analyzer_listing.

(** X16. [get_available_locales] raises when the locales directory is
    missing or is a file; else it returns, in ascending order and each
    once, the names of the directories in it other than [en], in whatever
    order the system lists the entries, and changes nothing. *)
Theorem available_locales_are_the_sorted_directories :
  ∀ (listing : world → list (list N) → list (list N)) (self : LocaleAnalyzer)
    (p : process),
    (∀ w dir, listing w dir ≡ₚ children w dir) →
    match lookup_node (disk p) (locales_dir self) with
    | None =>
        get_available_locales listing self p
        = (Failed (Exception FileNotFoundError), p)
    | Some (File _) | Some NotJson =>
        get_available_locales listing self p
        = (Failed (Exception NotADirectoryError), p)
    | Some Dir =>
        ∃ locales : list (list N),
          get_available_locales listing self p = (Done locales, p)
          ∧ StronglySorted str_le locales ∧ NoDup locales
          ∧ ∀ name, name ∈ locales
                    ↔ name ≠ ENGLISH_LOCALE
                      ∧ lookup_node (disk p) (locales_dir self ++ [name])
                        = Some Dir
    end.
Proof.
  intros listing self p Hperm. rewrite get_available_locales_run.
  destruct (lookup_node (disk p) (locales_dir self)) as [[| |]|]; try done.
  eexists. split; [done|].
  destruct (sorted_spec
              (filter (fun name =>
                         lookup_node (disk p) (locales_dir self ++ [name])
                         = Some Dir ∧ name ≠ ENGLISH_LOCALE)
                 (listing (disk p) (locales_dir self)))) as [Hsorted Hsame].
  split_and!; [done| |].
  - rewrite Hsame. apply NoDup_filter, NoDup_listing, Hperm.
  - intros name. rewrite Hsame, list_elem_of_filter, (elem_of_listing _ Hperm).
    split; [tauto|]. intros [Hne Hl]. rewrite Hl. eauto.
Qed.

Lemma available_locales_are_the_sorted_directories_witness :
  ∃ locales : list (list N),
    get_available_locales children reference_analyzer
      (mkProcess french_world fresh_engine Stats.initial [])
    = (Done locales, mkProcess french_world fresh_engine Stats.initial [])
    ∧ StronglySorted str_le locales ∧ NoDup locales
    ∧ ∀ name, name ∈ locales
              ↔ name ≠ ENGLISH_LOCALE
                ∧ lookup_node french_world (LOCALES_DIR ++ [name]) = Some Dir.
Proof.
  apply (available_locales_are_the_sorted_directories children
           reference_analyzer
           (mkProcess french_world fresh_engine Stats.initial [])).
  done.
Defined.

(** ** Loading the reference *)

Section reference_loading.
Variable listing : world → list (list N) → list (list N).
Hypothesis listing_perm : ∀ w dir, listing w dir ≡ₚ children w dir.

Implicit Types (p : process) (dir : list (list N)).
Implicit Types (data : PyDict.dict (list N) (PyDict.dict (list N) (list N))).

Lemma glob_json_run dir p :
  glob_json listing dir p
  = (Done (match lookup_node (disk p) dir with
           | Some Dir =>
               (fun name => dir ++ [name])
               <$> List.filter (ends_with (pystr ".json")) (listing (disk p) dir)
           | _ => []
           end), p).
Proof.
  unfold glob_json. rewrite R_bind_run, on_disk_is_dir.
  by destruct (lookup_node (disk p) dir) as [[| |]|].
Qed.

(** A returning run of the loop of [_load_english_reference] changes
    nothing and sets, for each name other than [terms.json], what the
    file of that name holds. *)
Lemma load_loop_returns dir (names : list (list N)) data p data' p' :
  for_in ((fun name => dir ++ [name]) <$> names) data
    (fun english_data json_file =>
       if bool_decide (path_name json_file = pystr "terms.json")
       then mret english_data
       else
         content ← on_disk (read_json json_file);
         mret (PyDict.set english_data (path_name json_file) content)) p
  = (Done data', p') →
  p' = p
  ∧ (NoDup (PyDict.keys data) → NoDup (PyDict.keys data'))
  ∧ (NoDup names →
     ∀ name,
       PyDict.get data' name
       = if decide (name ∈ names ∧ name ≠ pystr "terms.json")
         then target_of (disk p) (dir ++ [name])
         else PyDict.get data name)
  ∧ ∀ name, name ∈ names → name ≠ pystr "terms.json" →
            is_Some (target_of (disk p) (dir ++ [name])).
Proof.
  revert data. induction names as [|name names IH]; intros data.
  - cbn [fmap list_fmap for_in]. unfold mret, R_ret. intros [= ? ?].
    subst data' p'. split_and!; [done|done| |].
    + intros _ name. rewrite decide_False; [done|].
      intros [H _]. by apply elem_of_nil in H.
    + intros name H. by apply elem_of_nil in H.
  - rewrite fmap_cons, for_in_cons, path_name_snoc.
    case_bool_decide as Hterms.
    + unfold mret at 1, R_ret at 1. intros Hrun.
      apply IH in Hrun as (-> & Hnd & Hget & Hfiles).
      split_and!; [done|done| |].
      * intros [Hfresh Hnames]%NoDup_cons name'. rewrite (Hget Hnames).
        destruct (decide (name' ∈ names ∧ name' ≠ pystr "terms.json"))
          as [[Hin Hne]|Hno].
        -- rewrite decide_True; [done|]. split; [by right|done].
        -- rewrite decide_False; [done|]. intros [Hin Hne]. apply Hno.
           split; [|done]. apply elem_of_cons in Hin as [Heq|Hin]; congruence.
      * intros name' [Heq|Hin]%elem_of_cons Hne; [congruence|by apply Hfiles].
    + rewrite R_bind_run, on_disk_read_json.
      destruct (lookup_node (disk p) (dir ++ [name])) as [[content| |]|] eqn:Hl;
        [|done..].
      unfold mret at 1, R_ret at 1. intros Hrun.
      apply IH in Hrun as (-> & Hnd & Hget & Hfiles).
      split_and!; [done| | |].
      * intros H. by apply Hnd, NoDup_keys_set.
      * intros [Hfresh Hnames]%NoDup_cons name'. rewrite (Hget Hnames).
        destruct (decide (name' ∈ names ∧ name' ≠ pystr "terms.json"))
          as [[Hin Hne]|Hno].
        -- rewrite decide_True; [done|]. split; [by right|done].
        -- destruct (decide (name' = name)) as [->|Hother].
           ++ rewrite decide_True by (split; [left|done]).
              rewrite get_set_eq. unfold target_of. by rewrite Hl.
           ++ rewrite decide_False.
              ** by rewrite get_set_ne.
              ** intros [Hin Hne]. apply Hno.
                 split; [|done]. apply elem_of_cons in Hin as [Heq|Hin]; congruence.
      * intros name' [Heq|Hin]%elem_of_cons Hne; [|by apply Hfiles].
        unfold target_of. rewrite Heq, Hl. eauto.
Qed.

Lemma elem_of_List_filter {A} (f : A → bool) (l : list A) x :
  x ∈ List.filter f l ↔ x ∈ l ∧ f x = true.
Proof. by rewrite !list_elem_of_In, filter_In. Qed.

Lemma NoDup_List_filter {A} (f : A → bool) (l : list A) :
  NoDup l → NoDup (List.filter f l).
Proof.
  intros H. eapply sublist_NoDup; [exact H|]. apply List_filter_sublist.
Qed.

Lemma load_english_reference_returns dir p data p' :
  _load_english_reference listing dir p = (Done data, p') →
  let english_dir := dir ++ [ENGLISH_LOCALE] in
  p' = mkProcess (disk p) (engine_state p) (stats p)
         (journal p ++ [InfoLoadedReference (length data)])
  ∧ NoDup (PyDict.keys data)
  ∧ ∀ name content,
      PyDict.get data name = Some content
      ↔ lookup_node (disk p) english_dir = Some Dir
        ∧ ends_with (pystr ".json") name = true
        ∧ name ≠ pystr "terms.json"
        ∧ lookup_node (disk p) (english_dir ++ [name]) = Some (File content).
Proof.
  intros Hrun english_dir. unfold _load_english_reference in Hrun.
  cbv zeta in Hrun. fold english_dir in Hrun.
  rewrite R_bind_run, on_disk_path_exists in Hrun.
  destruct (lookup_node (disk p) english_dir) as [n|] eqn:Hdir;
    cbn [negb] in Hrun; [|done].
  rewrite R_bind_run, glob_json_run, Hdir, R_bind_run in Hrun.
  match type of Hrun with
  | context [for_in ?items ?acc ?body p] =>
      destruct (for_in items acc body p) as [[loaded|e] p1] eqn:Hloop; [|done]
  end.
  rewrite R_bind_run in Hrun. unfold say, mutate in Hrun.
  unfold mret, R_ret in Hrun. injection Hrun as <- <-.
  destruct n as [content0| |].
  - (* a file stands where the English directory should be *)
    cbn in Hloop. injection Hloop as <- <-. split_and!; [done|constructor|].
    intros name content. split; [done|]. by intros [? _].
  - cbn in Hloop. injection Hloop as <- <-. split_and!; [done|constructor|].
    intros name content. split; [done|]. by intros [? _].
  - apply load_loop_returns in Hloop as (-> & Hnd & Hget & _).
    split_and!; [done|apply Hnd; constructor|].
    intros name content.
    rewrite Hget by apply NoDup_List_filter, NoDup_listing, listing_perm.
    unfold target_of.
    destruct (decide _) as [[Hin Hne]|Hno].
    + apply elem_of_List_filter in Hin as [Hex Hjson].
      destruct (lookup_node (disk p) (english_dir ++ [name])) as [[c| |]|];
        split; try done.
      * intros [= ->]. done.
      * intros (_ & _ & _ & [= ->]). done.
      * by intros (_ & _ & _ & ?).
      * by intros (_ & _ & _ & ?).
      * by intros (_ & _ & _ & ?).
    + split; [done|]. intros (_ & Hjson & Hne & Hl). destruct Hno.
      split; [|done]. apply elem_of_List_filter. split; [|done].
      apply (elem_of_listing _ listing_perm). rewrite Hl. eauto.
Qed.

End reference_loading.

(** X17. The constructor of the analyzer raises [FileNotFoundError] when
    the English directory is missing; when it returns, the reference maps
    each name that ends in [.json], [terms.json] apart, under which the
    English directory holds a file to what that file holds, each name
    once, in whatever order the system lists the entries; the files are not
    changed and one line is logged. *)
Theorem reference_is_the_json_files_of_the_english_directory :
  ∀ (listing : world → list (list N) → list (list N)) (dir : list (list N))
    (p : process),
    (∀ w d, listing w d ≡ₚ children w d) →
    let english_dir := dir ++ [ENGLISH_LOCALE] in
    let run := LocaleAnalyzer_init listing dir p in
    (lookup_node (disk p) english_dir = None →
       run = (Failed (Exception FileNotFoundError), p))
    ∧ ∀ self p', run = (Done self, p') →
        locales_dir self = dir
        ∧ NoDup (PyDict.keys (english_data self))
        ∧ (∀ name content,
             PyDict.get (english_data self) name = Some content
             ↔ lookup_node (disk p) english_dir = Some Dir
               ∧ ends_with (pystr ".json") name = true
               ∧ name ≠ pystr "terms.json"
               ∧ lookup_node (disk p) (english_dir ++ [name])
                 = Some (File content))
        ∧ p' = mkProcess (disk p) (engine_state p) (stats p)
                 (journal p
                    ++ [InfoLoadedReference (length (english_data self))]).
Proof.
  intros listing dir p Hperm english_dir run. subst run.
  unfold LocaleAnalyzer_init. rewrite R_bind_run. split.
  - intros Hl. unfold _load_english_reference. fold english_dir.
    by rewrite R_bind_run, on_disk_path_exists, Hl.
  - intros self p'.
    destruct (_load_english_reference listing dir p) as [[data|e] p1] eqn:Hload;
      [|done].
    intros [= <- <-].
    destruct (load_english_reference_returns listing Hperm dir p data p1 Hload)
      as (Hp & Hnd & Hget). done.
Qed.

Lemma reference_is_the_json_files_of_the_english_directory_witness :
  ∃ self : LocaleAnalyzer,
    (LocaleAnalyzer_init children LOCALES_DIR site).1 = Done self
    ∧ english_data self = [(common_json, common_reference)]
    ∧ NoDup (PyDict.keys (english_data self))
    ∧ (LocaleAnalyzer_init children LOCALES_DIR site).2
      = mkProcess site_world fresh_engine Stats.initial
          [InfoLoadedReference 1].
Proof.
  exists (mkAnalyzer LOCALES_DIR [(common_json, common_reference)]).
  assert (Hinit :
    (LocaleAnalyzer_init children LOCALES_DIR site).1
    = Done (mkAnalyzer LOCALES_DIR [(common_json, common_reference)]))
    by (vm_compute; reflexivity).
  split; [exact Hinit|]. split; [reflexivity|].
  destruct (reference_is_the_json_files_of_the_english_directory children
              LOCALES_DIR site) as [_ H]; [intros w d; reflexivity|].
  destruct (H _ _ (run_pair _ _ Hinit)) as (_ & Hnd & _ & Hp).
  split; [exact Hnd|exact Hp].
Defined.

(** ** Generating the tasks *)

Section world_frames.
Implicit Types (w : world) (tasks : list TranslationTask).

Lemma lookup_node_fs w w' (q : list (list N)) :
  fs w' = fs w → lookup_node w' q = lookup_node w q.
Proof. intros H. unfold lookup_node. by rewrite H. Qed.

Lemma target_of_fs w w' (q : list (list N)) :
  fs w' = fs w → target_of w' q = target_of w q.
Proof. intros H. unfold target_of. by rewrite (lookup_node_fs w w'). Qed.

Lemma tasks_of_fs self w w' locale :
  fs w' = fs w → tasks_of self w' locale = tasks_of self w locale.
Proof.
  intros H. unfold tasks_of. rewrite (lookup_node_fs w w') by done.
  destruct (lookup_node w _); [|done].
  apply list_bind_ext; [|done]. intros [f r].
  by rewrite (target_of_fs w w').
Qed.

(** The loop over the reference files leaves the world as it is,
    whether it returns or raises. *)
Lemma analyze_files_state locale locale_dir
    (files : PyDict.dict (list N) (PyDict.dict (list N) (list N))) tasks w :
  (for_each files tasks (analyze_file locale locale_dir) w).2 = w.
Proof.
  revert tasks. induction files as [|[f r] files IH]; intros tasks; [done|].
  rewrite for_each_cons, analyze_file_spec.
  destruct (lookup_node w (joinpath locale_dir f)) as [[| |]|];
    [apply IH|done|done|apply IH].
Qed.

(** An analysis changes no file, whether it returns or raises. *)
Lemma analyze_locale_fs self locale w :
  fs (analyze_locale self locale w).2 = fs w.
Proof.
  unfold analyze_locale. rewrite bind_run, path_exists_run.
  destruct (lookup_node w _); cbn [negb]; [|done].
  by rewrite analyze_files_state.
Qed.

Lemma analyze_locale_tasks_of self locale w :
  (∀ f r, (f, r) ∈ english_data self →
          readable (lookup_node w
                      (joinpath (joinpath (locales_dir self) locale) f))) →
  ∃ lines,
    analyze_locale self locale w
    = (Returned (tasks_of self w locale), mkWorld (fs w) (log w ++ lines)).
Proof.
  intros Hfiles. unfold tasks_of.
  destruct (lookup_node w (joinpath (locales_dir self) locale)) as [n|] eqn:Hl.
  - exists []. rewrite analyze_locale_spec by (rewrite ?Hl; eauto).
    rewrite app_nil_r. by destruct w.
  - eexists. by rewrite analyze_locale_no_dir.
Qed.

(** A dry run of the updater changes no file, whether it returns or
    raises. *)
Lemma update_dry_run_fs self (language file : list N)
    (translations : PyDict.dict (list N) (list N)) w :
  fs (update_locale_file self language file translations true w).2 = fs w.
Proof.
  pose proof (update_dry_run_spec self language file translations w) as H.
  cbv zeta in H.
  destruct (lookup_node w (joinpath (joinpath LOCALES_DIR language) file))
    as [[| |]|].
  - by destruct H as (? & ? & ? & _ & ->).
  - by rewrite H.
  - by rewrite H.
  - by destruct H as (? & ? & ? & _ & ->).
Qed.

End world_frames.

Section dict_more.
Context {K V : Type} `{EqDecision K}.
Implicit Types (d : PyDict.dict K V) (k : K) (v : V).

Lemma set_fresh d k v : k ∉ PyDict.keys d → PyDict.set d k v = d ++ [(k, v)].
Proof.
  unfold PyDict.keys. induction d as [|[k' v'] d IH]; [done|].
  rewrite fmap_cons, not_elem_of_cons. cbn. intros [Hne Hk].
  rewrite decide_False by done. by rewrite IH.
Qed.

Lemma keys_app d1 d2 : PyDict.keys (d1 ++ d2) = PyDict.keys d1 ++ PyDict.keys d2.
Proof. unfold PyDict.keys. apply fmap_app. Qed.

End dict_more.

Section task_generation.
Variable listing : world → list (list N) → list (list N).
Implicit Types (p : process) (self : LocaleAnalyzer).

Lemma generate_loop self (locales : list (list N))
    (all_tasks : PyDict.dict (list N) (list TranslationTask)) p :
  (∀ locale f r, locale ∈ locales → (f, r) ∈ english_data self →
     readable (lookup_node (disk p)
                 (joinpath (joinpath (locales_dir self) locale) f))) →
  NoDup locales → (∀ locale, locale ∈ locales → locale ∉ PyDict.keys all_tasks) →
  ∃ p',
    for_in locales all_tasks (fun all_tasks locale =>
      tasks ← on_disk (analyze_locale self locale);
      match tasks with
      | [] => mret all_tasks
      | _ :: _ =>
          _ ← say (InfoFoundTasks (length tasks) locale);
          mret (PyDict.set all_tasks locale tasks)
      end) p
    = (Done (all_tasks ++ omap (entry_of self (disk p)) locales), p')
    ∧ fs (disk p') = fs (disk p) ∧ engine_state p' = engine_state p
    ∧ stats p' = stats p.
Proof.
  revert all_tasks p. induction locales as [|locale locales IH];
    intros all_tasks p Hfiles Hnd Hfresh.
  { exists p. cbn. by rewrite app_nil_r. }
  apply NoDup_cons in Hnd as [Hlocale Hnd].
  rewrite for_in_cons, R_bind_run, on_disk_run.
  destruct (analyze_locale_tasks_of self locale (disk p)) as [lines Hana].
  { intros f r Hf. apply (Hfiles locale f r); [left|done]. }
  rewrite Hana. cbn [fst snd]. cbn [omap list_omap]. unfold entry_of at 1.
  set (p1 := mkProcess _ _ _ _).
  assert (Hfiles1 : ∀ locale' f r, locale' ∈ locales →
            (f, r) ∈ english_data self →
            readable (lookup_node (disk p1)
                        (joinpath (joinpath (locales_dir self) locale') f))).
  { intros locale' f r Hl Hf. rewrite (lookup_node_fs (disk p)) by done.
    apply (Hfiles locale' f r); [by right|done]. }
  assert (Hsame : omap (entry_of self (disk p1)) locales
                  = omap (entry_of self (disk p)) locales).
  { apply list_omap_ext, Forall2_same_length_lookup_2; [done|].
    intros i x y Hx Hy. rewrite Hx in Hy. injection Hy as <-.
    unfold entry_of. by rewrite (tasks_of_fs self (disk p)). }
  destruct (tasks_of self (disk p) locale) as [|task tasks] eqn:Htasks.
  - rewrite R_ret_run.
    destruct (IH all_tasks p1 Hfiles1 Hnd) as (p' & Hrun & Hfs & He & Hs).
    { intros locale' Hl. apply Hfresh. by right. }
    exists p'. rewrite Hrun, Hsame. done.
  - cbv zeta. rewrite R_bind_run, say_run, R_ret_run.
    set (p2 := mkProcess _ _ _ (_ ++ _)).
    rewrite set_fresh by (apply Hfresh; left).
    destruct (IH (all_tasks ++ [(locale, task :: tasks)]) p2 Hfiles1 Hnd)
      as (p' & Hrun & Hfs & He & Hs).
    { intros locale' Hl. rewrite keys_app, not_elem_of_app. split.
      - apply Hfresh. by right.
      - cbn. intros [->|H]%elem_of_cons; [done|by apply elem_of_nil in H]. }
    exists p'. rewrite Hrun. subst p2. cbn [disk] in *.
    rewrite Hsame, <- app_assoc. done.
Qed.

(** The same loop over locales none of which has a task, distinct or
    not: nothing is collected. *)
Lemma generate_loop_nothing self (locales : list (list N))
    (all_tasks : PyDict.dict (list N) (list TranslationTask)) p :
  (∀ locale f r, locale ∈ locales → (f, r) ∈ english_data self →
     readable (lookup_node (disk p)
                 (joinpath (joinpath (locales_dir self) locale) f))) →
  Forall (fun locale => tasks_of self (disk p) locale = []) locales →
  ∃ p',
    for_in locales all_tasks (fun all_tasks locale =>
      tasks ← on_disk (analyze_locale self locale);
      match tasks with
      | [] => mret all_tasks
      | _ :: _ =>
          _ ← say (InfoFoundTasks (length tasks) locale);
          mret (PyDict.set all_tasks locale tasks)
      end) p
    = (Done all_tasks, p')
    ∧ fs (disk p') = fs (disk p) ∧ engine_state p' = engine_state p
    ∧ stats p' = stats p.
Proof.
  revert p. induction locales as [|locale locales IH]; intros p Hfiles Hnone.
  { by exists p. }
  apply Forall_cons in Hnone as [Hlocale Hnone].
  rewrite for_in_cons, R_bind_run, on_disk_run.
  destruct (analyze_locale_tasks_of self locale (disk p)) as [lines Hana].
  { intros f r Hf. apply (Hfiles locale f r); [left|done]. }
  rewrite Hana, Hlocale. cbn [fst snd]. rewrite R_ret_run.
  set (p1 := mkProcess _ _ _ _).
  destruct (IH p1) as (p' & Hrun & Hfs & He & Hs).
  - intros locale' f r Hl Hf. rewrite (lookup_node_fs (disk p)) by done.
    apply (Hfiles locale' f r); [by right|done].
  - eapply Forall_impl; [exact Hnone|]. intros locale' Hl. cbv beta in *.
    by rewrite (tasks_of_fs self (disk p)).
  - exists p'. by rewrite Hrun.
Qed.

End task_generation.

(** A name that stays in the tree, shown by computing its parts. *)
Ltac stays_inside :=
  split;
  [ reflexivity
  | vm_compute;
    let H := fresh in
    intros H;
    repeat (apply elem_of_cons in H as [H|H]; [discriminate H|]);
    by apply elem_of_nil in H ].

(** X18. For distinct locale names, and reference file names, that stay
    in the tree (relative and without a [..] part; the empty name, which
    stands for the locales directory itself, included), when no locale file
    is a directory or holds text that is not JSON,
    [generate_translation_tasks] returns, in the order of the locales, each
    locale that has a task with its tasks, and leaves out a locale that has
    none, be it complete or without a directory; it changes no file,
    and leaves the engine and the statistics alone. Without a list of
    locales it does the same for the locales at hand. *)
Theorem tasks_are_generated_for_the_locales_that_need_them :
  ∀ (listing : world → list (list N) → list (list N)) (self : LocaleAnalyzer)
    (locales : list (list N)) (p : process),
    NoDup locales →
    (∀ locale, locale ∈ locales → inside locale) →
    (∀ f r, (f, r) ∈ english_data self → inside f) →
    (∀ locale f r, locale ∈ locales → (f, r) ∈ english_data self →
       readable (lookup_node (disk p)
                   (joinpath (joinpath (locales_dir self) locale) f))) →
    (∃ p',
       generate_translation_tasks listing self (Some locales) p
       = (Done (omap (entry_of self (disk p)) locales), p')
       ∧ fs (disk p') = fs (disk p) ∧ engine_state p' = engine_state p
       ∧ stats p' = stats p)
    ∧ (get_available_locales listing self p = (Done locales, p) →
       generate_translation_tasks listing self None p
       = generate_translation_tasks listing self (Some locales) p).
Proof.
  intros listing self locales p Hnd _ _ Hfiles. split.
  - unfold generate_translation_tasks. rewrite R_bind_run, R_ret_run.
    destruct (generate_loop self locales PyDict.empty p Hfiles Hnd)
      as (p' & Hrun & Hrest).
    { intros locale _ H. by apply elem_of_nil in H. }
    exists p'. split; [|exact Hrest]. exact Hrun.
  - intros Hav. unfold generate_translation_tasks.
    by rewrite !R_bind_run, Hav, R_ret_run.
Qed.

(** In the site, French lacks two entries and German has no directory;
    under the empty name the locales directory itself is analysed, where
    no file [common.json] stands, so every entry is missing. *)
Lemma tasks_are_generated_for_the_locales_that_need_them_witness :
  ∃ p' : process,
    generate_translation_tasks children reference_analyzer
      (Some [pystr "fr"; pystr "es"; pystr "de"; []]) site
    = (Done
         [(pystr "fr",
           [mkTask (pystr "fr") common_json (pystr "farewell") (pystr "Goodbye")
              false;
            mkTask (pystr "fr") common_json (pystr "thanks") (pystr "Thanks")
              true]);
          (pystr "de",
           [mkTask (pystr "de") common_json (pystr "greeting") (pystr "Hello")
              true;
            mkTask (pystr "de") common_json (pystr "farewell") (pystr "Goodbye")
              true;
            mkTask (pystr "de") common_json (pystr "thanks") (pystr "Thanks")
              true]);
          ([],
           [mkTask [] common_json (pystr "greeting") (pystr "Hello") true;
            mkTask [] common_json (pystr "farewell") (pystr "Goodbye") true;
            mkTask [] common_json (pystr "thanks") (pystr "Thanks") true])],
       p')
    ∧ fs (disk p') = fs (disk site).
Proof.
  destruct (tasks_are_generated_for_the_locales_that_need_them children
              reference_analyzer [pystr "fr"; pystr "es"; pystr "de"; []] site)
    as [(p' & Hrun & Hfs & _) _].
  - repeat constructor; vm_compute; intros H;
      repeat (apply elem_of_cons in H as [H|H]; [discriminate H|]);
      by apply elem_of_nil in H.
  - intros locale Hl.
    repeat (apply elem_of_cons in Hl as [->|Hl]; [stays_inside|]).
    by apply elem_of_nil in Hl.
  - intros f r Hf.
    apply list_elem_of_singleton in Hf. injection Hf as -> ->. stays_inside.
  - intros locale f r Hl Hf.
    apply list_elem_of_singleton in Hf. injection Hf as -> ->.
    repeat (apply elem_of_cons in Hl as [->|Hl];
            [split; vm_compute; discriminate|]).
    by apply elem_of_nil in Hl.
  - exists p'. split; [|exact Hfs]. rewrite Hrun. vm_compute. reflexivity.
Defined.

(** ** Orchestrator: the files *)

Section process_frames.
Context {X : Type}.
Implicit Types (f : process → X) (p : process).

Lemma within_say f line :
  (∀ p lines, f (mkProcess (disk p) (engine_state p) (stats p) lines) = f p) →
  within (unchanged f) (say line).
Proof. intros Hf p. apply Hf. Qed.

Lemma within_update_stats f g :
  (∀ p s, f (mkProcess (disk p) (engine_state p) s (journal p)) = f p) →
  within (unchanged f) (update_stats g).
Proof. intros Hf p. apply Hf. Qed.

Lemma within_on_engine f {A} (m : M engine A) :
  (∀ p e, f (mkProcess (disk p) e (stats p) (journal p)) = f p) →
  within (unchanged f) (on_engine m).
Proof. intros Hf p. rewrite on_engine_run. apply Hf. Qed.

Lemma within_on_disk f {A} (m : M world A) :
  (∀ p w, f (mkProcess w (engine_state p) (stats p) (journal p)) = f p) →
  within (unchanged f) (on_disk m).
Proof. intros Hf p. rewrite on_disk_run. apply Hf. Qed.

End process_frames.

Lemma read_json_fs (q : list (list N)) (w : world) :
  fs (read_json q w).2 = fs w.
Proof. rewrite read_json_run. by destruct (lookup_node w q) as [[| |]|]. Qed.

Lemma within_on_disk_files {A} (m : M world A) :
  (∀ w, fs (m w).2 = fs w) → within same_files (on_disk m).
Proof. intros Hm p. rewrite on_disk_run. apply Hm. Qed.

Ltac frame_step :=
  first
    [ apply within_bind; [apply _ | | intros ?]
    | apply within_for_in; [apply _ | intros ? ? ?]
    | apply within_try_except; [apply _ | | intros ?]
    | apply within_ret; apply _
    | apply within_abort; apply _
    | apply within_inspect; apply _
    | apply within_say; reflexivity
    | apply within_update_stats; reflexivity
    | apply within_on_engine; reflexivity
    | apply within_on_disk; reflexivity
    | apply within_on_disk_files;
      first [ intros ?; reflexivity | apply analyze_locale_fs
            | apply update_dry_run_fs | apply read_json_fs ]
    | solve [intros ?; reflexivity]
    | match goal with
      | |- within _ (if ?b then _ else _) => destruct b
      | |- within _ (match ?x with _ => _ end) => destruct x
      | |- within _ (let '(_, _) := ?x in _) => destruct x
      end ].

Ltac frame := repeat frame_step.

Section run_frames.
Variable term_order : list (list N).
Variable provider : nat → request → response.
Variable listing : world → list (list N) → list (list N).

Lemma iterdir_files dir : within same_files (iterdir listing dir).
Proof. unfold iterdir. frame. Qed.

Lemma get_available_locales_files self :
  within same_files (get_available_locales listing self).
Proof.
  unfold get_available_locales. frame.
Qed.

Lemma generate_translation_tasks_files self locales :
  within same_files (generate_translation_tasks listing self locales).
Proof.
  unfold generate_translation_tasks. frame.
Qed.

Lemma tally_result_files verbose ft item :
  within same_files (tally_result verbose ft item).
Proof. unfold tally_result. frame. Qed.

Lemma process_batch_files verbose n ft numbered :
  within same_files (process_batch term_order provider verbose n ft numbered).
Proof. unfold process_batch. frame. all: apply tally_result_files. Qed.

Lemma process_locale_dry_run_files self batch_size verbose u entry :
  within same_files
    (process_locale term_order provider self batch_size true verbose u entry).
Proof.
  unfold process_locale. frame. all: apply process_batch_files.
Qed.

Lemma report_files self : within same_files (report self).
Proof. unfold report. frame. Qed.

Lemma run_dry_run_files self locales batch_size verbose :
  within same_files
    (run term_order provider listing self locales batch_size true verbose).
Proof.
  unfold run. frame.
  all: first [ apply generate_translation_tasks_files
             | apply process_locale_dry_run_files | apply report_files ].
Qed.

End run_frames.

(** X19. In dry-run mode [run] changes no file and no directory, whatever
    the provider answers and whether it returns or raises. *)
Theorem dry_run_of_the_orchestrator_changes_no_file :
  ∀ (term_order : list (list N)) (provider : nat → request → response)
    (listing : world → list (list N) → list (list N))
    (self : LocaleTranslator) (locales : option (list (list N)))
    (batch_size : Z) (verbose : bool) (p : process),
    fs (disk (run term_order provider listing self locales batch_size true
                verbose p).2)
    = fs (disk p).
Proof.
  intros term_order provider listing self locales batch_size verbose p.
  apply (run_dry_run_files term_order provider listing self locales batch_size
           verbose p).
Qed.

(** ** Orchestrator: the statistics *)

Section counting.

Lemma sum_lengths {A} (l : list (list A)) :
  sum_list (length <$> l) = length (concat l).
Proof.
  induction l as [|x l IH]; [done|]. cbn. rewrite length_app. by rewrite <- IH.
Qed.

Lemma sum_ones {A} (l : list A) : sum_list ((fun _ => 1) <$> l) = length l.
Proof. rewrite sum_list_fmap_const. lia. Qed.

(** The batches are not empty, and hold no more tasks than there are. *)
Lemma batches_shape (tasks : list TranslationTask) (batch_size : Z) batches :
  group_tasks_into_batches tasks batch_size = Returned batches →
  Forall (fun batch => 0 < length batch) batches
  ∧ length (concat batches) <= length tasks.
Proof.
  unfold group_tasks_into_batches, PyDict.items.
  destruct (Z.lt_trichotomy batch_size 0) as [Hneg|[->|Hpos]].
  - rewrite batches_loop_neg by done. intros [= <-]. split; [done|cbn; lia].
  - destruct tasks as [|task tasks]; [intros [= <-]; by split|].
    pose proof (group_tasks_nonempty (task :: tasks) ltac:(done)) as Hg.
    by destruct (group_tasks (task :: tasks)) as [|[g group] groups].
  - rewrite batches_loop_spec by done. rewrite app_nil_l. intros [= <-].
    assert (Hs : 0 < Z.to_nat batch_size) by lia. split.
    + apply Forall_forall. intros batch Hb.
      apply list_elem_of_bind in Hb as ([g group] & Hb & _).
      apply list_elem_of_lookup in Hb as [i Hi].
      destruct (chunk_sizes _ _ _ _ Hs Hi) as [Hlen _]. lia.
    + rewrite concat_bind_chunks by done.
      by rewrite (concat_group_tasks tasks).
Qed.

Lemma count_le_total {A} (l : list (list A)) :
  Forall (fun x => 0 < length x) l → length l <= length (concat l).
Proof.
  induction 1 as [|x l Hx _ IH]; [done|]. cbn. rewrite length_app. lia.
Qed.

End counting.

Section call_budget.
Variable term_order : list (list N).
Variable provider : nat → request → response.

Lemma attempt_loop_calls attempts max_retries r uncached results e :
  calls_made
    (trace (attempt_loop term_order provider attempts max_retries r uncached
              results e).2)
  <= calls_made (trace e) + length attempts.
Proof.
  revert e. induction attempts as [|attempt later IH]; intros e.
  - cbn. lia.
  - rewrite attempt_loop_cons. cbv zeta.
    destruct (provider (calls_made (trace e)) r) as [| |translations].
    + destruct (attempt <? max_retries - 1)%Z.
      * etrans; [apply IH|]. cbn [trace length].
        rewrite calls_made_app. cbn. lia.
      * cbn [snd trace length]. rewrite calls_made_app. cbn. lia.
    + etrans; [apply IH|]. cbn [trace length].
      rewrite calls_made_app. cbn. lia.
    + destruct (process_translations_spec term_order attempt max_retries
                  (zip uncached translations) results
                  (mkEngine (translation_cache e) (trace e ++ [Call r])))
        as (e' & Hrun & _ & _ & new & Htr & Hnew).
      rewrite Hrun. cbn [snd]. rewrite Htr. cbn [trace length].
      rewrite !calls_made_app, (calls_made_none new Hnew). cbn. lia.
Qed.

Lemma translate_batch_calls tasks max_retries e :
  calls_made (trace (translate_batch term_order provider tasks max_retries e).2)
  <= calls_made (trace e) + Z.to_nat max_retries.
Proof.
  destruct tasks as [|first rest]; [cbn; lia|].
  rewrite translate_batch_cons. cbv zeta.
  destruct (filter _ (first :: rest)); [cbn; lia|].
  etrans; [apply attempt_loop_calls|].
  unfold range. by rewrite length_map, length_seq.
Qed.

Lemma translate_batch_length tasks max_retries e results e' :
  translate_batch term_order provider tasks max_retries e
  = (Returned results, e') →
  length results <= length tasks.
Proof.
  intros Hrun. apply translate_batch_returns in Hrun
    as (pairs & -> & Hpairs & _).
  pose proof (Permutation_length
                (hits_and_misses term_order (translation_cache e) tasks))
    as Hlen.
  rewrite length_app, !length_fmap in Hlen.
  rewrite length_app, length_fmap.
  apply sublist_length in Hpairs. rewrite length_fmap in Hpairs. rewrite <- Hlen. apply Nat.add_le_mono_l, Hpairs.
Qed.

End call_budget.

Section run_accounting.
Variable term_order : list (list N).
Variable provider : nat → request → response.
Variable listing : world → list (list N) → list (list N).

Implicit Types (p : process).

(** The loop over the results never raises. *)
Lemma tally_result_done verbose ft item p :
  ∃ ft' p', tally_result verbose ft item p = (Done ft', p').
Proof.
  destruct item as [[task translated] validation]. unfold tally_result.
  destruct (accepts validation).
  - rewrite R_bind_run, update_stats_run, R_bind_run.
    destruct (warnings validation) as [|warning more].
    + rewrite R_ret_run, R_ret_run. eauto.
    + rewrite R_bind_run, update_stats_run.
      destruct verbose; [|rewrite R_ret_run, R_ret_run; eauto].
      match goal with
      | |- context [for_in ?l tt ?body ?s] =>
          assert (H : ∃ s', for_in l tt body s = (Done tt, s'))
      end.
      { generalize (warning :: more). intros l.
        match goal with |- context [for_in l tt ?body ?s] => generalize s end.
        induction l as [|x l IH]; intros s; [by exists s|].
        rewrite for_in_cons, say_run. apply IH. }
      destruct H as [s' ->]. rewrite R_ret_run. eauto.
  - rewrite R_bind_run, update_stats_run, R_bind_run, say_run, R_ret_run. eauto.
Qed.

Lemma tally_loop_done verbose results ft p :
  ∃ ft' p', for_in results ft (tally_result verbose) p = (Done ft', p').
Proof.
  revert ft p. induction results as [|item results IH]; intros ft p.
  - eauto.
  - rewrite for_in_cons.
    destruct (tally_result_done verbose ft item p) as (ft1 & p1 & ->).
    apply IH.
Qed.

Lemma tally_result_settled verbose ft item :
  grows_by settled 1 (tally_result verbose ft item).
Proof.
  destruct item as [[task translated] validation]. unfold tally_result.
  destruct (accepts validation).
  - apply grows_by_bind_l; [intros p; unfold settled; cbn; lia|].
    intros _. frame. all: intros p; reflexivity.
  - apply grows_by_bind_l; [intros p; unfold settled; cbn; lia|].
    intros _. frame.
Qed.

Lemma tally_loop_settled verbose results ft :
  grows_by settled (length results) (for_in results ft (tally_result verbose)).
Proof.
  rewrite <- (sum_ones results). apply grows_by_for_in.
  intros acc x _. apply tally_result_settled.
Qed.

Lemma process_batch_settled verbose n ft i batch :
  grows_by settled (length batch)
    (process_batch term_order provider verbose n ft (i, batch)).
Proof.
  unfold process_batch. destruct batch as [|first batch]; [intros p; rewrite R_bind_run; cbn; lia|].
  apply grows_by_bind_r; [frame|]. intros ?.
  apply grows_by_bind_r; [frame|]. intros ?.
  apply grows_by_bind_l; [|intros ?; frame].
  intros p. unfold try_except. rewrite R_bind_run, on_engine_run.
  destruct (translate_batch term_order provider (first :: batch) 3
              (engine_state p)) as [[results|ex] e'] eqn:Htb; cbn [fst snd].
  - rewrite R_bind_run, update_stats_run.
    apply translate_batch_length in Htb.
    match goal with
    | |- context [for_in results ft _ ?s] =>
        pose proof (tally_loop_settled verbose results ft s) as Hgrow;
        destruct (tally_loop_done verbose results ft s) as (ft' & p' & Hdone)
    end.
    rewrite Hdone in Hgrow |- *. cbn [snd] in *.
    unfold settled in *. cbn [stats Stats.translated Stats.failed] in Hgrow.
    lia.
  - rewrite R_bind_run, say_run, R_bind_run, update_stats_run, R_ret_run.
    unfold settled. cbn. lia.
Qed.

End run_accounting.

Section run_accounting_more.
Variable term_order : list (list N).
Variable provider : nat → request → response.
Variable listing : world → list (list N) → list (list N).

Implicit Types (p : process).

Lemma sum_over_numbered {A} (l : list (list A)) :
  sum_list ((fun numbered : nat * list A => length numbered.2)
            <$> zip (seq 1 (length l)) l)
  = length (concat l).
Proof.
  generalize 1. induction l as [|x l IH]; intros k; [done|].
  cbn. rewrite length_app. by rewrite <- (IH (S k)).
Qed.

Lemma process_locale_settled self batch_size dry_run verbose u locale
    (tasks : list TranslationTask) :
  grows_by settled (length tasks)
    (process_locale term_order provider self batch_size dry_run verbose u
       (locale, tasks)).
Proof.
  unfold process_locale. apply grows_by_bind_r; [frame|]. intros _.
  destruct (group_tasks_into_batches tasks batch_size) as [batches|ex] eqn:Hb.
  - apply batches_shape in Hb as [_ Hlen].
    apply grows_by_ret_bind, grows_by_bind_l.
    + eapply grows_by_weaken.
      * apply (grows_by_for_in settled
                 (fun numbered : nat * list TranslationTask =>
                    length numbered.2)).
        intros acc [i batch] _. apply process_batch_settled.
      * by rewrite sum_over_numbered.
    + intros ft. frame.
  - intros p. change (settled p <= settled p + length tasks). lia.
Qed.
Lemma tally_result_total verbose ft item :
  within (unchanged (fun p => Stats.total_tasks (stats p)))
    (tally_result verbose ft item).
Proof. unfold tally_result. frame. Qed.

Lemma process_batch_total verbose n ft numbered :
  within (unchanged (fun p => Stats.total_tasks (stats p)))
    (process_batch term_order provider verbose n ft numbered).
Proof. unfold process_batch. frame. all: apply tally_result_total. Qed.

Lemma process_locale_total self batch_size dry_run verbose u entry :
  within (unchanged (fun p => Stats.total_tasks (stats p)))
    (process_locale term_order provider self batch_size dry_run verbose u entry).
Proof. unfold process_locale. frame. all: apply process_batch_total. Qed.

Lemma generate_translation_tasks_stats self locales :
  within (unchanged stats) (generate_translation_tasks listing self locales).
Proof. unfold generate_translation_tasks. frame. Qed.

(** The part of [run] after the estimate: the locales, the report, the
    statistics. *)
Lemma locales_loop_settled self batch_size dry_run verbose
    (all_tasks : PyDict.dict (list N) (list TranslationTask)) p :
  let p' := ((_ ← for_in (PyDict.items all_tasks) tt
                    (process_locale term_order provider self batch_size dry_run
                       verbose);
              _ ← report self;
              inspect stats) p).2 in
  settled p' <= settled p + sum_list (length <$> all_tasks.*2)
  ∧ Stats.total_tasks (stats p') = Stats.total_tasks (stats p).
Proof.
  cbv zeta. split.
  - revert p. apply grows_by_bind_l.
    + eapply grows_by_weaken.
      * apply (grows_by_for_in settled
                 (fun entry : list N * list TranslationTask => length entry.2)).
        intros acc [locale tasks] _. apply process_locale_settled.
      * unfold PyDict.items. by rewrite <- list_fmap_compose.
    + intros _. unfold report. frame.
  - revert p.
    change (within (unchanged (fun p => Stats.total_tasks (stats p)))
              (_ ← for_in (PyDict.items all_tasks) tt
                     (process_locale term_order provider self batch_size
                        dry_run verbose);
               _ ← report self;
               inspect stats)).
    unfold report. frame. apply process_locale_total.
Qed.

End run_accounting_more.

(** X20. The statistics of a run account for at most the tasks that were
    found: [translated] and [failed] together grow by no more than
    [total_tasks], whatever the provider answers and whether [run] returns
    or raises; starting from zero, [translated + failed <= total_tasks]. *)
Theorem settled_results_never_exceed_the_tasks :
  ∀ (term_order : list (list N)) (provider : nat → request → response)
    (listing : world → list (list N) → list (list N))
    (self : LocaleTranslator) (locales : option (list (list N)))
    (batch_size : Z) (dry_run verbose : bool) (p : process),
    let after :=
      stats (run term_order provider listing self locales batch_size dry_run
               verbose p).2 in
    Stats.translated after + Stats.failed after
    <= Stats.translated (stats p) + Stats.failed (stats p)
       + Stats.total_tasks after.
Proof.
  intros term_order provider listing self locales batch_size dry_run verbose p.
  cbv zeta. change (settled (run term_order provider listing self locales
                               batch_size dry_run verbose p).2
                    <= settled p
                       + Stats.total_tasks
                           (stats (run term_order provider listing self locales
                                     batch_size dry_run verbose p).2)).
  unfold run. rewrite R_bind_run, say_run. set (p0 := mkProcess _ _ _ _).
  rewrite R_bind_run.
  pose proof (generate_translation_tasks_stats listing (analyzer self) locales
                p0) as Hstats. unfold unchanged in Hstats.
  destruct (generate_translation_tasks listing (analyzer self) locales p0)
    as [[all_tasks|e] p1]; cbn [snd] in Hstats.
  - assert (Hp1 : settled p1 = settled p) by (unfold settled; by rewrite Hstats).
    destruct all_tasks as [|entry more].
    + rewrite R_bind_run, say_run. unfold inspect. cbn [snd].
      change (settled p1 <= settled p + Stats.total_tasks (stats p1)). lia.
    + set (all_tasks := entry :: more). set (T := sum_list _).
      rewrite R_bind_run, update_stats_run, R_bind_run, say_run.
      destruct (batch_size =? 0)%Z.
      * cbn [snd abort]. unfold settled in *. cbn. lia.
      * rewrite R_bind_run, update_stats_run, R_bind_run, say_run, R_bind_run.
        match goal with
        | |- context [(if dry_run then _ else _) ?s] =>
            assert (Hsay : ∃ lines,
                      (if dry_run then say InfoDryRunMode else mret tt) s
                      = (Done tt,
                         mkProcess (disk s) (engine_state s) (stats s)
                           (journal s ++ lines)))
        end.
        { destruct dry_run; [by exists [InfoDryRunMode]|].
          exists []. rewrite R_ret_run. cbn. by rewrite app_nil_r. }
        destruct Hsay as [lines ->]. cbn [disk engine_state stats journal].
        match goal with
        | |- context [(for_in (PyDict.items all_tasks) tt _ ≫= _) ?s] =>
            destruct (locales_loop_settled term_order provider self batch_size
                        dry_run verbose all_tasks s) as [Hgrow Htotal]
        end.
        cbv zeta in Hgrow, Htotal. rewrite Htotal. fold T in Hgrow.
        etrans; [exact Hgrow|]. unfold settled in *. cbn. lia.
  - cbn [snd]. unfold settled. rewrite Hstats. cbn. lia.
Qed.

(** ** Orchestrator: requests, acceptance and edge cases *)

Section request_budget.
Variable term_order : list (list N).
Variable provider : nat → request → response.
Variable listing : world → list (list N) → list (list N).

Implicit Types (p : process).

Lemma tally_result_requests verbose ft item :
  within (unchanged requests) (tally_result verbose ft item).
Proof. unfold tally_result. frame. Qed.

Lemma process_batch_requests verbose n ft numbered :
  grows_by requests 3
    (process_batch term_order provider verbose n ft numbered).
Proof.
  unfold process_batch. destruct numbered as [i batch].
  apply grows_by_bind_r; [frame|]. intros first.
  apply grows_by_bind_r; [frame|]. intros _.
  apply grows_by_bind_l; [|intros ?; frame].
  apply (grows_by_try_except requests _ _ 3 0).
  - apply grows_by_bind_l.
    + intros p. rewrite on_engine_run. unfold requests. cbn [snd engine_state].
      apply (translate_batch_calls term_order provider batch 3 (engine_state p)).
    + intros results. frame. apply tally_result_requests.
  - intros e. apply within_grows_by. frame.
Qed.

Lemma process_locale_requests self batch_size dry_run verbose u locale
    (tasks : list TranslationTask) :
  grows_by requests (3 * length tasks)
    (process_locale term_order provider self batch_size dry_run verbose u
       (locale, tasks)).
Proof.
  unfold process_locale. apply grows_by_bind_r; [frame|]. intros _.
  destruct (group_tasks_into_batches tasks batch_size) as [batches|ex] eqn:Hb.
  - apply batches_shape in Hb as [Hne Hlen].
    apply grows_by_ret_bind, grows_by_bind_l.
    + eapply grows_by_weaken.
      * apply (grows_by_for_in requests
                 (fun _ : nat * list TranslationTask => 3)).
        intros acc numbered _. apply process_batch_requests.
      * rewrite sum_list_fmap_const, length_zip, length_seq.
        apply count_le_total in Hne. lia.
    + intros ft. frame.
  - intros p. change (requests p <= requests p + 3 * length tasks). lia.
Qed.

Lemma locales_loop_requests self batch_size dry_run verbose
    (all_tasks : PyDict.dict (list N) (list TranslationTask)) :
  grows_by requests (3 * sum_list (length <$> all_tasks.*2))
    (_ ← for_in (PyDict.items all_tasks) tt
           (process_locale term_order provider self batch_size dry_run verbose);
     _ ← report self;
     inspect stats).
Proof.
  apply grows_by_bind_l.
  - eapply grows_by_weaken.
    + apply (grows_by_for_in requests
               (fun entry : list N * list TranslationTask =>
                  3 * length entry.2)).
      intros acc [locale tasks] _. apply process_locale_requests.
    + unfold PyDict.items. induction all_tasks as [|[l t] more IH]; [done|].
      cbn in *. lia.
  - intros _. unfold report. frame.
Qed.

Lemma generate_translation_tasks_requests self locales :
  within (unchanged requests) (generate_translation_tasks listing self locales).
Proof. unfold generate_translation_tasks. frame. Qed.

End request_budget.

(** X21. A run sends at most three requests for each task that it found,
    whatever the provider answers and whether [run] returns or raises. *)
Theorem requests_are_at_most_three_per_task :
  ∀ (term_order : list (list N)) (provider : nat → request → response)
    (listing : world → list (list N) → list (list N))
    (self : LocaleTranslator) (locales : option (list (list N)))
    (batch_size : Z) (dry_run verbose : bool) (p : process),
    let after :=
      (run term_order provider listing self locales batch_size dry_run verbose
         p).2 in
    calls_made (trace (engine_state after))
    <= calls_made (trace (engine_state p))
       + 3 * Stats.total_tasks (stats after).
Proof.
  intros term_order provider listing self locales batch_size dry_run verbose p.
  cbv zeta. change (requests (run term_order provider listing self locales
                                batch_size dry_run verbose p).2
                    <= requests p
                       + 3 * Stats.total_tasks
                               (stats (run term_order provider listing self
                                         locales batch_size dry_run verbose
                                         p).2)).
  unfold run. rewrite R_bind_run, say_run. set (p0 := mkProcess _ _ _ _).
  rewrite R_bind_run.
  pose proof (generate_translation_tasks_requests listing (analyzer self)
                locales p0) as Hreq. unfold unchanged in Hreq.
  change (requests p0) with (requests p) in Hreq.
  destruct (generate_translation_tasks listing (analyzer self) locales p0)
    as [[all_tasks|e] p1]; cbn [snd] in Hreq; [|cbn [snd]; lia].
  destruct all_tasks as [|entry more].
  { rewrite R_bind_run, say_run. unfold inspect. cbn [snd].
    change (requests p1 <= requests p + 3 * Stats.total_tasks (stats p1)). lia. }
  set (all_tasks := entry :: more). set (T := sum_list _).
  rewrite R_bind_run, update_stats_run, R_bind_run, say_run.
  destruct (batch_size =? 0)%Z.
  { cbn [snd abort]. change (requests p1 <= requests p + 3 * T). lia. }
  rewrite R_bind_run, update_stats_run, R_bind_run, say_run, R_bind_run.
  match goal with
  | |- context [(if dry_run then _ else _) ?s] =>
      assert (Hsay : ∃ lines,
                (if dry_run then say InfoDryRunMode else mret tt) s
                = (Done tt,
                   mkProcess (disk s) (engine_state s) (stats s)
                     (journal s ++ lines)))
  end.
  { destruct dry_run; [by exists [InfoDryRunMode]|].
    exists []. rewrite R_ret_run. cbn. by rewrite app_nil_r. }
  destruct Hsay as [lines ->]. cbn [disk engine_state stats journal].
  match goal with
  | |- context [(for_in (PyDict.items all_tasks) tt _ ≫= _) ?s] =>
      pose proof (locales_loop_requests term_order provider self batch_size
                    dry_run verbose all_tasks s) as Hgrow;
      destruct (locales_loop_settled term_order provider self batch_size
                  dry_run verbose all_tasks s) as [_ Htotal]
  end.
  cbv zeta in Htotal. rewrite Htotal. fold T in Hgrow.
  etrans; [exact Hgrow|]. cbn [stats Stats.total_tasks].
  match goal with
  | |- requests ?s + _ <= _ => change (requests s) with (requests p1)
  end.
  lia.
Qed.

Section acceptance.

Lemma validate_translation_fields term_order task translated :
  let placeholders := validate_placeholders (english_value task) translated in
  is_valid (validate_translation term_order task translated)
  = is_valid placeholders
  ∧ errors (validate_translation term_order task translated)
    = errors placeholders.
Proof.
  cbv zeta.
  destruct (validate_length_valid (english_value task) translated
              default_tolerance) as [Hl Hle].
  destruct (validate_no_english_remnants_valid term_order (english_value task)
              translated (locale task)) as [Hs Hse].
  unfold validate_translation. cbn [fold_left]. cbn [is_valid errors].
  rewrite Hl, Hle, Hs, Hse. cbn [negb app]. rewrite !app_nil_r.
  by destruct (is_valid (validate_placeholders _ _)).
Qed.

End acceptance.

(** X22. The test of [run] on a result accepts exactly the valid ones: a
    validation without errors is valid, so the clause about warnings never
    decides, and warnings never keep a translation out of the file. *)
Theorem run_accepts_exactly_the_valid_results :
  ∀ (term_order : list (list N)) (task : TranslationTask)
    (translated : list N),
    let validation := validate_translation term_order task translated in
    accepts validation = is_valid validation
    ∧ (errors validation = [] ↔ is_valid validation = true).
Proof.
  intros term_order task translated validation.
  destruct (validate_translation_fields term_order task translated)
    as [Hv He]. cbv zeta in Hv, He. fold validation in Hv, He.
  destruct (validate_placeholders_spec (english_value task) translated)
    as (Hpv & Hpe & _). cbv zeta in Hpv, Hpe.
  assert (Hiff : errors validation = [] ↔ is_valid validation = true).
  { rewrite He, Hv, Hpe, Hpv, bool_decide_eq_true, fmap_filter_nil.
    rewrite !Forall_forall. split; intros H p Hp.
    - specialize (H p Hp). by apply dec_stable in H.
    - intros Hn. by apply Hn, H. }
  split; [|exact Hiff]. unfold accepts.
  destruct (is_valid validation) eqn:Hval; [done|]. cbn [orb].
  rewrite bool_decide_eq_false_2; [done|].
  intros Hnil. apply Hiff in Hnil. congruence.
Qed.

Section run_edges.
Variable term_order : list (list N).
Variable provider : nat → request → response.
Variable listing : world → list (list N) → list (list N).

Implicit Types (p : process) (self : LocaleTranslator).


Lemma generate_nothing_run (analyzer : LocaleAnalyzer)
    (locales : list (list N)) p :
  (∀ locale f r, locale ∈ locales → (f, r) ∈ english_data analyzer →
     readable (lookup_node (disk p)
                 (joinpath (joinpath (locales_dir analyzer) locale) f))) →
  Forall (fun locale => tasks_of analyzer (disk p) locale = []) locales →
  ∃ p',
    generate_translation_tasks listing analyzer (Some locales) p
    = (Done [], p')
    ∧ fs (disk p') = fs (disk p) ∧ engine_state p' = engine_state p
    ∧ stats p' = stats p.
Proof.
  intros Hfiles Hnone.
  unfold generate_translation_tasks. rewrite R_bind_run, R_ret_run.
  apply (generate_loop_nothing analyzer locales PyDict.empty p Hfiles Hnone).
Qed.




End run_edges.

(** X23. When no locale of the list needs a translation, [run] returns the
    statistics as they were, whatever the batch size, zero included: no
    request is sent and no file is changed. The locale names, distinct or
    not, and the reference file names stay in the tree (relative and without
    a [..] part; the empty name stands for the locales directory itself),
    and no locale file is a directory or holds text that is not JSON. *)
Theorem run_without_tasks_changes_nothing :
  ∀ (term_order : list (list N)) (provider : nat → request → response)
    (listing : world → list (list N) → list (list N))
    (self : LocaleTranslator) (locales : list (list N))
    (batch_size : Z) (dry_run verbose : bool) (p : process),
    (∀ locale, locale ∈ locales → inside locale) →
    (∀ f r, (f, r) ∈ english_data (analyzer self) → inside f) →
    (∀ locale f r, locale ∈ locales → (f, r) ∈ english_data (analyzer self) →
       readable
         (lookup_node (disk p)
            (joinpath (joinpath (locales_dir (analyzer self)) locale) f))) →
    Forall (fun locale => tasks_of (analyzer self) (disk p) locale = [])
      locales →
    let r := run term_order provider listing self (Some locales) batch_size
               dry_run verbose p in
    r.1 = Done (stats p) ∧ stats r.2 = stats p
    ∧ engine_state r.2 = engine_state p ∧ fs (disk r.2) = fs (disk p).
Proof.
  intros term_order provider listing self locales batch_size dry_run verbose p
    _ _ Hfiles Hnone r. subst r.
  unfold run. rewrite R_bind_run, say_run. set (p0 := mkProcess _ _ _ _).
  rewrite R_bind_run.
  destruct (generate_nothing_run listing (analyzer self) locales p0 Hfiles
              Hnone) as (p1 & -> & Hfs & He & Hs).
  rewrite R_bind_run, say_run. unfold inspect.
  cbn [fst snd stats engine_state disk]. by rewrite Hs, He, Hfs.
Qed.

Lemma run_without_tasks_changes_nothing_witness :
  (run technical_terms careless_provider children
     (mkTranslator reference_analyzer timestamped_updater DEFAULT_MODEL)
     (Some [pystr "es"; pystr "es"]) 0 false false site).1
  = Done Stats.initial.
Proof.
  apply (run_without_tasks_changes_nothing technical_terms careless_provider
           children
           (mkTranslator reference_analyzer timestamped_updater DEFAULT_MODEL)
           [pystr "es"; pystr "es"] 0 false false site).
  - intros locale Hl.
    repeat (apply elem_of_cons in Hl as [->|Hl]; [stays_inside|]).
    by apply elem_of_nil in Hl.
  - intros f r Hf.
    apply list_elem_of_singleton in Hf. injection Hf as -> ->. stays_inside.
  - intros locale f r Hl Hf.
    apply list_elem_of_singleton in Hf. injection Hf as -> ->.
    repeat (apply elem_of_cons in Hl as [->|Hl];
            [split; vm_compute; discriminate|]).
    by apply elem_of_nil in Hl.
  - repeat constructor.
Defined.



(** ** Command line *)

Section split_facts.
Implicit Types (s : list N) (sep c : N).

Lemma str_split_nonempty sep s : str_split sep s ≠ [].
Proof.
  destruct s as [|c tl]; [done|]. cbn.
  destruct (N.eqb c sep); [done|]. by destruct (str_split sep tl).
Qed.

Lemma str_split_length sep s :
  length (str_split sep s) = S (length (List.filter (N.eqb sep) s)).
Proof.
  induction s as [|c tl IH]; [done|]. cbn [str_split List.filter].
  rewrite (N.eqb_sym sep c).
  destruct (N.eqb c sep).
  - cbn. by rewrite IH.
  - pose proof (str_split_nonempty sep tl).
    destruct (str_split sep tl) as [|piece pieces]; [done|]. exact IH.
Qed.

Lemma str_split_pieces sep s :
  Forall (fun piece => sep ∉ piece) (str_split sep s).
Proof.
  induction s as [|c tl IH].
  - repeat constructor. apply not_elem_of_nil.
  - cbn. destruct (N.eqb_spec c sep) as [->|Hne].
    + constructor; [apply not_elem_of_nil|done].
    + destruct (str_split sep tl) as [|piece pieces].
      * repeat constructor. by intros [->|H%elem_of_nil]%elem_of_cons.
      * apply Forall_cons in IH as [Hp Hps]. constructor; [|done].
        by intros [->|H]%elem_of_cons.
Qed.

Lemma lstrip_suffix s : lstrip s `suffix_of` s.
Proof.
  induction s as [|c tl IH]; [done|]. cbn.
  destruct (Regex.is_space c); [by apply suffix_cons_r|done].
Qed.

Lemma lstrip_head s c : head (lstrip s) = Some c → Regex.is_space c = false.
Proof.
  induction s as [|x tl IH]; [done|]. cbn.
  destruct (Regex.is_space x) eqn:Hx; [exact IH|]. cbn. by intros [= <-].
Qed.

Lemma lstrip_keeps s c :
  head s = Some c → Regex.is_space c = false → lstrip s = s.
Proof. destruct s as [|x tl]; [done|]. cbn. by intros [= ->] ->. Qed.

Lemma rstrip_prefix s : rstrip s `prefix_of` s.
Proof.
  unfold rstrip. destruct (lstrip_suffix (reverse s)) as [k Hk].
  exists (reverse k). apply (f_equal reverse) in Hk.
  by rewrite reverse_involutive, reverse_app in Hk.
Qed.

Lemma last_reverse {A} (l : list A) : last (reverse l) = head l.
Proof. destruct l as [|x l]; [done|]. by rewrite reverse_cons, last_snoc. Qed.

Lemma head_reverse {A} (l : list A) : head (reverse l) = last l.
Proof. by rewrite <- last_reverse, reverse_involutive. Qed.

Lemma rstrip_last s c : last (rstrip s) = Some c → Regex.is_space c = false.
Proof. unfold rstrip. rewrite last_reverse. apply lstrip_head. Qed.

(** Taking whitespace off the end leaves the first character of a text
    that begins with another character. *)
Lemma rstrip_head s c :
  head s = Some c → Regex.is_space c = false → head (rstrip s) = Some c.
Proof.
  intros Hs Hc. unfold rstrip. rewrite head_reverse.
  destruct s as [|x tl]; [done|]. injection Hs as ->.
  rewrite reverse_cons.
  assert (H : ∀ l, last (lstrip (l ++ [c])) = Some c).
  { induction l as [|y l IH].
    - cbn. by rewrite Hc.
    - cbn. destruct (Regex.is_space y); [exact IH|].
      change (y :: l ++ [c]) with ((y :: l) ++ [c]). by rewrite last_snoc. }
  apply H.
Qed.

Lemma strip_ends s :
  (∀ c, head (strip s) = Some c → Regex.is_space c = false)
  ∧ (∀ c, last (strip s) = Some c → Regex.is_space c = false)
  ∧ ∀ c, c ∈ strip s → c ∈ s.
Proof.
  unfold strip. split_and!.
  - intros c Hc.
    destruct (lstrip s) as [|x tl] eqn:Hl.
    + by vm_compute in Hc.
    + assert (Hx : Regex.is_space x = false)
        by (apply (lstrip_head s); by rewrite Hl).
      rewrite (rstrip_head (x :: tl) x eq_refl Hx) in Hc. congruence.
  - apply rstrip_last.
  - intros c Hc. destruct (rstrip_prefix (lstrip s)) as [k1 Hk1].
    destruct (lstrip_suffix s) as [k2 Hk2].
    rewrite Hk2, Hk1. set_solver.
Qed.

Lemma str_join_split sep s : str_join [sep] (str_split sep s) = s.
Proof.
  induction s as [|c tl IH]; [done|]. cbn [str_split].
  pose proof (str_split_nonempty sep tl) as Hne.
  destruct (N.eqb_spec c sep) as [->|Hc].
  - destruct (str_split sep tl) as [|piece pieces]; [done|].
    cbn [str_join] in *. by rewrite IH.
  - destruct (str_split sep tl) as [|piece pieces]; [done|].
    cbn [str_join] in *. destruct pieces as [|more pieces].
    + by rewrite IH.
    + rewrite <- IH. done.
Qed.

Lemma lstrip_split s :
  ∃ before, s = before ++ lstrip s
            ∧ Forall (fun c => Regex.is_space c = true) before.
Proof.
  induction s as [|c tl (before & Htl & Hbefore)]; [by exists []|].
  cbn [lstrip]. destruct (Regex.is_space c) eqn:Hc.
  - exists (c :: before). split; [by rewrite Htl at 1|by constructor].
  - by exists [].
Qed.

Lemma rstrip_split s :
  ∃ after, s = rstrip s ++ after
           ∧ Forall (fun c => Regex.is_space c = true) after.
Proof.
  unfold rstrip. destruct (lstrip_split (reverse s)) as (before & Hs & Hbefore).
  exists (reverse before). split; [|by apply Forall_reverse].
  rewrite <- reverse_app, <- Hs. by rewrite reverse_involutive.
Qed.

(** What [strip] takes off is whitespace at both ends, all of it. *)
Lemma strip_split s :
  ∃ before after,
    s = before ++ strip s ++ after
    ∧ Forall (fun c => Regex.is_space c = true) before
    ∧ Forall (fun c => Regex.is_space c = true) after.
Proof.
  unfold strip. destruct (lstrip_split s) as (before & Hs & Hbefore).
  destruct (rstrip_split (lstrip s)) as (after & Hl & Hafter).
  exists before, after. split; [|done]. by rewrite <- Hl.
Qed.

End split_facts.

(** X25. The locales that [main] hands to the orchestrator: with [--all],
    all the locales at hand, whatever [--locales] holds; else, for a value
    of [--locales] that is not empty, the value is cut at its commas, into
    pieces that hold no comma and that, joined by commas, give the value
    back, empty pieces included, and each piece is handed on without the
    whitespace at its two ends, all of it; so [fr, de,] gives [fr], [de]
    and the empty name; else the twelve major languages. *)
Theorem locales_are_chosen_from_the_arguments :
  ∀ (args : Namespace) (p : process),
    (arg_all args = true → choose_locales args p = (Done None, p))
    ∧ (arg_all args = false → truthy (arg_locales args) = false →
       (choose_locales args p).1 = Done (Some major_languages))
    ∧ (arg_all args = false → ∀ text, arg_locales args = Some text →
       text ≠ [] →
       ∃ pieces,
         choose_locales args p = (Done (Some (strip <$> pieces)), p)
         ∧ str_join [44%N] pieces = text
         ∧ length pieces = S (length (List.filter (N.eqb 44) text))
         ∧ Forall
             (fun piece =>
                (44%N ∉ piece)
                ∧ (∃ before after,
                     piece = before ++ strip piece ++ after
                     ∧ Forall (fun c => Regex.is_space c = true) before
                     ∧ Forall (fun c => Regex.is_space c = true) after)
                ∧ (∀ c, head (strip piece) = Some c →
                        Regex.is_space c = false)
                ∧ (∀ c, last (strip piece) = Some c →
                        Regex.is_space c = false))
             pieces)
    ∧ choose_locales
        (mkNamespace (Some (pystr "fr, de,")) false 10 DEFAULT_MODEL false
           false None) p
      = (Done (Some [pystr "fr"; pystr "de"; []]), p).
Proof.
  intros args p. unfold choose_locales. split_and!.
  - by intros ->.
  - intros -> ->. done.
  - intros -> text -> Hne. destruct text as [|c text]; [done|].
    cbn [truthy default]. exists (str_split 44 (c :: text)).
    split; [done|]. split; [apply str_join_split|]. split.
    + apply str_split_length.
    + eapply Forall_impl; [apply (str_split_pieces 44)|].
      intros piece Hpiece. cbn beta in *.
      destruct (strip_ends piece) as (Hhead & Hlast & Hin).
      split_and!; [done|apply strip_split|done|done].
  - reflexivity.
Qed.

Section main_frames.
Variable term_order : list (list N).
Variable provider : nat → request → response.
Variable listing : world → list (list N) → list (list N).

Implicit Types (p : process).

Lemma within_mono {S A} (ρ1 ρ2 : relation S) (m : R S A) :
  (∀ s s', ρ1 s s' → ρ2 s s') → within ρ1 m → within ρ2 m.
Proof. intros Hsub Hm s. apply Hsub, Hm. Qed.

Lemma load_english_reference_files dir :
  within same_files (_load_english_reference listing dir).
Proof. unfold _load_english_reference, glob_json. frame. Qed.

Lemma choose_locales_files args : within same_files (choose_locales args).
Proof. unfold choose_locales. frame. Qed.

End main_frames.

Section main_facts.
Variable term_order : list (list N).
Variable provider : nat → request → response.
Variable listing : world → list (list N) → list (list N).

Implicit Types (p : process).

#[local] Instance only_backup_directories_preorder now :
  PreOrder (only_backup_directories now).
Proof.
  split.
  - by intros p q _.
  - intros p1 p2 p3 H12 H23 q Hq. rewrite H23, H12; [done|done|].
    destruct Hq as [Hq|Hq]; [left|by right]. by rewrite H12 by by left.
Qed.

Lemma same_files_only_backup now p p' :
  same_files p p' → only_backup_directories now p p'.
Proof. intros H q _. by apply lookup_node_fs. Qed.

Lemma updater_init_only_backup now :
  within (only_backup_directories now)
    (on_disk (SafeFileUpdater_init [pystr "backups"; now])).
Proof.
  intros p q Hq. rewrite on_disk_run. cbn [snd disk].
  unfold SafeFileUpdater_init. rewrite bind_run.
  pose proof (mkdir_parents_frame [pystr "backups"; now] (disk p)) as [H _].
  cbv zeta in H.
  destruct (mkdir_parents [pystr "backups"; now] (disk p)) as [[[]|ex] w];
    cbn [snd] in *; by apply H.
Qed.

Lemma translator_init_only_backup api_key model now :
  within (only_backup_directories now)
    (LocaleTranslator_init listing api_key model now).
Proof.
  unfold LocaleTranslator_init, LocaleAnalyzer_init.
  apply within_bind; [apply _| |intros analyzer].
  { eapply within_mono; [apply same_files_only_backup|].
    apply within_bind; [apply _|apply load_english_reference_files|].
    intros ?. apply within_ret, _. }
  apply within_bind; [apply _| |intros _].
  { eapply within_mono; [apply same_files_only_backup|]. by intros p. }
  apply within_bind; [apply _|apply updater_init_only_backup|intros updater].
  apply within_bind; [apply _| |intros _; apply within_ret, _].
  eapply within_mono; [apply same_files_only_backup|]. by intros p.
Qed.

Lemma main_dry_run_only_backup args environ_key now :
  arg_dry_run args = true →
  within (only_backup_directories now)
    (main term_order provider listing args environ_key now).
Proof.
  intros Hdry. unfold main.
  destruct (negb _).
  { eapply within_mono; [apply same_files_only_backup|]. frame. }
  apply within_bind; [apply _| |intros locales].
  { eapply within_mono; [apply same_files_only_backup|].
    apply choose_locales_files. }
  apply within_bind; [apply _|apply translator_init_only_backup|].
  intros translator.
  apply within_bind; [apply _| |intros _; apply within_ret, _].
  eapply within_mono; [apply same_files_only_backup|]. rewrite Hdry.
  apply run_dry_run_files.
Qed.

End main_facts.

(** X26. With [--dry-run], [main] changes nothing that exists and creates
    nothing but the backup directory [backups/<now>] and the directory
    above it, whatever the other arguments and the provider are and
    whether it returns or raises. *)
Theorem dry_run_of_main_creates_only_the_backup_directory :
  ∀ (term_order : list (list N)) (provider : nat → request → response)
    (listing : world → list (list N) → list (list N))
    (args : Namespace) (environ_key : option (list N)) (now : list N)
    (p : process),
    arg_dry_run args = true →
    ∀ q, is_Some (lookup_node (disk p) q)
         ∨ q ∉ [[pystr "backups"]; [pystr "backups"; now]] →
         lookup_node
           (disk (main term_order provider listing args environ_key now p).2) q
         = lookup_node (disk p) q.
Proof.
  intros term_order provider listing args environ_key now p Hdry.
  apply (main_dry_run_only_backup term_order provider listing args environ_key
           now Hdry p).
Qed.

Lemma dry_run_of_main_creates_only_the_backup_directory_witness :
  target_of
    (disk (main technical_terms careless_provider children dry_run_arguments
             None (pystr "20240101_120000") site).2)
    (LOCALES_DIR ++ [pystr "fr"; common_json])
  = Some french_common
  ∧ lookup_node
      (disk (main technical_terms careless_provider children dry_run_arguments
               None (pystr "20240101_120000") site).2)
      [pystr "backups"; pystr "20240101_120000"]
    = Some Dir.
Proof.
  split; [|vm_compute; reflexivity].
  unfold target_of.
  rewrite (dry_run_of_main_creates_only_the_backup_directory technical_terms
             careless_provider children dry_run_arguments None
             (pystr "20240101_120000") site eq_refl).
  - vm_compute. reflexivity.
  - left. vm_compute. eauto.
Defined.

(** X27. [main] stops before it touches anything when it cannot start:
    without an API key, in the arguments or in the environment, an empty
    one counting as none, it logs an error and exits with status 1; with a
    key but without the English directory it raises [FileNotFoundError], and
    no file or directory, the backup directory included, has been
    created. In both cases no request has been sent. *)
Theorem main_stops_before_touching_anything :
  ∀ (term_order : list (list N)) (provider : nat → request → response)
    (listing : world → list (list N) → list (list N))
    (args : Namespace) (environ_key : option (list N)) (now : list N)
    (p : process),
    let r := main term_order provider listing args environ_key now p in
    (truthy (arg_api_key args) = false → truthy environ_key = false →
       r = (Failed (SystemExit 1),
            mkProcess (disk p) (engine_state p) (stats p)
              (journal p ++ [ErrorNoApiKey])))
    ∧ (truthy (arg_api_key args) || truthy environ_key = true →
       lookup_node (disk p) (LOCALES_DIR ++ [ENGLISH_LOCALE]) = None →
       r.1 = Failed (Exception FileNotFoundError)
       ∧ fs (disk r.2) = fs (disk p)
       ∧ engine_state r.2 = engine_state p).
Proof.
  intros term_order provider listing args environ_key now p r. subst r.
  unfold main. split.
  - intros Ha He. rewrite Ha, He. done.
  - intros Hkey Hdir.
    assert (Hk : truthy (if truthy (arg_api_key args) then arg_api_key args
                         else environ_key) = true).
    { destruct (truthy (arg_api_key args)) eqn:Ha; [done|exact Hkey]. }
    rewrite Hk. cbn [negb]. rewrite R_bind_run.
    pose proof (choose_locales_files args p) as Hfs.
    assert (Hchoice : ∃ locales lines,
              choose_locales args p
              = (Done locales,
                 mkProcess (disk p) (engine_state p) (stats p)
                   (journal p ++ lines))).
    { unfold choose_locales. destruct (arg_all args).
      - exists None, []. rewrite R_ret_run, app_nil_r. by destruct p.
      - destruct (truthy (arg_locales args)).
        + eexists _, []. rewrite R_ret_run, app_nil_r. by destruct p.
        + eexists _, _. by rewrite R_bind_run, say_run, R_ret_run. }
    destruct Hchoice as (locales & lines & ->).
    rewrite R_bind_run. unfold LocaleTranslator_init, LocaleAnalyzer_init.
    rewrite !R_bind_run. unfold _load_english_reference.
    rewrite R_bind_run, on_disk_path_exists. cbn [disk]. rewrite Hdir.
    done.
Qed.

Lemma main_stops_before_touching_anything_witness :
  main technical_terms careless_provider children
    (mkNamespace None true DEFAULT_BATCH_SIZE DEFAULT_MODEL false false
       (Some []))
    None (pystr "20240101_120000") site
  = (Failed (SystemExit 1),
     mkProcess site_world fresh_engine Stats.initial [ErrorNoApiKey]).
Proof.
  apply (main_stops_before_touching_anything technical_terms careless_provider
           children
           (mkNamespace None true DEFAULT_BATCH_SIZE DEFAULT_MODEL false false
              (Some []))
           None (pystr "20240101_120000") site); reflexivity.
Defined.

(** ** Updater: new files; engine: the language of a request *)

Section creation.
Implicit Types (w : world) (data translations : PyDict.dict (list N) (list N)).

Lemma writable_fresh data k : k ∉ PyDict.keys data → writable data k = true.
Proof. intros Hk. apply writable_iff. left. by apply get_None_keys. Qed.

(** Incoming keys that are new and distinct are appended in order. *)
Lemma merge_fresh translations data n w :
  NoDup (PyDict.keys translations) →
  (∀ k, k ∈ PyDict.keys translations → k ∉ PyDict.keys data) →
  (for_each (PyDict.items translations) (data, n) merge_item w).1
  = Returned (data ++ translations, n + length translations).
Proof.
  unfold PyDict.items. revert data n w.
  induction translations as [|[k v] translations IH]; intros data n w Hnd Hfresh.
  - cbn. by rewrite app_nil_r, Nat.add_0_r.
  - apply NoDup_cons in Hnd as [Hk Hnd].
    rewrite for_each_cons. cbn [merge_item].
    rewrite writable_fresh by (apply Hfresh; left).
    rewrite bind_run. unfold log_emit, modify. cbv [mret M_ret].
    rewrite set_fresh by (apply Hfresh; left).
    rewrite IH; [|done|].
    + cbn [length]. rewrite <- app_assoc. do 2 f_equal. lia.
    + intros k' Hk'. rewrite keys_app, not_elem_of_app. split.
      * apply Hfresh. by right.
      * cbn. intros [->|H]%elem_of_cons; [done|by apply elem_of_nil in H].
Qed.

End creation.

(** X28. An update of a locale file that does not exist, outside dry-run
    mode, with distinct incoming keys: when it returns, the file exists
    and holds exactly the incoming translations, in their order. *)
Theorem update_creates_a_missing_file :
  ∀ (self : SafeFileUpdater) (language file : list N)
    (translations : PyDict.dict (list N) (list N)) (w w' : world) (b : bool),
    let file_path := joinpath (joinpath LOCALES_DIR language) file in
    lookup_node w file_path = None →
    NoDup (PyDict.keys translations) → translations ≠ [] →
    update_locale_file self language file translations false w
    = (Returned b, w') →
    lookup_node w' file_path = Some (File translations).
Proof.
  intros self language file translations w w' b file_path Hmissing Hnd Hne Hrun.
  pose proof (update_persists self language file translations w b w' Hrun
                translations (0 + length translations)) as Hfile.
  cbv zeta in Hfile. fold file_path in Hfile. unfold target_of in Hfile at 1.
  rewrite Hmissing in Hfile. cbn [default] in Hfile.
  unfold merge_translations in Hfile.
  rewrite (merge_fresh translations [] 0 w Hnd) in Hfile.
  - specialize (Hfile eq_refl). unfold target_of in Hfile.
    destruct (lookup_node w' file_path) as [[content| |]|]; cbn in Hfile;
      congruence.
  - intros k _. apply not_elem_of_nil.
Qed.

Lemma update_creates_a_missing_file_witness :
  lookup_node
    (update_locale_file timestamped_updater (pystr "de") common_json
       incoming_greetings false site_world).2
    (joinpath (joinpath LOCALES_DIR (pystr "de")) common_json)
  = Some (File incoming_greetings).
Proof.
  eapply (update_creates_a_missing_file timestamped_updater (pystr "de")
            common_json incoming_greetings site_world _ true).
  - vm_compute. reflexivity.
  - vm_compute. repeat constructor.
    + intros H. apply elem_of_cons in H as [H|H]; [discriminate H|].
      by apply elem_of_nil in H.
    + intros H. by apply elem_of_nil in H.
  - discriminate.
  - assert (Hret : (update_locale_file timestamped_updater (pystr "de")
                      common_json incoming_greetings false site_world).1
                   = Returned true) by (vm_compute; reflexivity).
    rewrite <- Hret. apply surjective_pairing.
Defined.

(** X29. Every request that [translate_batch] sends names the language and
    the context of the first task of the batch, whatever the locales and
    the files of the other tasks are. *)
Theorem requests_follow_the_first_task :
  ∀ (term_order : list (list N)) (provider : nat → request → response)
    (first : TranslationTask) (rest : list TranslationTask) (max_retries : Z)
    (e : engine),
    ∃ new : list event,
      trace (translate_batch term_order provider (first :: rest) max_retries
               e).2
      = trace e ++ new
      ∧ ∀ r, Call r ∈ new →
          req_language r
          = default (locale first) (PyDict.get LANGUAGE_NAMES (locale first))
          ∧ req_context r
            = default (pystr "User interface elements")
                (PyDict.get context_map (file_name first)).
Proof.
  intros term_order provider first rest max_retries e.
  rewrite translate_batch_cons. cbv zeta.
  set (uncached := filter _ (first :: rest)).
  destruct (attempt_loop_frame term_order provider (range max_retries)
              max_retries
              (build_request (locale first) (file_name first) uncached)
              uncached
              (omap (hit_of term_order (translation_cache e)) (first :: rest))
              e) as (_ & new & Htr & Hnew).
  clearbody uncached. destruct uncached as [|u us].
  - exists []. rewrite app_nil_r. split; [done|].
    intros r H. by apply elem_of_nil in H.
  - exists new. split; [done|]. intros r Hr.
    rewrite Forall_forall in Hnew. specialize (Hnew _ Hr eq_refl).
    by injection Hnew as ->.
Qed.

(** ** Orchestrator: what a run leaves alone *)

Section keeping.
Context {S : Type}.
Implicit Types (ρ : relation S).

Lemma keeps_same ρ `{!Reflexive ρ} {A} (m : M S A) :
  (∀ s, (m s).2 = s) → keeps ρ m.
Proof. intros H s. rewrite H. reflexivity. Qed.

Lemma keeps_bind ρ `{!Transitive ρ} {A B} (m : M S A) (f : A → M S B) :
  keeps ρ m → (∀ a, keeps ρ (f a)) → keeps ρ (m ≫= f).
Proof.
  intros Hm Hf s. rewrite bind_run. specialize (Hm s).
  destruct (m s) as [[a|e] s']; cbn [snd] in *; [|done].
  etrans; [exact Hm|apply Hf].
Qed.

Lemma keeps_ret_bind ρ {A B} (a : A) (f : A → M S B) :
  keeps ρ (f a) → keeps ρ (mret a ≫= f).
Proof. intros H s. exact (H s). Qed.

Lemma keeps_raise_bind ρ `{!Reflexive ρ} {A B} e (f : A → M S B) :
  keeps ρ (raise e ≫= f).
Proof. intros s. reflexivity. Qed.

Lemma within_bind_post ρ `{!Transitive ρ} {A B} (m : R S A) (f : A → R S B)
    (φ : A → Prop) :
  within ρ m → (∀ s a s', m s = (Done a, s') → φ a) →
  (∀ a, φ a → within ρ (f a)) → within ρ (m ≫= f).
Proof.
  intros Hm Hpost Hf s. rewrite R_bind_run. specialize (Hm s).
  destruct (m s) as [[a|e] s'] eqn:Hrun; cbn [snd] in *; [|done].
  etrans; [exact Hm|]. apply Hf. by eapply Hpost.
Qed.

End keeping.

Section footprint.
Variable Q : list (list N) → Prop.
Implicit Types (w : world) (p q : list (list N)).

#[global] Instance preserves_preorder : PreOrder (preserves Q).
Proof.
  split.
  - by intros w q _ _.
  - intros w1 w2 w3 H12 H23 q Hq Hex. rewrite H23, H12; try done.
    by rewrite H12.
Qed.

#[global] Instance on_disks_preorder (ρ : relation world) `{!PreOrder ρ} :
  PreOrder (on_disks ρ).
Proof.
  split.
  - intros s. unfold on_disks. reflexivity.
  - intros s1 s2 s3 H12 H23. unfold on_disks in *. by etrans.
Qed.

Lemma preserves_fs w w' : fs w' = fs w → preserves Q w w'.
Proof. intros H q _ _. by apply lookup_node_fs. Qed.

Lemma keeps_files {A} (m : M world A) :
  (∀ w, fs (m w).2 = fs w) → keeps (preserves Q) m.
Proof. intros H w. apply preserves_fs, H. Qed.

Lemma keeps_mkdir_parents p : keeps (preserves Q) (mkdir_parents p).
Proof. intros w q _ Hex. apply (mkdir_parents_frame p w). by left. Qed.

(** A write, whole or stopped in the middle, touches its own path only. *)
Lemma keeps_write_json p content :
  ¬ Q p → keeps (preserves Q) (write_json p content).
Proof.
  intros Hp w q Hq _.
  destruct (write_json_frame p content w) as (Hother & _).
  apply Hother. by intros ->.
Qed.

Lemma lookup_node_insert_delete w (src dst q : list (list N)) n l :
  q ≠ dst → q ≠ src →
  lookup_node (mkWorld (<[dst := n]> (delete src (fs w))) l) q
  = lookup_node w q.
Proof.
  intros Hdst Hsrc. destruct q as [|c q]; [done|]. cbn.
  rewrite lookup_insert_ne by done. by apply lookup_delete_ne.
Qed.

Lemma keeps_replace_file src dst :
  ¬ Q src → ¬ Q dst → keeps (preserves Q) (replace_file src dst).
Proof.
  intros Hsrc Hdst w. rewrite replace_file_run.
  destruct (lookup_node w src) as [[content| |]|]; try reflexivity.
  all: destruct (lookup_node w dst) as [[| |]|]; try reflexivity.
  all: intros q Hq _; cbn [snd].
  all: apply lookup_node_insert_delete; by intros ->.
Qed.

Lemma keeps_copy2 src dst :
  ¬ Q dst → ¬ Q (dst ++ [List.last src []]) →
  keeps (preserves Q) (copy2 src dst).
Proof.
  intros Hdst Hin w q Hq _.
  destruct (copy2_spec src dst w) as (Hother & _).
  apply Hother. intros ->. unfold copy_target in Hq.
  by destruct (lookup_node w dst) as [[| |]|].
Qed.

Lemma keeps_backup_file self file_path :
  (∀ q, backup_dir self `prefix_of` q → ¬ Q q) →
  keeps (preserves Q) (backup_file self file_path).
Proof.
  intros Hbackup. unfold backup_file.
  apply keeps_bind; [apply _|by apply keeps_files|]. intros e.
  destruct e; cbn [negb]; [|by apply keeps_files]. cbv zeta.
  apply keeps_bind; [apply _|apply keeps_mkdir_parents|]. intros _.
  apply keeps_bind; [apply _| |intros _; by apply keeps_files].
  apply keeps_copy2; apply Hbackup.
  - by apply prefix_app_r.
  - rewrite <- app_assoc. by apply prefix_app_r.
Qed.

Lemma keeps_merge_translations
    (data translations : PyDict.dict (list N) (list N)) :
  keeps (preserves Q) (merge_translations data translations).
Proof.
  intros w.
  destruct (merge_translations_spec translations data w)
    as (merged & n & lines & -> & _).
  by apply preserves_fs.
Qed.

(** Joined to a directory, a name that is one part adds that part. *)
Lemma component_joinpath (dir : list (list N)) (name : list N) :
  component name → joinpath dir name = dir ++ [name].
Proof. intros [[Hroot _] Hparts]. unfold joinpath. by rewrite Hroot, Hparts. Qed.

(** An update of a file whose name is one part of a path writes under the
    directory of its locale and under the backup directory only. *)
Lemma keeps_update_locale_file self (locale file : list N)
    (translations : PyDict.dict (list N) (list N)) dry_run :
  component file →
  (∀ q, joinpath LOCALES_DIR locale `prefix_of` q → ¬ Q q) →
  (∀ q, backup_dir self `prefix_of` q → ¬ Q q) →
  keeps (preserves Q)
    (update_locale_file self locale file translations dry_run).
Proof.
  intros Hcomponent Hlocale Hbackup. unfold update_locale_file. cbv zeta.
  rewrite (component_joinpath _ file Hcomponent).
  assert (Hfile : ¬ Q (joinpath LOCALES_DIR locale ++ [file])).
  { apply Hlocale. by apply prefix_app_r. }
  apply keeps_bind; [apply _|by apply keeps_files|]. intros e.
  apply keeps_bind; [apply _| |intros data].
  { destruct e.
    - apply keeps_bind; [apply _| |intros _].
      + destruct dry_run; cbn [negb]; [by apply keeps_files|].
        apply keeps_bind; [apply _|by apply keeps_backup_file|].
        intros backup_path. by apply keeps_files.
      + apply keeps_files. intros w. apply read_json_fs.
    - apply keeps_bind; [apply _| |intros _; by apply keeps_files].
      destruct dry_run; cbn [negb]; [by apply keeps_files|].
      apply keeps_mkdir_parents. }
  apply keeps_bind; [apply _|apply keeps_merge_translations|].
  intros [merged updates_made].
  apply keeps_bind; [apply _| |intros _; by apply keeps_files].
  destruct (0 <? updates_made); [|by apply keeps_files].
  destruct dry_run; cbn [negb]; [by apply keeps_files|].
  unfold with_suffix. destruct (Nat.eqb _ 0); [apply keeps_raise_bind, _|].
  apply keeps_ret_bind.
  apply keeps_bind; [apply _| |intros _].
  { apply keeps_write_json, Hlocale.
    rewrite parent_snoc. by apply prefix_app_r. }
  apply keeps_bind; [apply _| |intros _; by apply keeps_files].
  apply keeps_replace_file; [|done]. apply Hlocale.
  rewrite parent_snoc. by apply prefix_app_r.
Qed.

Lemma within_on_disks (ρ : relation world) {A} (m : M world A) :
  keeps ρ m → within (on_disks ρ) (on_disk m).
Proof. intros H s. rewrite on_disk_run. apply H. Qed.

Lemma same_files_preserves (s s' : process) :
  same_files s s' → on_disks (preserves Q) s s'.
Proof. intros H. by apply preserves_fs. Qed.

End footprint.

(** ** Orchestrator: the file names that reach the updater *)

Section returned_values.
Context {S : Type}.

Lemma R_bind_done {A B} (m : R S A) (f : A → R S B) s b s' :
  (m ≫= f) s = (Done b, s') →
  ∃ a s1, m s = (Done a, s1) ∧ f a s1 = (Done b, s').
Proof.
  rewrite R_bind_run. destruct (m s) as [[a|e] s1]; [|done]. eauto.
Qed.

(** What holds of the start of a loop, and is kept by every returning
    turn, holds of what the loop returns. *)
Lemma for_in_post {A B} (xs : list A) (body : B → A → R S B) (I : B → Prop) :
  (∀ acc x s acc' s', x ∈ xs → I acc →
     body acc x s = (Done acc', s') → I acc') →
  ∀ acc s res s', I acc → for_in xs acc body s = (Done res, s') → I res.
Proof.
  induction xs as [|x xs IH]; intros Hbody acc s res s' Hacc Hrun.
  - by injection Hrun as <- _.
  - rewrite for_in_cons in Hrun.
    destruct (body acc x s) as [[acc1|e] s1] eqn:Hx; [|done].
    eapply (IH ltac:(intros; eapply Hbody; [by right|done..])); [|done].
    eapply Hbody; [left|done..].
Qed.

End returned_values.

Section file_names.
Variable term_order : list (list N).
Variable provider : nat → request → response.
Variable listing : world → list (list N) → list (list N).

Implicit Types (p : process) (tasks batch : list TranslationTask).
Implicit Types (ft : PyDict.dict (list N) (PyDict.dict (list N) (list N))).

(** The tasks of the batches are tasks that were grouped. *)
Lemma batches_members tasks (batch_size : Z) batches :
  group_tasks_into_batches tasks batch_size = Returned batches →
  ∀ task, task ∈ concat batches → task ∈ tasks.
Proof.
  unfold group_tasks_into_batches, PyDict.items.
  destruct (Z.lt_trichotomy batch_size 0) as [Hneg|[->|Hpos]].
  - rewrite batches_loop_neg by done. intros [= <-] task H.
    by apply elem_of_nil in H.
  - destruct tasks as [|task0 tasks].
    { intros [= <-] task H. by apply elem_of_nil in H. }
    pose proof (group_tasks_nonempty (task0 :: tasks) ltac:(done)) as Hg.
    by destruct (group_tasks (task0 :: tasks)) as [|[g group] groups].
  - rewrite batches_loop_spec by done. rewrite app_nil_l. intros [= <-].
    rewrite concat_bind_chunks by lia. intros task.
    by rewrite (concat_group_tasks tasks).
Qed.

(** The tasks of the results are tasks of the batch. *)
Lemma results_members tasks (max_retries : Z) (e e' : engine)
    (results : list translation_result) :
  translate_batch term_order provider tasks max_retries e
  = (Returned results, e') →
  ∀ item, item ∈ results → item.1.1 ∈ tasks.
Proof.
  intros Hrun item Hitem.
  apply translate_batch_returns in Hrun as (pairs & -> & Hpairs & _).
  apply elem_of_app in Hitem as [Hitem|Hitem].
  - apply list_elem_of_omap in Hitem as (task & Htask & Hhit).
    unfold hit_of in Hhit.
    destruct (translation_cache e !! cache_key task); [|done].
    by injection Hhit as <-.
  - apply list_elem_of_fmap in Hitem as (pair & -> & Hpair).
    assert (Hin : pair.1 ∈ pairs.*1)
      by (apply list_elem_of_fmap; by exists pair).
    eapply elem_of_submseteq in Hin; [|apply sublist_submseteq, Hpairs].
    by apply list_elem_of_filter in Hin as [_ ?].
Qed.

Lemma tally_result_keys verbose ft (item : translation_result) p ft' p' :
  tally_result verbose ft item p = (Done ft', p') →
  ∀ f, f ∈ PyDict.keys ft' → f ∈ PyDict.keys ft ∨ f = file_name item.1.1.
Proof.
  destruct item as [[task translated] validation]. unfold tally_result.
  destruct (accepts validation).
  - intros (u1 & s1 & _ & (u2 & s2 & _ & Hret)%R_bind_done)%R_bind_done.
    rewrite R_ret_run in Hret. injection Hret as <- _.
    intros f. rewrite keys_set. case_decide as Hold; [by left|].
    intros [Hf|Hf%list_elem_of_singleton]%elem_of_app; [by left|by right].
  - intros (u1 & s1 & _ & (u2 & s2 & _ & Hret)%R_bind_done)%R_bind_done.
    rewrite R_ret_run in Hret. injection Hret as <- _. by left.
Qed.

Lemma process_batch_keys verbose n ft (numbered : nat * list TranslationTask)
    p ft' p' :
  process_batch term_order provider verbose n ft numbered p = (Done ft', p') →
  ∀ f, f ∈ PyDict.keys ft' →
       f ∈ PyDict.keys ft ∨ ∃ task, task ∈ numbered.2 ∧ file_name task = f.
Proof.
  destruct numbered as [i batch]. unfold process_batch.
  intros (first & p1 & _ & (u1 & p2 & _ & Hrun)%R_bind_done)%R_bind_done.
  apply R_bind_done in Hrun as (ft1 & p3 & Htry & Hrest).
  apply R_bind_done in Hrest as (u2 & p4 & _ & Hret).
  rewrite R_ret_run in Hret. injection Hret as <- _.
  unfold try_except in Htry. rewrite R_bind_run, on_engine_run in Htry.
  destruct (translate_batch term_order provider batch 3 (engine_state p2))
    as [[results|ex] e'] eqn:Hbatch; cbn [fst snd] in Htry.
  - rewrite R_bind_run, update_stats_run in Htry.
    match type of Htry with
    | context [for_in results ft ?body ?s] =>
        destruct (for_in results ft body s) as [[ft2|err] p5] eqn:Hloop
    end.
    + injection Htry as <- _.
      eapply (for_in_post results (tally_result verbose)
                (fun acc => ∀ f, f ∈ PyDict.keys acc →
                   f ∈ PyDict.keys ft
                   ∨ ∃ task, task ∈ batch ∧ file_name task = f));
        [|by left|exact Hloop].
      intros acc item s acc' s' Hitem Hacc Hstep f Hf.
      destruct (tally_result_keys _ _ _ _ _ _ Hstep f Hf) as [H| ->];
        [by apply Hacc|].
      right. exists item.1.1. split; [|done].
      by apply (results_members batch 3 (engine_state p2) e' results).
    + destruct err; try done.
      all: apply R_bind_done in Htry
             as (u3 & s3 & _ & (u4 & s4 & _ & Hret)%R_bind_done).
      all: rewrite R_ret_run in Hret; injection Hret as <- _; by left.
  - apply R_bind_done in Htry
      as (u3 & s3 & _ & (u4 & s4 & _ & Hret)%R_bind_done).
    rewrite R_ret_run in Hret. injection Hret as <- _. by left.
Qed.

Lemma elem_of_concat {A} (x : A) (ls : list (list A)) (l : list A) :
  l ∈ ls → x ∈ l → x ∈ concat ls.
Proof.
  induction ls as [|l' ls IH]; [by intros H%elem_of_nil|].
  cbn [concat]. rewrite elem_of_app.
  intros [->|H]%elem_of_cons Hx; [by left|right; by apply IH].
Qed.

(** The files that the loop over the batches of a locale collects
    translations for are files of the tasks of the locale. *)
Lemma batches_loop_keys verbose n tasks (batches : list (list TranslationTask))
    (numbers : list nat) ft p ft' p' :
  (∀ task, task ∈ concat batches → task ∈ tasks) →
  for_in (zip numbers batches) ft
    (process_batch term_order provider verbose n) p = (Done ft', p') →
  ∀ f, f ∈ PyDict.keys ft' →
       f ∈ PyDict.keys ft ∨ ∃ task, task ∈ tasks ∧ file_name task = f.
Proof.
  intros Hbatches Hrun.
  eapply (for_in_post (zip numbers batches)
            (process_batch term_order provider verbose n)
            (fun acc => ∀ f, f ∈ PyDict.keys acc →
               f ∈ PyDict.keys ft
               ∨ ∃ task, task ∈ tasks ∧ file_name task = f));
    [|by left|exact Hrun].
  intros acc [i batch] s acc' s' Hin Hacc Hstep f Hf.
  destruct (process_batch_keys _ _ _ _ _ _ _ Hstep f Hf)
    as [H|(task & Htask & Hfile)]; [by apply Hacc|].
  right. exists task. split; [|done]. apply Hbatches.
  apply (elem_of_concat _ _ batch); [|done].
  by apply elem_of_zip_r in Hin.
Qed.

(** The tasks of a returning analysis are tasks for files of the
    reference. *)
Lemma analyze_locale_file_names (self : LocaleAnalyzer) (locale : list N)
    (w w' : world) tasks :
  analyze_locale self locale w = (Returned tasks, w') →
  ∀ task, task ∈ tasks → file_name task ∈ PyDict.keys (english_data self).
Proof.
  intros Hrun task Htask.
  destruct (analyze_locale_returns _ _ _ _ _ Hrun task Htask)
    as (f & r & entry & Hf & _ & Hfor).
  apply task_for_fields in Hfor as (_ & -> & _).
  apply elem_of_keys. eauto.
Qed.

Lemma elem_of_set {K V} `{EqDecision K} (d : PyDict.dict K V) k v k' v' :
  (k', v') ∈ PyDict.set d k v → (k', v') ∈ d ∨ (k', v') = (k, v).
Proof.
  induction d as [|[k0 v0] d IH]; cbn [PyDict.set].
  - intros H%list_elem_of_singleton. by right.
  - destruct (decide (k = k0)) as [->|Hne].
    + intros [H|H]%elem_of_cons; [by right|left; by right].
    + intros [->|H]%elem_of_cons; [left; by left|].
      destruct (IH H) as [?|?]; [left; by right|by right].
Qed.

(** What the loop of [generate_translation_tasks] adds: for locales of
    the list, tasks for files of the reference. *)
Lemma generate_loop_entries (self : LocaleAnalyzer) (locales : list (list N))
    (all_tasks result : PyDict.dict (list N) (list TranslationTask)) p p' :
  for_in locales all_tasks (fun all_tasks locale =>
    tasks ← on_disk (analyze_locale self locale);
    match tasks with
    | [] => mret all_tasks
    | _ :: _ =>
        _ ← say (InfoFoundTasks (length tasks) locale);
        mret (PyDict.set all_tasks locale tasks)
    end) p
  = (Done result, p') →
  ∀ l tasks, (l, tasks) ∈ result →
    (l, tasks) ∈ all_tasks
    ∨ (l ∈ locales
       ∧ ∀ task, task ∈ tasks →
                 file_name task ∈ PyDict.keys (english_data self)).
Proof.
  revert all_tasks p. induction locales as [|locale locales IH];
    intros all_tasks p Hrun l found Hl.
  - injection Hrun as <- _. by left.
  - rewrite for_in_cons, R_bind_run, on_disk_run in Hrun.
    destruct (analyze_locale self locale (disk p)) as [[tasks|ex] w1]
      eqn:Hana; cbn [fst snd] in Hrun; [|done].
    destruct tasks as [|task tasks].
    + rewrite R_ret_run in Hrun.
      destruct (IH _ _ Hrun l found Hl) as [H|[H ?]];
        [by left|right; split; [by right|done]].
    + rewrite R_bind_run, say_run, R_ret_run in Hrun.
      destruct (IH _ _ Hrun l found Hl) as [H|[H ?]];
        [|right; split; [by right|done]].
      apply elem_of_set in H as [H|[= -> ->]]; [by left|].
      right. split; [left|].
      by apply (analyze_locale_file_names self locale (disk p) w1).
Qed.

Lemma generate_translation_tasks_entries (self : LocaleAnalyzer) locales p
    all_tasks p' :
  generate_translation_tasks listing self locales p = (Done all_tasks, p') →
  ∀ l tasks, (l, tasks) ∈ all_tasks →
    match locales with
    | Some given => l ∈ given
    | None =>
        l ≠ ENGLISH_LOCALE
        ∧ lookup_node (disk p) (locales_dir self ++ [l]) = Some Dir
    end
    ∧ ∀ task, task ∈ tasks →
              file_name task ∈ PyDict.keys (english_data self).
Proof.
  unfold generate_translation_tasks. rewrite R_bind_run.
  destruct locales as [given|].
  - rewrite R_ret_run. intros Hrun l tasks Hl.
    destruct (generate_loop_entries _ _ _ _ _ _ Hrun l tasks Hl) as [H|H];
      [by apply elem_of_nil in H|done].
  - rewrite get_available_locales_run.
    destruct (lookup_node (disk p) (locales_dir self)) as [[| |]|]; try done.
    intros Hrun l tasks Hl.
    destruct (generate_loop_entries _ _ _ _ _ _ Hrun l tasks Hl) as [H|[H ?]];
      [by apply elem_of_nil in H|].
    split; [|done].
    destruct (sorted_spec
                (filter (fun name =>
                           lookup_node (disk p) (locales_dir self ++ [name])
                           = Some Dir ∧ name ≠ ENGLISH_LOCALE)
                   (listing (disk p) (locales_dir self)))) as [_ Hperm].
    rewrite Hperm in H. by apply list_elem_of_filter in H as [[? ?] _].
Qed.

End file_names.

Section run_footprint.
Variable term_order : list (list N).
Variable provider : nat → request → response.
Variable listing : world → list (list N) → list (list N).
Variable Q : list (list N) → Prop.

Lemma process_locale_preserves self batch_size dry_run verbose u
    (locale : list N) (tasks : list TranslationTask) :
  (∀ task, task ∈ tasks → component (file_name task)) →
  (∀ q, joinpath LOCALES_DIR locale `prefix_of` q → ¬ Q q) →
  (∀ q, backup_dir (updater self) `prefix_of` q → ¬ Q q) →
  within (on_disks (preserves Q))
    (process_locale term_order provider self batch_size dry_run verbose u
       (locale, tasks)).
Proof.
  intros Hfiles Hlocale Hbackup. unfold process_locale.
  apply within_bind; [apply _| |intros _].
  { eapply within_mono; [apply same_files_preserves|]. by intros p. }
  eapply (within_bind_post _ _ _
            (fun batches => ∀ task, task ∈ concat batches → task ∈ tasks));
    [| |].
  { eapply within_mono; [apply same_files_preserves|].
    destruct (group_tasks_into_batches _ _); by intros p. }
  { intros s batches s' Hrun.
    destruct (group_tasks_into_batches tasks batch_size) as [found|ex]
      eqn:Hgroup; [|done].
    injection Hrun as <- _. by apply (batches_members tasks batch_size). }
  intros batches Hbatches.
  eapply (within_bind_post _ _ _
            (fun file_translations =>
               ∀ f, f ∈ PyDict.keys file_translations → component f));
    [| |].
  { eapply within_mono; [apply same_files_preserves|].
    apply within_for_in; [apply _|]. intros acc x _.
    apply process_batch_files. }
  { intros s file_translations s' Hrun f Hf.
    destruct (batches_loop_keys term_order provider _ _ tasks _ _ _ _ _ _
                Hbatches Hrun f Hf) as [H|(task & Htask & <-)].
    - by apply elem_of_nil in H.
    - by apply Hfiles. }
  intros file_translations Hkeys.
  apply within_for_in; [apply _|]. intros [] [file translations] Hentry.
  destruct translations; [apply within_ret, _|].
  apply within_bind; [apply _| |intros _; apply within_ret, _].
  apply within_on_disks. apply keeps_update_locale_file; [|done..].
  apply Hkeys, elem_of_keys. eauto.
Qed.

(** What [run] does once the tasks are at hand. *)
Lemma run_preserves self locales batch_size dry_run verbose p :
  (∀ f r, (f, r) ∈ english_data (analyzer self) → component f) →
  (∀ l q, match locales with
          | Some given => l ∈ given
          | None =>
              l ≠ ENGLISH_LOCALE
              ∧ lookup_node (disk p) (locales_dir (analyzer self) ++ [l])
                = Some Dir
          end → joinpath LOCALES_DIR l `prefix_of` q → ¬ Q q) →
  (∀ q, backup_dir (updater self) `prefix_of` q → ¬ Q q) →
  on_disks (preserves Q) p
    (run term_order provider listing self locales batch_size dry_run verbose
       p).2.
Proof.
  intros Hnames Hlocales Hbackup. unfold run.
  rewrite R_bind_run, say_run. set (p0 := mkProcess _ _ _ _).
  rewrite R_bind_run.
  pose proof (generate_translation_tasks_files listing (analyzer self) locales
                p0) as Hfs.
  pose proof (generate_translation_tasks_entries listing (analyzer self)
                locales p0) as Hentries.
  destruct (generate_translation_tasks listing (analyzer self) locales p0)
    as [[all_tasks|e] p1]; cbn [snd] in Hfs;
    [|by apply same_files_preserves].
  specialize (Hentries all_tasks p1 eq_refl).
  change (disk p0) with (disk p) in Hentries.
  transitivity p1; [by apply same_files_preserves|].
  match goal with
  | |- on_disks _ p1 (?rest p1).2 =>
      enough (Hrest : within (on_disks (preserves Q)) rest) by apply Hrest
  end.
  destruct all_tasks as [|entry all_tasks].
  { eapply within_mono; [apply same_files_preserves|]. by intros s. }
  set (found := entry :: all_tasks) in *. clearbody found.
  apply within_bind; [apply _| |intros _].
  { eapply within_mono; [apply same_files_preserves|]. by intros s. }
  apply within_bind; [apply _| |intros _].
  { eapply within_mono; [apply same_files_preserves|]. by intros s. }
  destruct (batch_size =? 0)%Z; [apply within_abort, _|]. cbv zeta.
  apply within_bind; [apply _| |intros _].
  { eapply within_mono; [apply same_files_preserves|]. by intros s. }
  apply within_bind; [apply _| |intros _].
  { eapply within_mono; [apply same_files_preserves|]. by intros s. }
  apply within_bind; [apply _| |intros _].
  { eapply within_mono; [apply same_files_preserves|].
    destruct dry_run; by intros s. }
  apply within_bind; [apply _| |intros _].
  { apply within_for_in; [apply _|]. intros u [locale tasks] Hentry.
    destruct (Hentries locale tasks Hentry) as [Hallowed Hfiles].
    apply process_locale_preserves; [| |done].
    - intros task Htask.
      apply Hfiles, elem_of_keys in Htask as [r Hr]. by apply (Hnames _ r).
    - intros q. by apply Hlocales. }
  eapply within_mono; [apply same_files_preserves|].
  apply within_bind; [apply _|apply report_files|]. by intros _ s.
Qed.

End run_footprint.

(** X30. Whatever the provider answers and whether it returns or raises,
    [run] changes and removes nothing that exists outside the backup
    directory and the directories of the locales it may process: those of
    the list, whose names stay in the tree (relative and without a [..]
    part; the empty name stands for the locales directory itself), or
    without a list the directories found in the locales directory other
    than [en], whose names are, as those of the entries of a directory are,
    one part of a path. The names of the reference files are one part of a
    path too. So the English reference is as it was unless [en], or a name
    that leads to its directory or above, is in the list. *)
Theorem run_changes_nothing_outside_its_locales :
  ∀ (term_order : list (list N)) (provider : nat → request → response)
    (listing : world → list (list N) → list (list N))
    (self : LocaleTranslator) (locales : option (list (list N)))
    (batch_size : Z) (dry_run verbose : bool) (p : process)
    (q : list (list N)),
    is_Some (lookup_node (disk p) q) →
    ¬ backup_dir (updater self) `prefix_of` q →
    (∀ f r, (f, r) ∈ english_data (analyzer self) → component f) →
    match locales with
    | Some given =>
        ∀ l, l ∈ given → inside l ∧ ¬ joinpath LOCALES_DIR l `prefix_of` q
    | None =>
        ∀ l, l ≠ ENGLISH_LOCALE →
             lookup_node (disk p) (locales_dir (analyzer self) ++ [l])
             = Some Dir →
             component l ∧ ¬ (LOCALES_DIR ++ [l]) `prefix_of` q
    end →
    lookup_node
      (disk (run term_order provider listing self locales batch_size dry_run
               verbose p).2) q
    = lookup_node (disk p) q.
Proof.
  intros term_order provider listing self locales batch_size dry_run verbose
    p q Hex Hbackup Hnames Hlocales.
  apply (run_preserves term_order provider listing (fun q' => q' = q) self
           locales batch_size dry_run verbose p); [done| | |done|done].
  - intros l q' Hl Hq' ->. destruct locales as [given|].
    + by apply (Hlocales l).
    + destruct Hl as [Hen Hdir].
      destruct (Hlocales l Hen Hdir) as [Hcomponent Hout].
      by rewrite (component_joinpath _ l Hcomponent) in Hq'.
  - by intros q' Hq' ->.
Qed.

(** A run for French, which rewrites the French file, leaves the English
    reference as it was. *)
Lemma run_changes_nothing_outside_its_locales_witness :
  lookup_node
    (disk (run technical_terms careless_provider children site_translator
             (Some [pystr "fr"]) 20 false false site).2)
    (LOCALES_DIR ++ [pystr "en"; common_json])
  = Some (File common_reference)
  ∧ lookup_node
      (disk (run technical_terms careless_provider children site_translator
               (Some [pystr "fr"]) 20 false false site).2)
      (LOCALES_DIR ++ [pystr "fr"; common_json])
    ≠ lookup_node site_world (LOCALES_DIR ++ [pystr "fr"; common_json]).
Proof.
  split; [|vm_compute; discriminate].
  rewrite (run_changes_nothing_outside_its_locales technical_terms
             careless_provider children site_translator (Some [pystr "fr"]) 20
             false false site (LOCALES_DIR ++ [pystr "en"; common_json])).
  - reflexivity.
  - vm_compute. by eexists.
  - intros [k Hk]. vm_compute in Hk. discriminate Hk.
  - intros f r Hf.
    apply list_elem_of_singleton in Hf. injection Hf as -> ->.
    split; [stays_inside|reflexivity].
  - intros l Hl. apply list_elem_of_singleton in Hl as ->.
    split; [stays_inside|].
    intros [k Hk]. vm_compute in Hk. discriminate Hk.
Defined.
